(** * clox: a shallow embedding of the bytecode compiler and VM

    The development follows the layout of the C sources: [object.c]
    (string hashing and interning), [table.c] (the open-addressed hash
    table), [memory.c] (the allocation counter and the collector's trigger),
    [vm.c] (calls, upvalues, [OP_ADD]), [lexer.c] (tokens) and [compiler.c]
    (locals, constants, the Pratt parser).

    Conventions.  C integers are [Z] with their wrap-around written out
    ([uint32], [size_t]).  A C string or byte buffer is a [list ascii].  A
    pointer to a heap object is its address, a [Z]; pointers into an array
    (the value stack, a table's entries) are indices.  A C loop without a
    bound is a [Fixpoint] on a fuel argument that returns [None] when the
    fuel runs out. *)

From Stdlib Require Import ZArith List Lia Bool Ascii String Arith Sorted.
From Stdlib Require Import Floats.PrimFloat.
Import ListNotations.

Local Open Scope Z_scope.

(** ** Machine integers *)

Definition uint32 (z : Z) : Z := z mod 2 ^ 32.
Definition size_t (z : Z) : Z := z mod 2 ^ 64.
Definition UINT8_MAX : Z := 255.
Definition UINT16_MAX : Z := 65535.

(** [(uint8_t)c] for a [char] [c]. *)
Definition uint8_of_char (c : ascii) : Z := Z.of_N (N_of_ascii c).

(** ** object.c: hash_string *)

Module Hash.

(** The loop of [hash_string]: [hash ^= (uint8_t)key[i]; hash *= 16777619;]
    on a [uint32_t]. *)
Fixpoint hash_loop (hash : Z) (key : list ascii) : Z :=
  match key with
  | [] => hash
  | c :: rest =>
      hash_loop (uint32 (Z.lxor hash (uint8_of_char c) * 16777619)) rest
  end.

(** [hash_string (key, length)]: the initial value is the literal of the
    source, [216613626u]. *)
Definition hash_string (key : list ascii) : Z := hash_loop 216613626 key.

(** The 32-bit FNV-1a hash as the specification words it: offset basis
    2166136261, XOR each byte, multiply by the prime 16777619.  This
    definition follows the specification, not the source. *)
Definition fnv1a_offset_basis : Z := 2166136261.
Definition fnv1a_prime : Z := 16777619.

Fixpoint fnv1a_fold (h : Z) (bytes : list ascii) : Z :=
  match bytes with
  | [] => h
  | c :: rest =>
      fnv1a_fold (uint32 (Z.lxor h (uint8_of_char c) * fnv1a_prime)) rest
  end.

Definition fnv1a_32 (bytes : list ascii) : Z :=
  fnv1a_fold fnv1a_offset_basis bytes.

End Hash.

(** ** value.h: values

    The source has two representations of [Value], chosen by
    [CLOX_ENABLE_NAN_BOXING]; both implement the same tagged sum, which is
    what this type is.  The payload of [OBJ_VAL] is the object's address. *)

Inductive Value : Type :=
| NIL_VAL
| BOOL_VAL (b : bool)
| NUMBER_VAL (num : float)
| OBJ_VAL (obj : Z).

Definition IS_NIL (v : Value) : bool :=
  match v with NIL_VAL => true | _ => false end.
Definition IS_BOOL (v : Value) : bool :=
  match v with BOOL_VAL _ => true | _ => false end.
Definition IS_NUMBER (v : Value) : bool :=
  match v with NUMBER_VAL _ => true | _ => false end.
Definition IS_OBJ (v : Value) : bool :=
  match v with OBJ_VAL _ => true | _ => false end.
Definition AS_BOOL (v : Value) : bool :=
  match v with BOOL_VAL b => b | _ => false end.


(** ** object.h: strings

    A [LoxString*] is modelled by the (immutable) string object together
    with its address; [==] on two such pointers compares the addresses. *)

Record LoxString : Type := mkString {
  s_addr : Z;
  s_length : Z;
  s_chars : list ascii;
  s_hash : Z
}.

Definition ptr_eqb (a b : LoxString) : bool := s_addr a =? s_addr b.

Definition ascii_eqb (a b : ascii) : bool := Ascii.eqb a b.

Fixpoint chars_eqb (a b : list ascii) : bool :=
  match a, b with
  | [], [] => true
  | x :: a', y :: b' => ascii_eqb x y && chars_eqb a' b'
  | _, _ => false
  end.

(** [memcmp (a, b, n) == 0] on buffers that hold at least [n] bytes. *)
Definition memcmp_eq (a b : list ascii) (n : Z) : bool :=
  chars_eqb (firstn (Z.to_nat n) a) (firstn (Z.to_nat n) b).

(** Writing one element of an array. *)
Fixpoint list_set {A : Type} (l : list A) (n : nat) (x : A) : list A :=
  match l, n with
  | [], _ => []
  | _ :: t, O => x :: t
  | h :: t, S n' => h :: list_set t n' x
  end.

(** ** table.c: the open-addressed hash table *)

Module Tbl.

Record Entry : Type := mkEntry {
  key : option LoxString;
  value : Value
}.

Record Table : Type := mkTable {
  count : Z;
  capacity : Z;
  entries : list Entry
}.

Definition empty_entry : Entry := {| key := None; value := NIL_VAL |}.
Definition tombstone_entry : Entry := {| key := None; value := BOOL_VAL true |}.

(** [init_table]. *)
Definition init_table : Table := {| count := 0; capacity := 0; entries := [] |}.

Definition LOX_INITIAL_ALLOC_SIZE : Z := 8.
Definition LOX_TABLE_GROW_FACTOR : Z := 2.

(** [GROW_TABLE_CAPACITY], on [size_t]. *)
Definition GROW_TABLE_CAPACITY (capacity : Z) : Z :=
  if capacity <? LOX_INITIAL_ALLOC_SIZE then LOX_INITIAL_ALLOC_SIZE
  else size_t (capacity * LOX_TABLE_GROW_FACTOR).

(** [MOD_CAPACITY(val)] is [(val) & (capacity - 1)], the branch taken for
    [LOX_TABLE_GROW_FACTOR == 2]. *)
Definition MOD_CAPACITY (capacity val : Z) : Z := Z.land val (capacity - 1).

(** [entries[index]]. *)
Definition entry_at (entries : list Entry) (index : Z) : Entry :=
  nth (Z.to_nat index) entries empty_entry.

(** [index = MOD_CAPACITY(index + 1)] with [uint32_t index]. *)
Definition next_index (capacity index : Z) : Z :=
  uint32 (MOD_CAPACITY capacity (uint32 (index + 1))).

(** The [for (;;)] loop of [find_entry].  The result is the index of the
    entry the C function returns a pointer to.  The loop leaves only at an
    empty slot or at the key, whatever [tombstone] holds, and the probe
    visits the slots cyclically, so [capacity] rounds decide whether it ever
    leaves: [None] stands for a loop that does not end (and for the read of
    a table without entries). *)
Fixpoint find_entry_loop (fuel : nat) (entries : list Entry) (capacity : Z)
    (k : LoxString) (index : Z) (tombstone : option Z) : option Z :=
  match fuel with
  | O => None
  | S fuel' =>
      let entry := entry_at entries index in
      match key entry with
      | None =>
          if IS_NIL (value entry) then
            Some (match tombstone with Some t => t | None => index end)
          else
            find_entry_loop fuel' entries capacity k
              (next_index capacity index)
              (match tombstone with Some t => Some t | None => Some index end)
      | Some k' =>
          if ptr_eqb k' k then Some index
          else
            find_entry_loop fuel' entries capacity k
              (next_index capacity index) tombstone
      end
  end.

Definition find_entry (entries : list Entry) (capacity : Z) (k : LoxString)
    : option Z :=
  find_entry_loop (Z.to_nat capacity) entries capacity k
    (uint32 (MOD_CAPACITY capacity (s_hash k))) None.

(** The reinsertion loop of [adjust_capacity]: every keyed entry of the old
    array goes to the slot [find_entry] gives in the new one. *)
Fixpoint reinsert (old : list Entry) (entries : list Entry) (capacity : Z)
    (count : Z) : option (list Entry * Z) :=
  match old with
  | [] => Some (entries, count)
  | entry :: rest =>
      match key entry with
      | None => reinsert rest entries capacity count
      | Some k =>
          match find_entry entries capacity k with
          | None => None
          | Some dest =>
              reinsert rest
                (list_set entries (Z.to_nat dest)
                   {| key := Some k; value := value entry |})
                capacity (count + 1)
          end
      end
  end.

(** [adjust_capacity (table, capacity)]. *)
Definition adjust_capacity (table : Table) (capacity : Z) : option Table :=
  let entries := repeat empty_entry (Z.to_nat capacity) in
  match reinsert (Tbl.entries table) entries capacity 0 with
  | None => None
  | Some (entries', count') =>
      Some {| count := count'; capacity := capacity; entries := entries' |}
  end.

(** [table_get]: [Some None] is the C function returning [false]. *)
Definition table_get (table : Table) (k : LoxString) : option (option Value) :=
  if count table =? 0 then Some None
  else
    match find_entry (entries table) (capacity table) k with
    | None => None
    | Some i =>
        let entry := entry_at (entries table) i in
        match key entry with
        | None => Some None
        | Some _ => Some (Some (value entry))
        end
    end.

(** The test [(double)(count + 1) > (double)capacity * TABLE_MAX_LOAD] with
    [TABLE_MAX_LOAD] 0.75: on integers below 2^53 the conversions and the
    product are exact, so it is [4 * (count + 1) > 3 * capacity]. *)
Definition over_max_load (table : Table) : bool :=
  4 * (count table + 1) >? 3 * capacity table.

(** [table_set]: the table after the call and the returned [is_new_key]. *)
Definition table_set (table : Table) (k : LoxString) (v : Value)
    : option (Table * bool) :=
  let grown :=
    if over_max_load table
    then adjust_capacity table (GROW_TABLE_CAPACITY (capacity table))
    else Some table in
  match grown with
  | None => None
  | Some table =>
      match find_entry (entries table) (capacity table) k with
      | None => None
      | Some i =>
          let entry := entry_at (entries table) i in
          let is_new_key :=
            match key entry with None => true | Some _ => false end in
          let count' :=
            if is_new_key && IS_NIL (value entry)
            then count table + 1 else count table in
          Some ({| count := count';
                   capacity := capacity table;
                   entries := list_set (entries table) (Z.to_nat i)
                                {| key := Some k; value := v |} |},
                is_new_key)
      end
  end.

(** [table_delete]. *)
Definition table_delete (table : Table) (k : LoxString)
    : option (Table * bool) :=
  if count table =? 0 then Some (table, false)
  else
    match find_entry (entries table) (capacity table) k with
    | None => None
    | Some i =>
        match key (entry_at (entries table) i) with
        | None => Some (table, false)
        | Some _ =>
            Some ({| count := count table;
                     capacity := capacity table;
                     entries := list_set (entries table) (Z.to_nat i)
                                  tombstone_entry |},
                  true)
        end
    end.

(** The test of [table_find_string] on a key:
    [key->length == length && key->hash == hash &&
     memcmp (key->chars, chars, length) == 0]. *)
Definition string_matches (k : LoxString) (chars : list ascii)
    (length hash : Z) : bool :=
  (s_length k =? length) && (s_hash k =? hash)
  && memcmp_eq (s_chars k) chars length.

(** The loop of [table_find_string]; [Some None] is the [NULL] result. *)
Fixpoint find_string_loop (fuel : nat) (entries : list Entry) (capacity : Z)
    (chars : list ascii) (length hash : Z) (index : Z)
    : option (option LoxString) :=
  match fuel with
  | O => None
  | S fuel' =>
      let entry := entry_at entries index in
      match key entry with
      | None =>
          if IS_NIL (value entry) then Some None
          else find_string_loop fuel' entries capacity chars length hash
                 (next_index capacity index)
      | Some k =>
          if string_matches k chars length hash then Some (Some k)
          else find_string_loop fuel' entries capacity chars length hash
                 (next_index capacity index)
      end
  end.

Definition table_find_string (table : Table) (chars : list ascii)
    (length hash : Z) : option (option LoxString) :=
  if count table =? 0 then Some None
  else
    find_string_loop (Z.to_nat (capacity table)) (entries table)
      (capacity table) chars length hash
      (uint32 (MOD_CAPACITY (capacity table) hash)).

(** [table_remove_white]: the loop over the slots [i] below [capacity],
    deleting every key whose object the mark phase left unmarked
    ([is_marked] reads [key->obj.is_marked] of the object at an address). *)
Fixpoint remove_white_loop (n : nat) (i : Z) (is_marked : Z -> bool)
    (table : Table) : option Table :=
  match n with
  | O => Some table
  | S n' =>
      match key (entry_at (entries table) i) with
      | None => remove_white_loop n' (i + 1) is_marked table
      | Some k =>
          if is_marked (s_addr k)
          then remove_white_loop n' (i + 1) is_marked table
          else
            match table_delete table k with
            | None => None
            | Some (table', _) => remove_white_loop n' (i + 1) is_marked table'
            end
      end
  end.

Definition table_remove_white (is_marked : Z -> bool) (table : Table)
    : option Table :=
  remove_white_loop (Z.to_nat (capacity table)) 0 is_marked table.

(** [table_add_all (from, to)]: the loop over the slots of [from]. *)
Fixpoint add_all_loop (n : nat) (i : Z) (from to : Table) : option Table :=
  match n with
  | O => Some to
  | S n' =>
      let entry := entry_at (entries from) i in
      match key entry with
      | Some k =>
          match table_set to k (value entry) with
          | None => None
          | Some (to', _) => add_all_loop n' (i + 1) from to'
          end
      | None => add_all_loop n' (i + 1) from to
      end
  end.

Definition table_add_all (from to : Table) : option Table :=
  add_all_loop (Z.to_nat (capacity from)) 0 from to.

End Tbl.

(** ** value.c, chunk.c: value arrays and chunks *)

Definition LOX_INITIAL_ALLOC_SIZE : Z := 8.

(** [GROW_CAPACITY(capacity)]: the macro expands to
    [capacity * 3/2], that is [(capacity * 3) / 2] on [size_t]. *)
Definition GROW_CAPACITY (capacity : Z) : Z :=
  if capacity <? LOX_INITIAL_ALLOC_SIZE then LOX_INITIAL_ALLOC_SIZE
  else size_t (capacity * 3) / 2.

(** [ValueArray]: [count] is the length of [values]. *)
Record ValueArray : Type := mkValueArray {
  va_capacity : Z;
  values : list Value
}.

Definition va_count (array : ValueArray) : Z :=
  Z.of_nat (List.length (values array)).

Definition init_value_array : ValueArray :=
  {| va_capacity := 0; values := [] |}.

(** [write_value_array]. *)
Definition write_value_array (array : ValueArray) (v : Value) : ValueArray :=
  let capacity' :=
    if va_count array >=? va_capacity array
    then GROW_CAPACITY (va_capacity array) else va_capacity array in
  {| va_capacity := capacity'; values := values array ++ [v] |}.

(** [Chunk]: [count] is the length of [code]; [lines] runs parallel to
    [code]. *)
Record Chunk : Type := mkChunk {
  ch_capacity : Z;
  code : list Z;
  lines : list Z;
  constants : ValueArray
}.

Definition ch_count (chunk : Chunk) : Z := Z.of_nat (List.length (code chunk)).

Definition init_chunk : Chunk :=
  {| ch_capacity := 0; code := []; lines := []; constants := init_value_array |}.

(** [write_chunk]. *)
Definition write_chunk (chunk : Chunk) (byte line : Z) : Chunk :=
  let capacity' :=
    if ch_count chunk >=? ch_capacity chunk
    then GROW_CAPACITY (ch_capacity chunk) else ch_capacity chunk in
  {| ch_capacity := capacity';
     code := code chunk ++ [byte];
     lines := lines chunk ++ [line];
     constants := constants chunk |}.

(** ** object.h, vm.h: heap objects and the VM *)

Inductive ObjType : Type :=
| LOX_BOUND_METHOD_T | LOX_CLASS_T | LOX_CLOSURE_T | LOX_FUNCTION_T
| LOX_INSTANCE_T | LOX_STRING_T | LOX_UPVALUE_T | LOX_NATIVE_T.

(** An upvalue's [location] points into the value stack while it is open
    (the slot's index, counted from the bottom of the stack) and at its own
    [closed] field afterwards. *)
Inductive Location : Type :=
| InStack (slot : Z)
| InClosed.

Record LoxUpvalue : Type := mkUpvalue {
  uv_addr : Z;
  location : Location;
  closed : Value
}.

(** The payload of a heap object, by [ObjType].  Pointers to other objects
    are addresses; a native function is named by a number. *)
Inductive Obj : Type :=
| ObjBoundMethod (receiver : Value) (method : Z)
| ObjClass (name : LoxString) (methods : Tbl.Table)
| ObjClosure (function : Z) (upvalues : list Z)
| ObjFunction (arity : Z) (upvalue_count : Z) (chunk : Chunk)
    (name : option LoxString)
| ObjInstance (klass : Z) (fields : Tbl.Table)
| ObjString (s : LoxString)
| ObjUpvalue (u : LoxUpvalue)
| ObjNative (fn : Z).

Definition obj_type (o : Obj) : ObjType :=
  match o with
  | ObjBoundMethod _ _ => LOX_BOUND_METHOD_T
  | ObjClass _ _ => LOX_CLASS_T
  | ObjClosure _ _ => LOX_CLOSURE_T
  | ObjFunction _ _ _ _ => LOX_FUNCTION_T
  | ObjInstance _ _ => LOX_INSTANCE_T
  | ObjString _ => LOX_STRING_T
  | ObjUpvalue _ => LOX_UPVALUE_T
  | ObjNative _ => LOX_NATIVE_T
  end.

Record CallFrame : Type := mkFrame {
  closure : Z;
  ip : Z;
  slots : Z
}.

Definition FRAMES_MAX : Z := 64.

(** [VM].  [frames] holds [frames[0 .. frame_count)], innermost first;
    [stack] holds [stack[0 .. stack_top)], the top of the stack first, so
    [peek (d)] is its element [d]; [objects] is the list [vm.objects] links,
    each object with its address; [open_upvalues] is the list the [next]
    fields link from [vm.open_upvalues].  [next_addr] stands for the
    allocator: the address the next [realloc (NULL, ...)] returns, different
    from that of every object allocated so far.  [stderr] collects the
    messages of [runtime_error]. *)
Record VM : Type := mkVM {
  frames : list CallFrame;
  stack : list Value;
  strings : Tbl.Table;
  init_string : option LoxString;
  globals : Tbl.Table;
  open_upvalues : list LoxUpvalue;
  objects : list (Z * Obj);
  next_addr : Z;
  stderr : list string
}.

Definition set_frames (vm : VM) (x : list CallFrame) : VM :=
  mkVM x (stack vm) (strings vm) (init_string vm) (globals vm)
    (open_upvalues vm) (objects vm) (next_addr vm) (stderr vm).
Definition set_stack (vm : VM) (x : list Value) : VM :=
  mkVM (frames vm) x (strings vm) (init_string vm) (globals vm)
    (open_upvalues vm) (objects vm) (next_addr vm) (stderr vm).
Definition set_strings (vm : VM) (x : Tbl.Table) : VM :=
  mkVM (frames vm) (stack vm) x (init_string vm) (globals vm)
    (open_upvalues vm) (objects vm) (next_addr vm) (stderr vm).
Definition set_init_string (vm : VM) (x : option LoxString) : VM :=
  mkVM (frames vm) (stack vm) (strings vm) x (globals vm)
    (open_upvalues vm) (objects vm) (next_addr vm) (stderr vm).
Definition set_globals (vm : VM) (x : Tbl.Table) : VM :=
  mkVM (frames vm) (stack vm) (strings vm) (init_string vm) x
    (open_upvalues vm) (objects vm) (next_addr vm) (stderr vm).
Definition set_open_upvalues (vm : VM) (x : list LoxUpvalue) : VM :=
  mkVM (frames vm) (stack vm) (strings vm) (init_string vm) (globals vm)
    x (objects vm) (next_addr vm) (stderr vm).
Definition set_objects (vm : VM) (x : list (Z * Obj)) : VM :=
  mkVM (frames vm) (stack vm) (strings vm) (init_string vm) (globals vm)
    (open_upvalues vm) x (next_addr vm) (stderr vm).
Definition set_next_addr (vm : VM) (x : Z) : VM :=
  mkVM (frames vm) (stack vm) (strings vm) (init_string vm) (globals vm)
    (open_upvalues vm) (objects vm) x (stderr vm).
Definition set_stderr (vm : VM) (x : list string) : VM :=
  mkVM (frames vm) (stack vm) (strings vm) (init_string vm) (globals vm)
    (open_upvalues vm) (objects vm) (next_addr vm) x.

(** [push], [pop], [peek]. *)
Definition push (v : Value) (vm : VM) : VM := set_stack vm (v :: stack vm).
Definition pop (vm : VM) : Value * VM :=
  (hd NIL_VAL (stack vm), set_stack vm (tl (stack vm))).
Definition peek (distance : Z) (vm : VM) : Value :=
  nth (Z.to_nat distance) (stack vm) NIL_VAL.

(** Dereferencing an object pointer. *)
Fixpoint heap_lookup (objects : list (Z * Obj)) (addr : Z) : option Obj :=
  match objects with
  | [] => None
  | (a, o) :: rest => if a =? addr then Some o else heap_lookup rest addr
  end.

Definition deref (vm : VM) (addr : Z) : option Obj :=
  heap_lookup (objects vm) addr.

(** [is_obj_type (value, type)]. *)
Definition is_obj_type (vm : VM) (v : Value) (t : ObjType) : bool :=
  match v with
  | OBJ_VAL a =>
      match deref vm a with
      | Some o =>
          match obj_type o, t with
          | LOX_BOUND_METHOD_T, LOX_BOUND_METHOD_T
          | LOX_CLASS_T, LOX_CLASS_T
          | LOX_CLOSURE_T, LOX_CLOSURE_T
          | LOX_FUNCTION_T, LOX_FUNCTION_T
          | LOX_INSTANCE_T, LOX_INSTANCE_T
          | LOX_STRING_T, LOX_STRING_T
          | LOX_UPVALUE_T, LOX_UPVALUE_T
          | LOX_NATIVE_T, LOX_NATIVE_T => true
          | _, _ => false
          end
      | None => false
      end
  | _ => false
  end.


(** [allocate_object]: the new object is linked at the head of
    [vm.objects]. *)
Definition allocate_object (o : Obj) (vm : VM) : Z * VM :=
  let a := next_addr vm in
  (a, set_next_addr (set_objects vm ((a, o) :: objects vm)) (a + 1)).

(** ** memory.c: what a collection does to the string table and the heap

    [collect_garbage] marks from the roots, removes the unmarked keys of
    [vm.strings] and frees the unmarked objects.  The mark phase is not
    modelled: [is_marked] is the outcome of it, any set of addresses. *)
Definition collect_with (is_marked : Z -> bool) (vm : VM) : option VM :=
  match Tbl.table_remove_white is_marked (strings vm) with
  | None => None
  | Some strings' =>
      Some (set_objects (set_strings vm strings')
              (filter (fun ao => is_marked (fst ao)) (objects vm)))
  end.

Fixpoint collections (gcs : list (Z -> bool)) (vm : VM) : option VM :=
  match gcs with
  | [] => Some vm
  | m :: rest =>
      match collect_with m vm with
      | None => None
      | Some vm' => collections rest vm'
      end
  end.

(** ** object.c: interning *)

(** [allocate_string (chars, length, hash)].  The allocations that
    precede the insertion (the character buffer in [copy_string], the
    object here, the new entry array in [table_set]) may each start a
    collection; [gcs] lists the collections that run, each by its marks.
    A collection leaves [count] and [capacity] of the table alone and the
    new string is not yet a key, so running them before [table_set] is the
    same as running them at the allocations. *)
Definition allocate_string (gcs : list (Z -> bool)) (chars : list ascii)
    (length hash : Z) (vm : VM) : option (LoxString * VM) :=
  match collections gcs vm with
  | None => None
  | Some vm =>
      let string := {| s_addr := next_addr vm; s_length := length;
                       s_chars := chars; s_hash := hash |} in
      let (_, vm) := allocate_object (ObjString string) vm in
      let vm := push (OBJ_VAL (s_addr string)) vm in
      match Tbl.table_set (strings vm) string NIL_VAL with
      | None => None
      | Some (strings', _) =>
          let vm := set_strings vm strings' in
          let (_, vm) := pop vm in
          Some (string, vm)
      end
  end.

(** [copy_string (chars, length)]: [chars] is the [length] bytes read. *)
Definition copy_string (gcs : list (Z -> bool)) (chars : list ascii) (vm : VM)
    : option (LoxString * VM) :=
  let length := Z.of_nat (List.length chars) in
  let hash := Hash.hash_string chars in
  match Tbl.table_find_string (strings vm) chars length hash with
  | None => None
  | Some (Some interned) => Some (interned, vm)
  | Some None => allocate_string gcs chars length hash vm
  end.


(** ** vm.c: errors, calls, upvalues, [OP_ADD] and [OP_CALL] *)

Inductive InterpretResult : Type :=
| INTERPRET_OK
| INTERPRET_COMPILE_ERROR
| INTERPRET_RUNTIME_ERROR.

(** [reset_stack]. *)
Definition reset_stack (vm : VM) : VM :=
  set_open_upvalues (set_frames (set_stack vm []) []) [].

(** [runtime_error (format, ...)]: the formatted message goes to [stderr]
    (the stack-trace lines that follow it are not modelled), then
    [reset_stack]. *)
Definition runtime_error (message : string) (vm : VM) : VM :=
  reset_stack (set_stderr vm (stderr vm ++ [message])).

(** [printf ("%d", n)] for the messages that carry a number. *)
Definition digit_char (d : Z) : ascii := ascii_of_N (Z.to_N (48 + d)).

Fixpoint decimal_digits (fuel : nat) (n : Z) (acc : string) : string :=
  match fuel with
  | O => acc
  | S fuel' =>
      let acc' := String (digit_char (n mod 10)) acc in
      if n / 10 =? 0 then acc' else decimal_digits fuel' (n / 10) acc'
  end.

Definition format_int (n : Z) : string :=
  if n <? 0 then String "-"%char (decimal_digits 20 (- n) EmptyString)
  else decimal_digits 20 n EmptyString.

(** Writing [stack_top[-distance - 1]]. *)
Definition poke (distance : Z) (v : Value) (vm : VM) : VM :=
  set_stack vm (list_set (stack vm) (Z.to_nat distance) v).

(** The index, from the bottom of the stack, of [stack_top]. *)
Definition stack_top (vm : VM) : Z := Z.of_nat (List.length (stack vm)).

(** [call (closure, arg_count)]; the [bool] is the returned flag.  The
    closure and its function are read from the heap; a pointer that is not
    to a closure has no defined behaviour ([None]). *)
Definition call (closure : Z) (arg_count : Z) (vm : VM) : option (bool * VM) :=
  match deref vm closure with
  | Some (ObjClosure function _) =>
      match deref vm function with
      | Some (ObjFunction arity _ _ _) =>
          if negb (arg_count =? arity) then
            Some (false,
                  runtime_error
                    ("Expected " ++ format_int arity ++ " arguments but got "
                       ++ format_int arg_count ++ ".") vm)
          else if Z.of_nat (List.length (frames vm)) =? FRAMES_MAX then
            Some (false, runtime_error "Stack overflow." vm)
          else
            let frame := {| closure := closure; ip := 0;
                            slots := stack_top vm - arg_count - 1 |} in
            Some (true, set_frames vm (frame :: frames vm))
      | _ => None
      end
  | _ => None
  end.

(** [new_instance (klass)]. *)
Definition new_instance (klass : Z) (vm : VM) : Z * VM :=
  allocate_object (ObjInstance klass Tbl.init_table) vm.

(** [AS_CLOSURE (value)]: the address the value carries. *)
Definition AS_OBJ (v : Value) : option Z :=
  match v with OBJ_VAL a => Some a | _ => None end.

(** [call_value (callee, arg_count)].  [natives] gives the result of the
    native function of a given number on the arguments. *)
Definition call_value (natives : Z -> list Value -> Value)
    (callee : Value) (arg_count : Z) (vm : VM) : option (bool * VM) :=
  let not_callable :=
    Some (false, runtime_error "Can only call functions and classes." vm) in
  match callee with
  | OBJ_VAL a =>
      match deref vm a with
      | Some (ObjBoundMethod receiver method) =>
          call method arg_count (poke arg_count receiver vm)
      | Some (ObjClass _ methods) =>
          let (instance, vm) := new_instance a vm in
          let vm := poke arg_count (OBJ_VAL instance) vm in
          match init_string vm with
          | None => None
          | Some init =>
              match Tbl.table_get methods init with
              | None => None
              | Some (Some initializer) =>
                  match AS_OBJ initializer with
                  | Some c => call c arg_count vm
                  | None => None
                  end
              | Some None =>
                  if negb (arg_count =? 0) then
                    (* [runtime_error (...)] with no [return false] after it:
                       control falls to [return true]. *)
                    Some (true,
                          runtime_error
                            ("Exected 0 arguments but got "
                               ++ format_int arg_count ++ ".") vm)
                  else Some (true, vm)
              end
          end
      | Some (ObjClosure _ _) => call a arg_count vm
      | Some (ObjNative fn) =>
          let args := rev (firstn (Z.to_nat arg_count) (stack vm)) in
          let result := natives fn args in
          let vm := set_stack vm (skipn (Z.to_nat (arg_count + 1)) (stack vm)) in
          Some (true, push result vm)
      | Some _ => not_callable
      | None => None
      end
  | _ => not_callable
  end.

(** What one case of the [switch] in [run] does: [break] and go on with the
    loop, or [return] a result from [run] (and so from [interpret], which
    ends in [return run ()]). *)
Inductive Step : Type :=
| Continue (vm : VM)
| Return (result : InterpretResult) (vm : VM)
| Undefined.

(** [case OP_CALL] of [run], after [READ_BYTE ()] gave [arg_count].  After a
    successful [call_value] the case reloads
    [frame = &vm.frames[vm.frame_count - 1]]; with [frame_count == 0] that
    is [&vm.frames[-1]], outside the array, and the next instruction is
    fetched through it: there is no defined behaviour from there on. *)
Definition op_call (natives : Z -> list Value -> Value) (arg_count : Z)
    (vm : VM) : Step :=
  match call_value natives (peek arg_count vm) arg_count vm with
  | None => Undefined
  | Some (false, vm) => Return INTERPRET_RUNTIME_ERROR vm
  | Some (true, vm) =>
      match frames vm with
      | [] => Undefined
      | _ :: _ => Continue vm
      end
  end.




(** The open upvalues. *)

Definition location_gtb (l : Location) (local : Z) : bool :=
  match l with InStack s => s >? local | InClosed => false end.
Definition location_geb (l : Location) (local : Z) : bool :=
  match l with InStack s => s >=? local | InClosed => false end.
Definition location_eqb (l : Location) (local : Z) : bool :=
  match l with InStack s => s =? local | InClosed => false end.

(** The [while] loop of [capture_upvalue]: the upvalues it steps over (the
    last of them is [prev_upvalue]) and the list from [upvalue] on. *)
Fixpoint walk_upvalues (local : Z) (l : list LoxUpvalue)
    : list LoxUpvalue * list LoxUpvalue :=
  match l with
  | [] => ([], [])
  | u :: rest =>
      if location_gtb (location u) local then
        let (passed, from) := walk_upvalues local rest in (u :: passed, from)
      else ([], l)
  end.

(** [new_upvalue (slot)]. *)
Definition new_upvalue (slot : Z) (vm : VM) : LoxUpvalue * VM :=
  let u := {| uv_addr := next_addr vm; location := InStack slot;
              closed := NIL_VAL |} in
  let (_, vm) := allocate_object (ObjUpvalue u) vm in
  (u, vm).

(** [capture_upvalue (local)], [local] a slot of the value stack. *)
Definition capture_upvalue (local : Z) (vm : VM) : LoxUpvalue * VM :=
  let (passed, from) := walk_upvalues local (open_upvalues vm) in
  let create :=
    let (created, vm) := new_upvalue local vm in
    (created, set_open_upvalues vm (passed ++ created :: from)) in
  match from with
  | u :: _ => if location_eqb (location u) local then (u, vm) else create
  | [] => create
  end.

(** Overwriting the object at an address. *)
Fixpoint heap_update (objects : list (Z * Obj)) (addr : Z) (o : Obj)
    : list (Z * Obj) :=
  match objects with
  | [] => []
  | (a, o') :: rest =>
      if a =? addr then (a, o) :: rest
      else (a, o') :: heap_update rest addr o
  end.

(** The value in a stack slot, the slot counted from the bottom. *)
Definition stack_slot (vm : VM) (slot : Z) : Value :=
  nth (Z.to_nat (stack_top vm - 1 - slot)) (stack vm) NIL_VAL.

(** [close_upvalues (last)]. *)
Fixpoint close_upvalues_loop (last : Z) (l : list LoxUpvalue) (vm : VM) : VM :=
  match l with
  | [] => set_open_upvalues vm []
  | u :: rest =>
      if location_geb (location u) last then
        let v := match location u with
                 | InStack s => stack_slot vm s
                 | InClosed => closed u
                 end in
        let u' := {| uv_addr := uv_addr u; location := InClosed;
                     closed := v |} in
        close_upvalues_loop last rest
          (set_objects vm (heap_update (objects vm) (uv_addr u) (ObjUpvalue u')))
      else set_open_upvalues vm l
  end.

Definition close_upvalues (last : Z) (vm : VM) : VM :=
  close_upvalues_loop last (open_upvalues vm) vm.

(** [init_vm] up to the creation of the string table: the state in which
    the first [copy_string] runs. *)
Definition fresh_vm : VM :=
  {| frames := []; stack := []; strings := Tbl.init_table;
     init_string := None; globals := Tbl.init_table; open_upvalues := [];
     objects := []; next_addr := 1; stderr := [] |}.








(** Runs of the operations that change [vm.open_upvalues]: a capture
    ([OP_CLOSURE]), a close ([OP_CLOSE_UPVALUE], [OP_RETURN]) and
    [reset_stack] (a runtime error). *)
Inductive UpvalueOp : Type :=
| UCapture (local : Z)
| UClose (last : Z)
| UReset.

Definition run_upvalue_op (op : UpvalueOp) (vm : VM) : VM :=
  match op with
  | UCapture local => snd (capture_upvalue local vm)
  | UClose last => close_upvalues last vm
  | UReset => reset_stack vm
  end.

Definition run_upvalue_ops (ops : list UpvalueOp) (vm : VM) : VM :=
  fold_left (fun vm op => run_upvalue_op op vm) ops vm.

(** The stack slots of the open upvalues, in list order. *)
Definition open_slot (u : LoxUpvalue) : Z :=
  match location u with InStack s => s | InClosed => -1 end.

Definition open_slots (vm : VM) : list Z := map open_slot (open_upvalues vm).

(** The message [runtime_error ("Undefined variable '%s'.", name->chars)]
    prints. *)
Definition undefined_variable (name : LoxString) : string :=
  ("Undefined variable '" ++ string_of_list_ascii (s_chars name) ++ "'.")%string.

(** [case OP_DEFINE_GLOBAL] of [run], after [READ_STRING ()] gave [name].
    [gcs] are the collections that the allocation in [table_set] starts
    when the table grows. *)
Definition op_define_global (gcs : list (Z -> bool)) (name : LoxString)
    (vm : VM) : Step :=
  match collections gcs vm with
  | None => Undefined
  | Some vm =>
      match Tbl.table_set (globals vm) name (peek 0 vm) with
      | None => Undefined
      | Some (globals', _) => Continue (snd (pop (set_globals vm globals')))
      end
  end.

(** [case OP_GET_GLOBAL] of [run]. *)
Definition op_get_global (name : LoxString) (vm : VM) : Step :=
  match Tbl.table_get (globals vm) name with
  | None => Undefined
  | Some None =>
      Return INTERPRET_RUNTIME_ERROR
        (runtime_error (undefined_variable name) vm)
  | Some (Some v) => Continue (push v vm)
  end.

(** [case OP_SET_GLOBAL] of [run]: [table_set] first; if the key was new,
    it is deleted again and the error is reported. *)
Definition op_set_global (gcs : list (Z -> bool)) (name : LoxString)
    (vm : VM) : Step :=
  match collections gcs vm with
  | None => Undefined
  | Some vm =>
      match Tbl.table_set (globals vm) name (peek 0 vm) with
      | None => Undefined
      | Some (globals', true) =>
          match Tbl.table_delete globals' name with
          | None => Undefined
          | Some (globals'', _) =>
              Return INTERPRET_RUNTIME_ERROR
                (runtime_error (undefined_variable name)
                   (set_globals vm globals''))
          end
      | Some (globals', false) => Continue (set_globals vm globals')
      end
  end.

(** [READ_SHORT ()] at the instruction pointer [ip], an index into the
    code: the pointer after the two bytes and the [uint16_t] they hold. *)
Definition READ_SHORT (code : list Z) (ip : Z) : Z * Z :=
  let ip := ip + 2 in
  (ip, Z.lor (Z.shiftl (nth (Z.to_nat (ip - 2)) code 0) 8)
         (nth (Z.to_nat (ip - 1)) code 0) mod 2 ^ 16).

(** [case OP_JUMP] and [case OP_LOOP] of [run]: the instruction pointer
    after the instruction; [ip] is the pointer after the opcode. *)
Definition op_jump (code : list Z) (ip : Z) : Z :=
  let (ip, offset) := READ_SHORT code ip in ip + offset.

Definition op_loop (code : list Z) (ip : Z) : Z :=
  let (ip, offset) := READ_SHORT code ip in ip - offset.

(** [READ_BYTE ()] at the instruction pointer [ip]: the pointer after the
    byte, and the byte. *)
Definition READ_BYTE (code : list Z) (ip : Z) : Z * Z :=
  let ip := ip + 1 in
  (ip, nth (Z.to_nat (ip - 1)) code 0).

(** [READ_CONSTANT ()], which is [VALUES[READ_BYTE ()]]: reading past the
    constants of the chunk has no defined behaviour ([None]). *)
Definition READ_CONSTANT (code : list Z) (values : list Value) (ip : Z)
    : Z * option Value :=
  let (ip, index) := READ_BYTE code ip in
  (ip, nth_error values (Z.to_nat index)).

(** [case OP_CONSTANT] of [run]; [ip] is the pointer after the opcode. *)
Definition op_constant (code : list Z) (values : list Value) (ip : Z)
    (vm : VM) : option (Z * VM) :=
  match READ_CONSTANT code values ip with
  | (ip, Some val) => Some (ip, push val vm)
  | (_, None) => None
  end.

(** The messages of [invoke_from_class] and [bind_method]. *)
Definition undefined_property (name : LoxString) : string :=
  ("Undefined property '" ++ string_of_list_ascii (s_chars name) ++ "'.")%string.

Definition undefined_class_property (class_name name : LoxString) : string :=
  ("Undefined property '" ++ string_of_list_ascii (s_chars class_name) ++ "."
     ++ string_of_list_ascii (s_chars name) ++ "'.")%string.

(** [invoke_from_class (klass, name, arg_count)]. *)
Definition invoke_from_class (klass : Z) (name : LoxString) (arg_count : Z)
    (vm : VM) : option (bool * VM) :=
  match deref vm klass with
  | Some (ObjClass _ methods) =>
      match Tbl.table_get methods name with
      | None => None
      | Some None => Some (false, runtime_error (undefined_property name) vm)
      | Some (Some method) =>
          match AS_OBJ method with
          | Some closure => call closure arg_count vm
          | None => None
          end
      end
  | _ => None
  end.

(** [invoke (name, arg_count)]. *)
Definition invoke (natives : Z -> list Value -> Value) (name : LoxString)
    (arg_count : Z) (vm : VM) : option (bool * VM) :=
  let receiver := peek arg_count vm in
  if negb (is_obj_type vm receiver LOX_INSTANCE_T) then
    Some (false, runtime_error "Only instances have methods." vm)
  else
    match receiver with
    | OBJ_VAL instance =>
        match deref vm instance with
        | Some (ObjInstance klass fields) =>
            match Tbl.table_get fields name with
            | None => None
            | Some (Some value) =>
                call_value natives value arg_count (poke arg_count value vm)
            | Some None => invoke_from_class klass name arg_count vm
            end
        | _ => None
        end
    | _ => None
    end.


(** ** memory.c: the allocation counter and the collector's trigger *)

Module Memory.

(** The part of [VM] that [reallocate] and [collect_garbage] read and write,
    with one addition: [gc_log] records, for every call of
    [collect_garbage], the threshold it leaves in [next_gc]. *)
Record Mem : Type := mkMem {
  bytes_allocated : Z;
  next_gc : Z;
  gc_log : list Z
}.

(** [init_vm]: [vm.bytes_allocated = 0; vm.next_gc = 1024 * 1024;]. *)
Definition init_mem : Mem :=
  {| bytes_allocated := 0; next_gc := 1024 * 1024; gc_log := [] |}.

Section Collector.

(** [CLOX_STRESS_GC] defined or not. *)
Variable stress_gc : bool.

(** [mark_roots (); trace_references (); table_remove_white (&vm.strings);
    sweep ();].  The object graph is not part of this model: the four
    phases are any function of the counters (the sweep lowers
    [bytes_allocated] through [FREE], and with it may log collections of
    its own). *)
Variable gc_phases : Mem -> Mem.

(** [collect_garbage]: the phases, then
    [vm.next_gc = vm.bytes_allocated * GC_HEAP_GROW_FACTOR], where the macro
    is [3/2]: the expression is [(vm.bytes_allocated * 3) / 2] on
    [size_t]. *)
Definition collect_garbage (m : Mem) : Mem :=
  let m := gc_phases m in
  let next := size_t (bytes_allocated m * 3) / 2 in
  {| bytes_allocated := bytes_allocated m;
     next_gc := next;
     gc_log := gc_log m ++ [next] |}.

(** [reallocate (ptr, old_size, new_size)], its effect on the counters. *)
Definition reallocate (old_size new_size : Z) (m : Mem) : Mem :=
  let m := {| bytes_allocated :=
                size_t (bytes_allocated m + (new_size - old_size));
              next_gc := next_gc m;
              gc_log := gc_log m |} in
  let m := if stress_gc && (new_size >? old_size)
           then collect_garbage m else m in
  if bytes_allocated m >? next_gc m then collect_garbage m else m.

(** [ALLOCATE], [GROW_ARRAY], [FREE_ARRAY], [FREE] and [allocate_object]
    are all calls of [reallocate]. *)
Definition ALLOCATE (elem_size n : Z) : Mem -> Mem :=
  reallocate 0 (size_t (elem_size * n)).
Definition GROW_ARRAY (elem_size old_count new_count : Z) : Mem -> Mem :=
  reallocate (size_t (elem_size * old_count)) (size_t (elem_size * new_count)).
Definition FREE_ARRAY (elem_size old_count : Z) : Mem -> Mem :=
  reallocate (size_t (elem_size * old_count)) 0.
Definition allocate_object (size : Z) : Mem -> Mem := reallocate 0 size.

End Collector.

End Memory.
(** ** memory.c: marking and sweeping

    [object->is_marked] is kept beside the heap: [marked] lists the
    addresses of the marked objects and [gray_stack] is [vm.gray_stack],
    its top first.  [NULL] is the address 0.  Marking what is not an object
    of the heap reads a dangling pointer and has no defined behaviour
    ([None]).  The growth of the gray stack (which exits when [realloc]
    fails) is not modelled.  The state of a collection is the machine with
    the marks and the two counters [reallocate] keeps. *)

Module GC.

Record Marks : Type := mkMarks {
  marked : list Z;
  gray_stack : list Z
}.

Definition no_marks : Marks := {| marked := []; gray_stack := [] |}.

Definition is_marked (g : Marks) (object : Z) : bool :=
  existsb (Z.eqb object) (marked g).

(** [mark_object (object)]. *)
Definition mark_object (objects : list (Z * Obj)) (object : Z) (g : Marks)
    : option Marks :=
  if object =? 0 then Some g
  else
    match heap_lookup objects object with
    | None => None
    | Some _ =>
        if is_marked g object then Some g
        else Some {| marked := object :: marked g;
                     gray_stack := object :: gray_stack g |}
    end.

(** [mark_value (value)]. *)
Definition mark_value (objects : list (Z * Obj)) (value : Value) (g : Marks)
    : option Marks :=
  match value with
  | OBJ_VAL object => mark_object objects object g
  | _ => Some g
  end.

(** [mark_array (array)]. *)
Fixpoint mark_array (objects : list (Z * Obj)) (values : list Value)
    (g : Marks) : option Marks :=
  match values with
  | [] => Some g
  | v :: rest =>
      match mark_value objects v g with
      | None => None
      | Some g => mark_array objects rest g
      end
  end.

(** A loop that calls [mark_object] on each pointer of an array. *)
Fixpoint mark_objects (objects : list (Z * Obj)) (pointers : list Z)
    (g : Marks) : option Marks :=
  match pointers with
  | [] => Some g
  | p :: rest =>
      match mark_object objects p g with
      | None => None
      | Some g => mark_objects objects rest g
      end
  end.

(** A [LoxString*] that may be [NULL]. *)
Definition string_pointer (s : option LoxString) : Z :=
  match s with Some s => s_addr s | None => 0 end.

(** [mark_table (table)]: the loop over the slots below [capacity]. *)
Fixpoint mark_table_loop (objects : list (Z * Obj)) (n : nat) (i : Z)
    (table : Tbl.Table) (g : Marks) : option Marks :=
  match n with
  | O => Some g
  | S n' =>
      let entry := Tbl.entry_at (Tbl.entries table) i in
      match mark_object objects (string_pointer (Tbl.key entry)) g with
      | None => None
      | Some g =>
          match mark_value objects (Tbl.value entry) g with
          | None => None
          | Some g => mark_table_loop objects n' (i + 1) table g
          end
      end
  end.

Definition mark_table (objects : list (Z * Obj)) (table : Tbl.Table)
    (g : Marks) : option Marks :=
  mark_table_loop objects (Z.to_nat (Tbl.capacity table)) 0 table g.

(** [blacken_object (object)]. *)
Definition blacken_object (objects : list (Z * Obj)) (object : Z) (g : Marks)
    : option Marks :=
  match heap_lookup objects object with
  | None => None
  | Some (ObjBoundMethod receiver method) =>
      match mark_value objects receiver g with
      | None => None
      | Some g => mark_object objects method g
      end
  | Some (ObjClass name methods) =>
      match mark_object objects (s_addr name) g with
      | None => None
      | Some g => mark_table objects methods g
      end
  | Some (ObjClosure function upvalues) =>
      match mark_object objects function g with
      | None => None
      | Some g => mark_objects objects upvalues g
      end
  | Some (ObjFunction _ _ chunk name) =>
      match mark_object objects (string_pointer name) g with
      | None => None
      | Some g => mark_array objects (values (constants chunk)) g
      end
  | Some (ObjInstance klass fields) =>
      match mark_object objects klass g with
      | None => None
      | Some g => mark_table objects fields g
      end
  | Some (ObjUpvalue u) => mark_value objects (closed u) g
  | Some (ObjNative _) => Some g
  | Some (ObjString _) => Some g
  end.

(** [mark_roots]: the stack from the bottom up, the closures of the call
    frames from the outermost in, the open upvalues, the globals, the
    functions of the compilers from [current] along [enclosing]
    ([mark_compiler_roots]; [compiler_roots] lists them), and
    [vm.init_string]. *)
Definition mark_roots (compiler_roots : list Z) (vm : VM) (g : Marks)
    : option Marks :=
  match mark_array (objects vm) (rev (stack vm)) g with
  | None => None
  | Some g =>
      match mark_objects (objects vm) (map closure (rev (frames vm))) g with
      | None => None
      | Some g =>
          match mark_objects (objects vm) (map uv_addr (open_upvalues vm)) g with
          | None => None
          | Some g =>
              match mark_table (objects vm) (globals vm) g with
              | None => None
              | Some g =>
                  match mark_objects (objects vm) compiler_roots g with
                  | None => None
                  | Some g =>
                      mark_object (objects vm)
                        (string_pointer (init_string vm)) g
                  end
              end
          end
      end
  end.

(** [trace_references]: every round pops an object that was marked once,
    so one round per object is enough. *)
Fixpoint trace_loop (fuel : nat) (objects : list (Z * Obj)) (g : Marks)
    : option Marks :=
  match gray_stack g with
  | [] => Some g
  | object :: rest =>
      match fuel with
      | O => None
      | S fuel' =>
          match blacken_object objects object
                  {| marked := marked g; gray_stack := rest |} with
          | None => None
          | Some g => trace_loop fuel' objects g
          end
      end
  end.

Definition trace_references (objects : list (Z * Obj)) (g : Marks)
    : option Marks :=
  trace_loop (List.length objects) objects g.

(** The sizes [free_object] passes to [reallocate]: those of the structs
    and of a pointer, an [int] and an [Entry] depend on the platform;
    [sizeof (char)] and [sizeof (uint8_t)] are 1 and a [Value] is a
    [uint64_t]. *)
Record Sizes : Type := mkSizes {
  sizeof_int : Z;
  sizeof_pointer : Z;
  sizeof_Entry : Z;
  sizeof_LoxBoundMethod : Z;
  sizeof_LoxClass : Z;
  sizeof_LoxClosure : Z;
  sizeof_LoxFunction : Z;
  sizeof_LoxString : Z;
  sizeof_LoxUpvalue : Z
}.

Record State : Type := mkState {
  machine : VM;
  marks : Marks;
  bytes_allocated : Z;
  next_gc : Z
}.

Definition set_machine (st : State) (vm : VM) : State :=
  mkState vm (marks st) (bytes_allocated st) (next_gc st).
Definition set_marks (st : State) (g : Marks) : State :=
  mkState (machine st) g (bytes_allocated st) (next_gc st).
Definition set_bytes_allocated (st : State) (n : Z) : State :=
  mkState (machine st) (marks st) n (next_gc st).
Definition set_next_gc (st : State) (n : Z) : State :=
  mkState (machine st) (marks st) (bytes_allocated st) n.

(** [free_object (object)]: the [old_size] of each call
    [reallocate (pointer, old_size, 0)] it makes, in order.  [FREE
    (LOX_INSTANCE_T, object)] and [FREE (LOX_NATIVE_T, object)] take the
    size of an enumerator, an [int]. *)
Definition free_blocks (sz : Sizes) (o : Obj) : list Z :=
  match o with
  | ObjBoundMethod _ _ => [sizeof_LoxBoundMethod sz]
  | ObjClass _ methods =>
      [size_t (sizeof_Entry sz * Tbl.capacity methods); sizeof_LoxClass sz]
  | ObjClosure _ upvalues =>
      [size_t (sizeof_pointer sz * Z.of_nat (List.length upvalues));
       sizeof_LoxClosure sz]
  | ObjFunction _ _ chunk _ =>
      [size_t (1 * ch_capacity chunk);
       size_t (sizeof_int sz * ch_capacity chunk);
       size_t (8 * va_capacity (constants chunk));
       sizeof_LoxFunction sz]
  | ObjInstance _ fields =>
      [size_t (sizeof_Entry sz * Tbl.capacity fields); sizeof_int sz]
  | ObjString s => [size_t (1 * (s_length s + 1)); sizeof_LoxString sz]
  | ObjNative _ => [sizeof_int sz]
  | ObjUpvalue _ => [sizeof_LoxUpvalue sz]
  end.

Section Collector.

(** [CLOX_STRESS_GC] defined or not, the sizes, and the functions of the
    compilers, which [mark_compiler_roots] marks. *)
Variables (stress_gc : bool) (sz : Sizes) (compiler_roots : list Z).

(** The call [collect_garbage ()] inside [reallocate]. *)
Variable collect : State -> option State.

(** [reallocate (ptr, old_size, new_size)], as far as the counters and the
    collector go: the counter is updated, then a collection may start,
    also when the block shrinks or is released. *)
Definition reallocate (old_size new_size : Z) (st : State) : option State :=
  let st :=
    set_bytes_allocated st
      (size_t (bytes_allocated st + (new_size - old_size))) in
  match (if stress_gc && (new_size >? old_size) then collect st else Some st) with
  | None => None
  | Some st =>
      if bytes_allocated st >? next_gc st then collect st else Some st
  end.

(** [free_object (object)]: its calls of [reallocate], one after the
    other. *)
Fixpoint free_object_blocks (blocks : list Z) (st : State) : option State :=
  match blocks with
  | [] => Some st
  | old_size :: rest =>
      match reallocate old_size 0 st with
      | None => None
      | Some st => free_object_blocks rest st
      end
  end.

Definition free_object (o : Obj) (st : State) : option State :=
  free_object_blocks (free_blocks sz o) st.

(** The list [vm.objects] links, cut at the object at address [a]: the
    objects before it, the object, and the objects [a->next] leads to. *)
Fixpoint chain_split (a : Z) (l : list (Z * Obj))
    : option (list (Z * Obj) * Obj * list (Z * Obj)) :=
  match l with
  | [] => None
  | (b, o) :: rest =>
      if b =? a then Some ([], o, rest)
      else
        match chain_split a rest with
        | Some (before, o', after) => Some ((b, o) :: before, o', after)
        | None => None
        end
  end.

(** The address of the first object of a list, [NULL] for none. *)
Definition first_object (l : list (Z * Obj)) : Z :=
  match l with [] => 0 | (a, _) :: _ => a end.

(** [object->is_marked = false]. *)
Definition unmark (object : Z) (g : Marks) : Marks :=
  {| marked := filter (fun a => negb (a =? object)) (marked g);
     gray_stack := gray_stack g |}.

(** [vm.objects = next] when [previous] is [NULL], else
    [previous->next = next]; [after] is the list from [next] on.  Writing
    to a [previous] that is no longer in the list has no defined
    behaviour. *)
Definition unlink (previous : Z) (after : list (Z * Obj))
    (objects : list (Z * Obj)) : option (list (Z * Obj)) :=
  if previous =? 0 then Some after
  else
    match chain_split previous objects with
    | Some (before, p, _) => Some (before ++ (previous, p) :: after)
    | None => None
    end.

(** The loop of [sweep]: [object] is read from the list as it is now,
    which a collection started by [free_object] may have changed; reading
    an object that was freed has no defined behaviour.  Every round
    leaves one object behind, so one round per object is enough. *)
Fixpoint sweep_loop (fuel : nat) (previous object : Z) (st : State)
    : option State :=
  if object =? 0 then Some st
  else
    match fuel with
    | O => None
    | S fuel' =>
        match chain_split object (objects (machine st)) with
        | None => None
        | Some (_, o, after) =>
            let next := first_object after in
            if is_marked (marks st) object then
              sweep_loop fuel' object next
                (set_marks st (unmark object (marks st)))
            else
              match unlink previous after (objects (machine st)) with
              | None => None
              | Some objects' =>
                  match free_object o
                          (set_machine st (set_objects (machine st) objects'))
                  with
                  | None => None
                  | Some st => sweep_loop fuel' previous next st
                  end
              end
        end
    end.

Definition sweep (st : State) : option State :=
  sweep_loop (List.length (objects (machine st))) 0
    (first_object (objects (machine st))) st.

(** [collect_garbage]: [mark_roots], [trace_references],
    [table_remove_white (&vm.strings)], [sweep], and the new threshold
    [vm.bytes_allocated * GC_HEAP_GROW_FACTOR], which is
    [(vm.bytes_allocated * 3) / 2] on [size_t]. *)
Definition collect_garbage_body (st : State) : option State :=
  match mark_roots compiler_roots (machine st) (marks st) with
  | None => None
  | Some g =>
      match trace_references (objects (machine st)) g with
      | None => None
      | Some g =>
          match Tbl.table_remove_white (is_marked g) (strings (machine st)) with
          | None => None
          | Some strings' =>
              match sweep (set_marks
                             (set_machine st (set_strings (machine st) strings'))
                             g) with
              | None => None
              | Some st =>
                  Some (set_next_gc st (size_t (bytes_allocated st * 3) / 2))
              end
          end
      end
  end.

End Collector.

(** [collect_garbage], with the calls of itself that [reallocate] makes
    from inside [sweep]: each of them comes after an object has left the
    list, so the calls are nested no deeper than [depth], the number of
    objects and one. *)
Fixpoint collect_garbage_nested (depth : nat) (stress_gc : bool) (sz : Sizes)
    (compiler_roots : list Z) (st : State) : option State :=
  match depth with
  | O => None
  | S depth' =>
      collect_garbage_body stress_gc sz compiler_roots
        (collect_garbage_nested depth' stress_gc sz compiler_roots) st
  end.

Definition collect_garbage (stress_gc : bool) (sz : Sizes)
    (compiler_roots : list Z) (st : State) : option State :=
  collect_garbage_nested (S (List.length (objects (machine st)))) stress_gc sz
    compiler_roots st.

(** [new_upvalue (slot)] with the collector: [ALLOCATE_OBJ] comes to
    [reallocate (NULL, 0, sizeof (LoxUpvalue))], which may collect, and
    then the new object is linked and filled in. *)
Definition new_upvalue (stress_gc : bool) (sz : GC.Sizes)
    (compiler_roots : list Z) (slot : Z) (st : GC.State)
    : option (LoxUpvalue * GC.State) :=
  match GC.reallocate stress_gc
          (GC.collect_garbage stress_gc sz compiler_roots)
          0 (GC.sizeof_LoxUpvalue sz) st with
  | None => None
  | Some st =>
      let (u, vm) := new_upvalue slot (GC.machine st) in
      Some (u, GC.set_machine st vm)
  end.

(** [capture_upvalue (local)] with the collector: [prev_upvalue] and
    [upvalue] are found before [new_upvalue] is called. *)
Definition capture_upvalue (stress_gc : bool) (sz : GC.Sizes)
    (compiler_roots : list Z) (local : Z) (st : GC.State)
    : option (LoxUpvalue * GC.State) :=
  let (passed, from) := walk_upvalues local (open_upvalues (GC.machine st)) in
  let create :=
    match new_upvalue stress_gc sz compiler_roots local st with
    | None => None
    | Some (created, st) =>
        Some (created,
              GC.set_machine st
                (set_open_upvalues (GC.machine st) (passed ++ created :: from)))
    end in
  match from with
  | u :: _ => if location_eqb (location u) local then Some (u, st) else create
  | [] => create
  end.

(** What one case of the [switch] in [run] does, on the state of the
    collector. *)
Inductive Step : Type :=
| Continue (st : GC.State)
| Return (result : InterpretResult) (st : GC.State)
| Undefined.

(** [new_bound_method (receiver, method)]: [ALLOCATE_OBJ] comes to
    [reallocate (NULL, 0, sizeof (LoxBoundMethod))], which may collect;
    then the object is linked and filled in. *)
Definition new_bound_method (stress_gc : bool) (sz : GC.Sizes)
    (compiler_roots : list Z) (receiver : Value) (method : Z) (st : GC.State)
    : option (Z * GC.State) :=
  match GC.reallocate stress_gc
          (GC.collect_garbage stress_gc sz compiler_roots)
          0 (GC.sizeof_LoxBoundMethod sz) st with
  | None => None
  | Some st =>
      let (bound, vm) :=
        allocate_object (ObjBoundMethod receiver method) (GC.machine st) in
      Some (bound, GC.set_machine st vm)
  end.

(** [bind_method (klass, name)]. *)
Definition bind_method (stress_gc : bool) (sz : GC.Sizes)
    (compiler_roots : list Z) (klass : Z) (name : LoxString) (st : GC.State)
    : option (bool * GC.State) :=
  match deref (GC.machine st) klass with
  | Some (ObjClass class_name methods) =>
      match Tbl.table_get methods name with
      | None => None
      | Some None =>
          Some (false,
                GC.set_machine st
                  (runtime_error (undefined_class_property class_name name)
                     (GC.machine st)))
      | Some (Some method) =>
          match AS_OBJ method with
          | None => None
          | Some closure =>
              match new_bound_method stress_gc sz compiler_roots
                      (peek 0 (GC.machine st)) closure st with
              | None => None
              | Some (bound, st) =>
                  Some (true,
                        GC.set_machine st
                          (push (OBJ_VAL bound) (snd (pop (GC.machine st)))))
              end
          end
      end
  | _ => None
  end.

(** [case OP_GET_PROPERTY] of [run], with the name that [READ_STRING ()]
    gives. *)
Definition op_get_property (stress_gc : bool) (sz : GC.Sizes)
    (compiler_roots : list Z) (name : LoxString) (st : GC.State) : Step :=
  let vm := GC.machine st in
  if negb (is_obj_type vm (peek 0 vm) LOX_INSTANCE_T) then
    Return INTERPRET_RUNTIME_ERROR
      (GC.set_machine st (runtime_error "Only instances have properties." vm))
  else
    match peek 0 vm with
    | OBJ_VAL instance =>
        match deref vm instance with
        | Some (ObjInstance klass fields) =>
            match Tbl.table_get fields name with
            | None => Undefined
            | Some (Some value) =>
                Continue (GC.set_machine st (push value (snd (pop vm))))
            | Some None =>
                match bind_method stress_gc sz compiler_roots klass name st with
                | None => Undefined
                | Some (false, st) => Return INTERPRET_RUNTIME_ERROR st
                | Some (true, st) => Continue st
                end
            end
        | _ => Undefined
        end
    | _ => Undefined
    end.

End GC.


(** ** lexer.c *)

(** Modelled from the spec: [lexer.h] is not among the sources.  The token
    kinds are those [lexer.c] produces and the [rules] table of the compiler
    indexes; a [Token] has the four fields [make_token] fills. *)
Inductive TokenType : Type :=
| TOKEN_LEFT_PAREN | TOKEN_RIGHT_PAREN | TOKEN_LEFT_BRACE | TOKEN_RIGHT_BRACE
| TOKEN_COMMA | TOKEN_DOT | TOKEN_MINUS | TOKEN_PLUS | TOKEN_SEMICOLON
| TOKEN_STAR | TOKEN_SLASH
| TOKEN_BANG | TOKEN_EQUAL | TOKEN_BANG_EQUAL | TOKEN_EQUAL_EQUAL
| TOKEN_GREATER | TOKEN_GREATER_EQUAL | TOKEN_LESS | TOKEN_LESS_EQUAL
| TOKEN_IDENTIFIER | TOKEN_STRING | TOKEN_FLOAT64 | TOKEN_INT
| TOKEN_AND | TOKEN_BREAK | TOKEN_CLASS | TOKEN_ELSE | TOKEN_FALSE
| TOKEN_FOR | TOKEN_FUN | TOKEN_IF | TOKEN_NIL | TOKEN_OR | TOKEN_RETURN
| TOKEN_SUPER | TOKEN_THIS | TOKEN_TRUE | TOKEN_VAR | TOKEN_WHILE
| TOKEN_ERROR | TOKEN_EOF.

Definition token_type_eqb (a b : TokenType) : bool :=
  match a, b with
  | TOKEN_LEFT_PAREN, TOKEN_LEFT_PAREN | TOKEN_RIGHT_PAREN, TOKEN_RIGHT_PAREN
  | TOKEN_LEFT_BRACE, TOKEN_LEFT_BRACE | TOKEN_RIGHT_BRACE, TOKEN_RIGHT_BRACE
  | TOKEN_COMMA, TOKEN_COMMA | TOKEN_DOT, TOKEN_DOT | TOKEN_MINUS, TOKEN_MINUS
  | TOKEN_PLUS, TOKEN_PLUS | TOKEN_SEMICOLON, TOKEN_SEMICOLON
  | TOKEN_STAR, TOKEN_STAR | TOKEN_SLASH, TOKEN_SLASH | TOKEN_BANG, TOKEN_BANG
  | TOKEN_EQUAL, TOKEN_EQUAL | TOKEN_BANG_EQUAL, TOKEN_BANG_EQUAL
  | TOKEN_EQUAL_EQUAL, TOKEN_EQUAL_EQUAL | TOKEN_GREATER, TOKEN_GREATER
  | TOKEN_GREATER_EQUAL, TOKEN_GREATER_EQUAL | TOKEN_LESS, TOKEN_LESS
  | TOKEN_LESS_EQUAL, TOKEN_LESS_EQUAL | TOKEN_IDENTIFIER, TOKEN_IDENTIFIER
  | TOKEN_STRING, TOKEN_STRING | TOKEN_FLOAT64, TOKEN_FLOAT64
  | TOKEN_INT, TOKEN_INT | TOKEN_AND, TOKEN_AND | TOKEN_BREAK, TOKEN_BREAK
  | TOKEN_CLASS, TOKEN_CLASS | TOKEN_ELSE, TOKEN_ELSE | TOKEN_FALSE, TOKEN_FALSE
  | TOKEN_FOR, TOKEN_FOR | TOKEN_FUN, TOKEN_FUN | TOKEN_IF, TOKEN_IF
  | TOKEN_NIL, TOKEN_NIL | TOKEN_OR, TOKEN_OR | TOKEN_RETURN, TOKEN_RETURN
  | TOKEN_SUPER, TOKEN_SUPER | TOKEN_THIS, TOKEN_THIS | TOKEN_TRUE, TOKEN_TRUE
  | TOKEN_VAR, TOKEN_VAR | TOKEN_WHILE, TOKEN_WHILE | TOKEN_ERROR, TOKEN_ERROR
  | TOKEN_EOF, TOKEN_EOF => true
  | _, _ => false
  end.

(** A [const char*] into the source (or to a message) is the text from that
    position on; the terminating NUL is the end of the list. *)
Record Token : Type := mkToken {
  tok_type : TokenType;
  tok_start : list ascii;
  tok_length : Z;
  tok_line : Z
}.

(** The [length] characters at [start]. *)
Definition lexeme (t : Token) : list ascii :=
  firstn (Z.to_nat (tok_length t)) (tok_start t).

Module Lexer.

Record Lexer : Type := mkLexer {
  start : list ascii;
  current : list ascii;
  line : Z
}.

Definition NUL : ascii := "000"%char.

Definition char_eqb (a b : ascii) : bool := Ascii.eqb a b.

(** [init_lexer (source)]. *)
Definition init_lexer (source : list ascii) : Lexer :=
  {| start := source; current := source; line := 1 |}.

(** [*p] for a pointer into the source. *)
Definition read (p : list ascii) : ascii := hd NUL p.

Definition is_at_end (lx : Lexer) : bool := char_eqb (read (current lx)) NUL.

(** [lexer.current - lexer.start]. *)
Definition offset (lx : Lexer) : Z :=
  Z.of_nat (List.length (start lx)) - Z.of_nat (List.length (current lx)).

Definition make_token (type : TokenType) (lx : Lexer) : Token :=
  {| tok_type := type; tok_start := start lx; tok_length := offset lx;
     tok_line := line lx |}.

Definition error_token (message : string) (lx : Lexer) : Token :=
  {| tok_type := TOKEN_ERROR;
     tok_start := list_ascii_of_string message;
     tok_length := Z.of_nat (String.length message);
     tok_line := line lx |}.

Definition set_current (lx : Lexer) (p : list ascii) : Lexer :=
  {| start := start lx; current := p; line := line lx |}.

(** [advance]: the character consumed and the lexer after it. *)
Definition advance (lx : Lexer) : ascii * Lexer :=
  (read (current lx), set_current lx (tl (current lx))).

(** [match (expected)]. *)
Definition match_char (expected : ascii) (lx : Lexer) : bool * Lexer :=
  if is_at_end lx then (false, lx)
  else if negb (char_eqb (read (current lx)) expected) then (false, lx)
  else (true, set_current lx (tl (current lx))).

Definition peek (lx : Lexer) : ascii := read (current lx).

Definition peek_next (lx : Lexer) : ascii :=
  if is_at_end lx then NUL else read (tl (current lx)).

(** The loop [while (peek () != '\n' && !is_at_end ()) advance ();]. *)
Fixpoint skip_comment (p : list ascii) : list ascii :=
  match p with
  | [] => []
  | c :: rest =>
      if negb (char_eqb c "010"%char) && negb (char_eqb c NUL)
      then skip_comment rest else p
  end.

(** [skip_whitespace]: every round but the last consumes a character, so
    the fuel [S (length current)] that [skip_whitespace] gives is enough. *)
Fixpoint skip_whitespace_loop (fuel : nat) (lx : Lexer) : option Lexer :=
  match fuel with
  | O => None
  | S fuel' =>
      let c := peek lx in
      if char_eqb c " "%char || char_eqb c "013"%char || char_eqb c "009"%char
      then skip_whitespace_loop fuel' (snd (advance lx))
      else if char_eqb c "010"%char then
        skip_whitespace_loop fuel'
          (snd (advance {| start := start lx; current := current lx;
                           line := line lx + 1 |}))
      else if char_eqb c "/"%char then
        if char_eqb (peek_next lx) "/"%char
        then skip_whitespace_loop fuel' (set_current lx (skip_comment (current lx)))
        else Some lx
      else Some lx
  end.

Definition skip_whitespace (lx : Lexer) : option Lexer :=
  skip_whitespace_loop (S (List.length (current lx))) lx.

(** The loop of [string]: the position it stops at and the line count. *)
Fixpoint string_loop (p : list ascii) (line : Z) : list ascii * Z :=
  match p with
  | [] => ([], line)
  | c :: rest =>
      if negb (char_eqb c "034"%char) && negb (char_eqb c NUL)
      then string_loop rest (if char_eqb c "010"%char then line + 1 else line)
      else (p, line)
  end.

(** [string]. *)
Definition string (lx : Lexer) : Token * Lexer :=
  let (p, l) := string_loop (current lx) (line lx) in
  let lx := {| start := start lx; current := p; line := l |} in
  if is_at_end lx then (error_token "Unterminated string." lx, lx)
  else
    let lx := snd (advance lx) in
    (make_token TOKEN_STRING lx, lx).

Definition is_digit (c : ascii) : bool :=
  (48 <=? uint8_of_char c) && (uint8_of_char c <=? 57).

Definition is_alpha (c : ascii) : bool :=
  let n := uint8_of_char c in
  ((97 <=? n) && (n <=? 122)) || ((65 <=? n) && (n <=? 90)) || (n =? 95).

(** The loop [while (is_digit (c = peek ()) || c == '_') advance ();]. *)
Fixpoint skip_digits (p : list ascii) : list ascii :=
  match p with
  | [] => []
  | c :: rest =>
      if is_digit c || char_eqb c "_"%char then skip_digits rest else p
  end.

(** The fractional part of [number]: an error token if the point has no
    digit after it, else the lexer after the part and [has_fraction]. *)
Definition number_fraction (lx : Lexer) : option Token * Lexer * bool :=
  if char_eqb (peek lx) "."%char then
    (* Consume the decimal point *)
    let lx := snd (advance lx) in
    (* Check for valid fractional part *)
    if negb (is_digit (peek lx)) then
      (Some (error_token "Expect digit after decimal point." lx), lx, false)
    else (None, set_current lx (skip_digits (current lx)), true)
  else (None, lx, false).

(** The exponent of [number]: an error token if the mark is followed
    neither by a digit nor by a sign and a digit, else the lexer after the
    exponent and [has_exponent]. *)
Definition number_exponent (lx : Lexer) : option Token * Lexer * bool :=
  let c := peek lx in
  if char_eqb c "e"%char || char_eqb c "E"%char then
    (* Consume exponent *)
    let lx := snd (advance lx) in
    (* Check for valid exponent *)
    let c := peek lx in
    if negb (is_digit c || char_eqb c "+"%char || char_eqb c "-"%char)
    then (Some (error_token "Expect number after exponent." lx), lx, false)
    else
      let signed : option Token * Lexer :=
        if negb (is_digit c) then
          (* we have a + or - *)
          let lx := snd (advance lx) in
          (* need a digit after that *)
          if negb (is_digit (peek lx))
          then (Some (error_token "Expect number after exponent." lx), lx)
          else (None, lx)
        else (None, lx) in
      match signed with
      | (Some err, lx) => (Some err, lx, true)
      | (None, lx) => (None, set_current lx (skip_digits (current lx)), true)
      end
  else (None, lx, false).

(** [number], entered after [lex_token] consumed the first digit. *)
Definition number (lx : Lexer) : Token * Lexer :=
  let lx := set_current lx (skip_digits (current lx)) in
  match number_fraction lx with
  | (Some err, lx, _) => (err, lx)
  | (None, lx, has_fraction) =>
      match number_exponent lx with
      | (Some err, lx, _) => (err, lx)
      | (None, lx, has_exponent) =>
          if has_fraction || has_exponent
          then (make_token TOKEN_FLOAT64 lx, lx)
          else (make_token TOKEN_INT lx, lx)
      end
  end.

(** [check_keyword (start, length, rest, type)]. *)
Definition check_keyword (start_ length : Z) (rest : String.string)
    (type : TokenType)
    (lx : Lexer) : TokenType :=
  if (offset lx =? start_ + length)
     && memcmp_eq (skipn (Z.to_nat start_) (start lx))
          (list_ascii_of_string rest) length
  then type else TOKEN_IDENTIFIER.

(** [lexer.start[i]]. *)
Definition start_at (lx : Lexer) (i : nat) : ascii := nth i (start lx) NUL.

(** [identifier_type]. *)
Definition identifier_type (lx : Lexer) : TokenType :=
  let c := start_at lx 0 in
  if char_eqb c "a"%char then check_keyword 1 2 "nd" TOKEN_AND lx
  else if char_eqb c "b"%char then check_keyword 1 4 "reak" TOKEN_BREAK lx
  else if char_eqb c "c"%char then check_keyword 1 4 "lass" TOKEN_CLASS lx
  else if char_eqb c "e"%char then check_keyword 1 3 "lse" TOKEN_ELSE lx
  else if char_eqb c "f"%char then
    if offset lx >? 1 then
      let d := start_at lx 1 in
      if char_eqb d "a"%char then check_keyword 2 3 "lse" TOKEN_FALSE lx
      else if char_eqb d "o"%char then check_keyword 2 1 "r" TOKEN_FOR lx
      else if char_eqb d "u"%char then check_keyword 2 1 "n" TOKEN_FUN lx
      else TOKEN_IDENTIFIER
    else TOKEN_IDENTIFIER
  else if char_eqb c "i"%char then check_keyword 1 1 "f" TOKEN_IF lx
  else if char_eqb c "n"%char then check_keyword 1 2 "il" TOKEN_NIL lx
  else if char_eqb c "o"%char then check_keyword 1 1 "r" TOKEN_OR lx
  else if char_eqb c "r"%char then check_keyword 1 5 "eturn" TOKEN_RETURN lx
  else if char_eqb c "s"%char then check_keyword 1 4 "uper" TOKEN_SUPER lx
  else if char_eqb c "t"%char then
    if offset lx >? 1 then
      let d := start_at lx 1 in
      if char_eqb d "h"%char then check_keyword 2 2 "is" TOKEN_THIS lx
      else if char_eqb d "r"%char then check_keyword 2 2 "ue" TOKEN_TRUE lx
      else TOKEN_IDENTIFIER
    else TOKEN_IDENTIFIER
  else if char_eqb c "v"%char then check_keyword 1 2 "ar" TOKEN_VAR lx
  else if char_eqb c "w"%char then check_keyword 1 4 "hile" TOKEN_WHILE lx
  else TOKEN_IDENTIFIER.

(** The loop of [identifier]. *)
Fixpoint skip_identifier (p : list ascii) : list ascii :=
  match p with
  | [] => []
  | c :: rest => if is_alpha c || is_digit c then skip_identifier rest else p
  end.

Definition identifier (lx : Lexer) : Token * Lexer :=
  let lx := set_current lx (skip_identifier (current lx)) in
  (make_token (identifier_type lx) lx, lx).

(** The two-character tokens: [make_token (match ('=') ? a : b)]. *)
Definition one_or_two (with_equal without : TokenType) (lx : Lexer)
    : Token * Lexer :=
  let (m, lx) := match_char "="%char lx in
  (make_token (if m then with_equal else without) lx, lx).

(** [lex_token]. *)
Definition lex_token (lx : Lexer) : option (Token * Lexer) :=
  match skip_whitespace lx with
  | None => None
  | Some lx =>
      let lx := {| start := current lx; current := current lx;
                   line := line lx |} in
      if is_at_end lx then Some (make_token TOKEN_EOF lx, lx)
      else
        let (c, lx) := advance lx in
        let simple t := Some (make_token t lx, lx) in
        if is_alpha c then Some (identifier lx)
        else if is_digit c then Some (number lx)
        else if char_eqb c "("%char then simple TOKEN_LEFT_PAREN
        else if char_eqb c ")"%char then simple TOKEN_RIGHT_PAREN
        else if char_eqb c "{"%char then simple TOKEN_LEFT_BRACE
        else if char_eqb c "}"%char then simple TOKEN_RIGHT_BRACE
        else if char_eqb c ";"%char then simple TOKEN_SEMICOLON
        else if char_eqb c ","%char then simple TOKEN_COMMA
        else if char_eqb c "."%char then simple TOKEN_DOT
        else if char_eqb c "-"%char then simple TOKEN_MINUS
        else if char_eqb c "+"%char then simple TOKEN_PLUS
        else if char_eqb c "/"%char then simple TOKEN_SLASH
        else if char_eqb c "*"%char then simple TOKEN_STAR
        else if char_eqb c "!"%char
        then Some (one_or_two TOKEN_BANG_EQUAL TOKEN_BANG lx)
        else if char_eqb c "="%char
        then Some (one_or_two TOKEN_EQUAL_EQUAL TOKEN_EQUAL lx)
        else if char_eqb c ">"%char
        then Some (one_or_two TOKEN_GREATER_EQUAL TOKEN_GREATER lx)
        else if char_eqb c "<"%char
        then Some (one_or_two TOKEN_LESS_EQUAL TOKEN_LESS lx)
        else if char_eqb c "034"%char then Some (string lx)
        else Some (error_token "Unexpected character." lx, lx)
  end.

(** The tokens of a source, up to and with [TOKEN_EOF]: [lex_token] called
    again and again, as the tests of [test.c] do. *)
Fixpoint tokens (fuel : nat) (lx : Lexer) : option (list Token) :=
  match fuel with
  | O => None
  | S fuel' =>
      match lex_token lx with
      | None => None
      | Some (t, lx') =>
          if token_type_eqb (tok_type t) TOKEN_EOF then Some [t]
          else
            match tokens fuel' lx' with
            | None => None
            | Some ts => Some (t :: ts)
            end
      end
  end.

End Lexer.

(** ** chunk.h: opcodes *)

Inductive OpCode : Type :=
| OP_RETURN | OP_TRUE | OP_FALSE | OP_NIL | OP_CONSTANT | OP_DEFINE_GLOBAL
| OP_GET_GLOBAL | OP_SET_GLOBAL | OP_GET_LOCAL | OP_SET_LOCAL
| OP_GET_UPVALUE | OP_SET_UPVALUE | OP_GET_PROPERTY | OP_SET_PROPERTY
| OP_CLOSE_UPVALUE | OP_NOT | OP_NEGATE | OP_ADD | OP_SUB | OP_MUL | OP_DIV
| OP_GREATER | OP_LESS | OP_EQUAL | OP_POP | OP_JUMP | OP_JUMP_IF_FALSE
| OP_LOOP | OP_CALL | OP_CLOSURE | OP_CLASS | OP_METHOD | OP_INVOKE
| OP_INHERIT | OP_GET_SUPER | OP_INVOKE_SUPER.

(** The value of each enumerator. *)
Definition opcode (op : OpCode) : Z :=
  match op with
  | OP_RETURN => 0 | OP_TRUE => 1 | OP_FALSE => 2 | OP_NIL => 3
  | OP_CONSTANT => 4 | OP_DEFINE_GLOBAL => 5 | OP_GET_GLOBAL => 6
  | OP_SET_GLOBAL => 7 | OP_GET_LOCAL => 8 | OP_SET_LOCAL => 9
  | OP_GET_UPVALUE => 10 | OP_SET_UPVALUE => 11 | OP_GET_PROPERTY => 12
  | OP_SET_PROPERTY => 13 | OP_CLOSE_UPVALUE => 14 | OP_NOT => 15
  | OP_NEGATE => 16 | OP_ADD => 17 | OP_SUB => 18 | OP_MUL => 19
  | OP_DIV => 20 | OP_GREATER => 21 | OP_LESS => 22 | OP_EQUAL => 23
  | OP_POP => 24 | OP_JUMP => 25 | OP_JUMP_IF_FALSE => 26 | OP_LOOP => 27
  | OP_CALL => 28 | OP_CLOSURE => 29 | OP_CLASS => 30 | OP_METHOD => 31
  | OP_INVOKE => 32 | OP_INHERIT => 33 | OP_GET_SUPER => 34
  | OP_INVOKE_SUPER => 35
  end.

(** [add_constant (chunk, value)]: the value is on the VM stack while the
    array grows; the result is [chunk->constants.count - 1]. *)
Definition add_constant (chunk : Chunk) (v : Value) (vm : VM)
    : Z * Chunk * VM :=
  let vm := push v vm in
  let chunk := {| ch_capacity := ch_capacity chunk; code := code chunk;
                  lines := lines chunk;
                  constants := write_value_array (constants chunk) v |} in
  let (_, vm) := pop vm in
  (va_count (constants chunk) - 1, chunk, vm).

(** ** compiler.c *)

Module Compiler.

Definition bind {A B : Type} (m : option A) (f : A -> option B) : option B :=
  match m with
  | Some x => f x
  | None => None
  end.

Notation "x <- m ;; k" := (bind m (fun x => k))
  (at level 61, m at next level, right associativity).
Notation "' p <- m ;; k" := (bind m (fun x => let 'p := x in k))
  (at level 61, p pattern, m at next level, right associativity).

Record Parser : Type := mkParser {
  current : Token;
  previous : Token;
  had_error : bool;
  panic_mode : bool
}.

Inductive Precedence : Type :=
| PREC_NONE | PREC_ASSIGNMENT | PREC_OR | PREC_AND | PREC_EQUALITY
| PREC_COMPARISON | PREC_TERM | PREC_FACTOR | PREC_UNARY | PREC_CALL
| PREC_PRIMARY.

(** The value of each enumerator, and [(Precedence)(p + 1)]. *)
Definition prec_value (p : Precedence) : Z :=
  match p with
  | PREC_NONE => 0 | PREC_ASSIGNMENT => 1 | PREC_OR => 2 | PREC_AND => 3
  | PREC_EQUALITY => 4 | PREC_COMPARISON => 5 | PREC_TERM => 6
  | PREC_FACTOR => 7 | PREC_UNARY => 8 | PREC_CALL => 9 | PREC_PRIMARY => 10
  end.

Definition prec_le (a b : Precedence) : bool := prec_value a <=? prec_value b.

Definition prec_succ (p : Precedence) : Precedence :=
  match p with
  | PREC_NONE => PREC_ASSIGNMENT | PREC_ASSIGNMENT => PREC_OR
  | PREC_OR => PREC_AND | PREC_AND => PREC_EQUALITY
  | PREC_EQUALITY => PREC_COMPARISON | PREC_COMPARISON => PREC_TERM
  | PREC_TERM => PREC_FACTOR | PREC_FACTOR => PREC_UNARY
  | PREC_UNARY => PREC_CALL | PREC_CALL => PREC_PRIMARY
  | PREC_PRIMARY => PREC_PRIMARY
  end.

(** The functions a [ParseFn] of the [rules] table can point to. *)
Inductive ParseFn : Type :=
| grouping_fn | call_fn | dot_fn | unary_fn | binary_fn | variable_fn
| string_fn | number_fn | and_fn | or_fn | literal_fn | super_fn | this_fn.

Record ParseRule : Type := mkRule {
  prefix : option ParseFn;
  infix : option ParseFn;
  precedence : Precedence
}.

Record Local : Type := mkLocal {
  name : Token;
  depth : Z;
  is_captured : bool
}.

Record Upvalue : Type := mkUpvalueRef {
  index : Z;
  is_local : bool
}.

Inductive FunctionType : Type :=
| TYPE_FUNCTION | TYPE_INITIALIZER | TYPE_METHOD | TYPE_SCRIPT.

(** The [LoxFunction] a compiler builds.  The compiler is its only user
    until [end_compiler], so it is kept by value here. *)
Record LoxFunction : Type := mkFunction {
  arity : Z;
  upvalue_count : Z;
  chunk : Chunk;
  fname : option LoxString
}.

(** [Compiler]: [locals] holds [locals[0 .. local_count)] and [upvalues]
    holds [upvalues[0 .. function->upvalue_count)]; both arrays are declared
    with [UINT8_MAX] elements. *)
Record Compiler : Type := mkCompiler {
  function : LoxFunction;
  type : FunctionType;
  locals : list Local;
  upvalues : list Upvalue;
  scope_depth : Z
}.

Definition local_count (c : Compiler) : Z := Z.of_nat (List.length (locals c)).


Record ClassCompiler : Type := mkClassCompiler {
  has_superclass : bool
}.

(** The globals of the compiler and what they reach: the lexer, [parser],
    [current] with its [enclosing] chain, [current_class] with its chain,
    the VM (for interning and the stack), and the text written to
    [stderr]. *)
Record CState : Type := mkCState {
  lexer : Lexer.Lexer;
  parser : Parser;
  compiler : Compiler;
  enclosing : list Compiler;
  current_class : list ClassCompiler;
  vm : VM;
  diagnostics : list String.string
}.

Definition set_lexer (st : CState) (x : Lexer.Lexer) : CState :=
  mkCState x (parser st) (compiler st) (enclosing st) (current_class st)
    (vm st) (diagnostics st).
Definition set_parser (st : CState) (x : Parser) : CState :=
  mkCState (lexer st) x (compiler st) (enclosing st) (current_class st)
    (vm st) (diagnostics st).
Definition set_compiler (st : CState) (x : Compiler) : CState :=
  mkCState (lexer st) (parser st) x (enclosing st) (current_class st)
    (vm st) (diagnostics st).
Definition set_enclosing (st : CState) (x : list Compiler) : CState :=
  mkCState (lexer st) (parser st) (compiler st) x (current_class st)
    (vm st) (diagnostics st).
Definition set_vm (st : CState) (x : VM) : CState :=
  mkCState (lexer st) (parser st) (compiler st) (enclosing st)
    (current_class st) x (diagnostics st).
Definition set_diagnostics (st : CState) (x : list String.string) : CState :=
  mkCState (lexer st) (parser st) (compiler st) (enclosing st)
    (current_class st) (vm st) x.

Definition set_chunk (c : Compiler) (ch : Chunk) : Compiler :=
  mkCompiler
    (mkFunction (arity (function c)) (upvalue_count (function c)) ch
       (fname (function c)))
    (type c) (locals c) (upvalues c) (scope_depth c).

Definition set_locals (c : Compiler) (l : list Local) : Compiler :=
  mkCompiler (function c) (type c) l (upvalues c) (scope_depth c).

(** [current_chunk ()]. *)
Definition current_chunk (st : CState) : Chunk := chunk (function (compiler st)).

(** The line [error_at] prints for a token and a message. *)
Definition error_text (token : Token) (message : String.string)
    : String.string :=
  let where_ :=
    match tok_type token with
    | TOKEN_EOF => " at end"
    | TOKEN_ERROR => ""
    | _ => " at '" ++ string_of_list_ascii (lexeme token) ++ "'"
    end%string in
  ("[line " ++ format_int (tok_line token) ++ "] Error" ++ where_
     ++ ": " ++ message)%string.

(** [error_at (token, message)]. *)
Definition error_at (token : Token) (message : String.string) (st : CState)
    : CState :=
  if panic_mode (parser st) then st
  else
    set_diagnostics
      (set_parser st
         {| current := current (parser st); previous := previous (parser st);
            had_error := true; panic_mode := true |})
      (diagnostics st ++ [error_text token message]).

Definition error (message : String.string) (st : CState) : CState :=
  error_at (previous (parser st)) message st.

Definition error_at_current (message : String.string) (st : CState) : CState :=
  error_at (current (parser st)) message st.

(** The loop of [advance]: an error token is reported, with its text as
    the message, and the next token is read.  Every error token consumes a
    character, so [S (length source)] rounds are enough. *)
Fixpoint advance_loop (fuel : nat) (st : CState) : option CState :=
  match fuel with
  | O => None
  | S fuel' =>
      '(t, lx) <- Lexer.lex_token (lexer st) ;;
      let st :=
        set_lexer
          (set_parser st
             {| current := t; previous := previous (parser st);
                had_error := had_error (parser st);
                panic_mode := panic_mode (parser st) |}) lx in
      if negb (token_type_eqb (tok_type t) TOKEN_ERROR) then Some st
      else
        advance_loop fuel'
          (error_at_current (string_of_list_ascii (tok_start t)) st)
  end.

(** [advance]. *)
Definition advance (st : CState) : option CState :=
  let st :=
    set_parser st
      {| current := current (parser st); previous := current (parser st);
         had_error := had_error (parser st);
         panic_mode := panic_mode (parser st) |} in
  advance_loop (S (List.length (Lexer.current (lexer st)))) st.

Definition check (t : TokenType) (st : CState) : bool :=
  token_type_eqb (tok_type (current (parser st))) t.

(** [consume (type, message)]. *)
Definition consume (t : TokenType) (message : String.string) (st : CState)
    : option CState :=
  if check t st then advance st else Some (error_at_current message st).

(** [match (type)]. *)
Definition match_token (t : TokenType) (st : CState) : option (bool * CState) :=
  if negb (check t st) then Some (false, st)
  else st <- advance st ;; Some (true, st).

(** [emit_byte], [emit_bytes]. *)
Definition emit_byte (byte : Z) (st : CState) : CState :=
  set_compiler st
    (set_chunk (compiler st)
       (write_chunk (current_chunk st) byte (tok_line (previous (parser st))))).

Definition emit_bytes (byte_1 byte_2 : Z) (st : CState) : CState :=
  emit_byte byte_2 (emit_byte byte_1 st).

(** [emit_jump (instruction)]. *)
Definition emit_jump (instruction : Z) (st : CState) : Z * CState :=
  let st := emit_byte 255 (emit_byte 255 (emit_byte instruction st)) in
  (ch_count (current_chunk st) - 2, st).

(** [patch_jump (offset)]. *)
Definition patch_jump (offset : Z) (st : CState) : CState :=
  let jump := ch_count (current_chunk st) - offset - 2 in
  let st := if jump >? UINT16_MAX
            then error "Too much code to jump over." st else st in
  let ch := current_chunk st in
  let code1 := list_set (code ch) (Z.to_nat offset)
                 (Z.land (Z.shiftr jump 8) 255) in
  let code2 := list_set code1 (Z.to_nat (offset + 1)) (Z.land jump 255) in
  set_compiler st
    (set_chunk (compiler st)
       {| ch_capacity := ch_capacity ch; code := code2; lines := lines ch;
          constants := constants ch |}).

(** [emit_loop (loop_start)]. *)
Definition emit_loop (loop_start : Z) (st : CState) : CState :=
  let st := emit_byte (opcode OP_LOOP) st in
  let offset := ch_count (current_chunk st) - loop_start + 2 in
  let st := if offset >? UINT16_MAX
            then error "Loop body too large." st else st in
  emit_byte (Z.land offset 255) (emit_byte (Z.land (Z.shiftr offset 8) 255) st).

(** [make_constant (value)]. *)
Definition make_constant (v : Value) (st : CState) : Z * CState :=
  let '(constant, ch, vm') := add_constant (current_chunk st) v (vm st) in
  let st := set_vm (set_compiler st (set_chunk (compiler st) ch)) vm' in
  if constant >? UINT8_MAX
  then (0, error "Too many constants in one chunk." st)
  else (constant mod 256, st).

(** [emit_constant (value)]: the argument [make_constant (value)] is
    evaluated, then the two bytes are written. *)
Definition emit_constant (v : Value) (st : CState) : CState :=
  let (constant, st) := make_constant v st in
  emit_bytes (opcode OP_CONSTANT) constant st.

(** [copy_string] from the compiler: no collection is modelled here. *)
Definition intern (chars : list ascii) (st : CState)
    : option (LoxString * CState) :=
  '(s, vm') <- copy_string [] chars (vm st) ;;
  Some (s, set_vm st vm').

(** [identifier_constant (name)]. *)
Definition identifier_constant (name : Token) (st : CState)
    : option (Z * CState) :=
  '(s, st) <- intern (lexeme name) st ;;
  Some (make_constant (OBJ_VAL (s_addr s)) st).

(** [identifiers_equal (a, b)]. *)
Definition identifiers_equal (a b : Token) : bool :=
  if negb (tok_length a =? tok_length b) then false
  else memcmp_eq (tok_start a) (tok_start b) (tok_length a).

(** The loop of [resolve_local] over [locals[i]], [i] from
    [local_count - 1] down: [rev_locals] lists them in that order. *)
Fixpoint resolve_local_loop (rev_locals : list Local) (name : Token)
    (st : CState) : Z * CState :=
  match rev_locals with
  | [] => (-1, st)
  | local :: rest =>
      if identifiers_equal name (Compiler.name local) then
        let st := if depth local =? -1
                  then error "Can't read local variable in its own initializer." st
                  else st in
        (Z.of_nat (List.length rest), st)
      else resolve_local_loop rest name st
  end.

(** [resolve_local (compiler, name)]. *)
Definition resolve_local (c : Compiler) (name : Token) (st : CState)
    : Z * CState :=
  resolve_local_loop (rev (locals c)) name st.

(** The search loop of [add_upvalue]. *)
Fixpoint find_upvalue (ups : list Upvalue) (i : Z) (index : Z) (is_local : bool)
    : option Z :=
  match ups with
  | [] => None
  | u :: rest =>
      if (Compiler.index u =? index) && Bool.eqb (Compiler.is_local u) is_local
      then Some i
      else find_upvalue rest (i + 1) index is_local
  end.

(** [add_upvalue (compiler, index, is_local)]: the result and the compiler
    after the call. *)
Definition add_upvalue (c : Compiler) (index : Z) (is_local : bool)
    (st : CState) : Z * Compiler * CState :=
  let count := upvalue_count (function c) in
  match find_upvalue (upvalues c) 0 index is_local with
  | Some i => (i, c, st)
  | None =>
      if count >=? UINT8_MAX then
        (0, c, error "Too many closed variables in function." st)
      else
        (count,
         mkCompiler
           (mkFunction (arity (function c)) (count + 1) (chunk (function c))
              (fname (function c)))
           (type c) (locals c)
           (upvalues c ++ [{| index := index; is_local := is_local |}])
           (scope_depth c),
         st)
  end.

(** [compiler->enclosing->locals[local].is_captured = true]. *)
Definition capture_local (c : Compiler) (local : Z) : Compiler :=
  match nth_error (locals c) (Z.to_nat local) with
  | Some l =>
      set_locals c
        (list_set (locals c) (Z.to_nat local)
           {| name := name l; depth := depth l; is_captured := true |})
  | None => c
  end.

(** [resolve_upvalue (compiler, name)], by recursion along the chain of
    [enclosing] compilers [outer]: the result, the compiler and the chain
    after the call. *)
Fixpoint resolve_upvalue (c : Compiler) (outer : list Compiler) (name : Token)
    (st : CState) : Z * Compiler * list Compiler * CState :=
  match outer with
  | [] => (-1, c, outer, st)
  | e :: outer' =>
      let (local, st) := resolve_local e name st in
      if negb (local =? -1) then
        let e := capture_local e local in
        let '(r, c, st) := add_upvalue c (local mod 256) true st in
        (r, c, e :: outer', st)
      else
        let '(upvalue, e, outer', st) := resolve_upvalue e outer' name st in
        if negb (upvalue =? -1) then
          let '(r, c, st) := add_upvalue c (upvalue mod 256) false st in
          (r, c, e :: outer', st)
        else (-1, c, e :: outer', st)
  end.

(** [add_local (name)]. *)
Definition add_local (name : Token) (st : CState) : CState :=
  if local_count (compiler st) =? UINT8_MAX then
    error "Too many local variables in scope." st
  else
    set_compiler st
      (set_locals (compiler st)
         (locals (compiler st)
            ++ [{| name := name; depth := -1; is_captured := false |}])).

(** The loop of [declare_variable], over the locals from the last one
    down. *)
Fixpoint redeclaration_loop (rev_locals : list Local) (name : Token)
    (st : CState) : CState :=
  match rev_locals with
  | [] => st
  | local :: rest =>
      if negb (depth local =? -1) && (depth local <? scope_depth (compiler st))
      then st
      else
        redeclaration_loop rest name
          (if identifiers_equal name (Compiler.name local)
           then error "Already a variable with this name in this scope." st
           else st)
  end.

(** [declare_variable]. *)
Definition declare_variable (st : CState) : CState :=
  if scope_depth (compiler st) =? 0 then st
  else
    let name := previous (parser st) in
    let st := redeclaration_loop (rev (locals (compiler st))) name st in
    add_local name st.

(** The loop of [end_scope]: every round takes the last local away, so
    one round per local is enough. *)
Fixpoint end_scope_loop (fuel : nat) (st : CState) : CState :=
  match fuel with
  | O => st
  | S fuel' =>
      match rev (locals (compiler st)) with
      | [] => st
      | local :: rest =>
          if depth local >? scope_depth (compiler st) then
            let st :=
              if is_captured local
              then emit_byte (opcode OP_CLOSE_UPVALUE) st
              else emit_byte (opcode OP_POP) st in
            end_scope_loop fuel'
              (set_compiler st (set_locals (compiler st) (rev rest)))
          else st
      end
  end.

(** [end_scope]. *)
Definition end_scope (st : CState) : CState :=
  let c := compiler st in
  let st :=
    set_compiler st
      (mkCompiler (function c) (type c) (locals c) (upvalues c)
         (scope_depth c - 1)) in
  end_scope_loop (List.length (locals (compiler st))) st.

(** [synthetic_token (text)]: only [start] and [length] are set; the two
    other fields are never read. *)
Definition synthetic_token (text : String.string) : Token :=
  {| tok_type := TOKEN_IDENTIFIER; tok_start := list_ascii_of_string text;
     tok_length := Z.of_nat (String.length text); tok_line := 0 |}.

(** What [init_compiler (compiler, type)] stores in [*compiler], after
    [new_function ()] and the [copy_string] of the function's name: no
    upvalues, scope depth 0, and the local of slot 0 the VM owns. *)
Definition initial_compiler (t : FunctionType) (fn_name : option LoxString)
    : Compiler :=
  let reserved :=
    match t with
    | TYPE_FUNCTION => synthetic_token ""
    | _ => synthetic_token "this"
    end in
  {| function := {| arity := 0; upvalue_count := 0; chunk := init_chunk;
                    fname := fn_name |};
     type := t;
     locals := [{| name := reserved; depth := 0; is_captured := false |}];
     upvalues := [];
     scope_depth := 0 |}.

(** [init_compiler (compiler, type)] inside a function being compiled:
    [current] becomes the new compiler's [enclosing]. *)
Definition init_compiler (t : FunctionType) (st : CState) : option CState :=
  let st := set_enclosing st (compiler st :: enclosing st) in
  '(fn_name, st) <-
    match t with
    | TYPE_SCRIPT => Some (None, st)
    | _ => '(s, st) <- intern (lexeme (previous (parser st))) st ;;
           Some (Some s, st)
    end ;;
  Some (set_compiler st (initial_compiler t fn_name)).

(** The start of [compile (source)]: [init_lexer], [init_compiler] for the
    script (there is no enclosing compiler), the two flags cleared, and the
    first [advance].  The tokens of [parser] are not initialised before that
    [advance]; [no_token] stands for them. *)
Definition no_token : Token :=
  {| tok_type := TOKEN_EOF; tok_start := []; tok_length := 0; tok_line := 0 |}.

Definition script_state (source : list ascii) (vm : VM) : CState :=
  {| lexer := Lexer.init_lexer source;
     parser := {| current := no_token; previous := no_token;
                  had_error := false; panic_mode := false |};
     compiler := initial_compiler TYPE_SCRIPT None;
     enclosing := [];
     current_class := [];
     vm := vm;
     diagnostics := [] |}.

Definition compile_begin (source : list ascii) (vm : VM) : option CState :=
  advance (script_state source vm).

(** The [rules] table. *)
Definition get_rule (t : TokenType) : ParseRule :=
  match t with
  | TOKEN_LEFT_PAREN => mkRule (Some grouping_fn) (Some call_fn) PREC_CALL
  | TOKEN_DOT => mkRule None (Some dot_fn) PREC_CALL
  | TOKEN_MINUS => mkRule (Some unary_fn) (Some binary_fn) PREC_TERM
  | TOKEN_PLUS => mkRule (Some unary_fn) (Some binary_fn) PREC_TERM
  | TOKEN_STAR => mkRule None (Some binary_fn) PREC_FACTOR
  | TOKEN_SLASH => mkRule None (Some binary_fn) PREC_FACTOR
  | TOKEN_BANG => mkRule (Some unary_fn) None PREC_NONE
  | TOKEN_BANG_EQUAL => mkRule None (Some binary_fn) PREC_EQUALITY
  | TOKEN_EQUAL_EQUAL => mkRule None (Some binary_fn) PREC_EQUALITY
  | TOKEN_GREATER => mkRule None (Some binary_fn) PREC_COMPARISON
  | TOKEN_GREATER_EQUAL => mkRule None (Some binary_fn) PREC_COMPARISON
  | TOKEN_LESS => mkRule None (Some binary_fn) PREC_COMPARISON
  | TOKEN_LESS_EQUAL => mkRule None (Some binary_fn) PREC_COMPARISON
  | TOKEN_IDENTIFIER => mkRule (Some variable_fn) None PREC_NONE
  | TOKEN_STRING => mkRule (Some string_fn) None PREC_NONE
  | TOKEN_FLOAT64 => mkRule (Some number_fn) None PREC_NONE
  | TOKEN_INT => mkRule (Some number_fn) None PREC_NONE
  | TOKEN_AND => mkRule None (Some and_fn) PREC_AND
  | TOKEN_FALSE => mkRule (Some literal_fn) None PREC_NONE
  | TOKEN_NIL => mkRule (Some literal_fn) None PREC_NONE
  | TOKEN_OR => mkRule None (Some or_fn) PREC_OR
  | TOKEN_SUPER => mkRule (Some super_fn) None PREC_NONE
  | TOKEN_THIS => mkRule (Some this_fn) None PREC_NONE
  | TOKEN_TRUE => mkRule (Some literal_fn) None PREC_NONE
  | TOKEN_RIGHT_PAREN | TOKEN_LEFT_BRACE | TOKEN_RIGHT_BRACE | TOKEN_COMMA
  | TOKEN_SEMICOLON | TOKEN_EQUAL | TOKEN_BREAK | TOKEN_CLASS | TOKEN_ELSE
  | TOKEN_FOR | TOKEN_FUN | TOKEN_IF | TOKEN_RETURN | TOKEN_VAR | TOKEN_WHILE
  | TOKEN_ERROR | TOKEN_EOF => mkRule None None PREC_NONE
  end.

(** The loop of [str_to_d]: the token's characters without the
    underscores, as they are written to [buf]. *)
Fixpoint strip_underscores (chars : list ascii) : list ascii :=
  match chars with
  | [] => []
  | c :: rest =>
      if negb (Lexer.char_eqb c "_"%char) then c :: strip_underscores rest
      else strip_underscores rest
  end.

Section Expressions.

(** [strtod (buf, NULL)] on a NUL-terminated buffer. *)
Variable strtod : list ascii -> float.

(** [str_to_d (token)]: [buf] has 100 bytes, zeroed; the text must leave
    the terminator in place, which it does when at most 99 characters are
    written.  Beyond that the function writes or reads outside [buf]:
    [None]. *)
Definition str_to_d (token : Token) : option float :=
  let text := strip_underscores (lexeme token) in
  if Z.of_nat (List.length text) <=? 99 then Some (strtod text) else None.

(** The recursive calls of [parse_precedence] made by the parse functions,
    and the fuel their own loops get. *)
Variable parse_precedence_rec : Precedence -> CState -> option CState.
Variable fuel : nat.

Definition expression (st : CState) : option CState :=
  parse_precedence_rec PREC_ASSIGNMENT st.

(** The [do ... while (match (TOKEN_COMMA))] loop of [argument_list], on a
    [uint8_t] counter. *)
Fixpoint argument_loop (n : nat) (arg_count : Z) (st : CState)
    : option (Z * CState) :=
  match n with
  | O => None
  | S n' =>
      st <- expression st ;;
      let st := if arg_count =? 255
                then error "Can't have more than 255 arguments." st else st in
      let arg_count := (arg_count + 1) mod 256 in
      '(m, st) <- match_token TOKEN_COMMA st ;;
      if m then argument_loop n' arg_count st else Some (arg_count, st)
  end.

(** [argument_list]. *)
Definition argument_list (st : CState) : option (Z * CState) :=
  '(arg_count, st) <-
    (if negb (check TOKEN_RIGHT_PAREN st) then argument_loop fuel 0 st
     else Some (0, st)) ;;
  st <- consume TOKEN_RIGHT_PAREN "Expect ')' after arguments" st ;;
  Some (arg_count, st).

Definition and_ (can_assign : bool) (st : CState) : option CState :=
  let (end_jump, st) := emit_jump (opcode OP_JUMP_IF_FALSE) st in
  let st := emit_byte (opcode OP_POP) st in
  st <- parse_precedence_rec PREC_AND st ;;
  Some (patch_jump end_jump st).

Definition or_ (can_assign : bool) (st : CState) : option CState :=
  let (else_jump, st) := emit_jump (opcode OP_JUMP_IF_FALSE) st in
  let (end_jump, st) := emit_jump (opcode OP_JUMP) st in
  let st := patch_jump else_jump st in
  let st := emit_byte (opcode OP_POP) st in
  st <- parse_precedence_rec PREC_OR st ;;
  Some (patch_jump end_jump st).

Definition binary (can_assign : bool) (st : CState) : option CState :=
  let operator_type := tok_type (previous (parser st)) in
  let rule := get_rule operator_type in
  st <- parse_precedence_rec (prec_succ (precedence rule)) st ;;
  Some
    match operator_type with
    | TOKEN_PLUS => emit_byte (opcode OP_ADD) st
    | TOKEN_MINUS => emit_byte (opcode OP_SUB) st
    | TOKEN_STAR => emit_byte (opcode OP_MUL) st
    | TOKEN_SLASH => emit_byte (opcode OP_DIV) st
    | TOKEN_EQUAL_EQUAL => emit_byte (opcode OP_EQUAL) st
    | TOKEN_BANG_EQUAL => emit_bytes (opcode OP_EQUAL) (opcode OP_NOT) st
    | TOKEN_GREATER => emit_byte (opcode OP_GREATER) st
    | TOKEN_GREATER_EQUAL => emit_bytes (opcode OP_LESS) (opcode OP_NOT) st
    | TOKEN_LESS => emit_byte (opcode OP_LESS) st
    | TOKEN_LESS_EQUAL => emit_bytes (opcode OP_GREATER) (opcode OP_NOT) st
    | _ => st
    end.

Definition call_ (can_assign : bool) (st : CState) : option CState :=
  '(arg_count, st) <- argument_list st ;;
  Some (emit_bytes (opcode OP_CALL) arg_count st).

Definition dot (can_assign : bool) (st : CState) : option CState :=
  st <- consume TOKEN_IDENTIFIER "Expect property name after '.'." st ;;
  '(name, st) <- identifier_constant (previous (parser st)) st ;;
  '(assign, st) <-
    (if can_assign then match_token TOKEN_EQUAL st else Some (false, st)) ;;
  if assign then
    st <- expression st ;;
    Some (emit_bytes (opcode OP_SET_PROPERTY) name st)
  else
    '(invoke, st) <- match_token TOKEN_LEFT_PAREN st ;;
    if invoke then
      '(arg_count, st) <- argument_list st ;;
      Some (emit_byte arg_count (emit_bytes (opcode OP_INVOKE) name st))
    else Some (emit_bytes (opcode OP_GET_PROPERTY) name st).

Definition literal (can_assign : bool) (st : CState) : option CState :=
  Some
    match tok_type (previous (parser st)) with
    | TOKEN_FALSE => emit_byte (opcode OP_FALSE) st
    | TOKEN_TRUE => emit_byte (opcode OP_TRUE) st
    | TOKEN_NIL => emit_byte (opcode OP_NIL) st
    | _ => st
    end.

Definition grouping (can_assign : bool) (st : CState) : option CState :=
  st <- expression st ;;
  consume TOKEN_RIGHT_PAREN "Expect ')' after expression." st.

Definition number (can_assign : bool) (st : CState) : option CState :=
  d <- str_to_d (previous (parser st)) ;;
  Some (emit_constant (NUMBER_VAL d) st).

(** [string]: the literal without its quotes is interned; the value is
    passed to [make_constant] and then to [emit_constant]. *)
Definition string (can_assign : bool) (st : CState) : option CState :=
  let token := previous (parser st) in
  '(s, st) <-
    intern (firstn (Z.to_nat (tok_length token - 2)) (tl (tok_start token))) st ;;
  let v := OBJ_VAL (s_addr s) in
  let (_, st) := make_constant v st in
  Some (emit_constant v st).

(** [named_variable (name, can_assign)]. *)
Definition named_variable (name : Token) (can_assign : bool) (st : CState)
    : option CState :=
  let (local, st) := resolve_local (compiler st) name st in
  '(arg, set_op, get_op, st) <-
    (if negb (local =? -1) then
       Some (local, opcode OP_SET_LOCAL, opcode OP_GET_LOCAL, st)
     else
       let '(upvalue, c, outer, st) :=
         resolve_upvalue (compiler st) (enclosing st) name st in
       let st := set_enclosing (set_compiler st c) outer in
       if negb (upvalue =? -1) then
         Some (upvalue, opcode OP_SET_UPVALUE, opcode OP_GET_UPVALUE, st)
       else
         '(global, st) <- identifier_constant name st ;;
         Some (global, opcode OP_SET_GLOBAL, opcode OP_GET_GLOBAL, st)) ;;
  '(assign, st) <-
    (if can_assign then match_token TOKEN_EQUAL st else Some (false, st)) ;;
  if assign then
    st <- expression st ;;
    Some (emit_bytes set_op (arg mod 256) st)
  else Some (emit_bytes get_op (arg mod 256) st).

Definition variable (can_assign : bool) (st : CState) : option CState :=
  named_variable (previous (parser st)) can_assign st.

Definition super_ (can_assign : bool) (st : CState) : option CState :=
  let st :=
    match current_class st with
    | [] => error "Can't use 'super' outside of a class." st
    | cc :: _ =>
        if negb (has_superclass cc)
        then error "Can't use 'super' in a class that has no superclass." st
        else st
    end in
  st <- consume TOKEN_DOT "Expect '.' after 'super'." st ;;
  st <- consume TOKEN_IDENTIFIER "Expect superclass method name" st ;;
  '(name, st) <- identifier_constant (previous (parser st)) st ;;
  st <- named_variable (synthetic_token "this") false st ;;
  '(invoke, st) <- match_token TOKEN_LEFT_PAREN st ;;
  if invoke then
    '(arg_count, st) <- argument_list st ;;
    st <- named_variable (synthetic_token "super") false st ;;
    Some (emit_byte arg_count (emit_bytes (opcode OP_INVOKE_SUPER) name st))
  else
    st <- named_variable (synthetic_token "super") false st ;;
    Some (emit_bytes (opcode OP_GET_SUPER) name st).

Definition this_ (can_assign : bool) (st : CState) : option CState :=
  match current_class st with
  | [] => Some (error "Can't use 'this' outside of a class." st)
  | _ :: _ => variable false st
  end.

(** [unary]: the operand, then the operator's instruction.  Only
    [TOKEN_MINUS] and [TOKEN_BANG] have a case; for any other operator the
    [default] returns with nothing written. *)
Definition unary (can_assign : bool) (st : CState) : option CState :=
  let operator_type := tok_type (previous (parser st)) in
  st <- parse_precedence_rec PREC_UNARY st ;;
  Some
    match operator_type with
    | TOKEN_MINUS => emit_byte (opcode OP_NEGATE) st
    | TOKEN_BANG => emit_byte (opcode OP_NOT) st
    | _ => st
    end.

(** Calling through a [ParseFn]. *)
Definition run_rule (fn : ParseFn) (can_assign : bool) (st : CState)
    : option CState :=
  match fn with
  | grouping_fn => grouping can_assign st
  | call_fn => call_ can_assign st
  | dot_fn => dot can_assign st
  | unary_fn => unary can_assign st
  | binary_fn => binary can_assign st
  | variable_fn => variable can_assign st
  | string_fn => string can_assign st
  | number_fn => number can_assign st
  | and_fn => and_ can_assign st
  | or_fn => or_ can_assign st
  | literal_fn => literal can_assign st
  | super_fn => super_ can_assign st
  | this_fn => this_ can_assign st
  end.

(** The [while] loop of [parse_precedence].  A token whose rule has no
    [infix] function has precedence [PREC_NONE] in the table and never
    enters the loop at a precedence above it; calling a null [infix] has no
    defined behaviour ([None]). *)
Fixpoint infix_loop (n : nat) (prec : Precedence) (can_assign : bool)
    (st : CState) : option CState :=
  if prec_le prec (precedence (get_rule (tok_type (current (parser st))))) then
    match n with
    | O => None
    | S n' =>
        st <- advance st ;;
        match infix (get_rule (tok_type (previous (parser st)))) with
        | None => None
        | Some fn =>
            st <- run_rule fn can_assign st ;;
            infix_loop n' prec can_assign st
        end
    end
  else Some st.

(** The body of [parse_precedence (precedence)]. *)
Definition parse_precedence_body (prec : Precedence) (st : CState)
    : option CState :=
  st <- advance st ;;
  match prefix (get_rule (tok_type (previous (parser st)))) with
  | None => Some (error "Expect expression." st)
  | Some prefix_rule =>
      let can_assign := prec_le prec PREC_ASSIGNMENT in
      st <- run_rule prefix_rule can_assign st ;;
      st <- infix_loop fuel prec can_assign st ;;
      '(m, st) <-
        (if can_assign then match_token TOKEN_EQUAL st else Some (false, st)) ;;
      Some (if m then error "Invalid assignment target." st else st)
  end.

End Expressions.

(** [parse_precedence]: [fuel] bounds the depth of the recursion and the
    length of every loop inside; [None] is a run that needs more. *)
Fixpoint parse_precedence (strtod : list ascii -> float) (fuel : nat)
    (prec : Precedence) (st : CState) : option CState :=
  match fuel with
  | O => None
  | S fuel' =>
      parse_precedence_body strtod (parse_precedence strtod fuel') fuel'
        prec st
  end.

End Compiler.
(** * Specification *)

(** ** The hash table: probing and well-formedness *)

(** A capacity the table can have: a power of two, at most 2^32. *)
Definition pow2_capacity (capacity : Z) : Prop :=
  exists k, 3 <= k <= 32 /\ capacity = 2 ^ k.

(** The slot the probe for hash [h] visits in round [n]. *)
Definition slot (capacity h n : Z) : Z := (h + n) mod capacity.

(** A slot is empty when it has no key and the value nil; a slot that is
    not empty holds a key or a tombstone. *)
Definition is_empty (e : Tbl.Entry) : bool :=
  match Tbl.key e with
  | None => IS_NIL (Tbl.value e)
  | Some _ => false
  end.

(** The slots in use: keys and tombstones. *)
Fixpoint used_count (es : list Tbl.Entry) : Z :=
  match es with
  | [] => 0
  | e :: rest => (if is_empty e then 0 else 1) + used_count rest
  end.

(** The arrays the lemmas are about: [capacity] slots, [capacity] a power
    of two up to 2^32, and at least one slot empty. *)
Record probe_ok (es : list Tbl.Entry) (capacity : Z) : Prop := {
  po_len : Z.of_nat (List.length es) = capacity;
  po_cap : pow2_capacity capacity;
  po_room : used_count es < capacity
}.

(** In [find_entry], a remembered tombstone lies on the probe of [h],
    before round [n]. *)
Definition tombstone_ok (es : list Tbl.Entry) (capacity h : Z)
    (tombstone : option Z) (n : Z) : Prop :=
  match tombstone with
  | None => True
  | Some t =>
      exists nt, 0 <= nt < n /\ t = slot capacity h nt
            /\ Tbl.key (Tbl.entry_at es t) = None
  end.

(** Slot [i] holds the key [k]. *)
Definition keyed_at (es : list Tbl.Entry) (capacity i : Z) (k : LoxString)
    : Prop :=
  0 <= i < capacity /\ Tbl.key (Tbl.entry_at es i) = Some k.

(** The keys are where a probe finds them: a key's slot is on its probe,
    with no empty slot before it; hashes are not negative; two slots never
    hold keys at one address. *)
Record slots_ok (es : list Tbl.Entry) (capacity : Z) : Prop := {
  so_len : Z.of_nat (List.length es) = capacity;
  so_hash : forall i k, keyed_at es capacity i k -> 0 <= s_hash k;
  so_path : forall i k, keyed_at es capacity i k ->
    exists n, 0 <= n < capacity /\ slot capacity (s_hash k) n = i
         /\ forall m, 0 <= m < n ->
              is_empty (Tbl.entry_at es (slot capacity (s_hash k) m)) = false;
  so_addr : forall i j k k',
    keyed_at es capacity i k -> keyed_at es capacity j k' ->
    s_addr k = s_addr k' -> i = j
}.

(** [k] is a key of the table. *)
Definition has_key (t : Tbl.Table) (k : LoxString) : Prop :=
  exists i, keyed_at (Tbl.entries t) (Tbl.capacity t) i k.

(** [count] counts the slots in use, tombstones too, and stays within the
    load factor. *)
Record wf_table (t : Tbl.Table) : Prop := {
  wf_slots : slots_ok (Tbl.entries t) (Tbl.capacity t);
  wf_cap : Tbl.capacity t = 0 \/ pow2_capacity (Tbl.capacity t);
  wf_count : Tbl.count t = used_count (Tbl.entries t);
  wf_load : 4 * Tbl.count t <= 3 * Tbl.capacity t
}.

(** The keys of an array, in slot order. *)
Fixpoint keys_of (es : list Tbl.Entry) : list LoxString :=
  match es with
  | [] => []
  | e :: rest =>
      match Tbl.key e with
      | Some k => k :: keys_of rest
      | None => keys_of rest
      end
  end.

(** An array without tombstones: a slot without a key is empty. *)
Definition no_tombstones (es : list Tbl.Entry) : Prop :=
  forall i, Tbl.key (Tbl.entry_at es i) = None ->
       is_empty (Tbl.entry_at es i) = true.



(** ** Runs and states of the examples *)







(** The state of the VM at the [OP_CALL 1] of
    [class A {} A(1);]: the argument and the class are on the stack above
    the script's closure, one frame is active. *)
Definition C1_init : LoxString :=
  {| s_addr := 1; s_length := 4; s_chars := ["i"; "n"; "i"; "t"]%char;
     s_hash := Hash.hash_string ["i"; "n"; "i"; "t"]%char |}.

Definition C1_name : LoxString :=
  {| s_addr := 4; s_length := 1; s_chars := ["A"%char];
     s_hash := Hash.hash_string ["A"%char] |}.

Definition C1_vm : VM :=
  {| frames := [{| closure := 3; ip := 9; slots := 0 |}];
     stack := [NUMBER_VAL 1; OBJ_VAL 5; OBJ_VAL 3];
     strings := Tbl.init_table;
     init_string := Some C1_init;
     globals := Tbl.init_table;
     open_upvalues := [];
     objects := [(5, ObjClass C1_name Tbl.init_table);
                 (4, ObjString C1_name);
                 (3, ObjClosure 2 []);
                 (2, ObjFunction 0 0 init_chunk None);
                 (1, ObjString C1_init)];
     next_addr := 6;
     stderr := [] |}.







(** ** String literals *)


(** The compiler at the literal of the source ["x";]: the token has been
    consumed and [string] is about to run. *)
Definition C9_state : Compiler.CState :=
  Eval vm_compute in
    match Compiler.compile_begin ["034"; "x"; "034"; ";"]%char fresh_vm with
    | Some st =>
        match Compiler.advance st with
        | Some st' => st'
        | None => st
        end
    | None => Compiler.script_state [] fresh_vm
    end.

(** ** The open upvalues *)

(** The list holds upvalues that point into the stack, at strictly
    decreasing slots. *)
Definition upvalues_ok (l : list LoxUpvalue) : Prop :=
  Forall (fun u => location u = InStack (open_slot u)) l
  /\ StronglySorted Z.gt (map open_slot l).

(** ** Number tokens *)








(** ** The expression parser *)

(** One parser stands for another with less fuel: what the first returns,
    the second returns too. *)
Definition rec_le
    (r1 r2 : Compiler.Precedence -> Compiler.CState -> option Compiler.CState)
    : Prop :=
  forall p s r, r1 p s = Some r -> r2 p s = Some r.

(** [strtod] is not called by the programs below. *)
Definition C10_strtod (text : list ascii) : float := PrimFloat.zero.

(** An expression at the start of a script: the state after
    [parse_precedence (PREC_ASSIGNMENT)], its code and what was reported. *)
Definition C10_compile (fuel : nat) (source : String.string)
    : option Compiler.CState :=
  match Compiler.compile_begin (list_ascii_of_string source) fresh_vm with
  | Some st =>
      Compiler.parse_precedence C10_strtod fuel Compiler.PREC_ASSIGNMENT st
  | None => None
  end.

Definition C10_code (r : option Compiler.CState) : list Z :=
  match r with
  | Some st => code (Compiler.current_chunk st)
  | None => []
  end.

Definition C10_diagnostics (r : option Compiler.CState) : list String.string :=
  match r with
  | Some st => Compiler.diagnostics st
  | None => []
  end.

(** The programs [+a * (b + c);] and [a * (b + c);]. *)
Definition C10_state (source : String.string) : Compiler.CState :=
  match Compiler.compile_begin (list_ascii_of_string source) fresh_vm with
  | Some st => st
  | None => Compiler.script_state [] fresh_vm
  end.

Definition C10_st : Compiler.CState :=
  Eval vm_compute in C10_state "+a * (b + c);".

Definition C10_st1 : Compiler.CState :=
  Eval vm_compute in
    match Compiler.advance C10_st with
    | Some st => st
    | None => C10_st
    end.

Definition C10_st_e : Compiler.CState :=
  Eval vm_compute in C10_state "a * (b + c);".

Definition C10_r_u : Compiler.CState :=
  Eval vm_compute in
    match Compiler.parse_precedence C10_strtod 6 Compiler.PREC_UNARY C10_st1 with
    | Some st => st
    | None => C10_st1
    end.

Definition C10_r_e : Compiler.CState :=
  Eval vm_compute in
    match Compiler.parse_precedence C10_strtod 6 Compiler.PREC_ASSIGNMENT
            C10_st_e with
    | Some st => st
    | None => C10_st_e
    end.

(* ------------------------------------------------------------------ *)
(** * The table as a finite map *)

(** The table as a finite map: [k] is bound to [v]. *)
Definition slot_binding (es : list Tbl.Entry) (capacity : Z) (k : LoxString)
    (v : Value) : Prop :=
  exists i, keyed_at es capacity i k /\ Tbl.value (Tbl.entry_at es i) = v.

Definition binding (t : Tbl.Table) (k : LoxString) (v : Value) : Prop :=
  slot_binding (Tbl.entries t) (Tbl.capacity t) k v.

(** The address of [k] names one string object: a key of the table at that
    address is [k] itself. *)
Definition coherent (t : Tbl.Table) (k : LoxString) : Prop :=
  forall k', has_key t k' -> s_addr k' = s_addr k -> k' = k.


(** Runs of the two operations that change a table. *)
Inductive TableOp : Type :=
| TSet (k : LoxString) (v : Value)
| TDelete (k : LoxString).

Definition run_table_op (op : TableOp) (t : Tbl.Table) : option Tbl.Table :=
  match op with
  | TSet k v => option_map fst (Tbl.table_set t k v)
  | TDelete k => option_map fst (Tbl.table_delete t k)
  end.

Fixpoint run_table_ops (ops : list TableOp) (t : Tbl.Table)
    : option Tbl.Table :=
  match ops with
  | [] => Some t
  | op :: rest =>
      match run_table_op op t with
      | Some t' => run_table_ops rest t'
      | None => None
      end
  end.

Definition op_key (op : TableOp) : LoxString :=
  match op with TSet k _ => k | TDelete k => k end.

(** The reference: a map from the addresses of the keys to values. *)
Definition ref_step (m : Z -> option Value) (op : TableOp) : Z -> option Value :=
  match op with
  | TSet k v => fun a => if a =? s_addr k then Some v else m a
  | TDelete k => fun a => if a =? s_addr k then None else m a
  end.

Definition ref_run (ops : list TableOp) : Z -> option Value :=
  fold_left ref_step ops (fun _ => None).

(** Two string objects at one address are one object; hashes are what a
    [uint32_t] holds. *)
Definition key_eqb (a b : LoxString) : bool :=
  (s_addr a =? s_addr b) && (s_length a =? s_length b)
  && chars_eqb (s_chars a) (s_chars b) && (s_hash a =? s_hash b).

Definition keys_okb (ks : list LoxString) : bool :=
  forallb (fun k =>
             (0 <=? s_hash k)
             && forallb (fun k' => negb (s_addr k =? s_addr k') || key_eqb k k')
                  ks) ks.

(** What holds of a table after [n] operations on keys of [U], the string
    objects in play: the table is well formed, its keys are in [U], and it
    binds what the map [m] binds. *)
Definition table_inv (U : LoxString -> Prop) (n : Z) (m : Z -> option Value)
    (t : Tbl.Table) : Prop :=
  wf_table t
  /\ (forall k, has_key t k -> U k)
  /\ (forall k v, U k -> (binding t k v <-> m (s_addr k) = Some v))
  /\ Tbl.count t <= n
  /\ Tbl.capacity t <= Z.max 8 (3 * (n + 1)).

(** The reference for [table_add_all]: the entries of [from], in slot
    order, written into the map. *)
Definition add_all_ref (es : list Tbl.Entry) (m : Z -> option Value)
    : Z -> option Value :=
  fold_left
    (fun m e =>
       match Tbl.key e with
       | Some k => ref_step m (TSet k (Tbl.value e))
       | None => m
       end) es m.

(** String objects for the examples: the hash is [hash_string] of the
    characters. *)
Definition string_object (addr : Z) (chars : String.string) : LoxString :=
  {| s_addr := addr; s_length := Z.of_nat (String.length chars);
     s_chars := list_ascii_of_string chars;
     s_hash := Hash.hash_string (list_ascii_of_string chars) |}.

(** Ten keys, enough for the table to grow from 8 to 16 slots. *)
Definition X_keys : list LoxString :=
  Eval vm_compute in
    map (fun n => string_object (Z.of_nat n)
                    (String (ascii_of_nat (96 + n)) EmptyString))
      (seq 1 10).

Definition X_ops : list TableOp :=
  map (fun k => TSet k (OBJ_VAL (s_addr k))) X_keys
  ++ [TDelete (string_object 3 "c"); TSet (string_object 5 "e") NIL_VAL;
      TDelete (string_object 7 "g"); TSet (string_object 3 "c") (BOOL_VAL true)].

Definition X2_table : Tbl.Table :=
  Eval vm_compute in
    match run_table_ops X_ops Tbl.init_table with
    | Some t => t
    | None => Tbl.init_table
    end.

(** A superclass table with [a], [b], [c] and a subclass table with [c],
    [d]. *)
Definition X3_ops_from : list TableOp :=
  [TSet (string_object 1 "a") (OBJ_VAL 11);
   TSet (string_object 2 "b") (OBJ_VAL 12);
   TSet (string_object 3 "c") (OBJ_VAL 13);
   TDelete (string_object 2 "b")].

Definition X3_ops_to : list TableOp :=
  [TSet (string_object 3 "c") (OBJ_VAL 23);
   TSet (string_object 4 "d") (OBJ_VAL 24)].

Definition X3_from : Tbl.Table :=
  Eval vm_compute in
    match run_table_ops X3_ops_from Tbl.init_table with
    | Some t => t
    | None => Tbl.init_table
    end.

Definition X3_to : Tbl.Table :=
  Eval vm_compute in
    match run_table_ops X3_ops_to Tbl.init_table with
    | Some t => t
    | None => Tbl.init_table
    end.

(** A machine whose globals are the table of [X_ops], with one value on
    the stack. *)
Definition X4_vm : VM :=
  set_stack (set_globals fresh_vm X2_table) [NUMBER_VAL PrimFloat.one].

(** ** The lexer and the compiler *)

(** What the scanners of [lex_token] do to the position: they never go
    back, and the token's line is between the lines before and after. *)
Definition scans (n : nat) (l : Z) (r : Token * Lexer.Lexer) : Prop :=
  (List.length (Lexer.current (snd r)) <= n)%nat
  /\ l <= tok_line (fst r) <= Lexer.line (snd r)
  /\ tok_type (fst r) <> TOKEN_EOF.

(** The reserved words, as [identifier_type] spells them. *)
Definition keywords : list (String.string * TokenType) :=
  [("and", TOKEN_AND); ("break", TOKEN_BREAK); ("class", TOKEN_CLASS);
   ("else", TOKEN_ELSE); ("false", TOKEN_FALSE); ("for", TOKEN_FOR);
   ("fun", TOKEN_FUN); ("if", TOKEN_IF); ("nil", TOKEN_NIL); ("or", TOKEN_OR);
   ("return", TOKEN_RETURN); ("super", TOKEN_SUPER); ("this", TOKEN_THIS);
   ("true", TOKEN_TRUE); ("var", TOKEN_VAR); ("while", TOKEN_WHILE)]%string.

(** The reference for [identifier_type]: the word is looked up whole. *)
Definition keyword_type (word : list ascii) : TokenType :=
  match find (fun p => chars_eqb word (list_ascii_of_string (fst p))) keywords with
  | Some p => snd p
  | None => TOKEN_IDENTIFIER
  end.

(** The text between [start] and [current]. *)
Definition scanned (lx : Lexer.Lexer) : list ascii :=
  firstn (Z.to_nat (Lexer.offset lx)) (Lexer.start lx).

(** The characters a string literal may hold: anything but the quote and
    the terminator. *)
Definition string_char (c : ascii) : bool :=
  negb (Lexer.char_eqb c "034"%char) && negb (Lexer.char_eqb c Lexer.NUL).

(** The number of newlines in a text. *)
Definition newlines (text : list ascii) : Z :=
  Z.of_nat (List.length (filter (fun c => Lexer.char_eqb c "010"%char) text)).

(** A lexer that has scanned [fun] of the source [fun(]. *)
Definition X7_lexer : Lexer.Lexer :=
  {| Lexer.start := list_ascii_of_string "fun(";
     Lexer.current := list_ascii_of_string "(";
     Lexer.line := 1 |}.

(** A string literal of two lines, followed by [+ 1]. *)
Definition X8_body : list ascii := ["a"; "010"; "b"]%char.

Definition X8_rest : list ascii := list_ascii_of_string " + 1".

Definition X8_lexer : Lexer.Lexer :=
  Lexer.init_lexer ("034"%char :: X8_body ++ "034"%char :: X8_rest).

(** The state of the compiler at the start of an empty script. *)
Definition X_state : Compiler.CState := Compiler.script_state [] fresh_vm.

(** ** The open upvalues and the heap *)

Fixpoint decreasing (l : list Z) : bool :=
  match l with
  | [] => true
  | x :: rest => forallb (fun y => y <? x) rest && decreasing rest
  end.

Fixpoint distinct (l : list Z) : bool :=
  match l with
  | [] => true
  | x :: rest => negb (existsb (Z.eqb x) rest) && distinct rest
  end.

Definition is_open (u : LoxUpvalue) : bool :=
  match location u with InStack _ => true | InClosed => false end.

(** The object at the address of [u] is an upvalue. *)
Definition upvalue_at (vm : VM) (u : LoxUpvalue) : bool :=
  match deref vm (uv_addr u) with
  | Some (ObjUpvalue _) => true
  | _ => false
  end.

(** The list [vm.open_upvalues] as [capture_upvalue] and [close_upvalues]
    keep it: open upvalues at strictly decreasing slots, each a heap object
    of its own. *)
Definition upvalue_heap_okb (vm : VM) : bool :=
  forallb is_open (open_upvalues vm)
  && decreasing (open_slots vm)
  && distinct (map uv_addr (open_upvalues vm))
  && forallb (upvalue_at vm) (open_upvalues vm)
  && forallb (fun ao => fst ao <? next_addr vm) (objects vm).

(** What [close_upvalues] stores in the heap for [u]. *)
Definition closed_upvalue (vm : VM) (u : LoxUpvalue) : Obj :=
  ObjUpvalue {| uv_addr := uv_addr u; location := InClosed;
                closed := stack_slot vm (open_slot u) |}.

(** Four values on the stack, upvalues for the slots 1, 3 and 2. *)
Definition X14_vm : VM :=
  run_upvalue_ops [UCapture 1; UCapture 3; UCapture 2]
    (set_stack fresh_vm [OBJ_VAL 103; OBJ_VAL 102; OBJ_VAL 101; OBJ_VAL 100]).

(** ** Reachability in the heap *)

(** The pointer a value holds, if any. *)
Definition value_refs (v : Value) : list Z :=
  match v with OBJ_VAL object => [object] | _ => [] end.

(** The pointers of a table: keys and values, slot by slot. *)
Fixpoint table_refs_loop (n : nat) (i : Z) (table : Tbl.Table) : list Z :=
  match n with
  | O => []
  | S n' =>
      let entry := Tbl.entry_at (Tbl.entries table) i in
      GC.string_pointer (Tbl.key entry) :: value_refs (Tbl.value entry)
      ++ table_refs_loop n' (i + 1) table
  end.

Definition table_refs (table : Tbl.Table) : list Z :=
  table_refs_loop (Z.to_nat (Tbl.capacity table)) 0 table.

(** The pointers an object holds. *)
Definition children (o : Obj) : list Z :=
  match o with
  | ObjBoundMethod receiver method => value_refs receiver ++ [method]
  | ObjClass name methods => s_addr name :: table_refs methods
  | ObjClosure function upvalues => function :: upvalues
  | ObjFunction _ _ chunk name =>
      GC.string_pointer name :: flat_map value_refs (values (constants chunk))
  | ObjInstance klass fields => klass :: table_refs fields
  | ObjUpvalue u => value_refs (closed u)
  | ObjNative _ => []
  | ObjString _ => []
  end.

(** The pointers the machine holds outside the heap. *)
Definition roots (compiler_roots : list Z) (vm : VM) : list Z :=
  flat_map value_refs (rev (stack vm))
  ++ map closure (rev (frames vm))
  ++ map uv_addr (open_upvalues vm)
  ++ table_refs (globals vm)
  ++ compiler_roots
  ++ [GC.string_pointer (init_string vm)].

(** An object is reachable if a root points to it or a reachable object
    does. *)
Inductive reachable (objects : list (Z * Obj)) (from : list Z) : Z -> Prop :=
| reach_root a : In a from -> a <> 0 -> reachable objects from a
| reach_child a o b :
    reachable objects from a -> heap_lookup objects a = Some o ->
    In b (children o) -> b <> 0 -> reachable objects from b.

(** A pointer is [NULL] or the address of an object. *)
Definition valid_pointer (objects : list (Z * Obj)) (a : Z) : bool :=
  (a =? 0)
  || match heap_lookup objects a with Some _ => true | None => false end.

(** No pointer dangles: the roots and the pointers in the objects are
    valid. *)
Definition pointers_valid (objects : list (Z * Obj)) (from : list Z) : bool :=
  forallb (valid_pointer objects) from
  && forallb (fun ao => forallb (valid_pointer objects) (children (snd ao)))
       objects.

(** The heap of a machine: no two objects at one address, none at [NULL],
    no dangling pointer. *)
Definition heap_closedb (compiler_roots : list Z) (vm : VM) : bool :=
  distinct (map fst (objects vm))
  && forallb (fun ao => negb (fst ao =? 0)) (objects vm)
  && pointers_valid (objects vm) (roots compiler_roots vm).

(** The marks the mark phase leaves, starting with no object marked. *)
Definition mark_phase_marks (compiler_roots : list Z) (vm : VM)
    : option GC.Marks :=
  match GC.mark_roots compiler_roots vm GC.no_marks with
  | None => None
  | Some g => GC.trace_references (objects vm) g
  end.

(** Reachability, computed by the mark phase. *)
Definition reachableb (compiler_roots : list Z) (vm : VM) (a : Z) : bool :=
  match mark_phase_marks compiler_roots vm with
  | Some g => GC.is_marked g a
  | None => false
  end.

(** The counter [bytes_allocated] after the blocks are released. *)
Definition released (bytes : Z) (blocks : list Z) : Z :=
  fold_left (fun b old_size => size_t (b + (0 - old_size))) blocks bytes.

(** Releasing the blocks never leaves the counter above [next_gc]: no
    collection starts. *)
Fixpoint quietb (bytes next : Z) (blocks : list Z) : bool :=
  match blocks with
  | [] => true
  | old_size :: rest =>
      (0 <=? old_size)
      && (size_t (bytes + (0 - old_size)) <=? next)
      && quietb (size_t (bytes + (0 - old_size))) next rest
  end.

(** The blocks of the objects of a list, in the order [sweep] releases
    them. *)
Definition blocks_of (sz : GC.Sizes) (l : list (Z * Obj)) : list Z :=
  flat_map (fun ao => GC.free_blocks sz (snd ao)) l.

(** The objects a collection frees: those the mark phase leaves
    unmarked. *)
Definition garbage (compiler_roots : list Z) (vm : VM) : list (Z * Obj) :=
  filter (fun ao => negb (reachableb compiler_roots vm (fst ao))) (objects vm).

(** What holds of the marks while the collector marks: the marked objects
    are objects of the heap that are reachable, each marked once; the gray
    objects are marked; and an object that is marked and not gray (a black
    object) points to marked objects only. *)
Definition mark_inv (objects : list (Z * Obj)) (from : list Z) (g : GC.Marks)
    : Prop :=
  NoDup (GC.marked g)
  /\ (forall a, In a (GC.marked g) ->
        a <> 0 /\ heap_lookup objects a <> None /\ reachable objects from a)
  /\ (forall a, In a (GC.gray_stack g) -> In a (GC.marked g))
  /\ (forall a o b,
        In a (GC.marked g) -> ~ In a (GC.gray_stack g) ->
        heap_lookup objects a = Some o -> In b (children o) -> b <> 0 ->
        In b (GC.marked g)).

(** What [sweep] leaves of the marks: the objects it passed are
    unmarked. *)
Definition swept_marks (passed : list (Z * Obj)) (g : GC.Marks) : GC.Marks :=
  {| GC.marked :=
       filter (fun a => negb (existsb (Z.eqb a) (map fst passed))) (GC.marked g);
     GC.gray_stack := GC.gray_stack g |}.

(** A heap of eight objects: a closure on the stack, its function, the
    function's name and constant, and a closed upvalue; a string, a class
    and an instance that nothing points to. *)
Definition X18_vm : VM :=
  {| frames := [];
     stack := [OBJ_VAL 4; NIL_VAL];
     strings := Tbl.init_table;
     init_string := None;
     globals := Tbl.init_table;
     open_upvalues := [];
     objects :=
       [(8, ObjClass (string_object 6 "garbage") Tbl.init_table);
        (7, ObjInstance 8 Tbl.init_table);
        (6, ObjString (string_object 6 "garbage"));
        (5, ObjUpvalue {| uv_addr := 5; location := InClosed;
                          closed := OBJ_VAL 3 |});
        (4, ObjClosure 2 [5]);
        (3, ObjString (string_object 3 "x"));
        (2, ObjFunction 0 1
              {| ch_capacity := 0; code := []; lines := [];
                 constants := {| va_capacity := 8; values := [OBJ_VAL 3] |} |}
              (Some (string_object 1 "f")));
        (1, ObjString (string_object 1 "f"))];
     next_addr := 9;
     stderr := [] |}.

(** The sizes of a 64-bit platform. *)
Definition X18_sizes : GC.Sizes :=
  {| GC.sizeof_int := 4;
     GC.sizeof_pointer := 8;
     GC.sizeof_Entry := 16;
     GC.sizeof_LoxBoundMethod := 40;
     GC.sizeof_LoxClass := 48;
     GC.sizeof_LoxClosure := 48;
     GC.sizeof_LoxFunction := 96;
     GC.sizeof_LoxString := 48;
     GC.sizeof_LoxUpvalue := 48 |}.

(** The heap of eight objects with the counter below the threshold. *)
Definition X18_state : GC.State :=
  {| GC.machine := X18_vm;
     GC.marks := GC.no_marks;
     GC.bytes_allocated := 1000;
     GC.next_gc := 2000 |}.

(** The heap without the class and the instance: the string that nothing
    points to is the first object, and the counter is above the threshold
    by more than the eight bytes of its characters. *)
Definition X19_state : GC.State :=
  {| GC.machine := set_objects X18_vm (skipn 2 (objects X18_vm));
     GC.marks := GC.no_marks;
     GC.bytes_allocated := 2060;
     GC.next_gc := 2000 |}.

(** The slot [local] has an open upvalue already. *)
Definition captured (local : Z) (vm : VM) : bool :=
  match snd (walk_upvalues local (open_upvalues vm)) with
  | u :: _ => location_eqb (location u) local
  | [] => false
  end.

(** Open upvalues for the slots 3 and 1 of a stack of four values and a
    string that nothing points to; the counter is 40 bytes below the
    threshold. *)
Definition X15_state : GC.State :=
  {| GC.machine :=
       run_upvalue_ops [UCapture 1; UCapture 3]
         (set_stack
            (set_next_addr
               (set_objects fresh_vm
                  [(1, ObjString (string_object 1 "garbage"))]) 2)
            [NIL_VAL; NIL_VAL; NIL_VAL; NIL_VAL]);
     GC.marks := GC.no_marks;
     GC.bytes_allocated := 1960;
     GC.next_gc := 2000 |}.

(** ** The locals of the innermost scope *)

(** The locals that [declare_variable] compares the new name with, the
    last declared first: those above the last initialised local of an
    enclosing scope. *)
Fixpoint current_scope (rev_locals : list Compiler.Local) (scope_depth : Z)
    : list Compiler.Local :=
  match rev_locals with
  | [] => []
  | local :: rest =>
      if negb (Compiler.depth local =? -1)
         && (Compiler.depth local <? scope_depth)
      then []
      else local :: current_scope rest scope_depth
  end.

(** A local of the innermost scope has the name. *)
Definition declared_in_scope (name : Token) (c : Compiler.Compiler) : bool :=
  existsb (fun local => Compiler.identifiers_equal name (Compiler.name local))
    (current_scope (rev (Compiler.locals c)) (Compiler.scope_depth c)).

(** In a block, after [var a] of an enclosing block and [var b] of this
    one; the token just consumed is [a] or [b]. *)
Definition X21_state (name : String.string) : Compiler.CState :=
  let c := Compiler.compiler X_state in
  Compiler.set_parser
    (Compiler.set_compiler X_state
       {| Compiler.function := Compiler.function c;
          Compiler.type := Compiler.type c;
          Compiler.locals :=
            Compiler.locals c
            ++ [{| Compiler.name := Compiler.synthetic_token "a";
                   Compiler.depth := 1; Compiler.is_captured := false |};
                {| Compiler.name := Compiler.synthetic_token "b";
                   Compiler.depth := 2; Compiler.is_captured := false |}];
          Compiler.upvalues := Compiler.upvalues c;
          Compiler.scope_depth := 2 |})
    {| Compiler.current := Compiler.no_token;
       Compiler.previous := Compiler.synthetic_token name;
       Compiler.had_error := false; Compiler.panic_mode := false |}.

(** ** The line counter of the lexer *)

(** [q] is what is left of [p] after characters other than newlines. *)
Definition same_line (p q : list ascii) : Prop :=
  exists consumed, p = consumed ++ q /\ newlines consumed = 0.

(** The lexer has gone from the text [p] on line [l] to [lx']: it has
    consumed a piece of [p], and counted its newlines. *)
Definition counted (p : list ascii) (l : Z) (lx' : Lexer.Lexer) : Prop :=
  exists consumed,
    p = consumed ++ Lexer.current lx'
    /\ Lexer.line lx' = l + newlines consumed.

(** ** Properties and methods *)

(** The receiver is an instance with a field of the name, or the instance
    of a class with a method of the name. *)
Definition has_property (vm : VM) (receiver : Value) (name : LoxString)
    : bool :=
  match receiver with
  | OBJ_VAL instance =>
      match deref vm instance with
      | Some (ObjInstance klass fields) =>
          match Tbl.table_get fields name with
          | Some (Some _) => true
          | Some None =>
              match deref vm klass with
              | Some (ObjClass _ methods) =>
                  match Tbl.table_get methods name with
                  | Some (Some _) => true
                  | _ => false
                  end
              | _ => false
              end
          | None => false
          end
      | _ => false
      end
  | _ => false
  end.

(** No object is at the address the next allocation gives or above it. *)
Definition heap_fresh (vm : VM) : bool :=
  forallb (fun ao => fst ao <? next_addr vm) (objects vm).

(** The machine after an object was linked at the next address. *)
Definition linked (o : Obj) (vm : VM) : VM := snd (allocate_object o vm).

(** Two machines that differ in the objects linked since only. *)
Definition agree (limit : Z) (vm_u vm_f : VM) : Prop :=
  frames vm_u = frames vm_f
  /\ stack vm_u = stack vm_f
  /\ stderr vm_u = stderr vm_f
  /\ globals vm_u = globals vm_f
  /\ strings vm_u = strings vm_f
  /\ open_upvalues vm_u = open_upvalues vm_f
  /\ (forall a, a < limit -> deref vm_u a = deref vm_f a).

(** An instance of a class [C] with one method [m] of one parameter; the
    stack holds the instance under one argument. *)
Definition X23_name : LoxString := string_object 1 "m".

Definition X23_methods : Tbl.Table :=
  Eval vm_compute in
    match Tbl.table_set Tbl.init_table X23_name (OBJ_VAL 3) with
    | Some (methods, _) => methods
    | None => Tbl.init_table
    end.

Definition X23_state : GC.State :=
  {| GC.machine :=
       {| frames := [];
          stack := [NIL_VAL; OBJ_VAL 6];
          strings := Tbl.init_table;
          init_string := None;
          globals := Tbl.init_table;
          open_upvalues := [];
          objects :=
            [(6, ObjInstance 5 Tbl.init_table);
             (5, ObjClass (string_object 4 "C") X23_methods);
             (4, ObjString (string_object 4 "C"));
             (3, ObjClosure 2 []);
             (2, ObjFunction 1 0 init_chunk (Some X23_name));
             (1, ObjString X23_name)];
          next_addr := 7;
          stderr := [] |};
     GC.marks := GC.no_marks;
     GC.bytes_allocated := 1000;
     GC.next_gc := 2000 |}.

(** The machine [invoke] leaves. *)
Definition X23_fused : VM :=
  Eval vm_compute in
    match invoke (fun _ _ => NIL_VAL) X23_name 1 (GC.machine X23_state) with
    | Some (_, vm) => vm
    | None => fresh_vm
    end.

(** ** The variable an upvalue stands for *)

(** The local has the name. *)
Definition named (name : Token) (local : Compiler.Local) : bool :=
  Compiler.identifiers_equal name (Compiler.name local).

(** The upvalue [r] of the function of [c], which the functions of [outer]
    enclose, stands for the variable [name]: either it is marked
    [is_local] and its index is the slot of the last local of the function
    around with that name, a local marked as captured; or the function
    around has no local of that name and the index is an upvalue of it
    that stands for the variable. *)
Fixpoint refers (name : Token) (c : Compiler.Compiler)
    (outer : list Compiler.Compiler) (r : Z) : Prop :=
  match outer with
  | [] => False
  | e :: outer' =>
      match nth_error (Compiler.upvalues c) (Z.to_nat r) with
      | None => False
      | Some u =>
          if Compiler.is_local u then
            exists before local after,
              Compiler.locals e = before ++ local :: after
              /\ Compiler.index u = Z.of_nat (List.length before)
              /\ named name local = true
              /\ Compiler.is_captured local = true
              /\ Forall (fun l => named name l = false) after
          else
            Forall (fun l => named name l = false) (Compiler.locals e)
            /\ refers name e outer' (Compiler.index u)
      end
  end.

(** The arrays of a compiler as the compiler keeps them: [upvalue_count]
    counts the upvalues, fewer than 255, and there are no more than 256
    locals. *)
Definition compiler_okb (c : Compiler.Compiler) : bool :=
  (Compiler.upvalue_count (Compiler.function c)
   =? Z.of_nat (List.length (Compiler.upvalues c)))
  && (Z.of_nat (List.length (Compiler.upvalues c)) <? 255)
  && (Z.of_nat (List.length (Compiler.locals c)) <=? 256).

(** Three functions, one inside the other; the outermost has a local
    [a] in slot 1. *)
Definition X24_outer : list Compiler.Compiler :=
  let f := Compiler.initial_compiler Compiler.TYPE_FUNCTION None in
  [f;
   Compiler.set_locals f
     (Compiler.locals f
      ++ [{| Compiler.name := Compiler.synthetic_token "a";
             Compiler.depth := 1; Compiler.is_captured := false |}])].

(** ** Scopes *)

(** The instruction [end_scope] writes for a local. *)
Definition scope_exit (local : Compiler.Local) : Z :=
  if Compiler.is_captured local then opcode OP_CLOSE_UPVALUE else opcode OP_POP.

(** The last of the locals, if there is one, is not deeper than [d]. *)
Definition ends_below (d : Z) (locals : list Compiler.Local) : bool :=
  match rev locals with
  | [] => true
  | local :: _ => Compiler.depth local <=? d
  end.

(** In a block at depth 2 with the locals [a], of the block around, and
    [b] and [c], of which [b] is captured. *)
Definition X25_state : Compiler.CState :=
  let c := Compiler.compiler X_state in
  Compiler.set_compiler X_state
    (Compiler.mkCompiler (Compiler.function c) (Compiler.type c)
       (Compiler.locals c
        ++ [{| Compiler.name := Compiler.synthetic_token "a";
               Compiler.depth := 1; Compiler.is_captured := false |};
            {| Compiler.name := Compiler.synthetic_token "b";
               Compiler.depth := 2; Compiler.is_captured := true |};
            {| Compiler.name := Compiler.synthetic_token "c";
               Compiler.depth := 2; Compiler.is_captured := false |}])
       (Compiler.upvalues c) 2).

(** ** value.h: NaN boxing

    With [CLOX_ENABLE_NAN_BOXING] (set in [common.h]) a [Value] is a
    [uint64_t].  A double is stored as its eight bytes ([num_to_value] and
    [value_to_num] are a [memcpy]), so a number is modelled by its bit
    pattern. *)

Module NanBox.

Definition SIGN_BIT : Z := 0x8000000000000000.
Definition QNAN : Z := 0x7ffc000000000000.

Definition TAG_NIL : Z := 1.
Definition TAG_FALSE : Z := 2.
Definition TAG_TRUE : Z := 3.

Definition FALSE_VAL : Z := Z.lor QNAN TAG_FALSE.
Definition TRUE_VAL : Z := Z.lor QNAN TAG_TRUE.
Definition NIL_VAL : Z := Z.lor QNAN TAG_NIL.

Definition IS_BOOL (value : Z) : bool := Z.lor value 1 =? TRUE_VAL.
Definition IS_NIL (value : Z) : bool := value =? NIL_VAL.
Definition IS_NUMBER (value : Z) : bool := negb (Z.land value QNAN =? QNAN).
Definition IS_OBJ (value : Z) : bool :=
  Z.land value (Z.lor QNAN SIGN_BIT) =? Z.lor QNAN SIGN_BIT.

Definition AS_BOOL (value : Z) : bool := value =? TRUE_VAL.

(** [~(SIGN_BIT | QNAN)] on [uint64_t]. *)
Definition AS_OBJ (value : Z) : Z :=
  Z.land value (Z.lnot (Z.lor SIGN_BIT QNAN) mod 2 ^ 64).

Definition BOOL_VAL (b : bool) : Z := if b then TRUE_VAL else FALSE_VAL.

(** [OBJ_VAL (obj)], [obj] the pointer as a [uintptr_t]. *)
Definition OBJ_VAL (obj : Z) : Z := Z.lor (Z.lor SIGN_BIT QNAN) obj.

(** [NUMBER_VAL (num)] and [AS_NUMBER (value)], on the bits of the
    double. *)
Definition num_to_value (num : Z) : Z := num.
Definition value_to_num (value : Z) : Z := value.
Definition NUMBER_VAL (num : Z) : Z := num_to_value num.
Definition AS_NUMBER (value : Z) : Z := value_to_num value.

End NanBox.

(** The exponent field of a double, and the two highest bits of its
    fraction, from the bit pattern. *)
Definition double_exponent (bits : Z) : Z := (bits / 2 ^ 52) mod 2 ^ 11.
Definition double_fraction_top (bits : Z) : Z := (bits / 2 ^ 50) mod 2 ^ 2.

(** * Facts *)

(** ** hash_string *)



(** The loop of [hash_string] is the loop of FNV-1a. *)
Lemma hash_loop_eq_fnv1a_fold h key :
  Hash.hash_loop h key = Hash.fnv1a_fold h key.
Proof. revert h; induction key; intros; simpl; auto. Qed.


(** ** Facts about arrays and the probe sequence *)

Lemma list_set_length {A : Type} (l : list A) n x :
  List.length (list_set l n x) = List.length l.
Proof.
  revert n; induction l as [|h t IH]; intros [|n]; simpl; auto.
Qed.

Lemma list_set_nth_same {A : Type} (l : list A) n x d :
  (n < List.length l)%nat -> nth n (list_set l n x) d = x.
Proof.
  revert n; induction l as [|h t IH]; intros [|n] H; simpl in *; try lia; auto.
  apply IH; lia.
Qed.

Lemma list_set_nth_other {A : Type} (l : list A) n m x d :
  n <> m -> nth m (list_set l n x) d = nth m l d.
Proof.
  revert n m; induction l as [|h t IH]; intros [|n] [|m] H; simpl; auto.
  congruence.
Qed.

Lemma uint32_small z : 0 <= z < 2 ^ 32 -> uint32 z = z.
Proof. intros H. unfold uint32. apply Z.mod_small. exact H. Qed.

Lemma pow2_capacity_bounds capacity :
  pow2_capacity capacity -> 8 <= capacity <= 2 ^ 32.
Proof.
  intros (k & Hk & ->). split.
  - change 8 with (2 ^ 3). apply Z.pow_le_mono_r; lia.
  - apply Z.pow_le_mono_r; lia.
Qed.

Lemma MOD_CAPACITY_mod capacity v :
  pow2_capacity capacity -> 0 <= v ->
  Tbl.MOD_CAPACITY capacity v = v mod capacity.
Proof.
  intros (k & Hk & ->) Hv. unfold Tbl.MOD_CAPACITY.
  replace (2 ^ k - 1) with (Z.ones k) by (rewrite Z.ones_equiv; lia).
  apply Z.land_ones. lia.
Qed.

Lemma slot_range capacity h n :
  0 < capacity -> 0 <= slot capacity h n < capacity.
Proof. intros H. unfold slot. apply Z.mod_pos_bound. exact H. Qed.

Lemma home_slot capacity h :
  pow2_capacity capacity -> 0 <= h ->
  uint32 (Tbl.MOD_CAPACITY capacity h) = slot capacity h 0.
Proof.
  intros Hc Hh. rewrite MOD_CAPACITY_mod by assumption.
  pose proof (pow2_capacity_bounds _ Hc) as Hb.
  unfold slot. rewrite Z.add_0_r. apply uint32_small.
  pose proof (Z.mod_pos_bound h capacity ltac:(lia)). lia.
Qed.

Lemma next_index_slot capacity h n :
  pow2_capacity capacity ->
  Tbl.next_index capacity (slot capacity h n) = slot capacity h (n + 1).
Proof.
  intros Hc. pose proof (pow2_capacity_bounds _ Hc) as Hb.
  pose proof (slot_range capacity h n ltac:(lia)) as Hs.
  unfold Tbl.next_index.
  assert (Hnext : Tbl.MOD_CAPACITY capacity (uint32 (slot capacity h n + 1))
                  = slot capacity h (n + 1)).
  { destruct (Z.eq_dec (slot capacity h n + 1) (2 ^ 32)) as [E|E].
    - assert (capacity = 2 ^ 32) by lia.
      unfold uint32. rewrite E, Z.mod_same by lia.
      rewrite MOD_CAPACITY_mod by (assumption || lia).
      rewrite Z.mod_0_l by lia.
      unfold slot in *. replace (h + (n + 1)) with ((h + n) + 1) by lia.
      rewrite <- Z.add_mod_idemp_l by lia. rewrite E. subst capacity.
      rewrite Z.mod_same; lia.
    - rewrite uint32_small by lia.
      rewrite MOD_CAPACITY_mod by (assumption || lia).
      unfold slot. rewrite Z.add_mod_idemp_l by lia. f_equal. lia. }
  rewrite Hnext. apply uint32_small.
  pose proof (slot_range capacity h (n + 1) ltac:(lia)). lia.
Qed.

(** Every slot is visited in some round below [capacity]. *)
Lemma slot_reaches capacity h i :
  0 < capacity -> 0 <= i < capacity ->
  exists n, 0 <= n < capacity /\ slot capacity h n = i.
Proof.
  intros Hc Hi. exists ((i - h) mod capacity). split.
  - apply Z.mod_pos_bound; lia.
  - unfold slot. rewrite Z.add_mod_idemp_r by lia.
    replace (h + (i - h)) with i by lia. apply Z.mod_small; lia.
Qed.

Lemma slot_inj capacity h n m :
  0 < capacity -> 0 <= n < capacity -> 0 <= m < capacity ->
  slot capacity h n = slot capacity h m -> n = m.
Proof.
  intros Hc Hn Hm E. unfold slot in E.
  assert (D : (n - m) mod capacity = 0).
  { replace (n - m) with ((h + n) - (h + m)) by lia.
    rewrite Zminus_mod, E, Z.sub_diag. apply Z.mod_0_l. lia. }
  apply Z.mod_divide in D; [|lia]. destruct D as [q Hq].
  assert (q = 0) by nia. lia.
Qed.

(** Either no number below [d] satisfies a test, or one does. *)
Lemma classic_first (d : nat) (p : nat -> bool) :
  (forall m, (m < d)%nat -> p m = false)
  \/ exists m, (m < d)%nat /\ p m = true.
Proof.
  induction d as [|d IH].
  - left. intros m H. lia.
  - destruct IH as [F|(m & Hm & Hp)].
    + destruct (p d) eqn:E.
      * right. exists d. split; [lia|exact E].
      * left. intros m Hm. destruct (Nat.eq_dec m d) as [->|N]; auto.
        apply F. lia.
    + right. exists m. split; [lia|exact Hp].
Qed.

(** ** Facts about the table *)

Lemma used_count_range es :
  0 <= used_count es <= Z.of_nat (List.length es).
Proof.
  induction es as [|e rest IH]; simpl List.length; simpl used_count; [lia|].
  destruct (is_empty e); lia.
Qed.

Lemma used_count_full es :
  used_count es < Z.of_nat (List.length es) ->
  exists i, (i < List.length es)%nat /\ is_empty (nth i es Tbl.empty_entry) = true.
Proof.
  induction es as [|e rest IH]; simpl List.length; simpl used_count; [lia|].
  intros H. destruct (is_empty e) eqn:E.
  - exists 0%nat. simpl. split; [lia|exact E].
  - destruct IH as (i & Hi & He); [lia|].
    exists (S i). simpl. split; [lia|exact He].
Qed.

Lemma used_count_set es n e :
  (n < List.length es)%nat ->
  used_count (list_set es n e)
  = used_count es
    - (if is_empty (nth n es Tbl.empty_entry) then 0 else 1)
    + (if is_empty e then 0 else 1).
Proof.
  revert n; induction es as [|h t IH]; intros [|n] H; simpl in *; try lia.
  rewrite IH by lia. lia.
Qed.

Lemma used_count_repeat n : used_count (repeat Tbl.empty_entry n) = 0.
Proof. induction n; simpl; auto. Qed.

Lemma entry_at_set_same es i e :
  0 <= i < Z.of_nat (List.length es) ->
  Tbl.entry_at (list_set es (Z.to_nat i) e) i = e.
Proof.
  intros H. unfold Tbl.entry_at. apply list_set_nth_same. lia.
Qed.

Lemma entry_at_set_other es i j e :
  0 <= i -> 0 <= j -> i <> j ->
  Tbl.entry_at (list_set es (Z.to_nat i) e) j = Tbl.entry_at es j.
Proof.
  intros Hi Hj H. unfold Tbl.entry_at. apply list_set_nth_other. lia.
Qed.

Lemma entry_at_repeat n i :
  Tbl.entry_at (repeat Tbl.empty_entry n) i = Tbl.empty_entry.
Proof.
  unfold Tbl.entry_at. generalize (Z.to_nat i) as m.
  induction n; intros [|m]; simpl; auto.
Qed.

Lemma probe_ok_empty_slot es capacity h :
  probe_ok es capacity ->
  exists n, 0 <= n < capacity
       /\ is_empty (Tbl.entry_at es (slot capacity h n)) = true.
Proof.
  intros [Hl Hc Hr]. pose proof (pow2_capacity_bounds _ Hc).
  destruct (used_count_full es) as (i & Hi & He); [lia|].
  destruct (slot_reaches capacity h (Z.of_nat i)) as (n & Hn & Hs); try lia.
  exists n. split; [exact Hn|]. rewrite Hs. unfold Tbl.entry_at.
  rewrite Nat2Z.id. exact He.
Qed.

(** The first empty slot on the probe of [h]. *)
Lemma first_empty_slot es capacity h :
  probe_ok es capacity ->
  exists n, 0 <= n < capacity
       /\ is_empty (Tbl.entry_at es (slot capacity h n)) = true
       /\ forall m, 0 <= m < n ->
            is_empty (Tbl.entry_at es (slot capacity h m)) = false.
Proof.
  intros Hp. destruct (probe_ok_empty_slot es capacity h Hp) as (n0 & Hn0 & He0).
  assert (G : forall d : nat, forall n, Z.of_nat d = n ->
            is_empty (Tbl.entry_at es (slot capacity h n)) = true ->
            exists n', 0 <= n' <= n
              /\ is_empty (Tbl.entry_at es (slot capacity h n')) = true
              /\ forall m, 0 <= m < n' ->
                   is_empty (Tbl.entry_at es (slot capacity h m)) = false).
  { induction d as [d IH] using lt_wf_ind. intros n Hd He.
    destruct (classic_first d (fun m =>
       is_empty (Tbl.entry_at es (slot capacity h (Z.of_nat m))))) as [F|(m & Hm & Hem)].
    - exists n. repeat split; try lia; auto.
      intros m Hm. specialize (F (Z.to_nat m) ltac:(lia)).
      rewrite Z2Nat.id in F by lia. exact F.
    - destruct (IH m Hm (Z.of_nat m) eq_refl Hem) as (n' & Hn' & He' & Hall).
      exists n'. repeat split; try lia; auto. }
  destruct (G (Z.to_nat n0) n0 ltac:(lia) He0) as (n' & Hn' & He' & Hall).
  exists n'. repeat split; try lia; auto.
Qed.

(** The probes of [find_entry] and [table_find_string], round by round.
    [N] is the round of the first empty slot on the probe of [h]. *)
Section Probe.

Variables (es : list Tbl.Entry) (capacity h N : Z).
Hypothesis Hok : probe_ok es capacity.
Hypothesis HN : 0 <= N < capacity.
Hypothesis HN_empty : is_empty (Tbl.entry_at es (slot capacity h N)) = true.
Hypothesis HN_first :
  forall m, 0 <= m < N -> is_empty (Tbl.entry_at es (slot capacity h m)) = false.

Lemma find_entry_loop_spec (k : LoxString) :
  forall (d : nat) n tombstone fuel,
    n + Z.of_nat d = N -> 0 <= n -> tombstone_ok es capacity h tombstone n ->
    (d < fuel)%nat ->
    exists n',
      Tbl.find_entry_loop fuel es capacity k (slot capacity h n) tombstone
      = Some (slot capacity h n')
      /\ 0 <= n' <= N
      /\ (Tbl.key (Tbl.entry_at es (slot capacity h n')) = None
          \/ exists k', Tbl.key (Tbl.entry_at es (slot capacity h n')) = Some k'
                   /\ ptr_eqb k' k = true).
Proof.
  induction d as [|d IH]; intros n tombstone fuel Hn Hn0 Ht Hf;
    (destruct fuel as [|fuel]; [lia|]); simpl.
  - assert (n = N) by lia. subst n.
    pose proof HN_empty as E. unfold is_empty in E.
    destruct (Tbl.key (Tbl.entry_at es (slot capacity h N))) eqn:K; [discriminate|].
    rewrite E. destruct tombstone as [t|].
    + destruct Ht as (nt & Hnt & -> & Kt).
      exists nt. repeat split; try lia. left. exact Kt.
    + exists N. repeat split; try lia. left. exact K.
  - pose proof (HN_first n ltac:(lia)) as U. unfold is_empty in U.
    rewrite next_index_slot by apply Hok.
    destruct (Tbl.key (Tbl.entry_at es (slot capacity h n))) as [k'|] eqn:K.
    + destruct (ptr_eqb k' k) eqn:P.
      * exists n. repeat split; try lia. right. exists k'. auto.
      * apply IH; try lia.
        destruct tombstone as [t|]; simpl; auto.
        destruct Ht as (nt & Hnt & -> & Kt). exists nt. repeat split; auto; lia.
    + rewrite U. apply IH; try lia.
      destruct tombstone as [t|]; simpl.
      * destruct Ht as (nt & Hnt & -> & Kt). exists nt. repeat split; auto; lia.
      * exists n. repeat split; auto; lia.
Qed.


End Probe.

(** [find_entry] returns: the slot is on the probe of the key, every slot
    before it on the probe is in use, and it holds no key or a key at the
    address asked for. *)
Lemma find_entry_spec es capacity k :
  probe_ok es capacity -> 0 <= s_hash k ->
  exists n,
    Tbl.find_entry es capacity k = Some (slot capacity (s_hash k) n)
    /\ 0 <= n < capacity
    /\ (forall m, 0 <= m < n ->
          is_empty (Tbl.entry_at es (slot capacity (s_hash k) m)) = false)
    /\ (Tbl.key (Tbl.entry_at es (slot capacity (s_hash k) n)) = None
        \/ exists k',
             Tbl.key (Tbl.entry_at es (slot capacity (s_hash k) n)) = Some k'
             /\ ptr_eqb k' k = true).
Proof.
  intros Hok Hh.
  destruct (first_empty_slot es capacity (s_hash k) Hok) as (N & HN & HE & HF).
  unfold Tbl.find_entry. rewrite home_slot by (apply Hok || exact Hh).
  edestruct (find_entry_loop_spec es capacity (s_hash k) N)
    with (k := k) (d := Z.to_nat N) (n := 0) (tombstone := @None Z)
         (fuel := Z.to_nat capacity)
    as (n' & Hr & Hn' & Hkey); try eassumption; simpl; auto; try lia.
  exists n'. repeat split; auto; try lia.
  intros m Hm. apply HF. lia.
Qed.


(** ** The invariant of a table *)

Lemma wf_init_table : wf_table Tbl.init_table.
Proof.
  split; simpl; try lia; auto.
  split; simpl; try lia; intros i; intros; unfold keyed_at in *; lia.
Qed.

Lemma wf_probe_ok t :
  wf_table t -> Tbl.capacity t <> 0 ->
  probe_ok (Tbl.entries t) (Tbl.capacity t).
Proof.
  intros [Hs Hc Hn Hl] H0. destruct Hc as [|Hc]; [contradiction|].
  pose proof (pow2_capacity_bounds _ Hc).
  split; auto; [apply Hs | lia].
Qed.

Lemma wf_count_zero_capacity t :
  wf_table t -> Tbl.count t <> 0 -> Tbl.capacity t <> 0.
Proof.
  intros [Hs Hc Hn Hl] H0 E.
  pose proof (used_count_range (Tbl.entries t)). lia.
Qed.

Lemma tombstone_used : is_empty Tbl.tombstone_entry = false.
Proof. reflexivity. Qed.

Lemma keyed_used es capacity i k :
  keyed_at es capacity i k -> is_empty (Tbl.entry_at es i) = false.
Proof. intros [_ H]. unfold is_empty. rewrite H. reflexivity. Qed.

(** Putting a tombstone on a key. *)
Lemma slots_ok_bury es capacity d k0 :
  slots_ok es capacity -> keyed_at es capacity d k0 ->
  let es' := list_set es (Z.to_nat d) Tbl.tombstone_entry in
  slots_ok es' capacity
  /\ used_count es' = used_count es
  /\ (forall i k, keyed_at es' capacity i k -> keyed_at es capacity i k)
  /\ (forall i k, keyed_at es capacity i k -> i <> d -> keyed_at es' capacity i k).
Proof.
  intros Hs Hd es'.
  assert (Hd' : 0 <= d < Z.of_nat (List.length es))
    by (rewrite (so_len _ _ Hs); apply Hd).
  assert (Hsame : Tbl.entry_at es' d = Tbl.tombstone_entry)
    by (apply entry_at_set_same; exact Hd').
  assert (Hother : forall j, 0 <= j -> j <> d ->
            Tbl.entry_at es' j = Tbl.entry_at es j)
    by (intros; apply entry_at_set_other; lia).
  assert (Hback : forall i k, keyed_at es' capacity i k -> keyed_at es capacity i k).
  { intros i k [Hi Hk]. destruct (Z.eq_dec i d) as [->|N].
    - rewrite Hsame in Hk. discriminate.
    - rewrite Hother in Hk by lia. split; auto. }
  assert (Hused : forall j, 0 <= j -> is_empty (Tbl.entry_at es j) = false ->
            is_empty (Tbl.entry_at es' j) = false).
  { intros j Hj U. destruct (Z.eq_dec j d) as [->|N].
    - rewrite Hsame. reflexivity.
    - rewrite Hother by lia. exact U. }
  split; [|split; [|split]].
  - split.
    + unfold es'. rewrite list_set_length. apply Hs.
    + intros i k H. eapply so_hash; eauto.
    + intros i k H.
      destruct (so_path _ _ Hs i k (Hback _ _ H)) as (n & Hn & Hsl & Hall).
      exists n. split; [exact Hn|]. split; [exact Hsl|].
      intros m Hm. apply Hused.
      * apply slot_range. lia.
      * apply Hall. exact Hm.
    + intros i j k k' H1 H2. eapply so_addr; eauto.
  - unfold es'. rewrite used_count_set by lia.
    fold (Tbl.entry_at es d). rewrite (keyed_used _ _ _ _ Hd). simpl. lia.
  - apply Hback.
  - intros i k [Hi Hk] N. split; [exact Hi|]. rewrite Hother by lia. exact Hk.
Qed.

(** Writing a new key where [find_entry] pointed. *)
Lemma slots_ok_insert es capacity k v n :
  slots_ok es capacity -> 0 <= s_hash k -> 0 <= n < capacity ->
  (forall m, 0 <= m < n ->
     is_empty (Tbl.entry_at es (slot capacity (s_hash k) m)) = false) ->
  Tbl.key (Tbl.entry_at es (slot capacity (s_hash k) n)) = None ->
  (forall i k', keyed_at es capacity i k' -> s_addr k' <> s_addr k) ->
  let d := slot capacity (s_hash k) n in
  let es' := list_set es (Z.to_nat d) {| Tbl.key := Some k; Tbl.value := v |} in
  slots_ok es' capacity
  /\ keyed_at es' capacity d k
  /\ (forall i k', keyed_at es' capacity i k' ->
        (i = d /\ k' = k) \/ keyed_at es capacity i k')
  /\ (forall i k', keyed_at es capacity i k' -> keyed_at es' capacity i k').
Proof.
  intros Hs Hh Hn Hpath Hnone Hfresh d es'.
  assert (Hdr : 0 <= d < capacity) by (apply slot_range; lia).
  assert (Hd' : 0 <= d < Z.of_nat (List.length es))
    by (rewrite (so_len _ _ Hs); exact Hdr).
  assert (Hsame : Tbl.entry_at es' d = {| Tbl.key := Some k; Tbl.value := v |})
    by (apply entry_at_set_same; exact Hd').
  assert (Hother : forall j, 0 <= j -> j <> d ->
            Tbl.entry_at es' j = Tbl.entry_at es j)
    by (intros; apply entry_at_set_other; lia).
  assert (Hback : forall i k', keyed_at es' capacity i k' ->
            (i = d /\ k' = k) \/ keyed_at es capacity i k').
  { intros i k' [Hi Hk]. destruct (Z.eq_dec i d) as [->|N].
    - rewrite Hsame in Hk. simpl in Hk. left. split; congruence.
    - rewrite Hother in Hk by lia. right. split; auto. }
  assert (Hfwd : forall i k', keyed_at es capacity i k' -> keyed_at es' capacity i k').
  { intros i k' [Hi Hk]. destruct (Z.eq_dec i d) as [->|N].
    - fold d in Hnone. congruence.
    - split; auto. rewrite Hother by lia. exact Hk. }
  assert (Hused : forall j, 0 <= j -> is_empty (Tbl.entry_at es j) = false ->
            is_empty (Tbl.entry_at es' j) = false).
  { intros j Hj U. destruct (Z.eq_dec j d) as [->|N].
    - rewrite Hsame. reflexivity.
    - rewrite Hother by lia. exact U. }
  assert (Hkd : keyed_at es' capacity d k).
  { split; auto. rewrite Hsame. reflexivity. }
  split; [|split; [|split]]; auto.
  split.
  - unfold es'. rewrite list_set_length. apply Hs.
  - intros i k' H. destruct (Hback _ _ H) as [[-> ->]|H']; auto.
    eapply so_hash; eauto.
  - intros i k' H. destruct (Hback _ _ H) as [[-> ->]|H'].
    + exists n. split; [exact Hn|]. split; [reflexivity|].
      intros m Hm. apply Hused.
      * apply slot_range. lia.
      * apply Hpath. exact Hm.
    + destruct (so_path _ _ Hs i k' H') as (n' & Hn' & Hsl & Hall).
      exists n'. split; [exact Hn'|]. split; [exact Hsl|].
      intros m Hm. apply Hused.
      * apply slot_range. lia.
      * apply Hall. exact Hm.
  - intros i j k1 k2 H1 H2 E.
    destruct (Hback _ _ H1) as [[-> ->]|H1'], (Hback _ _ H2) as [[-> ->]|H2']; auto.
    + exfalso. apply (Hfresh _ _ H2'). congruence.
    + exfalso. apply (Hfresh _ _ H1'). congruence.
    + eapply so_addr; eauto.
Qed.

(** [table_delete] returns; it changes nothing or buries one key, a key at
    the address asked for. *)
Lemma table_delete_spec t k :
  wf_table t -> 0 <= s_hash k ->
  exists t' b,
    Tbl.table_delete t k = Some (t', b)
    /\ wf_table t'
    /\ Tbl.capacity t' = Tbl.capacity t
    /\ Tbl.count t' = Tbl.count t
    /\ (forall i k', keyed_at (Tbl.entries t') (Tbl.capacity t') i k' ->
          keyed_at (Tbl.entries t) (Tbl.capacity t) i k')
    /\ (forall i k', keyed_at (Tbl.entries t) (Tbl.capacity t) i k' ->
          s_addr k' <> s_addr k ->
          keyed_at (Tbl.entries t') (Tbl.capacity t') i k').
Proof.
  intros Hwf Hh. unfold Tbl.table_delete.
  destruct (Tbl.count t =? 0) eqn:C.
  { exists t, false. repeat (split; auto). }
  apply Z.eqb_neq in C.
  pose proof (wf_probe_ok t Hwf (wf_count_zero_capacity t Hwf C)) as Hok.
  destruct (find_entry_spec _ _ k Hok Hh) as (n & Hf & Hn & Hpath & Hkey).
  rewrite Hf.
  destruct Hkey as [Hnone|(k' & Hk' & Hp)].
  { rewrite Hnone. exists t, false. repeat (split; auto). }
  rewrite Hk'.
  assert (Hkd : keyed_at (Tbl.entries t) (Tbl.capacity t)
                  (slot (Tbl.capacity t) (s_hash k) n) k').
  { split; auto. apply slot_range. lia. }
  destruct (slots_ok_bury _ _ _ _ (wf_slots _ Hwf) Hkd) as (Hs' & Hu & Hback & Hfwd).
  eexists; eexists. split; [reflexivity|]. simpl.
  split; [|split; [|split; [|split]]]; auto.
  - split; simpl; auto.
    + apply Hwf.
    + rewrite Hu. apply Hwf.
    + apply Hwf.
  - intros i k'' H N. apply Hfwd; auto.
    intros ->. destruct H as [_ H]. rewrite Hk' in H. inversion H; subst.
    unfold ptr_eqb in Hp. apply Z.eqb_eq in Hp. congruence.
Qed.

Lemma keys_of_app a b : keys_of (a ++ b) = keys_of a ++ keys_of b.
Proof.
  induction a as [|e a IH]; simpl; auto.
  destruct (Tbl.key e); simpl; congruence.
Qed.

Lemma keys_of_nth es k :
  In k (keys_of es) <->
  exists i, (i < List.length es)%nat /\ Tbl.key (nth i es Tbl.empty_entry) = Some k.
Proof.
  induction es as [|e rest IH]; simpl.
  - split; [tauto|]. intros (i & Hi & _). lia.
  - split.
    + destruct (Tbl.key e) eqn:K.
      * intros [->|H].
        -- exists 0%nat. split; [lia|exact K].
        -- apply IH in H. destruct H as (i & Hi & Hk). exists (S i). split; [lia|exact Hk].
      * intros H. apply IH in H. destruct H as (i & Hi & Hk).
        exists (S i). split; [lia|exact Hk].
    + intros ([|i] & Hi & Hk).
      * rewrite Hk. left. reflexivity.
      * assert (In k (keys_of rest)) by (apply IH; exists i; split; [lia|exact Hk]).
        destruct (Tbl.key e); simpl; auto.
Qed.

Lemma keys_of_keyed es capacity k :
  Z.of_nat (List.length es) = capacity ->
  (In k (keys_of es) <-> exists i, keyed_at es capacity i k).
Proof.
  intros Hl. rewrite keys_of_nth. split.
  - intros (i & Hi & Hk). exists (Z.of_nat i). split; [lia|].
    unfold Tbl.entry_at. rewrite Nat2Z.id. exact Hk.
  - intros (i & Hi & Hk). exists (Z.to_nat i). split; [|exact Hk].
    apply Nat2Z.inj_lt. rewrite Z2Nat.id; lia.
Qed.

Lemma keys_of_length es : Z.of_nat (List.length (keys_of es)) <= used_count es.
Proof.
  induction es as [|e rest IH]; simpl; [lia|].
  unfold is_empty. destruct (Tbl.key e).
  - simpl List.length. lia.
  - destruct (IS_NIL (Tbl.value e)); lia.
Qed.

(** Slots differ, so addresses do. *)
Lemma slots_ok_addr_nodup es capacity :
  slots_ok es capacity -> NoDup (map s_addr (keys_of es)).
Proof.
  intros Hs. pose proof (so_len _ _ Hs) as Hl. pose proof (so_addr _ _ Hs) as Ha.
  clear Hs. revert capacity Hl Ha.
  induction es as [|e rest IH]; intros capacity Hl Ha; simpl; [constructor|].
  assert (Hrest : NoDup (map s_addr (keys_of rest))).
  { apply (IH (capacity - 1)).
    - simpl List.length in Hl. lia.
    - intros i j k k' [Hi Hk] [Hj Hk'] E.
      assert (i + 1 = j + 1); [|lia].
      apply (Ha (i + 1) (j + 1) k k'); auto.
      + split; [lia|]. unfold Tbl.entry_at in *.
        replace (Z.to_nat (i + 1)) with (S (Z.to_nat i)) by lia. exact Hk.
      + split; [lia|]. unfold Tbl.entry_at in *.
        replace (Z.to_nat (j + 1)) with (S (Z.to_nat j)) by lia. exact Hk'. }
  destruct (Tbl.key e) as [k|] eqn:K; auto.
  simpl. constructor; auto.
  intros Hin. apply in_map_iff in Hin. destruct Hin as (k' & E & Hin).
  apply keys_of_nth in Hin. destruct Hin as (j & Hj & Hk').
  simpl List.length in Hl.
  assert (0 = Z.of_nat (S j)); [|lia].
  apply (Ha 0 (Z.of_nat (S j)) k k'); auto.
  - split; [lia|]. exact K.
  - split; [lia|]. unfold Tbl.entry_at. rewrite Nat2Z.id. exact Hk'.
Qed.

Ltac splits := repeat match goal with |- _ /\ _ => split end.

Lemma reinsert_spec capacity :
  pow2_capacity capacity ->
  forall old es cnt,
    slots_ok es capacity -> no_tombstones es -> cnt = used_count es ->
    cnt + Z.of_nat (List.length (keys_of old)) < capacity ->
    (forall k, In k (keys_of old) -> 0 <= s_hash k) ->
    NoDup (map s_addr (keys_of old)) ->
    (forall i k k', keyed_at es capacity i k -> In k' (keys_of old) ->
       s_addr k <> s_addr k') ->
    exists es' cnt',
      Tbl.reinsert old es capacity cnt = Some (es', cnt')
      /\ slots_ok es' capacity /\ no_tombstones es'
      /\ cnt' = used_count es'
      /\ cnt' = cnt + Z.of_nat (List.length (keys_of old))
      /\ (forall k, (exists i, keyed_at es' capacity i k) <->
                    ((exists i, keyed_at es capacity i k) \/ In k (keys_of old))).
Proof.
  intros Hc.
  induction old as [|e rest IH]; intros es cnt Hs Hnt Hcnt Hroom Hhash Hnd Hfresh.
  - simpl. exists es, cnt. splits; auto; try lia.
    intros k. split; [intros H; left; exact H | intros [H|[]]; exact H].
  - simpl in *.
    destruct (Tbl.key e) as [k|] eqn:K; [|apply IH; auto].
    simpl in Hroom, Hnd.
    assert (Hok : probe_ok es capacity).
    { split; auto. apply Hs. rewrite <- Hcnt. lia. }
    assert (Hhk : 0 <= s_hash k) by (apply Hhash; left; reflexivity).
    destruct (find_entry_spec _ _ k Hok Hhk) as (n & Hf & Hn & Hpath & Hkey).
    rewrite Hf.
    assert (Hfresh0 : forall i k', keyed_at es capacity i k' ->
              s_addr k' <> s_addr k).
    { intros i k' Hk'. apply (Hfresh i k' k Hk'). left. reflexivity. }
    destruct Hkey as [Hnone|(k' & Hk' & Hp)].
    2:{ exfalso. apply (Hfresh0 (slot capacity (s_hash k) n) k').
        - split; auto. apply slot_range. lia.
        - unfold ptr_eqb in Hp. apply Z.eqb_eq in Hp. exact Hp. }
    destruct (slots_ok_insert es capacity k (Tbl.value e) n Hs Hhk Hn Hpath
                Hnone Hfresh0)
      as (Hs' & Hkd & Hback & Hfwd).
    set (d := slot capacity (s_hash k) n) in *.
    set (es1 := list_set es (Z.to_nat d)
                  {| Tbl.key := Some k; Tbl.value := Tbl.value e |}) in *.
    assert (Hdr : 0 <= d < Z.of_nat (List.length es)).
    { rewrite (so_len _ _ Hs). apply slot_range. lia. }
    assert (Hnt1 : no_tombstones es1).
    { intros i Hi. destruct (Nat.eq_dec (Z.to_nat i) (Z.to_nat d)) as [E|N].
      - exfalso. destruct Hkd as [_ Hkd]. unfold Tbl.entry_at in *.
        rewrite E in Hi. congruence.
      - unfold Tbl.entry_at, es1 in *.
        rewrite list_set_nth_other in * by lia.
        apply (Hnt i). exact Hi. }
    assert (Hu1 : cnt + 1 = used_count es1).
    { unfold es1. rewrite used_count_set by lia.
      fold (Tbl.entry_at es d). rewrite (Hnt d Hnone). simpl. lia. }
    destruct (IH es1 (cnt + 1))
      as (es' & cnt' & Hr & Hs'' & Hnt' & Hc' & Hc'' & Hkeys); auto.
    + lia.
    + intros k0 Hk0. apply Hhash. right. exact Hk0.
    + inversion Hnd; auto.
    + intros i k1 k2 H1 H2. destruct (Hback _ _ H1) as [[-> ->]|H1'].
      * inversion Hnd as [|? ? Hnotin _]; subst. intros E. apply Hnotin.
        rewrite E. apply in_map. exact H2.
      * apply (Hfresh i k1 k2 H1'). right. exact H2.
    + exists es', cnt'. splits; auto; try (simpl List.length; lia).
      intros k0. split.
      * intros H. apply Hkeys in H. destruct H as [(i & Hi)|Hin].
        -- destruct (Hback _ _ Hi) as [[-> ->]|H'].
           ++ right. left. reflexivity.
           ++ left. exists i. exact H'.
        -- right. right. exact Hin.
      * intros [(i & Hi)|[->|Hin]]; apply Hkeys.
        -- left. exists i. apply Hfwd. exact Hi.
        -- left. exists d. exact Hkd.
        -- right. exact Hin.
Qed.

Lemma slots_ok_repeat capacity :
  0 <= capacity ->
  slots_ok (repeat Tbl.empty_entry (Z.to_nat capacity)) capacity.
Proof.
  intros Hc.
  assert (Hno : forall i k,
            ~ keyed_at (repeat Tbl.empty_entry (Z.to_nat capacity)) capacity i k).
  { intros i k [_ H]. rewrite entry_at_repeat in H. discriminate. }
  split.
  - rewrite repeat_length. lia.
  - intros i k H. destruct (Hno _ _ H).
  - intros i k H. destruct (Hno _ _ H).
  - intros i j k k' H. destruct (Hno _ _ H).
Qed.

(** [adjust_capacity] returns a table with the same keys and no
    tombstone. *)
Lemma adjust_capacity_spec t capacity :
  wf_table t -> pow2_capacity capacity -> Tbl.count t < capacity ->
  exists t',
    Tbl.adjust_capacity t capacity = Some t'
    /\ Tbl.capacity t' = capacity
    /\ slots_ok (Tbl.entries t') capacity
    /\ Tbl.count t' = used_count (Tbl.entries t')
    /\ Tbl.count t' <= Tbl.count t
    /\ (forall k, has_key t' k <-> has_key t k).
Proof.
  intros Hwf Hc Hroom. unfold Tbl.adjust_capacity.
  pose proof (pow2_capacity_bounds _ Hc) as Hb.
  pose proof (keys_of_length (Tbl.entries t)) as Hkl.
  rewrite <- (wf_count _ Hwf) in Hkl.
  destruct (reinsert_spec capacity Hc (Tbl.entries t)
              (repeat Tbl.empty_entry (Z.to_nat capacity)) 0)
    as (es' & cnt' & Hr & Hs' & Hnt' & Hc' & Hc'' & Hkeys).
  - apply slots_ok_repeat. lia.
  - intros i _. rewrite entry_at_repeat. reflexivity.
  - rewrite used_count_repeat. reflexivity.
  - lia.
  - intros k Hin.
    apply (keys_of_keyed _ (Tbl.capacity t)) in Hin; [|apply Hwf].
    destruct Hin as (i & Hi). eapply so_hash; [apply Hwf|exact Hi].
  - eapply slots_ok_addr_nodup. apply Hwf.
  - intros i k k' [_ H]. rewrite entry_at_repeat in H. discriminate.
  - rewrite Hr. eexists. split; [reflexivity|]. simpl.
    splits; auto; try lia.
    intros k. unfold has_key. simpl. split.
    + intros H. apply Hkeys in H. destruct H as [(i & [_ H])|Hin].
      * rewrite entry_at_repeat in H. discriminate.
      * apply (keys_of_keyed _ (Tbl.capacity t)) in Hin; [exact Hin|apply Hwf].
    + intros H. apply Hkeys. right.
      apply (keys_of_keyed _ (Tbl.capacity t)); [apply Hwf|exact H].
Qed.

Lemma GROW_TABLE_CAPACITY_spec capacity :
  (capacity = 0 \/ pow2_capacity capacity) -> capacity <= 2 ^ 31 ->
  pow2_capacity (Tbl.GROW_TABLE_CAPACITY capacity)
  /\ capacity < Tbl.GROW_TABLE_CAPACITY capacity
  /\ (capacity <> 0 -> Tbl.GROW_TABLE_CAPACITY capacity = 2 * capacity).
Proof.
  intros Hc Hle. unfold Tbl.GROW_TABLE_CAPACITY, Tbl.LOX_INITIAL_ALLOC_SIZE,
    Tbl.LOX_TABLE_GROW_FACTOR.
  destruct Hc as [->|Hc].
  - simpl. split; [|lia]. exists 3. split; [lia|reflexivity].
  - pose proof (pow2_capacity_bounds _ Hc) as Hb.
    destruct (capacity <? 8) eqn:E; [apply Z.ltb_lt in E; lia|].
    assert (Hs : size_t (capacity * 2) = 2 * capacity).
    { unfold size_t. rewrite Z.mod_small; lia. }
    rewrite Hs. split; [|lia].
    destruct Hc as (k & Hk & ->). exists (k + 1). split.
    + assert (k < 32); [|lia].
      destruct (Z_lt_dec k 32); auto.
      assert (k = 32) by lia. subst k. lia.
    + rewrite Z.pow_add_r by lia. lia.
Qed.


(** ** The invariant of the string table *)

Lemma chars_eqb_eq a b : chars_eqb a b = true <-> a = b.
Proof.
  revert b; induction a as [|x a IH]; intros [|y b]; simpl;
    try (split; [discriminate|congruence]); try tauto.
  unfold ascii_eqb. rewrite andb_true_iff, Ascii.eqb_eq, IH.
  split; [intros [-> ->]; reflexivity | intros E; inversion E; auto].
Qed.



Lemma has_key_count t k :
  wf_table t -> has_key t k -> Tbl.count t <> 0.
Proof.
  intros Hwf Hk.
  apply (keys_of_keyed _ _ k (so_len _ _ (wf_slots _ Hwf))) in Hk.
  pose proof (keys_of_length (Tbl.entries t)) as Hl.
  rewrite (wf_count _ Hwf).
  destruct (keys_of (Tbl.entries t)); [destruct Hk|]. simpl List.length in Hl. lia.
Qed.


















(* ------------------------------------------------------------------ *)
(** * Facts: the table as a finite map *)


Section Probe2.

Variables (es : list Tbl.Entry) (capacity h N : Z).
Hypothesis Hok : probe_ok es capacity.
Hypothesis HN : 0 <= N < capacity.
Hypothesis HN_empty : is_empty (Tbl.entry_at es (slot capacity h N)) = true.
Hypothesis HN_first :
  forall m, 0 <= m < N -> is_empty (Tbl.entry_at es (slot capacity h m)) = false.

(** The loop of [find_entry], round by round: it stops at the key, or it
    reaches the first empty slot having met no key at the address asked
    for, and then returns the first tombstone it passed, if any. *)
Lemma find_entry_loop_strong (k : LoxString) :
  forall (d : nat) n tombstone fuel,
    n + Z.of_nat d = N -> 0 <= n -> tombstone_ok es capacity h tombstone n ->
    (tombstone = None ->
     forall m, 0 <= m < n ->
       Tbl.key (Tbl.entry_at es (slot capacity h m)) <> None) ->
    (d < fuel)%nat ->
    exists n',
      Tbl.find_entry_loop fuel es capacity k (slot capacity h n) tombstone
      = Some (slot capacity h n')
      /\ 0 <= n' <= N
      /\ ((exists k', Tbl.key (Tbl.entry_at es (slot capacity h n')) = Some k'
                 /\ ptr_eqb k' k = true /\ n <= n' < N)
          \/ (Tbl.key (Tbl.entry_at es (slot capacity h n')) = None
              /\ (forall m k', n <= m < N ->
                    Tbl.key (Tbl.entry_at es (slot capacity h m)) = Some k' ->
                    ptr_eqb k' k = false)
              /\ (is_empty (Tbl.entry_at es (slot capacity h n')) = true ->
                  n' = N
                  /\ forall m, 0 <= m < N ->
                       Tbl.key (Tbl.entry_at es (slot capacity h m)) <> None))).
Proof.
  induction d as [|d IH]; intros n tombstone fuel Hn Hn0 Ht Hnot Hf;
    (destruct fuel as [|fuel]; [lia|]); simpl.
  - assert (n = N) by lia. subst n.
    pose proof HN_empty as E. unfold is_empty in E.
    destruct (Tbl.key (Tbl.entry_at es (slot capacity h N))) eqn:K; [discriminate|].
    rewrite E. destruct tombstone as [t|].
    + destruct Ht as (nt & Hnt & -> & Kt).
      exists nt. split; [reflexivity|]. split; [lia|]. right. splits; auto.
      * intros m k' Hm. lia.
      * intros He. rewrite (HN_first nt) in He by lia. discriminate.
    + exists N. split; [reflexivity|]. split; [lia|]. right. splits; auto.
      intros m k' Hm. lia.
  - pose proof (HN_first n ltac:(lia)) as U. unfold is_empty in U.
    rewrite next_index_slot by apply Hok.
    destruct (Tbl.key (Tbl.entry_at es (slot capacity h n))) as [k'|] eqn:K.
    + destruct (ptr_eqb k' k) eqn:P.
      * exists n. split; [reflexivity|]. split; [lia|]. left. exists k'. splits; auto; lia.
      * destruct (IH (n + 1) tombstone fuel) as (n' & Hr & Hn' & Hres);
          try lia.
        { destruct tombstone as [t|]; simpl; auto.
          destruct Ht as (nt & Hnt & -> & Kt). exists nt. splits; auto; lia. }
        { intros E m Hm. destruct (Z.eq_dec m n) as [->|Hmn].
          - rewrite K. discriminate.
          - apply Hnot; auto. lia. }
        exists n'. split; [exact Hr|]. split; [lia|].
        destruct Hres as [(k2 & H1 & H2 & H3)|(H1 & H2 & H3)].
        -- left. exists k2. splits; auto; lia.
        -- right. split; [exact H1|]. split; [|exact H3].
           intros m k2 Hm Hk2. destruct (Z.eq_dec m n) as [->|Hmn].
           ++ rewrite K in Hk2. injection Hk2 as <-. exact P.
           ++ apply (H2 m); auto. lia.
    + rewrite U.
      destruct (IH (n + 1)
                  (match tombstone with
                   | Some t => Some t
                   | None => Some (slot capacity h n)
                   end) fuel) as (n' & Hr & Hn' & Hres); try lia.
      { destruct tombstone as [t|]; simpl.
        - destruct Ht as (nt & Hnt & -> & Kt). exists nt. splits; auto; lia.
        - exists n. splits; auto; lia. }
      { destruct tombstone; discriminate. }
      exists n'. split; [exact Hr|]. split; [lia|].
      destruct Hres as [(k2 & H1 & H2 & H3)|(H1 & H2 & H3)].
      * left. exists k2. splits; auto; lia.
      * right. split; [exact H1|]. split; [|exact H3].
        intros m k2 Hm Hk2. destruct (Z.eq_dec m n) as [->|Hmn].
        -- rewrite K in Hk2. discriminate.
        -- apply (H2 m); auto. lia.
Qed.

End Probe2.

(** [find_entry] returns the slot of the key when the key is on its probe,
    and otherwise a slot without a key: the first tombstone of the probe,
    or, when there is none, the first empty slot. *)
Lemma find_entry_strong es capacity k :
  probe_ok es capacity -> 0 <= s_hash k ->
  let h := s_hash k in
  exists N n,
    0 <= N < capacity
    /\ is_empty (Tbl.entry_at es (slot capacity h N)) = true
    /\ (forall m, 0 <= m < N ->
          is_empty (Tbl.entry_at es (slot capacity h m)) = false)
    /\ Tbl.find_entry es capacity k = Some (slot capacity h n)
    /\ 0 <= n <= N
    /\ ((exists k', Tbl.key (Tbl.entry_at es (slot capacity h n)) = Some k'
               /\ ptr_eqb k' k = true /\ n < N)
        \/ (Tbl.key (Tbl.entry_at es (slot capacity h n)) = None
            /\ (forall m k', 0 <= m < N ->
                  Tbl.key (Tbl.entry_at es (slot capacity h m)) = Some k' ->
                  ptr_eqb k' k = false)
            /\ (is_empty (Tbl.entry_at es (slot capacity h n)) = true ->
                n = N
                /\ forall m, 0 <= m < N ->
                     Tbl.key (Tbl.entry_at es (slot capacity h m)) <> None))).
Proof.
  intros Hok Hh h.
  destruct (first_empty_slot es capacity h Hok) as (N & HN & HE & HF).
  unfold Tbl.find_entry. rewrite home_slot by (apply Hok || exact Hh).
  fold h.
  destruct (find_entry_loop_strong es capacity h N Hok HN HE HF k
              (Z.to_nat N) 0 None (Z.to_nat capacity))
    as (n' & Hr & Hn' & Hres); simpl; auto; try lia.
  exists N, n'. split; [lia|]. split; [exact HE|]. split; [exact HF|].
  split; [exact Hr|]. split; [lia|].
  destruct Hres as [(k2 & H1 & H2 & H3)|(H1 & H2 & H3)].
  - left. exists k2. splits; auto; lia.
  - right. splits; auto.
Qed.


Lemma ptr_eqb_refl k : ptr_eqb k k = true.
Proof. unfold ptr_eqb. apply Z.eqb_refl. Qed.

Lemma ptr_eqb_addr a b : ptr_eqb a b = true <-> s_addr a = s_addr b.
Proof. unfold ptr_eqb. apply Z.eqb_eq. Qed.

(** A key sits on its own probe, before the first empty slot. *)
Lemma keyed_on_probe es capacity j k N :
  slots_ok es capacity -> 0 < capacity -> keyed_at es capacity j k ->
  0 <= N < capacity ->
  is_empty (Tbl.entry_at es (slot capacity (s_hash k) N)) = true ->
  exists m, 0 <= m < N /\ slot capacity (s_hash k) m = j.
Proof.
  intros Hs Hc Hk HN HE.
  destruct (so_path _ _ Hs j k Hk) as (m & Hm & Hslot & Hbefore).
  exists m. split; auto.
  destruct (Z_lt_ge_dec m N) as [Hlt|Hge]; [lia|]. exfalso.
  destruct (Z.eq_dec m N) as [->|Hne].
  - rewrite Hslot in HE. rewrite (keyed_used _ _ _ _ Hk) in HE. discriminate.
  - rewrite (Hbefore N) in HE by lia. discriminate.
Qed.

Lemma slot_binding_fun es capacity k v v' :
  slots_ok es capacity ->
  slot_binding es capacity k v -> slot_binding es capacity k v' -> v = v'.
Proof.
  intros Hs (i & Hi & <-) (j & Hj & <-).
  rewrite (so_addr _ _ Hs i j k k Hi Hj eq_refl). reflexivity.
Qed.

(** [table_get] as a lookup in a finite map. *)
Lemma table_get_binding t k :
  wf_table t -> 0 <= s_hash k -> coherent t k ->
  exists r,
    Tbl.table_get t k = Some r
    /\ match r with
       | Some v => binding t k v
       | None => ~ has_key t k
       end.
Proof.
  intros Hwf Hh Hco. unfold Tbl.table_get.
  destruct (Tbl.count t =? 0) eqn:E0.
  - exists None. split; auto. intros Hk.
    apply Z.eqb_eq in E0. apply (has_key_count t k Hwf Hk E0).
  - apply Z.eqb_neq in E0.
    pose proof (wf_count_zero_capacity t Hwf E0) as Hc0.
    pose proof (wf_probe_ok t Hwf Hc0) as Hok.
    pose proof (pow2_capacity_bounds _ (po_cap _ _ Hok)) as Hb.
    destruct (find_entry_strong _ _ k Hok Hh)
      as (N & n & HN & HE & HF & Hf & Hn & Hres).
    rewrite Hf.
    destruct Hres as [(k' & Hk' & Hp & HnN)|(Hnone & Hmiss & _)].
    + rewrite Hk'. eexists. split; [reflexivity|].
      assert (Hkd : keyed_at (Tbl.entries t) (Tbl.capacity t)
                      (slot (Tbl.capacity t) (s_hash k) n) k').
      { split; auto. apply slot_range. lia. }
      assert (k' = k).
      { apply Hco; [eexists; exact Hkd | apply ptr_eqb_addr; exact Hp]. }
      subst k'. eexists. split; [exact Hkd | reflexivity].
    + rewrite Hnone. exists None. split; auto.
      intros (j & Hj).
      destruct (keyed_on_probe _ _ j k N (wf_slots _ Hwf) ltac:(lia) Hj HN HE)
        as (m & Hm & Hslot).
      destruct Hj as [_ Hj]. rewrite <- Hslot in Hj.
      pose proof (Hmiss m k Hm Hj) as Hneq.
      rewrite ptr_eqb_refl in Hneq. discriminate.
Qed.


(** Writing a key and a value into a slot: the bindings afterwards. *)
Lemma set_slot_bindings es capacity d k v :
  Z.of_nat (List.length es) = capacity -> 0 <= d < capacity ->
  let es' := list_set es (Z.to_nat d) {| Tbl.key := Some k; Tbl.value := v |} in
  forall k' v',
    slot_binding es' capacity k' v' <->
    ((k' = k /\ v' = v)
     \/ exists i, i <> d /\ keyed_at es capacity i k'
             /\ Tbl.value (Tbl.entry_at es i) = v').
Proof.
  intros Hlen Hd es' k' v'. unfold slot_binding, keyed_at. split.
  - intros (i & (Hi & Hk) & Hv). destruct (Z.eq_dec i d) as [->|Hne].
    + unfold es' in *. rewrite entry_at_set_same in * by lia.
      simpl in *. left. split; congruence.
    + unfold es' in *. rewrite entry_at_set_other in * by lia.
      right. exists i. auto.
  - intros [[-> ->]|(i & Hne & (Hi & Hk) & Hv)].
    + exists d. unfold es'. rewrite entry_at_set_same by lia. simpl. auto.
    + exists i. unfold es'. rewrite entry_at_set_other by lia. auto.
Qed.

(** The reinsertion loop of [adjust_capacity] keeps every binding. *)
Lemma reinsert_bindings capacity :
  pow2_capacity capacity ->
  forall old es cnt,
    slots_ok es capacity -> no_tombstones es -> cnt = used_count es ->
    cnt + Z.of_nat (List.length (keys_of old)) < capacity ->
    (forall k, In k (keys_of old) -> 0 <= s_hash k) ->
    NoDup (map s_addr (keys_of old)) ->
    (forall i k k', keyed_at es capacity i k -> In k' (keys_of old) ->
       s_addr k <> s_addr k') ->
    exists es' cnt',
      Tbl.reinsert old es capacity cnt = Some (es', cnt')
      /\ forall k v,
           slot_binding es' capacity k v <->
           (slot_binding es capacity k v
            \/ exists e, In e old /\ Tbl.key e = Some k /\ Tbl.value e = v).
Proof.
  intros Hc.
  induction old as [|e rest IH]; intros es cnt Hs Hnt Hcnt Hroom Hhash Hnd Hfresh.
  - simpl. exists es, cnt. split; auto.
    intros k v. split; [intros H; left; exact H|].
    intros [H|(e & [] & _)]. exact H.
  - simpl in *.
    destruct (Tbl.key e) as [k|] eqn:K.
    2:{ destruct (IH es cnt) as (es' & cnt' & Hr & Hb); auto.
        exists es', cnt'. split; auto. intros k v. rewrite Hb. split.
        - intros [H|(e0 & Hin & Hk & Hv)]; [left; exact H|].
          right. exists e0. auto.
        - intros [H|(e0 & [->|Hin] & Hk & Hv)]; [left; exact H| |].
          + congruence.
          + right. exists e0. auto. }
    simpl in Hroom, Hnd.
    assert (Hok : probe_ok es capacity).
    { split; auto. apply Hs. rewrite <- Hcnt. lia. }
    assert (Hhk : 0 <= s_hash k) by (apply Hhash; left; reflexivity).
    destruct (find_entry_spec _ _ k Hok Hhk) as (n & Hf & Hn & Hpath & Hkey).
    rewrite Hf.
    assert (Hfresh0 : forall i k', keyed_at es capacity i k' ->
              s_addr k' <> s_addr k).
    { intros i k' Hk'. apply (Hfresh i k' k Hk'). left. reflexivity. }
    destruct Hkey as [Hnone|(k' & Hk' & Hp)].
    2:{ exfalso. apply (Hfresh0 (slot capacity (s_hash k) n) k').
        - split; auto. apply slot_range. lia.
        - unfold ptr_eqb in Hp. apply Z.eqb_eq in Hp. exact Hp. }
    destruct (slots_ok_insert es capacity k (Tbl.value e) n Hs Hhk Hn Hpath
                Hnone Hfresh0)
      as (Hs' & Hkd & Hback & Hfwd).
    set (d := slot capacity (s_hash k) n) in *.
    set (es1 := list_set es (Z.to_nat d)
                  {| Tbl.key := Some k; Tbl.value := Tbl.value e |}) in *.
    assert (Hdr : 0 <= d < Z.of_nat (List.length es)).
    { rewrite (so_len _ _ Hs). apply slot_range. lia. }
    assert (Hnt1 : no_tombstones es1).
    { intros i Hi. destruct (Nat.eq_dec (Z.to_nat i) (Z.to_nat d)) as [E|N].
      - exfalso. destruct Hkd as [_ Hkd]. unfold Tbl.entry_at in *.
        rewrite E in Hi. congruence.
      - unfold Tbl.entry_at, es1 in *.
        rewrite list_set_nth_other in * by lia.
        apply (Hnt i). exact Hi. }
    assert (Hu1 : cnt + 1 = used_count es1).
    { unfold es1. rewrite used_count_set by lia.
      fold (Tbl.entry_at es d). rewrite (Hnt d Hnone). simpl. lia. }
    destruct (IH es1 (cnt + 1)) as (es' & cnt' & Hr & Hb); auto.
    + lia.
    + intros k0 Hk0. apply Hhash. right. exact Hk0.
    + inversion Hnd; auto.
    + intros i k1 k2 H1 H2. destruct (Hback _ _ H1) as [[-> ->]|H1'].
      * inversion Hnd as [|? ? Hnotin _]; subst. intros E. apply Hnotin.
        rewrite E. apply in_map. exact H2.
      * apply (Hfresh i k1 k2 H1'). right. exact H2.
    + exists es', cnt'. split; auto.
      intros k0 v0. rewrite Hb.
      pose proof (set_slot_bindings es capacity d k (Tbl.value e)
                    (so_len _ _ Hs) ltac:(rewrite <- (so_len _ _ Hs); lia)
                    k0 v0) as Hset.
      fold es1 in Hset. rewrite Hset. split.
      * intros [[[-> ->]|(i & Hne & Hi & Hv)]|(e0 & Hin & Hk & Hv)].
        -- right. exists e. auto.
        -- left. exists i. auto.
        -- right. exists e0. auto.
      * intros [(i & Hi & Hv)|(e0 & [->|Hin] & Hk & Hv)].
        -- left. right. exists i. splits; auto.
           intros ->. destruct Hi as [_ Hi]. congruence.
        -- left. left. split; congruence.
        -- right. exists e0. auto.
Qed.

Lemma In_entry_at es e :
  In e es <-> exists i, 0 <= i < Z.of_nat (List.length es) /\ Tbl.entry_at es i = e.
Proof.
  split.
  - intros H. apply (In_nth _ _ Tbl.empty_entry) in H.
    destruct H as (n & Hn & He). exists (Z.of_nat n). split; [lia|].
    unfold Tbl.entry_at. rewrite Nat2Z.id. exact He.
  - intros (i & Hi & <-). unfold Tbl.entry_at. apply nth_In. lia.
Qed.

(** [adjust_capacity] keeps every binding. *)
Lemma adjust_capacity_bindings t capacity :
  wf_table t -> pow2_capacity capacity -> Tbl.count t < capacity ->
  exists t',
    Tbl.adjust_capacity t capacity = Some t'
    /\ forall k v, binding t' k v <-> binding t k v.
Proof.
  intros Hwf Hc Hroom. unfold Tbl.adjust_capacity.
  pose proof (pow2_capacity_bounds _ Hc) as Hb.
  pose proof (keys_of_length (Tbl.entries t)) as Hkl.
  rewrite <- (wf_count _ Hwf) in Hkl.
  pose proof (so_len _ _ (wf_slots _ Hwf)) as Hlen.
  destruct (reinsert_bindings capacity Hc (Tbl.entries t)
              (repeat Tbl.empty_entry (Z.to_nat capacity)) 0)
    as (es' & cnt' & Hr & Hbind).
  - apply slots_ok_repeat. lia.
  - intros i _. rewrite entry_at_repeat. reflexivity.
  - rewrite used_count_repeat. reflexivity.
  - lia.
  - intros k Hk. apply (keys_of_keyed _ _ k Hlen) in Hk.
    destruct Hk as (i & Hi). apply (so_hash _ _ (wf_slots _ Hwf) i k Hi).
  - apply (slots_ok_addr_nodup _ _ (wf_slots _ Hwf)).
  - intros i k k' [_ H]. rewrite entry_at_repeat in H. discriminate.
  - rewrite Hr. eexists. split; [reflexivity|].
    intros k v. unfold binding. cbn [Tbl.entries Tbl.capacity].
    rewrite Hbind. split.
    + intros [(i & [_ H] & _)|(e & Hin & Hk & Hv)].
      * rewrite entry_at_repeat in H. discriminate.
      * apply In_entry_at in Hin. destruct Hin as (i & Hi & <-).
        exists i. split; auto. split; auto. lia.
    + intros (i & [Hi Hk] & Hv). right.
      exists (Tbl.entry_at (Tbl.entries t) i). splits; auto.
      apply In_entry_at. exists i. split; auto. lia.
Qed.


(** The part of [table_set] after the growth: the entry [find_entry] gives
    is overwritten. *)
Lemma table_set_core t k v :
  slots_ok (Tbl.entries t) (Tbl.capacity t) ->
  pow2_capacity (Tbl.capacity t) ->
  Tbl.count t = used_count (Tbl.entries t) ->
  4 * (Tbl.count t + 1) <= 3 * Tbl.capacity t ->
  0 <= s_hash k -> coherent t k ->
  exists r,
    Tbl.find_entry (Tbl.entries t) (Tbl.capacity t) k = Some r
    /\ 0 <= r < Tbl.capacity t
    /\ let e := Tbl.entry_at (Tbl.entries t) r in
       let is_new := match Tbl.key e with None => true | Some _ => false end in
       let t' :=
         {| Tbl.count := if is_new && IS_NIL (Tbl.value e)
                         then Tbl.count t + 1 else Tbl.count t;
            Tbl.capacity := Tbl.capacity t;
            Tbl.entries := list_set (Tbl.entries t) (Z.to_nat r)
                             {| Tbl.key := Some k; Tbl.value := v |} |} in
       wf_table t'
       /\ (is_new = true <-> ~ has_key t k)
       /\ binding t' k v
       /\ (forall k' v', s_addr k' <> s_addr k ->
             (binding t' k' v' <-> binding t k' v'))
       /\ (forall k', has_key t' k' <-> (k' = k \/ has_key t k'))
       /\ (is_empty e = true ->
           forall m, 0 <= m < Tbl.capacity t ->
             (forall m', 0 <= m' <= m ->
                is_empty (Tbl.entry_at (Tbl.entries t)
                            (slot (Tbl.capacity t) (s_hash k) m')) = false) ->
             Tbl.key (Tbl.entry_at (Tbl.entries t)
                        (slot (Tbl.capacity t) (s_hash k) m)) <> None).
Proof.
  intros Hs Hp Hc Hl Hh Hco.
  pose proof (pow2_capacity_bounds _ Hp) as Hb.
  pose proof (used_count_range (Tbl.entries t)) as Hur.
  pose proof (so_len _ _ Hs) as Hlen.
  assert (Hok : probe_ok (Tbl.entries t) (Tbl.capacity t)).
  { split; auto. lia. }
  destruct (find_entry_strong _ _ k Hok Hh)
    as (N & n & HN & HE & HF & Hf & Hn & Hres).
  set (cap := Tbl.capacity t) in *. set (es := Tbl.entries t) in *.
  set (r := slot cap (s_hash k) n) in *.
  assert (Hr : 0 <= r < cap) by (apply slot_range; lia).
  exists r. split; [exact Hf|]. split; [exact Hr|].
  cbv zeta.
  set (e := Tbl.entry_at es r) in *.
  pose proof (set_slot_bindings es cap r k v Hlen Hr) as Hset.
  cbv zeta in Hset.
  set (es' := list_set es (Z.to_nat r) {| Tbl.key := Some k; Tbl.value := v |})
    in *.
  assert (Hprefix : forall m, 0 <= m < n ->
            is_empty (Tbl.entry_at es (slot cap (s_hash k) m)) = false).
  { intros m Hm. apply HF. lia. }
  assert (Hcases :
    (Tbl.key e = None
     /\ (forall i k', keyed_at es cap i k' -> s_addr k' <> s_addr k))
    \/ (Tbl.key e = Some k)).
  { destruct Hres as [(k' & Hk' & Hpe & HnN)|(Hnone & Hmiss & _)].
    - right. fold r in Hk'. fold e in Hk'. rewrite Hk'. f_equal.
      apply Hco; [exists r; split; auto | apply ptr_eqb_addr; exact Hpe].
    - left. split; [exact Hnone|]. intros i k' Hi Ha.
      destruct (keyed_on_probe es cap i k' N Hs ltac:(lia) Hi HN) as (m & Hm & Hslot).
      { assert (k' = k) by (apply Hco; [exists i; exact Hi | exact Ha]).
        subst k'. exact HE. }
      assert (k' = k) by (apply Hco; [exists i; exact Hi | exact Ha]).
      subst k'. destruct Hi as [_ Hi]. rewrite <- Hslot in Hi.
      pose proof (Hmiss m k Hm Hi) as Hneq.
      rewrite ptr_eqb_refl in Hneq. discriminate. }
  assert (Hkeys : forall i k', keyed_at es' cap i k' <->
            ((i = r /\ k' = k) \/ (i <> r /\ keyed_at es cap i k'))).
  { intros i k'. unfold keyed_at. split.
    - intros [Hi Hk]. destruct (Z.eq_dec i r) as [->|Hne].
      + unfold es' in Hk. rewrite entry_at_set_same in Hk by lia.
        simpl in Hk. left. split; congruence.
      + unfold es' in Hk. rewrite entry_at_set_other in Hk by lia.
        right. auto.
    - intros [[-> ->]|(Hne & Hi & Hk)].
      + split; auto. unfold es'. rewrite entry_at_set_same by lia. reflexivity.
      + split; auto. unfold es'. rewrite entry_at_set_other by lia. exact Hk. }
  assert (Hother : forall i k', keyed_at es cap i k' ->
            s_addr k' <> s_addr k -> i <> r).
  { intros i k' [_ Hi] Ha ->. fold e in Hi.
    destruct Hcases as [[Hnone _]|Hsome]; congruence. }
  assert (Hslots' : slots_ok es' cap).
  { split.
    - unfold es'. rewrite list_set_length. exact Hlen.
    - intros i k' Hi. apply Hkeys in Hi. destruct Hi as [[-> ->]|[_ Hi]]; auto.
      apply (so_hash _ _ Hs i k' Hi).
    - intros i k' Hi. apply Hkeys in Hi.
      assert (Hne_keep : forall j, 0 <= j < cap ->
                is_empty (Tbl.entry_at es j) = false ->
                is_empty (Tbl.entry_at es' j) = false).
      { intros j Hj0 Hj. destruct (Z.eq_dec j r) as [->|Hne].
        - unfold es'. rewrite entry_at_set_same by lia. reflexivity.
        - unfold es'. rewrite entry_at_set_other by lia. exact Hj. }
      assert (Hsr : forall m, 0 <= slot cap (s_hash k') m < cap).
      { intros m. apply slot_range. lia. }
      assert (Hsr0 : forall m, 0 <= slot cap (s_hash k) m < cap).
      { intros m. apply slot_range. lia. }
      destruct Hi as [[-> ->]|[Hne Hi]].
      + exists n. split; [lia|]. split; [reflexivity|].
        intros m Hm. apply Hne_keep; [apply Hsr0|]. apply Hprefix. exact Hm.
      + destruct (so_path _ _ Hs i k' Hi) as (m & Hm & Hslot & Hbefore).
        exists m. split; [exact Hm|]. split; [exact Hslot|].
        intros m' Hm'. apply Hne_keep; [apply Hsr|].
        apply Hbefore. exact Hm'.
    - intros i j k1 k2 Hi Hj Ha. apply Hkeys in Hi. apply Hkeys in Hj.
      destruct Hi as [[-> ->]|[Hni Hi]]; destruct Hj as [[-> ->]|[Hnj Hj]]; auto.
      + exfalso. destruct Hcases as [[_ Hfresh]|Hsome].
        * apply (Hfresh j k2 Hj). congruence.
        * apply Hnj. apply (so_addr _ _ Hs j r k2 k); auto. split; auto.
      + exfalso. destruct Hcases as [[_ Hfresh]|Hsome].
        * apply (Hfresh i k1 Hi). congruence.
        * apply Hni. apply (so_addr _ _ Hs i r k1 k); auto. split; auto.
      + apply (so_addr _ _ Hs i j k1 k2); auto. }
  assert (Hempty : is_empty e
                   = match Tbl.key e with None => true | Some _ => false end
                     && IS_NIL (Tbl.value e)).
  { unfold is_empty. destruct (Tbl.key e); reflexivity. }
  split; [|split; [|split; [|split; [|split]]]].
  - split; cbn [Tbl.count Tbl.capacity Tbl.entries]; fold es cap e es'.
    + exact Hslots'.
    + right. exact Hp.
    + unfold es'. rewrite used_count_set by lia. fold (Tbl.entry_at es r).
      fold e. rewrite Hempty. fold es in Hc. unfold is_empty. cbn [Tbl.key].
      destruct (match Tbl.key e with None => true | Some _ => false end
                && IS_NIL (Tbl.value e)); lia.
    + destruct (match Tbl.key e with None => true | Some _ => false end
                && IS_NIL (Tbl.value e)); [lia|].
      fold cap in Hl. lia.
  - destruct Hcases as [[Hnone Hfresh]|Hsome].
    + rewrite Hnone. split; auto. intros _ (i & Hi).
      apply (Hfresh i k Hi). reflexivity.
    + rewrite Hsome. split; [discriminate|]. intros Hno. exfalso. apply Hno.
      exists r. split; auto.
  - unfold binding. cbn [Tbl.capacity Tbl.entries]. fold es cap es'.
    apply Hset. left. auto.
  - intros k' v' Ha. unfold binding. cbn [Tbl.capacity Tbl.entries].
    fold es cap es'. rewrite Hset. split.
    + intros [[-> _]|(i & Hne & Hi & Hv)]; [congruence|]. exists i. auto.
    + intros (i & Hi & Hv). right. exists i. splits; auto.
      apply (Hother i k' Hi Ha).
  - intros k'. unfold has_key. cbn [Tbl.capacity Tbl.entries].
    fold es cap es'. split.
    + intros (i & Hi). apply Hkeys in Hi.
      destruct Hi as [[_ ->]|[_ Hi]]; [left; reflexivity|].
      right. exists i. exact Hi.
    + intros [->|(i & Hi)].
      * exists r. apply Hkeys. left. auto.
      * destruct (Z.eq_dec i r) as [->|Hne].
        -- destruct Hi as [_ Hi]. fold e in Hi.
           destruct Hcases as [[Hnone _]|Hsome]; [congruence|].
           exists r. apply Hkeys. left. split; congruence.
        -- exists i. apply Hkeys. right. auto.
  - intros He m Hm Hpre.
    destruct Hres as [(k' & Hk' & _)|(_ & _ & Hfirst)].
    + fold r in Hk'. fold e in Hk'. unfold is_empty in He. rewrite Hk' in He.
      discriminate.
    + destruct (Hfirst He) as [-> Hall]. apply Hall.
      destruct (Z_lt_ge_dec m N) as [Hlt|Hge]; [lia|]. exfalso.
      rewrite (Hpre N) in HE by lia. discriminate.
Qed.


(** [table_set] as an update of a finite map, growth included. *)
Lemma table_set_spec t k v :
  wf_table t -> 0 <= s_hash k -> Tbl.capacity t <= 2 ^ 31 -> coherent t k ->
  exists t' b,
    Tbl.table_set t k v = Some (t', b)
    /\ wf_table t'
    /\ (b = true <-> ~ has_key t k)
    /\ binding t' k v
    /\ (forall k' v', s_addr k' <> s_addr k ->
          (binding t' k' v' <-> binding t k' v'))
    /\ (forall k', has_key t' k' <-> (k' = k \/ has_key t k'))
    /\ Tbl.capacity t <= Tbl.capacity t'
    /\ Tbl.capacity t' <= Z.max (Tbl.capacity t) (Z.max 8 (3 * (Tbl.count t + 1)))
    /\ Tbl.count t' <= Tbl.count t + 1.
Proof.
  intros Hwf Hh Hle Hco. unfold Tbl.table_set.
  assert (Hgrown : exists t1,
    (if Tbl.over_max_load t
     then Tbl.adjust_capacity t (Tbl.GROW_TABLE_CAPACITY (Tbl.capacity t))
     else Some t) = Some t1
    /\ slots_ok (Tbl.entries t1) (Tbl.capacity t1)
    /\ pow2_capacity (Tbl.capacity t1)
    /\ Tbl.count t1 = used_count (Tbl.entries t1)
    /\ 4 * (Tbl.count t1 + 1) <= 3 * Tbl.capacity t1
    /\ Tbl.capacity t <= Tbl.capacity t1
    /\ Tbl.capacity t1
       <= Z.max (Tbl.capacity t) (Z.max 8 (3 * (Tbl.count t + 1)))
    /\ Tbl.count t1 <= Tbl.count t
    /\ (forall k', has_key t1 k' <-> has_key t k')
    /\ (forall k' v', binding t1 k' v' <-> binding t k' v')).
  { unfold Tbl.over_max_load.
    destruct (4 * (Tbl.count t + 1) >? 3 * Tbl.capacity t) eqn:E.
    - destruct (GROW_TABLE_CAPACITY_spec _ (wf_cap _ Hwf) Hle) as (Hp & Hlt & Hdouble).
      pose proof (wf_load _ Hwf) as Hload.
      pose proof (pow2_capacity_bounds _ Hp) as Hb.
      pose proof (used_count_range (Tbl.entries t)) as Hur.
      rewrite <- (wf_count _ Hwf) in Hur.
      pose proof (so_len _ _ (wf_slots _ Hwf)) as Hlen.
      assert (Hroom : Tbl.count t < Tbl.GROW_TABLE_CAPACITY (Tbl.capacity t))
        by lia.
      destruct (adjust_capacity_spec t _ Hwf Hp Hroom)
        as (t1 & Ha & Hcap & Hs1 & Hc1 & Hle1 & Hk1).
      destruct (adjust_capacity_bindings t _ Hwf Hp Hroom) as (t1' & Ha' & Hb1).
      rewrite Ha in Ha'. injection Ha' as <-.
      assert (Hg : Tbl.GROW_TABLE_CAPACITY (Tbl.capacity t)
                   <= Z.max 8 (3 * (Tbl.count t + 1))
                   /\ 4 * (Tbl.count t + 1)
                      <= 3 * Tbl.GROW_TABLE_CAPACITY (Tbl.capacity t)).
      { destruct (Z.eq_dec (Tbl.capacity t) 0) as [E0|N0].
        - rewrite E0 in *. change (Tbl.GROW_TABLE_CAPACITY 0) with 8 in *. lia.
        - rewrite Hdouble by assumption.
          destruct (wf_cap _ Hwf) as [E0|Hp0]; [contradiction|].
          pose proof (pow2_capacity_bounds _ Hp0). lia. }
      exists t1. rewrite Hcap. splits; try assumption; try lia.
    - exists t. assert (4 * (Tbl.count t + 1) <= 3 * Tbl.capacity t) by lia.
      pose proof (used_count_range (Tbl.entries t)) as Hur.
      rewrite <- (wf_count _ Hwf) in Hur.
      splits; auto; try lia; try apply Hwf; try tauto.
      destruct (wf_cap _ Hwf) as [E0|Hp0]; [lia|exact Hp0]. }
  destruct Hgrown
    as (t1 & -> & Hs1 & Hp1 & Hc1 & Hl1 & Hcap1 & Hcap2 & Hcnt1 & Hk1 & Hb1).
  assert (Hco1 : coherent t1 k).
  { intros k' Hk'. apply Hco. apply Hk1. exact Hk'. }
  destruct (table_set_core t1 k v Hs1 Hp1 Hc1 Hl1 Hh Hco1)
    as (r & Hf & Hr & Hwf' & Hnew & Hbind & Hframe & Hkeys & _).
  rewrite Hf. eexists. eexists. split; [reflexivity|].
  split; [exact Hwf'|]. split; [|split; [exact Hbind|split; [|split; [|split; [|split]]]]].
  - rewrite Hnew. rewrite Hk1. tauto.
  - intros k' v' Ha. rewrite (Hframe k' v' Ha). apply Hb1.
  - intros k'. rewrite Hkeys. rewrite Hk1. tauto.
  - cbn [Tbl.capacity]. exact Hcap1.
  - cbn [Tbl.capacity]. exact Hcap2.
  - cbn [Tbl.count].
    destruct (match Tbl.key (Tbl.entry_at (Tbl.entries t1) r) with
              | None => true | Some _ => false end
              && IS_NIL (Tbl.value (Tbl.entry_at (Tbl.entries t1) r))); lia.
Qed.

(** [table_delete] as a removal from a finite map: a tombstone takes the
    key's place, so neither [count] nor [capacity] changes. *)
Lemma table_delete_strong t k :
  wf_table t -> 0 <= s_hash k -> coherent t k ->
  exists t' b,
    Tbl.table_delete t k = Some (t', b)
    /\ wf_table t'
    /\ (b = true <-> has_key t k)
    /\ (b = false -> t' = t)
    /\ ~ has_key t' k
    /\ (forall k' v', s_addr k' <> s_addr k ->
          (binding t' k' v' <-> binding t k' v'))
    /\ (forall k', has_key t' k' <-> (has_key t k' /\ k' <> k))
    /\ Tbl.capacity t' = Tbl.capacity t
    /\ Tbl.count t' = Tbl.count t.
Proof.
  intros Hwf Hh Hco. unfold Tbl.table_delete.
  destruct (Tbl.count t =? 0) eqn:E0.
  { apply Z.eqb_eq in E0.
    assert (Hno : forall k', ~ has_key t k').
    { intros k' Hk'. apply (has_key_count t k' Hwf Hk' E0). }
    exists t, false. splits; auto; try tauto.
    - split; [discriminate|]. intros H. destruct (Hno _ H).
    - intros k'. split; [intros H; destruct (Hno _ H)|tauto]. }
  apply Z.eqb_neq in E0.
  pose proof (wf_count_zero_capacity t Hwf E0) as Hc0.
  pose proof (wf_probe_ok t Hwf Hc0) as Hok.
  pose proof (pow2_capacity_bounds _ (po_cap _ _ Hok)) as Hb.
  pose proof (so_len _ _ (wf_slots _ Hwf)) as Hlen.
  destruct (find_entry_strong _ _ k Hok Hh)
    as (N & n & HN & HE & HF & Hf & Hn & Hres).
  rewrite Hf.
  set (r := slot (Tbl.capacity t) (s_hash k) n) in *.
  assert (Hr : 0 <= r < Tbl.capacity t) by (apply slot_range; lia).
  destruct Hres as [(k' & Hk' & Hp & HnN)|(Hnone & Hmiss & _)].
  - rewrite Hk'.
    assert (Hkd : keyed_at (Tbl.entries t) (Tbl.capacity t) r k')
      by (split; auto).
    assert (k' = k).
    { apply Hco; [eexists; exact Hkd | apply ptr_eqb_addr; exact Hp]. }
    subst k'.
    destruct (slots_ok_bury _ _ r k (wf_slots _ Hwf) Hkd)
      as (Hs' & Hu' & Hback & Hfwd).
    eexists. eexists. split; [reflexivity|].
    assert (Hkeys : forall k', (exists i, keyed_at
                       (list_set (Tbl.entries t) (Z.to_nat r) Tbl.tombstone_entry)
                       (Tbl.capacity t) i k')
                    <-> (has_key t k' /\ k' <> k)).
    { intros k'. split.
      - intros (i & Hi). split; [exists i; apply Hback; exact Hi|].
        intros ->. pose proof (Hback _ _ Hi) as Hi0.
        assert (i = r) by (apply (so_addr _ _ (wf_slots _ Hwf) i r k k); auto).
        subst i. destruct Hi as [_ Hi].
        rewrite entry_at_set_same in Hi by lia. discriminate.
      - intros [(i & Hi) Hne]. exists i. apply Hfwd; auto.
        intros ->. apply Hne. destruct Hi as [_ Hi]. destruct Hkd as [_ Hkd].
        congruence. }
    split; [|split; [|split; [|split; [|split; [|split; [|split]]]]]].
    + split; cbn [Tbl.count Tbl.capacity Tbl.entries]; auto.
      * apply Hwf.
      * rewrite Hu'. apply Hwf.
      * apply Hwf.
    + split; auto. intros _. exists r. exact Hkd.
    + discriminate.
    + unfold has_key. cbn [Tbl.capacity Tbl.entries]. intros H.
      apply Hkeys in H. destruct H as [_ H]. apply H. reflexivity.
    + intros k' v' Ha. unfold binding, slot_binding.
      cbn [Tbl.capacity Tbl.entries]. split.
      * intros (i & Hi & Hv). exists i. split; [apply Hback; exact Hi|].
        pose proof (proj1 Hi) as Hir.
        destruct (Z.eq_dec i r) as [->|Hne].
        -- destruct Hi as [_ Hi]. rewrite entry_at_set_same in Hi by lia.
           discriminate.
        -- rewrite entry_at_set_other in Hv by lia. exact Hv.
      * intros (i & Hi & Hv).
        assert (Hne : i <> r).
        { intros ->. destruct Hi as [_ Hi]. destruct Hkd as [_ Hkd].
          apply Ha. congruence. }
        pose proof (proj1 Hi) as Hir.
        exists i. split; [apply Hfwd; auto|].
        rewrite entry_at_set_other by lia. exact Hv.
    + unfold has_key at 1. cbn [Tbl.capacity Tbl.entries]. exact Hkeys.
    + reflexivity.
    + reflexivity.
  - rewrite Hnone.
    assert (Hno : ~ has_key t k).
    { intros (j & Hj).
      destruct (keyed_on_probe _ _ j k N (wf_slots _ Hwf) ltac:(lia) Hj HN HE)
        as (m & Hm & Hslot).
      destruct Hj as [_ Hj]. rewrite <- Hslot in Hj.
      pose proof (Hmiss m k Hm Hj) as Hneq.
      rewrite ptr_eqb_refl in Hneq. discriminate. }
    exists t, false. splits; auto; try tauto.
    + split; [discriminate|]. intros H. destruct (Hno H).
    + intros k'. split; [|tauto]. intros H. split; auto.
      intros ->. auto.
Qed.


Lemma key_eqb_eq a b : key_eqb a b = true <-> a = b.
Proof.
  unfold key_eqb. split.
  - intros H. repeat (apply andb_true_iff in H; destruct H as [H ?]).
    apply Z.eqb_eq in H, H0, H2. apply chars_eqb_eq in H1.
    destruct a, b; simpl in *. congruence.
  - intros <-. rewrite !Z.eqb_refl. simpl.
    rewrite (proj2 (chars_eqb_eq _ _) eq_refl). reflexivity.
Qed.

Lemma keys_okb_spec ks :
  keys_okb ks = true ->
  (forall k, In k ks -> 0 <= s_hash k)
  /\ (forall k k', In k ks -> In k' ks -> s_addr k = s_addr k' -> k = k').
Proof.
  unfold keys_okb. rewrite forallb_forall. intros H. split.
  - intros k Hk. specialize (H k Hk). apply andb_true_iff in H.
    destruct H as [H _]. apply Z.leb_le in H. exact H.
  - intros k k' Hk Hk' Ha. specialize (H k Hk). apply andb_true_iff in H.
    destruct H as [_ H]. rewrite forallb_forall in H. specialize (H k' Hk').
    apply orb_true_iff in H. destruct H as [H|H].
    + apply negb_true_iff in H. apply Z.eqb_neq in H. contradiction.
    + apply key_eqb_eq. exact H.
Qed.

Section TableRuns.

(** The string objects in play: one object per address. *)
Variable U : LoxString -> Prop.
Hypothesis U_hash : forall k, U k -> 0 <= s_hash k.
Hypothesis U_addr : forall k k', U k -> U k' -> s_addr k = s_addr k' -> k = k'.


Lemma U_coherent t k :
  (forall k', has_key t k' -> U k') -> U k -> coherent t k.
Proof. intros Hin Hk k' Hk' Ha. apply U_addr; auto. Qed.

Lemma binding_has_key t k v : binding t k v -> has_key t k.
Proof. intros (i & Hi & _). exists i. exact Hi. Qed.

Lemma has_key_binding t k : has_key t k -> exists v, binding t k v.
Proof. intros (i & Hi). eexists. exists i. split; [exact Hi|reflexivity]. Qed.

Lemma table_inv_step n m t op :
  table_inv U n m t -> U (op_key op) -> 0 <= n -> 3 * (n + 1) <= 2 ^ 31 ->
  exists t',
    run_table_op op t = Some t' /\ table_inv U (n + 1) (ref_step m op) t'.
Proof.
  intros (Hwf & HU & Hsem & Hcnt & Hcap) Hk Hn Hbound.
  destruct op as [k v|k]; simpl in Hk; simpl.
  - destruct (table_set_spec t k v Hwf (U_hash k Hk) ltac:(lia)
                (U_coherent t k HU Hk))
      as (t' & b & Hset & Hwf' & _ & Hbind & Hframe & Hkeys & _ & Hcap' & Hcnt').
    rewrite Hset. exists t'. split; [reflexivity|]. unfold table_inv. splits.
    + exact Hwf'.
    + intros k' Hk'. apply Hkeys in Hk'. destruct Hk' as [->|Hk']; auto.
    + intros k' v' Hk'. destruct (Z.eqb_spec (s_addr k') (s_addr k)) as [E|E].
      * assert (k' = k) by (apply U_addr; auto). subst k'. split.
        -- intros H. f_equal.
           apply (slot_binding_fun _ _ k v v' (wf_slots _ Hwf') Hbind H).
        -- intros H. injection H as <-. exact Hbind.
      * rewrite (Hframe k' v' E). apply Hsem. exact Hk'.
    + lia.
    + lia.
  - destruct (table_delete_strong t k Hwf (U_hash k Hk) (U_coherent t k HU Hk))
      as (t' & b & Hdel & Hwf' & _ & _ & Hgone & Hframe & Hkeys & Hcap' & Hcnt').
    rewrite Hdel. exists t'. split; [reflexivity|]. unfold table_inv. splits.
    + exact Hwf'.
    + intros k' Hk'. apply Hkeys in Hk'. apply HU. apply Hk'.
    + intros k' v' Hk'. destruct (Z.eqb_spec (s_addr k') (s_addr k)) as [E|E].
      * assert (k' = k) by (apply U_addr; auto). subst k'. split.
        -- intros H. destruct Hgone. eapply binding_has_key. exact H.
        -- discriminate.
      * rewrite (Hframe k' v' E). apply Hsem. exact Hk'.
    + lia.
    + lia.
Qed.

Lemma table_inv_run ops :
  forall n m t,
    table_inv U n m t -> Forall (fun op => U (op_key op)) ops -> 0 <= n ->
    3 * (n + Z.of_nat (List.length ops) + 1) <= 2 ^ 31 ->
    exists t',
      run_table_ops ops t = Some t'
      /\ table_inv U (n + Z.of_nat (List.length ops)) (fold_left ref_step ops m) t'.
Proof.
  induction ops as [|op ops IH]; intros n m t Hinv Hall Hn Hbound.
  - exists t. simpl. rewrite Z.add_0_r. auto.
  - inversion Hall as [|? ? Hop Hrest]; subst.
    assert (Hlen : Z.of_nat (List.length (op :: ops))
                   = 1 + Z.of_nat (List.length ops))
      by (simpl List.length; lia).
    rewrite Hlen in *.
    destruct (table_inv_step n m t op Hinv Hop Hn ltac:(lia)) as (t1 & Hr & Hinv1).
    cbn [run_table_ops fold_left]. rewrite Hr.
    destruct (IH (n + 1) (ref_step m op) t1 Hinv1 Hrest ltac:(lia) ltac:(lia))
      as (t' & Hr' & Hinv').
    exists t'. split; [exact Hr'|].
    replace (n + (1 + Z.of_nat (List.length ops)))
      with (n + 1 + Z.of_nat (List.length ops)) by lia.
    exact Hinv'.
Qed.

Lemma table_inv_init : table_inv U 0 (fun _ => None) Tbl.init_table.
Proof.
  unfold table_inv. splits.
  - apply wf_init_table.
  - intros k (i & [Hi _]). simpl in Hi. lia.
  - intros k v _. split; [|discriminate].
    intros (i & [Hi _] & _). simpl in Hi. lia.
  - simpl. lia.
  - simpl. lia.
Qed.

Lemma table_inv_get n m t k :
  table_inv U n m t -> U k -> Tbl.table_get t k = Some (m (s_addr k)).
Proof.
  intros (Hwf & HU & Hsem & _) Hk.
  destruct (table_get_binding t k Hwf (U_hash k Hk) (U_coherent t k HU Hk))
    as (r & Hr & Hres).
  rewrite Hr. f_equal. destruct r as [v|].
  - symmetry. apply Hsem; auto.
  - destruct (m (s_addr k)) as [v|] eqn:E; auto.
    exfalso. apply Hres. apply (binding_has_key t k v). apply Hsem; auto.
Qed.

End TableRuns.


Lemma table_inv_of_keys ks ops :
  keys_okb ks = true ->
  (forall op, In op ops -> In (op_key op) ks) ->
  3 * (Z.of_nat (List.length ops) + 1) <= 2 ^ 31 ->
  exists t,
    run_table_ops ops Tbl.init_table = Some t
    /\ table_inv (fun k' => In k' ks)
         (Z.of_nat (List.length ops)) (ref_run ops) t.
Proof.
  intros Hok Hin Hbound. apply keys_okb_spec in Hok. destruct Hok as [Hh Ha].
  destruct (table_inv_run (fun k' => In k' ks) Hh Ha ops 0
              (fun _ => None) Tbl.init_table) as (t & Hr & Hinv).
  - apply table_inv_init.
  - apply Forall_forall. exact Hin.
  - lia.
  - lia.
  - exists t. split; [exact Hr|]. exact Hinv.
Qed.

Lemma table_inv_of_run ops k :
  keys_okb (k :: map op_key ops) = true ->
  3 * (Z.of_nat (List.length ops) + 1) <= 2 ^ 31 ->
  exists t,
    run_table_ops ops Tbl.init_table = Some t
    /\ table_inv (fun k' => In k' (k :: map op_key ops))
         (Z.of_nat (List.length ops)) (ref_run ops) t.
Proof.
  intros Hok Hbound. apply table_inv_of_keys; auto.
  intros op Hop. right. apply in_map. exact Hop.
Qed.






Lemma add_all_ref_miss es :
  forall m a,
    (forall e k, In e es -> Tbl.key e = Some k -> s_addr k <> a) ->
    add_all_ref es m a = m a.
Proof.
  induction es as [|e rest IH]; intros m a Hmiss; simpl; auto.
  unfold add_all_ref in *. simpl. rewrite IH.
  - destruct (Tbl.key e) as [k|] eqn:K; auto. simpl.
    destruct (Z.eqb_spec a (s_addr k)) as [E|E]; auto.
    exfalso. apply (Hmiss e k); auto. left. reflexivity.
  - intros e' k' Hin. apply Hmiss. right. exact Hin.
Qed.

Lemma add_all_ref_hit es :
  forall m k v,
    NoDup (map s_addr (keys_of es)) ->
    (exists e, In e es /\ Tbl.key e = Some k /\ Tbl.value e = v) ->
    add_all_ref es m (s_addr k) = Some v.
Proof.
  induction es as [|e rest IH]; intros m k v Hnd (e0 & Hin & Hk & Hv).
  - destruct Hin.
  - unfold add_all_ref in *. simpl. simpl in Hnd.
    destruct Hin as [->|Hin].
    + rewrite Hk in *. simpl in Hnd. inversion Hnd as [|? ? Hnotin Hnd']; subst.
      fold (add_all_ref rest (ref_step m (TSet k (Tbl.value e0)))).
      rewrite add_all_ref_miss.
      * simpl. rewrite Z.eqb_refl. reflexivity.
      * intros e' k' Hin' Hk' Ha. apply Hnotin. rewrite <- Ha.
        apply in_map. apply keys_of_nth.
        apply (In_nth _ _ Tbl.empty_entry) in Hin'.
        destruct Hin' as (n & Hn & He). exists n. split; auto. congruence.
    + apply IH.
      * destruct (Tbl.key e); auto. simpl in Hnd. inversion Hnd; auto.
      * exists e0. auto.
Qed.

Lemma skipn_entry_at es i :
  0 <= i < Z.of_nat (List.length es) ->
  skipn (Z.to_nat i) es = Tbl.entry_at es i :: skipn (Z.to_nat (i + 1)) es.
Proof.
  intros Hi. unfold Tbl.entry_at.
  replace (Z.to_nat (i + 1)) with (S (Z.to_nat i)) by lia.
  assert (Hn : (Z.to_nat i < List.length es)%nat) by lia.
  revert Hn. generalize (Z.to_nat i). clear Hi i.
  induction es as [|e rest IH]; intros n Hn; simpl in Hn; [lia|].
  destruct n as [|n]; [reflexivity|]. simpl. apply IH. lia.
Qed.

Section AddAll.

Variable U : LoxString -> Prop.
Hypothesis U_hash : forall k, U k -> 0 <= s_hash k.
Hypothesis U_addr : forall k k', U k -> U k' -> s_addr k = s_addr k' -> k = k'.

Lemma add_all_loop_inv from :
  Z.of_nat (List.length (Tbl.entries from)) = Tbl.capacity from ->
  (forall k, In k (keys_of (Tbl.entries from)) -> U k) ->
  forall n i c m to,
    0 <= i -> i + Z.of_nat n = Tbl.capacity from ->
    table_inv U c m to -> 0 <= c ->
    3 * (c + Z.of_nat n + 1) <= 2 ^ 31 ->
    exists to' c',
      Tbl.add_all_loop n i from to = Some to'
      /\ table_inv U c'
           (add_all_ref (skipn (Z.to_nat i) (Tbl.entries from)) m) to'.
Proof.
  intros Hlen HU.
  induction n as [|n IH]; intros i c m to Hi Hn Hinv Hc Hbound.
  - simpl. exists to, c. split; auto.
    rewrite skipn_all2 by lia. exact Hinv.
  - simpl Tbl.add_all_loop.
    rewrite (skipn_entry_at (Tbl.entries from) i) by lia.
    unfold add_all_ref. simpl fold_left.
    fold (add_all_ref (skipn (Z.to_nat (i + 1)) (Tbl.entries from))).
    destruct (Tbl.key (Tbl.entry_at (Tbl.entries from) i)) as [k|] eqn:K.
    + assert (Hk : U k).
      { apply HU. apply keys_of_nth. exists (Z.to_nat i). split; [lia|].
        exact K. }
      destruct (table_inv_step U U_hash U_addr c m to
                  (TSet k (Tbl.value (Tbl.entry_at (Tbl.entries from) i)))
                  Hinv Hk Hc ltac:(lia)) as (to1 & Hr & Hinv1).
      simpl in Hr. destruct (Tbl.table_set to k _) as [[to1' b]|] eqn:Hset;
        [|discriminate]. simpl in Hr. injection Hr as ->.
      destruct (IH (i + 1) (c + 1)
                  (ref_step m
                     (TSet k (Tbl.value (Tbl.entry_at (Tbl.entries from) i))))
                  to1) as (to' & c' & Hr' & Hinv'); auto; try lia.
      exists to', c'. split; auto.
    + destruct (IH (i + 1) c m to) as (to' & c' & Hr' & Hinv'); auto; try lia.
      exists to', c'. split; auto.
Qed.

End AddAll.

Section TableFlags.

Variable U : LoxString -> Prop.
Hypothesis U_hash : forall k, U k -> 0 <= s_hash k.
Hypothesis U_addr : forall k k', U k -> U k' -> s_addr k = s_addr k' -> k = k'.

(** What [table_set] returns: [true] for a key the map does not bind. *)
Lemma table_inv_set n m t k v :
  table_inv U n m t -> U k -> 0 <= n -> 3 * (n + 1) <= 2 ^ 31 ->
  exists t' b,
    Tbl.table_set t k v = Some (t', b)
    /\ (b = true <-> m (s_addr k) = None)
    /\ table_inv U (n + 1) (ref_step m (TSet k v)) t'.
Proof.
  intros Hinv Hk Hn Hbound.
  destruct (table_inv_step U U_hash U_addr n m t (TSet k v) Hinv Hk Hn Hbound)
    as (t' & Hr & Hinv').
  destruct Hinv as (Hwf & HU & Hsem & Hcnt & Hcap).
  destruct (table_set_spec t k v Hwf (U_hash k Hk) ltac:(lia)
              (U_coherent U U_addr t k HU Hk))
    as (t2 & b & Hset & _ & Hb & _).
  simpl in Hr. rewrite Hset in Hr. simpl in Hr. injection Hr as ->.
  exists t', b. split; [exact Hset|]. split; [|exact Hinv'].
  rewrite Hb. split.
  - intros Hno. destruct (m (s_addr k)) as [v0|] eqn:E; auto.
    destruct Hno. apply (binding_has_key t k v0). apply Hsem; auto.
  - intros Hm Hkey. destruct (has_key_binding t k Hkey) as (v0 & Hv0).
    apply Hsem in Hv0; auto. congruence.
Qed.

(** What [table_delete] returns: [true] for a key the map binds. *)
Lemma table_inv_delete n m t k :
  table_inv U n m t -> U k -> 0 <= n -> 3 * (n + 1) <= 2 ^ 31 ->
  exists t' b,
    Tbl.table_delete t k = Some (t', b)
    /\ (b = false <-> m (s_addr k) = None)
    /\ table_inv U (n + 1) (ref_step m (TDelete k)) t'.
Proof.
  intros Hinv Hk Hn Hbound.
  destruct (table_inv_step U U_hash U_addr n m t (TDelete k) Hinv Hk Hn Hbound)
    as (t' & Hr & Hinv').
  destruct Hinv as (Hwf & HU & Hsem & Hcnt & Hcap).
  destruct (table_delete_strong t k Hwf (U_hash k Hk)
              (U_coherent U U_addr t k HU Hk))
    as (t2 & b & Hdel & _ & Hb & _).
  simpl in Hr. rewrite Hdel in Hr. simpl in Hr. injection Hr as ->.
  exists t', b. split; [exact Hdel|]. split; [|exact Hinv'].
  split.
  - intros Hf. destruct (m (s_addr k)) as [v0|] eqn:E; auto.
    assert (Hkey : has_key t k).
    { apply (binding_has_key t k v0). apply Hsem; auto. }
    apply Hb in Hkey. congruence.
  - intros Hm. destruct b; auto.
    assert (Hkey : has_key t k) by (apply Hb; reflexivity).
    destruct (has_key_binding t k Hkey) as (v0 & Hv0).
    apply Hsem in Hv0; auto. congruence.
Qed.

End TableFlags.

(** A collection changes the string table and the object list only. *)
Lemma collections_frame gcs :
  forall vm vm',
    collections gcs vm = Some vm' ->
    globals vm' = globals vm /\ stack vm' = stack vm
    /\ stderr vm' = stderr vm /\ frames vm' = frames vm
    /\ open_upvalues vm' = open_upvalues vm.
Proof.
  induction gcs as [|g gcs IH]; intros vm vm' H; simpl in H.
  - injection H as <-. repeat split.
  - unfold collect_with in H.
    destruct (Tbl.table_remove_white g (strings vm)) as [s'|]; [|discriminate].
    apply IH in H. simpl in H. exact H.
Qed.
(* ------------------------------------------------------------------ *)
(** * Facts: the lexer *)

(** ** lexer.c: every call consumes input *)

Lemma read_cons_of_neq c p :
  Lexer.char_eqb (Lexer.read p) c = true -> Lexer.char_eqb c Lexer.NUL = false ->
  exists rest, p = c :: rest.
Proof.
  intros H Hc. unfold Lexer.char_eqb, Lexer.read in *.
  apply Ascii.eqb_eq in H. destruct p as [|d rest]; cbn [hd] in H.
  - subst c. rewrite Ascii.eqb_refl in Hc. discriminate.
  - subst d. exists rest. reflexivity.
Qed.

Lemma skip_comment_length p :
  (List.length (Lexer.skip_comment p) <= List.length p)%nat.
Proof.
  induction p as [|c rest IH]; simpl; [lia|].
  destruct (negb (Lexer.char_eqb c "010") && negb (Lexer.char_eqb c Lexer.NUL));
    simpl; lia.
Qed.

Lemma skip_digits_length p :
  (List.length (Lexer.skip_digits p) <= List.length p)%nat.
Proof.
  induction p as [|c rest IH]; simpl; [lia|].
  destruct (Lexer.is_digit c || Lexer.char_eqb c "_"); simpl; lia.
Qed.

Lemma skip_identifier_length p :
  (List.length (Lexer.skip_identifier p) <= List.length p)%nat.
Proof.
  induction p as [|c rest IH]; simpl; [lia|].
  destruct (Lexer.is_alpha c || Lexer.is_digit c); simpl; lia.
Qed.

Lemma string_loop_length p :
  forall l, (List.length (fst (Lexer.string_loop p l)) <= List.length p)%nat
            /\ l <= snd (Lexer.string_loop p l).
Proof.
  induction p as [|c rest IH]; intros l; simpl; [lia|].
  destruct (negb (Lexer.char_eqb c "034") && negb (Lexer.char_eqb c Lexer.NUL)).
  - specialize (IH (if Lexer.char_eqb c "010" then l + 1 else l)).
    destruct (Lexer.char_eqb c "010"); lia.
  - simpl. lia.
Qed.

(** [skip_whitespace] returns, without moving [start] and without going
    back. *)
Lemma skip_whitespace_loop_total :
  forall fuel lx,
    (List.length (Lexer.current lx) < fuel)%nat ->
    exists lx',
      Lexer.skip_whitespace_loop fuel lx = Some lx'
      /\ (List.length (Lexer.current lx') <= List.length (Lexer.current lx))%nat
      /\ Lexer.line lx <= Lexer.line lx'.
Proof.
  induction fuel as [|fuel IH]; intros lx Hlt; [lia|].
  simpl.
  destruct (Lexer.char_eqb (Lexer.peek lx) " " || Lexer.char_eqb (Lexer.peek lx) "013"
            || Lexer.char_eqb (Lexer.peek lx) "009") eqn:Ews.
  { assert (Hc : exists c rest, Lexer.current lx = c :: rest).
    { unfold Lexer.peek in Ews. destruct (Lexer.current lx) as [|c rest]; [|eauto].
      vm_compute in Ews. discriminate. }
    destruct Hc as (c & rest & Hc).
    destruct (IH (snd (Lexer.advance lx))) as (lx' & Hr & Hlen & Hline).
    { simpl. rewrite Hc in *. simpl in *. lia. }
    exists lx'. split; [exact Hr|]. simpl in Hlen, Hline. rewrite Hc in *.
    simpl in *. split; lia. }
  destruct (Lexer.char_eqb (Lexer.peek lx) "010") eqn:Enl.
  { destruct (read_cons_of_neq _ _ Enl eq_refl) as (rest & Hc).
    match goal with |- exists _, Lexer.skip_whitespace_loop _ ?x = _ /\ _ =>
      destruct (IH x) as (lx' & Hr & Hlen & Hline) end.
    { simpl. rewrite Hc in *. simpl in *. lia. }
    exists lx'. split; [exact Hr|]. simpl in Hlen, Hline. rewrite Hc in *.
    simpl in *. split; lia. }
  destruct (Lexer.char_eqb (Lexer.peek lx) "/") eqn:Esl.
  2:{ exists lx. split; [reflexivity|]. split; lia. }
  destruct (Lexer.char_eqb (Lexer.peek_next lx) "/") eqn:Esl2.
  2:{ exists lx. split; [reflexivity|]. split; lia. }
  destruct (read_cons_of_neq _ _ Esl eq_refl) as (rest & Hc).
  destruct (IH (Lexer.set_current lx (Lexer.skip_comment (Lexer.current lx))))
    as (lx' & Hr & Hlen & Hline).
  { simpl. rewrite Hc in *. simpl.
    pose proof (skip_comment_length rest). simpl in Hlt. lia. }
  exists lx'. split; [exact Hr|]. simpl in Hlen, Hline.
  pose proof (skip_comment_length (Lexer.current lx)). split; lia.
Qed.

Lemma skip_whitespace_total lx :
  exists lx',
    Lexer.skip_whitespace lx = Some lx'
    /\ (List.length (Lexer.current lx') <= List.length (Lexer.current lx))%nat
    /\ Lexer.line lx <= Lexer.line lx'.
Proof. apply skip_whitespace_loop_total. lia. Qed.

Ltac scan_step :=
  match goal with
  | |- context [if ?b then _ else _] =>
      destruct b; cbn [Lexer.current Lexer.start Lexer.line snd fst]
  end.

Ltac scan_done :=
  unfold scans; cbn [fst snd]; unfold Lexer.make_token, Lexer.error_token;
  cbn [Lexer.current Lexer.start Lexer.line tok_line tok_type];
  split; [simpl; lia|split; [lia|discriminate]].

Lemma number_scans lx :
  scans (List.length (Lexer.current lx)) (Lexer.line lx) (Lexer.number lx).
Proof.
  unfold Lexer.number, Lexer.number_fraction, Lexer.number_exponent.
  pose proof (skip_digits_length (Lexer.current lx)) as H0.
  set (p0 := Lexer.skip_digits (Lexer.current lx)) in *.
  unfold Lexer.peek, Lexer.advance, Lexer.set_current.
  cbn [Lexer.current Lexer.start Lexer.line snd fst].
  assert (Htl : forall p : list ascii, (List.length (tl p) <= List.length p)%nat)
    by (intros [|? ?]; simpl; lia).
  pose proof (Htl p0) as H1.
  pose proof (skip_digits_length (tl p0)) as H2.
  pose proof (Htl (Lexer.skip_digits (tl p0))) as H3.
  pose proof (Htl (tl (Lexer.skip_digits (tl p0)))) as H4.
  pose proof (skip_digits_length (tl (Lexer.skip_digits (tl p0)))) as H5.
  pose proof (skip_digits_length (tl (tl (Lexer.skip_digits (tl p0))))) as H6.
  pose proof (Htl (tl p0)) as H7.
  pose proof (skip_digits_length (tl (tl p0))) as H8.
  repeat scan_step; scan_done.
Qed.

Lemma string_scans lx :
  scans (List.length (Lexer.current lx)) (Lexer.line lx) (Lexer.string lx).
Proof.
  unfold Lexer.string.
  pose proof (string_loop_length (Lexer.current lx) (Lexer.line lx)) as [H1 H2].
  destruct (Lexer.string_loop (Lexer.current lx) (Lexer.line lx)) as [p l].
  simpl in H1, H2.
  assert (Htl : (List.length (tl p) <= List.length p)%nat)
    by (destruct p; simpl; lia).
  scan_step; unfold Lexer.advance, Lexer.set_current;
    cbn [Lexer.current Lexer.start Lexer.line snd fst]; scan_done.
Qed.

Lemma check_keyword_not_eof a b rest ty lx :
  ty <> TOKEN_EOF -> Lexer.check_keyword a b rest ty lx <> TOKEN_EOF.
Proof.
  intros H. unfold Lexer.check_keyword.
  destruct (_ && _); [exact H|discriminate].
Qed.

Lemma identifier_type_not_eof lx : Lexer.identifier_type lx <> TOKEN_EOF.
Proof.
  unfold Lexer.identifier_type.
  repeat match goal with
  | |- context [if ?b then _ else _] => destruct b
  end; try discriminate; apply check_keyword_not_eof; discriminate.
Qed.

Lemma identifier_scans lx :
  scans (List.length (Lexer.current lx)) (Lexer.line lx) (Lexer.identifier lx).
Proof.
  unfold Lexer.identifier, scans. simpl.
  pose proof (skip_identifier_length (Lexer.current lx)).
  split; [lia|]. split; [lia|]. apply identifier_type_not_eof.
Qed.

Lemma one_or_two_scans a b lx :
  a <> TOKEN_EOF -> b <> TOKEN_EOF ->
  scans (List.length (Lexer.current lx)) (Lexer.line lx) (Lexer.one_or_two a b lx).
Proof.
  intros Ha Hb. unfold Lexer.one_or_two, Lexer.match_char, scans.
  assert (Htl : (List.length (tl (Lexer.current lx)) <= List.length (Lexer.current lx))%nat)
    by (destruct (Lexer.current lx); simpl; lia).
  destruct (Lexer.is_at_end lx); simpl; [repeat split; auto; lia|].
  destruct (negb (Lexer.char_eqb (Lexer.read (Lexer.current lx)) "=")); simpl;
    repeat split; auto; lia.
Qed.

(** [lex_token] returns; a token other than [TOKEN_EOF] has consumed a
    character. *)
Lemma lex_token_progress lx :
  exists t lx',
    Lexer.lex_token lx = Some (t, lx')
    /\ (List.length (Lexer.current lx') <= List.length (Lexer.current lx))%nat
    /\ (tok_type t <> TOKEN_EOF ->
        (List.length (Lexer.current lx') < List.length (Lexer.current lx))%nat)
    /\ (tok_type t = TOKEN_EOF -> tok_length t = 0)
    /\ Lexer.line lx <= tok_line t <= Lexer.line lx'.
Proof.
  unfold Lexer.lex_token.
  destruct (skip_whitespace_total lx) as (lx1 & Hr & Hlen & Hline).
  rewrite Hr.
  set (lx2 := {| Lexer.start := Lexer.current lx1; Lexer.current := Lexer.current lx1;
                 Lexer.line := Lexer.line lx1 |}).
  destruct (Lexer.is_at_end lx2) eqn:Eend.
  { eexists _, _. split; [reflexivity|]. simpl. split; [exact Hlen|].
    split; [intros H; destruct H; reflexivity|].
    split; [intros _; unfold Lexer.offset; simpl; lia|]. lia. }
  assert (Hc : exists c rest, Lexer.current lx1 = c :: rest).
  { unfold Lexer.is_at_end in Eend. cbn [Lexer.current lx2] in Eend.
    destruct (Lexer.current lx1) as [|c rest]; [|eauto].
    vm_compute in Eend. discriminate. }
  destruct Hc as (c & rest & Hc).
  unfold Lexer.advance. cbn [fst snd].
  set (lx3 := Lexer.set_current lx2 (tl (Lexer.current lx2))).
  assert (H3 : List.length (Lexer.current lx3) = List.length rest).
  { subst lx3 lx2. simpl. rewrite Hc. reflexivity. }
  assert (Hl3 : Lexer.line lx3 = Lexer.line lx1) by reflexivity.
  assert (Hlt : (List.length rest < List.length (Lexer.current lx))%nat).
  { rewrite Hc in Hlen. simpl in Hlen. lia. }
  assert (Hfin : forall r : Token * Lexer.Lexer,
             scans (List.length (Lexer.current lx3)) (Lexer.line lx3) r ->
             exists t lx',
               Some r = Some (t, lx')
               /\ (List.length (Lexer.current lx') <= List.length (Lexer.current lx))%nat
               /\ (tok_type t <> TOKEN_EOF ->
                   (List.length (Lexer.current lx') < List.length (Lexer.current lx))%nat)
               /\ (tok_type t = TOKEN_EOF -> tok_length t = 0)
               /\ Lexer.line lx <= tok_line t <= Lexer.line lx').
  { intros [t lx'] (Ha & Hb & Hne). exists t, lx'. simpl in *.
    split; [reflexivity|]. try rewrite H3 in Ha. try rewrite Hl3 in Hb.
    repeat split; try lia. intros; contradiction. }
  assert (Hsimple : forall ty, ty <> TOKEN_EOF ->
             scans (List.length (Lexer.current lx3)) (Lexer.line lx3)
               (Lexer.make_token ty lx3, lx3)).
  { intros ty Hty. unfold scans. simpl. repeat split; auto; lia. }
  repeat match goal with
  | |- context [if ?b then _ else _] => destruct b
  end;
  apply Hfin;
  first [ apply identifier_scans | apply number_scans | apply string_scans
        | apply one_or_two_scans; discriminate
        | apply Hsimple; discriminate
        | unfold scans; simpl; repeat split; try lia; discriminate ].
Qed.

Lemma token_type_eqb_eof t :
  token_type_eqb t TOKEN_EOF = true <-> t = TOKEN_EOF.
Proof. destruct t; simpl; split; intros H; try reflexivity; discriminate. Qed.

Lemma tokens_total :
  forall fuel lx,
    (List.length (Lexer.current lx) < fuel)%nat ->
    exists ts eof,
      Lexer.tokens fuel lx = Some (ts ++ [eof])
      /\ tok_type eof = TOKEN_EOF /\ tok_length eof = 0
      /\ Forall (fun t => tok_type t <> TOKEN_EOF) ts
      /\ (List.length ts <= List.length (Lexer.current lx))%nat
      /\ Forall (fun t => Lexer.line lx <= tok_line t) (ts ++ [eof])
      /\ StronglySorted Z.le (map tok_line (ts ++ [eof])).
Proof.
  induction fuel as [|fuel IH]; intros lx Hlt; [lia|].
  destruct (lex_token_progress lx) as (t & lx' & Hlex & Hlen & Hprog & Heof & Hline).
  cbn [Lexer.tokens]. rewrite Hlex.
  destruct (token_type_eqb (tok_type t) TOKEN_EOF) eqn:E.
  - apply token_type_eqb_eof in E. exists [], t. simpl.
    repeat split; auto; try lia.
    + constructor; [lia|constructor].
    + repeat constructor.
  - assert (Hne : tok_type t <> TOKEN_EOF).
    { intros H. apply token_type_eqb_eof in H. congruence. }
    specialize (Hprog Hne).
    destruct (IH lx' ltac:(lia)) as (ts & eof & Hts & H1 & H2 & H3 & H4 & H5 & H6).
    rewrite Hts. exists (t :: ts), eof. simpl.
    repeat split; auto; try lia.
    + constructor; [lia|].
      eapply Forall_impl; [|exact H5]. simpl. intros; lia.
    + constructor; [exact H6|].
      apply Forall_map. eapply Forall_impl; [|exact H5]. simpl. intros; lia.
Qed.

(* ------------------------------------------------------------------ *)
(** * Facts: upvalues in the heap *)

Lemma heap_lookup_update h a o a' :
  heap_lookup (heap_update h a o) a'
  = if a' =? a
    then match heap_lookup h a with Some _ => Some o | None => None end
    else heap_lookup h a'.
Proof.
  induction h as [|[b ob] h IH]; simpl.
  - destruct (a' =? a); reflexivity.
  - destruct (Z.eqb_spec b a) as [E|E]; simpl.
    + subst b. destruct (Z.eqb_spec a' a) as [E'|E'].
      * subst a'. rewrite Z.eqb_refl. reflexivity.
      * destruct (Z.eqb_spec a a'); [congruence|reflexivity].
    + destruct (Z.eqb_spec b a') as [E1|E1].
      * subst a'. destruct (Z.eqb_spec b a); [contradiction|reflexivity].
      * exact IH.
Qed.

Lemma heap_update_fst h a o : map fst (heap_update h a o) = map fst h.
Proof.
  induction h as [|[b ob] h IH]; simpl; [reflexivity|].
  destruct (b =? a); simpl; [reflexivity|]. rewrite IH. reflexivity.
Qed.

Lemma decreasing_spec l :
  decreasing l = true <-> StronglySorted Z.gt l.
Proof.
  induction l as [|x l IH]; simpl.
  - split; [constructor|reflexivity].
  - rewrite andb_true_iff, IH, forallb_forall. split.
    + intros [H1 H2]. constructor; [exact H2|].
      apply Forall_forall. intros y Hy. specialize (H1 y Hy). lia.
    + intros H. inversion H as [|? ? Hs Hall]; subst. split; [|exact Hs].
      intros y Hy. rewrite Forall_forall in Hall. specialize (Hall y Hy). lia.
Qed.

Lemma distinct_spec l : distinct l = true <-> NoDup l.
Proof.
  induction l as [|x l IH]; simpl.
  - split; [constructor|reflexivity].
  - rewrite andb_true_iff, IH, negb_true_iff. split.
    + intros [H1 H2]. constructor; [|exact H2]. intros Hin.
      assert (existsb (Z.eqb x) l = true).
      { apply existsb_exists. exists x. split; [exact Hin|apply Z.eqb_refl]. }
      congruence.
    + intros H. inversion H as [|? ? Hn Hd]; subst. split; [|exact Hd].
      destruct (existsb (Z.eqb x) l) eqn:E; [|reflexivity].
      apply existsb_exists in E. destruct E as (y & Hy & Hxy).
      apply Z.eqb_eq in Hxy. subst y. contradiction.
Qed.

Lemma is_open_slot u : is_open u = true -> location u = InStack (open_slot u).
Proof. unfold is_open, open_slot. destruct (location u); [reflexivity|discriminate]. Qed.

(** The loop of [close_upvalues] on a list of open upvalues at decreasing
    slots. *)
Lemma close_upvalues_loop_heap last :
  forall l vm0,
    forallb is_open l = true ->
    StronglySorted Z.gt (map open_slot l) ->
    NoDup (map uv_addr l) ->
    let vm' := close_upvalues_loop last l vm0 in
    open_upvalues vm' = filter (fun u => open_slot u <? last) l
    /\ stack vm' = stack vm0
    /\ next_addr vm' = next_addr vm0
    /\ map fst (objects vm') = map fst (objects vm0)
    /\ (forall a, ~ In a (map uv_addr (filter (fun u => last <=? open_slot u) l)) ->
          deref vm' a = deref vm0 a)
    /\ (forall u, In u l -> last <= open_slot u ->
          deref vm0 (uv_addr u) <> None ->
          deref vm' (uv_addr u) = Some (closed_upvalue vm0 u)).
Proof.
  induction l as [|u rest IH]; intros vm0 Hopen Hsorted Hnodup; simpl.
  - repeat split; auto. intros u [].
  - simpl in Hopen. apply andb_true_iff in Hopen. destruct Hopen as [Hu Hopen].
    simpl in Hsorted. inversion Hsorted as [|? ? Hs Hall]; subst.
    simpl in Hnodup. inversion Hnodup as [|? ? Hnotin Hnd]; subst.
    pose proof (is_open_slot u Hu) as Hloc. rewrite Hloc.
    cbn [location_geb].
    destruct (Z.geb_spec (open_slot u) last) as [Hge|Hlt].
    + replace (open_slot u <? last) with false by lia.
      replace (last <=? open_slot u) with true by lia.
      match goal with |- context [close_upvalues_loop last rest ?v] =>
        set (vm1 := v) end.
      specialize (IH vm1 Hopen Hs Hnd).
      destruct IH as (H1 & H2 & H3 & H4 & H5 & H6).
      split; [exact H1|]. split; [exact H2|]. split; [exact H3|].
      split.
      { rewrite H4. subst vm1. simpl. apply heap_update_fst. }
      split.
      { intros a Ha. simpl in Ha. rewrite H5 by tauto.
        subst vm1. unfold deref. simpl. rewrite heap_lookup_update.
        destruct (Z.eqb_spec a (uv_addr u)); [|reflexivity].
        subst a. tauto. }
      intros u' [Hu'|Hu'] Hge' Hin.
      * subst u'. rewrite H5.
        -- subst vm1. unfold deref in *. simpl. rewrite heap_lookup_update.
           rewrite Z.eqb_refl.
           destruct (heap_lookup (objects vm0) (uv_addr u)); [|congruence].
           reflexivity.
        -- intros Hx. apply Hnotin. apply in_map_iff in Hx.
           destruct Hx as (x & Hx & Hxin). apply filter_In in Hxin.
           rewrite <- Hx. apply in_map. tauto.
      * assert (Hne : uv_addr u' <> uv_addr u).
        { intros E. apply Hnotin. rewrite <- E. apply in_map. exact Hu'. }
        rewrite (H6 u' Hu' Hge').
        -- unfold closed_upvalue. subst vm1. unfold stack_slot, stack_top. simpl.
           reflexivity.
        -- subst vm1. unfold deref in *. simpl. rewrite heap_lookup_update.
           destruct (Z.eqb_spec (uv_addr u') (uv_addr u)); [contradiction|].
           exact Hin.
    + replace (open_slot u <? last) with true by lia.
      replace (last <=? open_slot u) with false by lia.
      assert (Hall' : forall x, In x rest -> open_slot x < last).
      { intros x Hx. rewrite Forall_forall in Hall.
        specialize (Hall (open_slot x) (in_map _ _ _ Hx)). lia. }
      assert (Hf1 : filter (fun u => open_slot u <? last) rest = rest).
      { clear - Hall'. induction rest as [|x rest IH]; [reflexivity|].
        simpl. rewrite (proj2 (Z.ltb_lt _ _) (Hall' x (or_introl eq_refl))).
        rewrite IH; [reflexivity|]. intros y Hy. apply Hall'. right. exact Hy. }
      assert (Hf2 : filter (fun u => last <=? open_slot u) rest = []).
      { clear - Hall'. induction rest as [|x rest IH]; [reflexivity|].
        simpl. pose proof (Hall' x (or_introl eq_refl)).
        replace (last <=? open_slot x) with false by lia.
        apply IH. intros y Hy. apply Hall'. right. exact Hy. }
      rewrite Hf1. simpl. repeat split; auto.
      intros u' [Hu'|Hu'] Hge'; [subst u'; lia|].
      specialize (Hall' u' Hu'). lia.
Qed.

Lemma heap_lookup_in h a o : heap_lookup h a = Some o -> In a (map fst h).
Proof.
  induction h as [|[b ob] h IH]; simpl; [discriminate|].
  destruct (Z.eqb_spec b a); [left; assumption|right; auto].
Qed.

Lemma heap_lookup_fst h h' a :
  map fst h = map fst h' -> heap_lookup h a <> None -> heap_lookup h' a <> None.
Proof.
  revert h'. induction h as [|[b ob] h IH]; intros [|[b' ob'] h'] E; simpl in *;
    try discriminate; auto.
  injection E as -> E. destruct (b' =? a); [discriminate|]. apply IH. exact E.
Qed.

Lemma upvalue_heap_okb_spec vm :
  upvalue_heap_okb vm = true <->
  ((forall u, In u (open_upvalues vm) -> is_open u = true)
   /\ StronglySorted Z.gt (open_slots vm)
   /\ NoDup (map uv_addr (open_upvalues vm))
   /\ (forall u, In u (open_upvalues vm) -> upvalue_at vm u = true)
   /\ (forall a, In a (map fst (objects vm)) -> a < next_addr vm)).
Proof.
  unfold upvalue_heap_okb. rewrite !andb_true_iff.
  rewrite decreasing_spec, distinct_spec, !forallb_forall.
  split.
  - intros ((((H1 & H2) & H3) & H4) & H5). repeat split; auto.
    intros a Ha. apply in_map_iff in Ha. destruct Ha as (ao & <- & Hin).
      specialize (H5 ao Hin). lia.
  - intros (H1 & H2 & H3 & H4 & H5). repeat split; auto.
    intros ao Hin. apply Z.ltb_lt. apply H5. apply in_map. exact Hin.
Qed.

Lemma sorted_filter (f : LoxUpvalue -> bool) l :
  StronglySorted Z.gt (map open_slot l) ->
  StronglySorted Z.gt (map open_slot (filter f l)).
Proof.
  induction l as [|x l IH]; simpl; intros H; [constructor|].
  inversion H as [|? ? Hs Hall]; subst.
  destruct (f x); simpl; auto. constructor; auto.
  rewrite Forall_forall in *. intros y Hy. apply Hall.
  apply in_map_iff in Hy. destruct Hy as (z & <- & Hz).
  apply filter_In in Hz. apply in_map. tauto.
Qed.

Lemma nodup_filter (f : LoxUpvalue -> bool) l :
  NoDup (map uv_addr l) -> NoDup (map uv_addr (filter f l)).
Proof.
  induction l as [|x l IH]; simpl; intros H; [constructor|].
  inversion H as [|? ? Hn Hd]; subst.
  destruct (f x); simpl; auto. constructor; auto.
  intros Hin. apply Hn. apply in_map_iff in Hin. destruct Hin as (z & Hz & Hin).
  apply filter_In in Hin. rewrite <- Hz. apply in_map. tauto.
Qed.

(* ------------------------------------------------------------------ *)
(** * Facts: NaN boxing *)

(** ** value.h: the tags of NaN boxing *)

Lemma land_field v k n :
  0 <= k -> 0 <= n ->
  Z.land v (Z.shiftl (Z.ones k) n) = (v / 2 ^ n) mod 2 ^ k * 2 ^ n.
Proof.
  intros Hk Hn.
  rewrite <- Z.shiftr_div_pow2, <- Z.land_ones, <- Z.shiftl_mul_pow2 by lia.
  apply Z.bits_inj'. intros i Hi.
  rewrite Z.land_spec.
  destruct (Z.ltb_spec i n).
  - rewrite !Z.shiftl_spec_low by lia. apply andb_false_r.
  - rewrite !Z.shiftl_spec by lia. rewrite Z.land_spec, Z.shiftr_spec by lia.
    replace (i - n + n) with i by lia. reflexivity.
Qed.

Lemma QNAN_field : NanBox.QNAN = Z.shiftl (Z.ones 13) 50.
Proof. reflexivity. Qed.

Lemma OBJ_field : Z.lor NanBox.QNAN NanBox.SIGN_BIT = Z.shiftl (Z.ones 14) 50.
Proof. reflexivity. Qed.

Lemma IS_NUMBER_field v :
  NanBox.IS_NUMBER v = negb ((v / 2 ^ 50) mod 2 ^ 13 =? 8191).
Proof.
  unfold NanBox.IS_NUMBER. rewrite QNAN_field at 1. rewrite land_field by lia.
  f_equal. change NanBox.QNAN with (8191 * 2 ^ 50).
  destruct (Z.eqb_spec ((v / 2 ^ 50) mod 2 ^ 13) 8191) as [E|E].
  - rewrite E. reflexivity.
  - apply Z.eqb_neq. lia.
Qed.

Lemma IS_OBJ_field v :
  NanBox.IS_OBJ v = ((v / 2 ^ 50) mod 2 ^ 14 =? 16383).
Proof.
  unfold NanBox.IS_OBJ. rewrite OBJ_field. rewrite land_field by lia.
  change (Z.shiftl (Z.ones 14) 50) with (16383 * 2 ^ 50).
  destruct (Z.eqb_spec ((v / 2 ^ 50) mod 2 ^ 14) 16383) as [E|E].
  - rewrite E. reflexivity.
  - apply Z.eqb_neq. lia.
Qed.

Lemma IS_BOOL_iff v :
  0 <= v ->
  (NanBox.IS_BOOL v = true <-> v = NanBox.TRUE_VAL \/ v = NanBox.FALSE_VAL).
Proof.
  intros Hv. unfold NanBox.IS_BOOL. rewrite Z.eqb_eq. split.
  - intros H.
    assert (Hor : Z.lor v 1 = v \/ Z.lor v 1 = v + 1).
    { destruct v as [|p|p]; [right; reflexivity| |lia].
      destruct p as [p|p|]; simpl; [left; reflexivity|right; reflexivity
                                   |left; reflexivity]. }
    destruct Hor as [Hor|Hor]; rewrite Hor in H.
    + left. exact H.
    + right. change NanBox.FALSE_VAL with (NanBox.TRUE_VAL - 1). lia.
  - intros [->| ->]; reflexivity.
Qed.

(** ** memory.c: the mark phase *)

Lemma is_marked_In g a : GC.is_marked g a = true <-> In a (GC.marked g).
Proof.
  unfold GC.is_marked. rewrite existsb_exists. split.
  - intros (x & Hx & E). apply Z.eqb_eq in E. subst x. exact Hx.
  - intros H. exists a. split; [exact H|apply Z.eqb_refl].
Qed.

Lemma mark_objects_app objects l1 l2 g :
  GC.mark_objects objects (l1 ++ l2) g
  = match GC.mark_objects objects l1 g with
    | None => None
    | Some g => GC.mark_objects objects l2 g
    end.
Proof.
  revert g. induction l1 as [|a l1 IH]; intros g; simpl; [reflexivity|].
  destruct (GC.mark_object objects a g); [apply IH|reflexivity].
Qed.

Lemma mark_value_refs objects v g :
  GC.mark_value objects v g = GC.mark_objects objects (value_refs v) g.
Proof.
  destruct v; simpl; try reflexivity.
  destruct (GC.mark_object objects obj g); reflexivity.
Qed.

Lemma mark_array_refs objects vs :
  forall g,
    GC.mark_array objects vs g
    = GC.mark_objects objects (flat_map value_refs vs) g.
Proof.
  induction vs as [|v vs IH]; intros g; simpl; [reflexivity|].
  rewrite mark_objects_app, <- mark_value_refs.
  destruct (GC.mark_value objects v g); [apply IH|reflexivity].
Qed.

Lemma mark_table_loop_refs objects table :
  forall n i g,
    GC.mark_table_loop objects n i table g
    = GC.mark_objects objects (table_refs_loop n i table) g.
Proof.
  induction n as [|n IH]; intros i g; simpl; [reflexivity|].
  destruct (GC.mark_object objects _ g) as [g1|]; [|reflexivity].
  rewrite mark_objects_app, <- mark_value_refs.
  destruct (GC.mark_value objects _ g1); [apply IH|reflexivity].
Qed.

Lemma mark_table_refs objects table g :
  GC.mark_table objects table g
  = GC.mark_objects objects (table_refs table) g.
Proof. apply mark_table_loop_refs. Qed.

(** [blacken_object] marks the pointers of the object. *)
Lemma blacken_object_children objects a g :
  GC.blacken_object objects a g
  = match heap_lookup objects a with
    | None => None
    | Some o => GC.mark_objects objects (children o) g
    end.
Proof.
  unfold GC.blacken_object.
  destruct (heap_lookup objects a) as [o|]; [|reflexivity].
  destruct o; simpl.
  - rewrite mark_objects_app, <- mark_value_refs.
    destruct (GC.mark_value objects receiver g) as [g1|]; [|reflexivity].
    simpl. destruct (GC.mark_object objects method g1); reflexivity.
  - destruct (GC.mark_object objects (s_addr name) g); [|reflexivity].
    apply mark_table_refs.
  - reflexivity.
  - destruct (GC.mark_object objects (GC.string_pointer name) g); [|reflexivity].
    apply mark_array_refs.
  - destruct (GC.mark_object objects klass g); [|reflexivity].
    apply mark_table_refs.
  - reflexivity.
  - apply mark_value_refs.
  - reflexivity.
Qed.

(** [mark_roots] marks the roots. *)
Lemma mark_roots_refs compiler_roots vm g :
  GC.mark_roots compiler_roots vm g
  = GC.mark_objects (objects vm) (roots compiler_roots vm) g.
Proof.
  unfold GC.mark_roots, roots.
  rewrite mark_objects_app, <- mark_array_refs.
  destruct (GC.mark_array _ _ g) as [g1|]; [|reflexivity].
  rewrite mark_objects_app.
  destruct (GC.mark_objects _ _ g1) as [g2|]; [|reflexivity].
  rewrite mark_objects_app.
  destruct (GC.mark_objects _ _ g2) as [g3|]; [|reflexivity].
  rewrite mark_objects_app, <- mark_table_refs.
  destruct (GC.mark_table _ _ g3) as [g4|]; [|reflexivity].
  rewrite mark_objects_app.
  destruct (GC.mark_objects _ _ g4) as [g5|]; [|reflexivity].
  simpl. destruct (GC.mark_object _ _ g5); reflexivity.
Qed.

(** Marking valid pointers: the same new addresses are put on both
    lists, each once. *)
Lemma mark_objects_spec objects :
  forall l g,
    forallb (valid_pointer objects) l = true ->
    exists g' new,
      GC.mark_objects objects l g = Some g'
      /\ GC.marked g' = new ++ GC.marked g
      /\ GC.gray_stack g' = new ++ GC.gray_stack g
      /\ NoDup new
      /\ (forall x, In x new ->
            In x l /\ x <> 0 /\ ~ In x (GC.marked g)
            /\ heap_lookup objects x <> None)
      /\ (forall x, In x l -> x <> 0 -> In x (GC.marked g')).
Proof.
  induction l as [|a l IH]; intros g Hv.
  - exists g, []. simpl. repeat split; auto; try constructor; intros x [].
  - simpl in Hv. apply andb_true_iff in Hv. destruct Hv as [Ha Hv].
    cbn [GC.mark_objects]. unfold GC.mark_object.
    destruct (Z.eqb_spec a 0) as [E0|E0].
    { destruct (IH g Hv) as (g' & new & Hr & Hm & Hg & Hnd & Hnew & Hall).
      exists g', new. repeat split; auto.
      - right. apply (Hnew x H).
      - apply (Hnew x H).
      - apply (Hnew x H).
      - apply (Hnew x H).
      - intros x [Hx|Hx] Hne; [congruence|auto]. }
    unfold valid_pointer in Ha.
    replace (a =? 0) with false in Ha by lia. simpl in Ha.
    destruct (heap_lookup objects a) as [o|] eqn:Eo; [|discriminate].
    destruct (GC.is_marked g a) eqn:Em.
    { destruct (IH g Hv) as (g' & new & Hr & Hm & Hg & Hnd & Hnew & Hall).
      exists g', new. repeat split; auto.
      - right. apply (Hnew x H).
      - apply (Hnew x H).
      - apply (Hnew x H).
      - apply (Hnew x H).
      - intros x [Hx|Hx] Hne; [|auto].
        subst x. rewrite Hm. apply in_or_app. right.
        apply is_marked_In. exact Em. }
    set (g1 := {| GC.marked := a :: GC.marked g;
                  GC.gray_stack := a :: GC.gray_stack g |}).
    destruct (IH g1 Hv) as (g' & new & Hr & Hm & Hg & Hnd & Hnew & Hall).
    assert (Hna : ~ In a (GC.marked g)).
    { intros H. apply is_marked_In in H. congruence. }
    exists g', (new ++ [a]). split; [exact Hr|].
    split; [rewrite Hm, <- app_assoc; reflexivity|].
    split; [rewrite Hg, <- app_assoc; reflexivity|].
    split.
    { apply NoDup_app_remove_l with (l := []). simpl.
      clear - Hnd Hnew. induction new as [|x new IH]; simpl.
      - constructor; [intros []|constructor].
      - inversion Hnd as [|? ? Hx Hnd']; subst. constructor.
        + intros Hin. apply in_app_or in Hin. destruct Hin as [Hin|[Hin|[]]]; auto.
          subst x. destruct (Hnew a (or_introl eq_refl)) as (_ & _ & Hn & _).
          apply Hn. left. reflexivity.
        + apply IH; auto. intros y Hy. apply Hnew. right. exact Hy. }
    split.
    { intros x Hx. apply in_app_or in Hx. destruct Hx as [Hx|[Hx|[]]].
      - destruct (Hnew x Hx) as (A & B & C & D).
        split; [right; exact A|]. split; [exact B|]. split; [|exact D].
        intros H. apply C. right. exact H.
      - subst x. split; [left; reflexivity|]. split; [exact E0|].
        split; [exact Hna|congruence]. }
    intros x [Hx|Hx] Hne; [|auto].
    subst x. rewrite Hm. apply in_or_app. right. left. reflexivity.
Qed.

Lemma heap_lookup_In h a o : heap_lookup h a = Some o -> In (a, o) h.
Proof.
  induction h as [|[b ob] h IH]; simpl; [discriminate|].
  destruct (Z.eqb_spec b a) as [->|E].
  - intros H. injection H as ->. left. reflexivity.
  - intros H. right. auto.
Qed.

Lemma heap_lookup_filter (f : Z -> bool) h a :
  heap_lookup (filter (fun ao => f (fst ao)) h) a
  = if f a then heap_lookup h a else None.
Proof.
  induction h as [|[b ob] h IH]; simpl.
  - destruct (f a); reflexivity.
  - destruct (f b) eqn:Eb; simpl.
    + destruct (Z.eqb_spec b a) as [->|E]; [rewrite Eb; reflexivity|exact IH].
    + destruct (Z.eqb_spec b a) as [->|E]; [rewrite IH, Eb; reflexivity|exact IH].
Qed.

Section MarkPhase.

Variables (objects : list (Z * Obj)) (from : list Z).
Hypothesis Hvalid : pointers_valid objects from = true.

Lemma roots_valid : forallb (valid_pointer objects) from = true.
Proof.
  unfold pointers_valid in Hvalid. apply andb_true_iff in Hvalid. tauto.
Qed.

Lemma children_valid a o :
  heap_lookup objects a = Some o ->
  forallb (valid_pointer objects) (children o) = true.
Proof.
  intros H. apply heap_lookup_In in H.
  unfold pointers_valid in Hvalid. apply andb_true_iff in Hvalid.
  destruct Hvalid as [_ Hh]. rewrite forallb_forall in Hh.
  apply (Hh (a, o) H).
Qed.

Lemma marked_bound g :
  mark_inv objects from g ->
  (List.length (GC.marked g) <= List.length objects)%nat.
Proof.
  intros (Hnd & Hm & _).
  rewrite <- (length_map fst objects).
  apply NoDup_incl_length; [exact Hnd|].
  intros a Ha. destruct (Hm a Ha) as (_ & Hl & _).
  destruct (heap_lookup objects a) eqn:E; [|congruence].
  eapply heap_lookup_in. exact E.
Qed.

(** The roots are marked and gray. *)
Lemma mark_roots_inv :
  exists g,
    GC.mark_objects objects from GC.no_marks = Some g
    /\ mark_inv objects from g
    /\ GC.gray_stack g = GC.marked g
    /\ (forall a, In a from -> a <> 0 -> In a (GC.marked g)).
Proof.
  destruct (mark_objects_spec objects from GC.no_marks roots_valid)
    as (g & new & Hr & Hm & Hg & Hnd & Hnew & Hall).
  simpl in Hm, Hg. rewrite app_nil_r in Hm, Hg.
  exists g. split; [exact Hr|]. split; [|split; [congruence|exact Hall]].
  unfold mark_inv. rewrite Hm, Hg.
  split; [exact Hnd|]. split.
  - intros a Ha. destruct (Hnew a Ha) as (A & B & _ & D).
    split; [exact B|]. split; [exact D|]. apply reach_root; assumption.
  - split; [auto|]. intros a o b Ha Hn. contradiction.
Qed.

(** One round of [trace_references]. *)
Lemma blacken_inv g a rest :
  mark_inv objects from g -> GC.gray_stack g = a :: rest ->
  exists g',
    GC.blacken_object objects a
      {| GC.marked := GC.marked g; GC.gray_stack := rest |} = Some g'
    /\ mark_inv objects from g'
    /\ (List.length objects - List.length (GC.marked g')
        + List.length (GC.gray_stack g')
        < List.length objects - List.length (GC.marked g)
          + List.length (GC.gray_stack g))%nat
    /\ (forall x, In x (GC.marked g) -> In x (GC.marked g')).
Proof.
  intros Hinv Hgray.
  pose proof Hinv as (Hnd & Hm & Hgm & Hblack).
  assert (Ha : In a (GC.marked g)) by (apply Hgm; rewrite Hgray; left; reflexivity).
  destruct (Hm a Ha) as (Ha0 & Hal & Har).
  destruct (heap_lookup objects a) as [o|] eqn:Eo; [|congruence].
  rewrite blacken_object_children, Eo.
  destruct (mark_objects_spec objects (children o)
              {| GC.marked := GC.marked g; GC.gray_stack := rest |}
              (children_valid a o Eo))
    as (g' & new & Hr & Hm' & Hg' & Hndnew & Hnew & Hall).
  simpl in Hm', Hg'.
  assert (Hinv' : mark_inv objects from g').
  { unfold mark_inv. rewrite Hm', Hg'. split.
    { apply NoDup_app; auto. intros x Hx. apply (Hnew x Hx). }
    split.
    { intros x Hx. apply in_app_or in Hx. destruct Hx as [Hx|Hx]; [|auto].
      destruct (Hnew x Hx) as (A & B & _ & D).
      split; [exact B|]. split; [exact D|].
      eapply reach_child; eauto. }
    split.
    { intros x Hx. apply in_or_app. apply in_app_or in Hx.
      destruct Hx as [Hx|Hx]; [left; exact Hx|right].
      apply Hgm. rewrite Hgray. right. exact Hx. }
    intros x ox b Hx Hngray Hox Hb Hb0.
    assert (Hxm : In x (GC.marked g)).
    { apply in_app_or in Hx. destruct Hx as [Hx|Hx]; [|exact Hx].
      destruct Hngray. apply in_or_app. left. exact Hx. }
    destruct (Z.eq_dec x a) as [->|Hxa].
    - rewrite Eo in Hox. injection Hox as <-.
      rewrite <- Hm'. apply Hall; assumption.
    - apply in_or_app. right. apply (Hblack x ox b); auto.
      rewrite Hgray. intros [E|Hin]; [congruence|].
      apply Hngray. apply in_or_app. right. exact Hin. }
  exists g'. split; [exact Hr|]. split; [exact Hinv'|].
  split.
  - pose proof (marked_bound g' Hinv') as Hb.
    rewrite Hm', Hg', Hgray in *. rewrite !length_app in *.
    simpl List.length. lia.
  - intros x Hx. rewrite Hm'. apply in_or_app. right. exact Hx.
Qed.

(** [trace_references] returns, with no gray object left. *)
Lemma trace_loop_inv :
  forall fuel g,
    mark_inv objects from g ->
    (List.length objects - List.length (GC.marked g)
     + List.length (GC.gray_stack g) <= fuel)%nat ->
    exists g',
      GC.trace_loop fuel objects g = Some g'
      /\ mark_inv objects from g'
      /\ GC.gray_stack g' = []
      /\ (forall x, In x (GC.marked g) -> In x (GC.marked g')).
Proof.
  induction fuel as [|fuel IH]; intros g Hinv Hfuel.
  - destruct (GC.gray_stack g) as [|a rest] eqn:Eg; [|simpl in Hfuel; lia].
    exists g. simpl. rewrite Eg.
    split; [reflexivity|]. split; [exact Hinv|]. split; [reflexivity|]. auto.
  - destruct (GC.gray_stack g) as [|a rest] eqn:Eg.
    + exists g. simpl. rewrite Eg.
      split; [reflexivity|]. split; [exact Hinv|]. split; [reflexivity|]. auto.
    + cbn [GC.trace_loop]. rewrite Eg.
      destruct (blacken_inv g a rest Hinv Eg) as (g1 & Hr & Hinv1 & Hlt & Hsub).
      rewrite Hr.
      destruct (IH g1 Hinv1) as (g' & Hr' & Hinv' & Hg' & Hsub').
      { try rewrite Eg in Hlt. try rewrite Eg in Hfuel. simpl in *. lia. }
      exists g'. split; [exact Hr'|]. split; [exact Hinv'|].
      split; [exact Hg'|]. intros x Hx. apply Hsub'. apply Hsub. exact Hx.
Qed.

(** The mark phase marks the reachable objects and no other. *)
Lemma mark_phase :
  exists g0 g,
    GC.mark_objects objects from GC.no_marks = Some g0
    /\ GC.trace_references objects g0 = Some g
    /\ GC.gray_stack g = []
    /\ NoDup (GC.marked g)
    /\ (forall a, GC.is_marked g a = true <-> reachable objects from a)
    /\ (forall a, reachable objects from a ->
          a <> 0 /\ heap_lookup objects a <> None).
Proof.
  destruct mark_roots_inv as (g0 & Hr0 & Hinv0 & Hgm0 & Hroots).
  destruct (trace_loop_inv (List.length objects) g0 Hinv0) as (g & Hr & Hinv & Hg & Hsub).
  { pose proof (marked_bound g0 Hinv0). rewrite Hgm0. lia. }
  exists g0, g. split; [exact Hr0|]. split; [exact Hr|]. split; [exact Hg|].
  destruct Hinv as (Hnd & Hm & Hgm & Hblack).
  split; [exact Hnd|].
  assert (Hreach : forall a, reachable objects from a -> In a (GC.marked g)).
  { intros a H. induction H as [a Ha Ha0|a o b Ha IH Ho Hb Hb0].
    - apply Hsub. apply Hroots; assumption.
    - apply (Hblack a o b); auto. rewrite Hg. intros []. }
  split.
  - intros a. rewrite is_marked_In. split; [|apply Hreach].
    intros Ha. apply (Hm a Ha).
  - intros a Ha. apply Hreach in Ha. destruct (Hm a Ha) as (A & B & _). auto.
Qed.

End MarkPhase.

(** ** table.c: table_remove_white, exactly *)

Lemma keyed_coherent t i k :
  wf_table t -> keyed_at (Tbl.entries t) (Tbl.capacity t) i k -> coherent t k.
Proof.
  intros Hwf Hk k' (j & Hj) Ha.
  assert (j = i) by (eapply (so_addr _ _ (wf_slots _ Hwf)); eauto).
  subst j. destruct Hk as [_ Hk], Hj as [_ Hj]. congruence.
Qed.

Lemma remove_white_loop_exact (is_marked : Z -> bool) :
  forall n i t,
    wf_table t -> 0 <= i -> i + Z.of_nat n = Tbl.capacity t ->
    (forall j k, 0 <= j < i -> keyed_at (Tbl.entries t) (Tbl.capacity t) j k ->
       is_marked (s_addr k) = true) ->
    exists t',
      Tbl.remove_white_loop n i is_marked t = Some t'
      /\ wf_table t'
      /\ Tbl.capacity t' = Tbl.capacity t
      /\ (forall j k, keyed_at (Tbl.entries t') (Tbl.capacity t') j k ->
            keyed_at (Tbl.entries t) (Tbl.capacity t) j k)
      /\ (forall j k, keyed_at (Tbl.entries t) (Tbl.capacity t) j k ->
            is_marked (s_addr k) = true ->
            keyed_at (Tbl.entries t') (Tbl.capacity t') j k)
      /\ (forall j k, keyed_at (Tbl.entries t') (Tbl.capacity t') j k ->
            is_marked (s_addr k) = true).
Proof.
  induction n as [|n IH]; intros i t Hwf Hi Hn Hdone.
  - exists t. simpl. split; [reflexivity|]. split; [exact Hwf|].
    split; [reflexivity|]. split; [auto|]. split; [auto|].
    intros j k Hk. apply (Hdone j k); [|exact Hk]. destruct Hk. lia.
  - cbn [Tbl.remove_white_loop].
    assert (Hstay :
      (forall k, Tbl.key (Tbl.entry_at (Tbl.entries t) i) = Some k ->
                 is_marked (s_addr k) = true) ->
      exists t',
        Tbl.remove_white_loop n (i + 1) is_marked t = Some t'
        /\ wf_table t'
        /\ Tbl.capacity t' = Tbl.capacity t
        /\ (forall j k, keyed_at (Tbl.entries t') (Tbl.capacity t') j k ->
              keyed_at (Tbl.entries t) (Tbl.capacity t) j k)
        /\ (forall j k, keyed_at (Tbl.entries t) (Tbl.capacity t) j k ->
              is_marked (s_addr k) = true ->
              keyed_at (Tbl.entries t') (Tbl.capacity t') j k)
        /\ (forall j k, keyed_at (Tbl.entries t') (Tbl.capacity t') j k ->
              is_marked (s_addr k) = true)).
    { intros Hi_ok. apply IH; auto; try lia.
      intros j k Hj Hk. destruct (Z.eq_dec j i) as [->|Hne].
      - apply Hi_ok. apply Hk.
      - apply (Hdone j k); [lia|exact Hk]. }
    destruct (Tbl.key (Tbl.entry_at (Tbl.entries t) i)) as [k|] eqn:K.
    2:{ apply Hstay. intros k Hk. discriminate. }
    destruct (is_marked (s_addr k)) eqn:M.
    { apply Hstay. intros k' Hk'. injection Hk' as <-. exact M. }
    assert (Hk : keyed_at (Tbl.entries t) (Tbl.capacity t) i k)
      by (split; [lia|exact K]).
    assert (Hh : 0 <= s_hash k) by (eapply so_hash; [apply Hwf|exact Hk]).
    destruct (table_delete_spec t k Hwf Hh)
      as (t1 & b & Hd & Hwf1 & Hcap1 & _ & Hback & Hfwd).
    destruct (table_delete_strong t k Hwf Hh (keyed_coherent t i k Hwf Hk))
      as (t1' & b' & Hd' & _ & _ & _ & Hgone & _).
    rewrite Hd in Hd'. injection Hd' as <- <-.
    rewrite Hd.
    destruct (IH (i + 1) t1 Hwf1) as (t' & Hr & Hwf' & Hcap' & Hback' & Hfwd' & Hall');
      try lia.
    { intros j k' Hj Hk'. destruct (Z.eq_dec j i) as [->|Hne].
      - exfalso. apply Hgone. exists i.
        pose proof (Hback i k' Hk') as Hk0.
        destruct Hk0 as [_ Hk0]. rewrite K in Hk0. injection Hk0 as ->.
        exact Hk'.
      - apply (Hdone j k'); [lia|]. apply Hback. exact Hk'. }
    exists t'. split; [exact Hr|]. split; [exact Hwf'|].
    split; [lia|]. split; [|split].
    + intros j k' H. apply Hback. apply Hback'. exact H.
    + intros j k' H Hm. apply Hfwd'; [|exact Hm]. apply Hfwd; [exact H|].
      intros E. rewrite E in Hm. congruence.
    + exact Hall'.
Qed.

(** [table_remove_white] returns, and leaves the marked keys and no
    other. *)
Lemma table_remove_white_exact is_marked t :
  wf_table t ->
  exists t',
    Tbl.table_remove_white is_marked t = Some t'
    /\ wf_table t'
    /\ (forall k, has_key t' k <-> has_key t k /\ is_marked (s_addr k) = true).
Proof.
  intros Hwf. unfold Tbl.table_remove_white.
  pose proof (so_len _ _ (wf_slots _ Hwf)) as Hlen.
  destruct (remove_white_loop_exact is_marked (Z.to_nat (Tbl.capacity t)) 0 t Hwf)
    as (t' & Hr & Hwf' & Hcap & Hback & Hfwd & Hall); try lia.
  exists t'. split; [exact Hr|]. split; [exact Hwf'|].
  intros k. split.
  - intros (j & Hj). split; [exists j; apply Hback; exact Hj|].
    apply (Hall j k Hj).
  - intros [(j & Hj) Hm]. exists j. apply Hfwd; assumption.
Qed.

(** ** memory.c: collect_garbage *)

Lemma nodup_fst_filter (f : Z * Obj -> bool) h :
  NoDup (map fst h) -> NoDup (map fst (filter f h)).
Proof.
  induction h as [|x h IH]; simpl; intros H; [constructor|].
  inversion H as [|? ? Hn Hd]; subst.
  destruct (f x); simpl; auto. constructor; auto.
  intros Hin. apply Hn. apply in_map_iff in Hin. destruct Hin as (y & Hy & Hin).
  apply filter_In in Hin. rewrite <- Hy. apply in_map. tauto.
Qed.

Lemma heap_lookup_nodup h a o :
  NoDup (map fst h) -> In (a, o) h -> heap_lookup h a = Some o.
Proof.
  induction h as [|[b ob] h IH]; simpl; intros Hnd Hin; [destruct Hin|].
  inversion Hnd as [|? ? Hn Hd]; subst.
  destruct Hin as [E|Hin].
  - injection E as -> ->. rewrite Z.eqb_refl. reflexivity.
  - destruct (Z.eqb_spec b a) as [->|Hne]; [|auto].
    destruct Hn. apply (in_map fst) in Hin. exact Hin.
Qed.

(** ** memory.c: sweep *)

Lemma mark_phase_marks_spec compiler_roots vm :
  pointers_valid (objects vm) (roots compiler_roots vm) = true ->
  exists g,
    mark_phase_marks compiler_roots vm = Some g
    /\ GC.gray_stack g = []
    /\ NoDup (GC.marked g)
    /\ (forall a, GC.is_marked g a = true <->
          reachable (objects vm) (roots compiler_roots vm) a)
    /\ (forall a, reachable (objects vm) (roots compiler_roots vm) a ->
          a <> 0 /\ heap_lookup (objects vm) a <> None).
Proof.
  intros Hvalid.
  destruct (mark_phase (objects vm) (roots compiler_roots vm) Hvalid)
    as (g0 & g & Hr0 & Hr & Hg & Hnd & Hm & Hlive).
  exists g. unfold mark_phase_marks. rewrite mark_roots_refs, Hr0.
  split; [exact Hr|]. split; [exact Hg|]. split; [exact Hnd|].
  split; [exact Hm|exact Hlive].
Qed.

Lemma reachableb_spec compiler_roots vm a :
  pointers_valid (objects vm) (roots compiler_roots vm) = true ->
  (reachableb compiler_roots vm a = true <->
   reachable (objects vm) (roots compiler_roots vm) a).
Proof.
  intros Hvalid.
  destruct (mark_phase_marks_spec compiler_roots vm Hvalid) as (g & Hr & _ & _ & Hm & _).
  unfold reachableb. rewrite Hr. apply Hm.
Qed.

Lemma quietb_app bytes next b1 b2 :
  quietb bytes next (b1 ++ b2)
  = quietb bytes next b1 && quietb (released bytes b1) next b2.
Proof.
  revert bytes. induction b1 as [|s b1 IH]; intros bytes; simpl; [reflexivity|].
  rewrite IH. unfold released. simpl. rewrite !andb_assoc. reflexivity.
Qed.

Lemma released_app bytes b1 b2 :
  released bytes (b1 ++ b2) = released (released bytes b1) b2.
Proof. unfold released. apply fold_left_app. Qed.

Section Sweep.

Variables (stress_gc : bool) (sz : GC.Sizes).
Variable collect : GC.State -> option GC.State.

(** Releasing blocks that leave the counter at or below [next_gc] starts
    no collection. *)
Lemma free_object_blocks_quiet :
  forall blocks st,
    quietb (GC.bytes_allocated st) (GC.next_gc st) blocks = true ->
    GC.free_object_blocks stress_gc collect blocks st
    = Some (GC.set_bytes_allocated st (released (GC.bytes_allocated st) blocks)).
Proof.
  induction blocks as [|s blocks IH]; intros st Hq.
  - simpl. destruct st; reflexivity.
  - cbn [quietb] in Hq. apply andb_true_iff in Hq. destruct Hq as [Hq Hrest].
    apply andb_true_iff in Hq. destruct Hq as [Hs Hle].
    cbn [GC.free_object_blocks]. unfold GC.reallocate.
    apply Z.leb_le in Hs, Hle.
    replace (0 >? s) with false by lia. rewrite andb_false_r.
    cbn [GC.bytes_allocated GC.next_gc GC.set_bytes_allocated].
    destruct (Z.gtb_spec (size_t (GC.bytes_allocated st + (0 - s))) (GC.next_gc st))
      as [Hgt|_]; [lia|].
    rewrite IH by exact Hrest. reflexivity.
Qed.

Lemma chain_split_app kept a o rest :
  ~ In a (map fst kept) ->
  GC.chain_split a (kept ++ (a, o) :: rest) = Some (kept, o, rest).
Proof.
  induction kept as [|[b ob] kept IH]; intros Hn; simpl.
  - rewrite Z.eqb_refl. reflexivity.
  - destruct (Z.eqb_spec b a) as [E|E].
    + destruct Hn. left. exact E.
    + rewrite IH; [reflexivity|]. intros H. apply Hn. right. exact H.
Qed.

(** The address of the last object of a list, [NULL] for none. *)
Lemma unlink_last kept a o rest :
  NoDup (map fst (kept ++ (a, o) :: rest)) ->
  (forall ao, In ao kept -> fst ao <> 0) ->
  GC.unlink (GC.first_object (rev kept)) rest (kept ++ (a, o) :: rest)
  = Some (kept ++ rest).
Proof.
  intros Hnd Hnz. unfold GC.unlink.
  destruct (rev kept) as [|[p po] rk] eqn:Er.
  - simpl. assert (kept = []).
    { rewrite <- (rev_involutive kept), Er. reflexivity. }
    subst kept. reflexivity.
  - assert (Hk : kept = rev rk ++ [(p, po)]).
    { rewrite <- (rev_involutive kept), Er. reflexivity. }
    simpl. assert (Hp : p <> 0).
    { apply (Hnz (p, po)). rewrite Hk. apply in_or_app. right. left. reflexivity. }
    replace (p =? 0) with false by lia.
    rewrite Hk, <- app_assoc. simpl.
    rewrite chain_split_app.
    + rewrite <- app_assoc. reflexivity.
    + rewrite Hk, <- app_assoc in Hnd. simpl in Hnd.
      rewrite map_app in Hnd. simpl in Hnd.
      apply NoDup_remove_2 in Hnd. intros H. apply Hnd.
      apply in_or_app. left. exact H.
Qed.

Lemma is_marked_unmark a g x :
  GC.is_marked (GC.unmark a g) x = negb (x =? a) && GC.is_marked g x.
Proof.
  unfold GC.is_marked, GC.unmark. simpl.
  induction (GC.marked g) as [|m l IH]; simpl.
  - rewrite andb_false_r. reflexivity.
  - destruct (Z.eqb_spec m a) as [->|E]; simpl.
    + rewrite IH. destruct (Z.eqb_spec x a) as [->|E']; simpl; [reflexivity|].
      replace (x =? a) with false by lia. reflexivity.
    + rewrite IH. destruct (Z.eqb_spec x m) as [->|E']; simpl.
      * replace (m =? a) with false by lia. reflexivity.
      * reflexivity.
Qed.

Lemma swept_marks_nil g : swept_marks [] g = g.
Proof.
  unfold swept_marks. simpl. destruct g as [m gs]. simpl. f_equal.
  induction m as [|x l IH]; simpl; [reflexivity|]. rewrite IH. reflexivity.
Qed.

Lemma swept_marks_unmark a o todo g :
  swept_marks todo (GC.unmark a g) = swept_marks ((a, o) :: todo) g.
Proof.
  unfold swept_marks, GC.unmark. cbn [GC.marked GC.gray_stack map fst].
  f_equal. induction (GC.marked g) as [|m l IH]; [reflexivity|].
  cbn [filter existsb].
  destruct (Z.eqb_spec m a) as [E|E]; cbn [negb orb].
  - exact IH.
  - cbn [filter]. rewrite IH. reflexivity.
Qed.

(** The loop of [sweep] when no release starts a collection: the marked
    objects stay, unmarked; the others leave the list and their blocks are
    released. *)
Lemma sweep_loop_quiet :
  forall todo kept fuel st,
    objects (GC.machine st) = kept ++ todo ->
    NoDup (map fst (kept ++ todo)) ->
    (forall ao, In ao (kept ++ todo) -> fst ao <> 0) ->
    (List.length todo <= fuel)%nat ->
    quietb (GC.bytes_allocated st) (GC.next_gc st)
      (blocks_of sz
         (filter (fun ao => negb (GC.is_marked (GC.marks st) (fst ao))) todo))
    = true ->
    GC.sweep_loop stress_gc sz collect fuel (GC.first_object (rev kept))
      (GC.first_object todo) st
    = Some
        {| GC.machine :=
             set_objects (GC.machine st)
               (kept ++ filter (fun ao => GC.is_marked (GC.marks st) (fst ao)) todo);
           GC.marks := swept_marks todo (GC.marks st);
           GC.bytes_allocated :=
             released (GC.bytes_allocated st)
               (blocks_of sz
                  (filter (fun ao => negb (GC.is_marked (GC.marks st) (fst ao)))
                     todo));
           GC.next_gc := GC.next_gc st |}.
Proof.
  induction todo as [|[a o] todo IH]; intros kept fuel st Hobj Hnd Hnz Hfuel Hq.
  - rewrite app_nil_r in Hobj.
    assert (Hst : {| GC.machine :=
                       set_objects (GC.machine st)
                         (kept ++ filter (fun ao => GC.is_marked (GC.marks st) (fst ao)) []);
                     GC.marks := swept_marks [] (GC.marks st);
                     GC.bytes_allocated :=
                       released (GC.bytes_allocated st)
                         (blocks_of sz
                            (filter (fun ao => negb (GC.is_marked (GC.marks st) (fst ao))) []));
                     GC.next_gc := GC.next_gc st |} = st).
    { simpl. rewrite app_nil_r, <- Hobj, swept_marks_nil.
      destruct st as [vm g b n]. simpl. destruct vm; reflexivity. }
    rewrite Hst. destruct fuel; reflexivity.
  - assert (Ha0 : a <> 0).
    { apply (Hnz (a, o)). apply in_or_app. right. left. reflexivity. }
    assert (Hna : ~ In a (map fst kept)).
    { rewrite map_app in Hnd. simpl in Hnd. apply NoDup_remove_2 in Hnd.
      intros H. apply Hnd. apply in_or_app. left. exact H. }
    assert (Hnt : ~ In a (map fst todo)).
    { rewrite map_app in Hnd. simpl in Hnd. apply NoDup_remove_2 in Hnd.
      intros H. apply Hnd. apply in_or_app. right. exact H. }
    destruct fuel as [|fuel]; [simpl in Hfuel; lia|].
    cbn [GC.first_object GC.sweep_loop].
    replace (a =? 0) with false by lia.
    rewrite Hobj, chain_split_app by exact Hna.
    cbn [filter fst] in Hq |- *.
    destruct (GC.is_marked (GC.marks st) a) eqn:Em; cbn [negb] in Hq |- *.
    + (* marked: it stays, unmarked *)
      set (st1 := GC.set_marks st (GC.unmark a (GC.marks st))).
      assert (Hsame : forall ao, In ao todo ->
                GC.is_marked (GC.marks st1) (fst ao)
                = GC.is_marked (GC.marks st) (fst ao)).
      { intros ao Hin. subst st1. simpl. rewrite is_marked_unmark.
        destruct (Z.eqb_spec (fst ao) a) as [E|E]; [|reflexivity].
        destruct Hnt. rewrite <- E. apply in_map. exact Hin. }
      assert (Hf1 : filter (fun ao => GC.is_marked (GC.marks st1) (fst ao)) todo
                    = filter (fun ao => GC.is_marked (GC.marks st) (fst ao)) todo).
      { apply filter_ext_in. exact Hsame. }
      assert (Hf2 : filter (fun ao => negb (GC.is_marked (GC.marks st1) (fst ao))) todo
                    = filter (fun ao => negb (GC.is_marked (GC.marks st) (fst ao))) todo).
      { apply filter_ext_in. intros ao Hin. rewrite (Hsame ao Hin). reflexivity. }
      replace a with (GC.first_object (rev (kept ++ [(a, o)]))) at 1
        by (rewrite rev_app_distr; reflexivity).
      rewrite (IH (kept ++ [(a, o)]) fuel st1).
      * f_equal. rewrite Hf1, Hf2. subst st1. simpl. f_equal.
        -- rewrite <- app_assoc. reflexivity.
        -- apply swept_marks_unmark.
      * subst st1. simpl. rewrite Hobj, <- app_assoc. reflexivity.
      * rewrite <- app_assoc. exact Hnd.
      * rewrite <- app_assoc. exact Hnz.
      * simpl in Hfuel. lia.
      * rewrite Hf2. exact Hq.
    + (* not marked: it leaves the list and is freed *)
      rewrite unlink_last.
      2:{ exact Hnd. }
      2:{ intros ao Hin. apply Hnz. apply in_or_app. left. exact Hin. }
      unfold blocks_of in Hq. cbn [flat_map snd] in Hq.
      fold (blocks_of sz (filter (fun ao => negb (GC.is_marked (GC.marks st) (fst ao))) todo)) in Hq.
      rewrite quietb_app in Hq. apply andb_true_iff in Hq.
      destruct Hq as [Hq1 Hq2].
      unfold GC.free_object.
      rewrite free_object_blocks_quiet by exact Hq1.
      cbn [GC.bytes_allocated GC.set_machine].
      rewrite (IH kept fuel).
      * f_equal. simpl. f_equal.
        -- unfold swept_marks. simpl. f_equal.
           apply filter_ext_in. intros m Hm.
           destruct (Z.eqb_spec m a) as [->|E]; [|reflexivity].
           apply is_marked_In in Hm. congruence.
        -- unfold blocks_of. cbn [flat_map snd]. rewrite released_app. reflexivity.
      * reflexivity.
      * rewrite map_app in Hnd |- *. simpl in Hnd.
        apply NoDup_remove_1 in Hnd. exact Hnd.
      * intros ao Hin. apply Hnz. apply in_app_or in Hin.
        apply in_or_app. destruct Hin; [left|right; right]; assumption.
      * simpl in Hfuel. lia.
      * exact Hq2.
Qed.

End Sweep.

Lemma heap_closedb_spec compiler_roots vm :
  heap_closedb compiler_roots vm = true ->
  NoDup (map fst (objects vm))
  /\ (forall ao, In ao (objects vm) -> fst ao <> 0)
  /\ pointers_valid (objects vm) (roots compiler_roots vm) = true.
Proof.
  unfold heap_closedb. rewrite !andb_true_iff, distinct_spec, forallb_forall.
  intros [[H1 H2] H3]. split; [exact H1|]. split; [|exact H3].
  intros ao Hin. specialize (H2 ao Hin). lia.
Qed.

Lemma swept_marks_all l g :
  GC.gray_stack g = [] ->
  (forall a, In a (GC.marked g) -> In a (map fst l)) ->
  swept_marks l g = GC.no_marks.
Proof.
  intros Hg Hm. unfold swept_marks, GC.no_marks. rewrite Hg. f_equal.
  induction (GC.marked g) as [|m ms IH]; [reflexivity|].
  cbn [filter].
  assert (existsb (Z.eqb m) (map fst l) = true).
  { apply existsb_exists. exists m. split; [|apply Z.eqb_refl].
    apply Hm. left. reflexivity. }
  rewrite H. cbn [negb]. apply IH. intros a Ha. apply Hm. right. exact Ha.
Qed.

(** What a collection that is not re-entered leaves of a heap. *)
Lemma live_heap_closed compiler_roots vm vm' :
  heap_closedb compiler_roots vm = true ->
  objects vm'
  = filter (fun ao => reachableb compiler_roots vm (fst ao)) (objects vm) ->
  roots compiler_roots vm' = roots compiler_roots vm ->
  (forall a, reachable (objects vm) (roots compiler_roots vm) a ->
     deref vm' a = deref vm a /\ deref vm a <> None)
  /\ (forall a, ~ reachable (objects vm) (roots compiler_roots vm) a ->
        deref vm' a = None)
  /\ heap_closedb compiler_roots vm' = true.
Proof.
  intros Hclosed Hobj Hroots.
  destruct (heap_closedb_spec _ _ Hclosed) as (Hnd & Hnz & Hvalid).
  destruct (mark_phase_marks_spec compiler_roots vm Hvalid)
    as (g & Hg & _ & _ & Hm & Hlive).
  assert (Hderef : forall a, deref vm' a
                             = if reachableb compiler_roots vm a then deref vm a
                               else None).
  { intros a. unfold deref. rewrite Hobj. apply heap_lookup_filter. }
  assert (Hlive' : forall a, reachable (objects vm) (roots compiler_roots vm) a ->
                             deref vm' a = deref vm a /\ deref vm a <> None).
  { intros a Ha. rewrite Hderef.
    rewrite (proj2 (reachableb_spec compiler_roots vm a Hvalid) Ha).
    split; [reflexivity|]. apply (Hlive a Ha). }
  split; [exact Hlive'|]. split.
  { intros a Ha. rewrite Hderef.
    destruct (reachableb compiler_roots vm a) eqn:E; [|reflexivity].
    destruct Ha. apply reachableb_spec; assumption. }
  unfold heap_closedb. rewrite !andb_true_iff. split; [split|].
  { apply distinct_spec. rewrite Hobj. apply nodup_fst_filter. exact Hnd. }
  { apply forallb_forall. intros ao Hin. rewrite Hobj in Hin.
    apply filter_In in Hin. destruct Hin as [Hin _].
    specialize (Hnz ao Hin). lia. }
  assert (Hvp : forall a, a = 0 \/ reachable (objects vm) (roots compiler_roots vm) a ->
                          valid_pointer (objects vm') a = true).
  { intros a [->|Ha]; [reflexivity|].
    unfold valid_pointer. apply orb_true_iff. right.
    destruct (Hlive' a Ha) as [E Hne]. unfold deref in E, Hne.
    rewrite E. destruct (heap_lookup (objects vm) a); [reflexivity|congruence]. }
  unfold pointers_valid. apply andb_true_iff. split.
  - apply forallb_forall. intros a Ha. rewrite Hroots in Ha.
    apply Hvp. destruct (Z.eq_dec a 0); [left; assumption|right].
    apply reach_root; assumption.
  - apply forallb_forall. intros [a o] Hin. rewrite Hobj in Hin.
    apply filter_In in Hin. destruct Hin as [Hin Hr]. simpl in Hr.
    apply reachableb_spec in Hr; [|exact Hvalid].
    pose proof (heap_lookup_nodup _ a o Hnd Hin) as Hlk.
    apply forallb_forall. intros b Hb. simpl in Hb.
    apply Hvp. destruct (Z.eq_dec b 0); [left; assumption|right].
    eapply reach_child; eauto.
Qed.

(** ** memory.c: a collection started inside sweep *)

Lemma mark_objects_marked objects :
  forall l g,
    (forall a, In a l ->
       a = 0 \/ (heap_lookup objects a <> None /\ GC.is_marked g a = true)) ->
    GC.mark_objects objects l g = Some g.
Proof.
  induction l as [|a l IH]; intros g H; [reflexivity|].
  cbn [GC.mark_objects]. unfold GC.mark_object.
  destruct (H a (or_introl eq_refl)) as [->|[Hl Hm]].
  - simpl. apply IH. intros x Hx. apply H. right. exact Hx.
  - destruct (a =? 0); [apply IH; intros x Hx; apply H; right; exact Hx|].
    destruct (heap_lookup objects a); [|congruence].
    rewrite Hm. apply IH. intros x Hx. apply H. right. exact Hx.
Qed.

Lemma trace_loop_no_gray fuel objects g :
  GC.gray_stack g = [] -> GC.trace_loop fuel objects g = Some g.
Proof. intros H. destruct fuel; simpl; rewrite H; reflexivity. Qed.

(** Blocks that the counter covers are released without a collection when
    the counter is not above [next_gc]. *)
Lemma quietb_bounds :
  forall blocks bytes next,
    forallb (fun s => 0 <=? s) blocks = true ->
    fold_right Z.add 0 blocks <= bytes -> bytes <= next -> bytes < 2 ^ 64 ->
    quietb bytes next blocks = true
    /\ released bytes blocks = bytes - fold_right Z.add 0 blocks.
Proof.
  induction blocks as [|s blocks IH]; intros bytes next Hpos Hsum Hle Hlt.
  - simpl. unfold released. simpl. split; [reflexivity|lia].
  - cbn [forallb] in Hpos. apply andb_true_iff in Hpos. destruct Hpos as [Hs Hpos].
    apply Z.leb_le in Hs. cbn [fold_right] in Hsum.
    assert (Hrest : 0 <= fold_right Z.add 0 blocks).
    { clear - Hpos. induction blocks as [|x l IH]; simpl; [lia|].
      simpl in Hpos. apply andb_true_iff in Hpos. destruct Hpos as [Hx Hl].
      apply Z.leb_le in Hx. specialize (IH Hl). lia. }
    assert (E : size_t (bytes + (0 - s)) = bytes - s).
    { unfold size_t. rewrite Z.mod_small by lia. lia. }
    destruct (IH (bytes - s) next Hpos) as [Hq Hr]; try lia.
    cbn [quietb]. rewrite E, Hq.
    split.
    + replace (0 <=? s) with true by lia.
      replace (bytes - s <=? next) with true by lia. reflexivity.
    + unfold released in *. cbn [fold_left fold_right]. rewrite E, Hr. lia.
Qed.

Lemma blocks_sum_nonneg blocks :
  forallb (fun s => 0 <=? s) blocks = true -> 0 <= fold_right Z.add 0 blocks.
Proof.
  induction blocks as [|x l IH]; simpl; [lia|].
  intros H. apply andb_true_iff in H. destruct H as [Hx Hl].
  apply Z.leb_le in Hx. specialize (IH Hl). lia.
Qed.

Lemma filter_all {A : Type} (f : A -> bool) l :
  (forall x, In x l -> f x = true) -> filter f l = l.
Proof.
  induction l as [|x l IH]; intros H; simpl; [reflexivity|].
  rewrite (H x (or_introl eq_refl)), IH; [reflexivity|].
  intros y Hy. apply H. right. exact Hy.
Qed.

Lemma filter_none {A : Type} (f : A -> bool) l :
  (forall x, In x l -> f x = false) -> filter f l = [].
Proof.
  induction l as [|x l IH]; intros H; simpl; [reflexivity|].
  rewrite (H x (or_introl eq_refl)). apply IH.
  intros y Hy. apply H. right. exact Hy.
Qed.

(** What a collection that is not re-entered returns. *)
Lemma collect_garbage_quiet stress_gc sz compiler_roots st :
  GC.marks st = GC.no_marks ->
  heap_closedb compiler_roots (GC.machine st) = true ->
  wf_table (strings (GC.machine st)) ->
  quietb (GC.bytes_allocated st) (GC.next_gc st)
    (blocks_of sz (garbage compiler_roots (GC.machine st))) = true ->
  exists strings',
    wf_table strings'
    /\ (forall k,
          has_key strings' k <->
          has_key (strings (GC.machine st)) k
          /\ reachable (objects (GC.machine st))
               (roots compiler_roots (GC.machine st)) (s_addr k))
    /\ GC.collect_garbage stress_gc sz compiler_roots st
       = Some
           {| GC.machine :=
                set_objects (set_strings (GC.machine st) strings')
                  (filter
                     (fun ao => reachableb compiler_roots (GC.machine st) (fst ao))
                     (objects (GC.machine st)));
              GC.marks := GC.no_marks;
              GC.bytes_allocated :=
                released (GC.bytes_allocated st)
                  (blocks_of sz (garbage compiler_roots (GC.machine st)));
              GC.next_gc :=
                size_t
                  (released (GC.bytes_allocated st)
                     (blocks_of sz (garbage compiler_roots (GC.machine st))) * 3)
                / 2 |}.
Proof.
  intros Hmarks Hclosed Hwf Hquiet.
  destruct (heap_closedb_spec _ _ Hclosed) as (Hnd & Hnz & Hvalid).
  destruct (mark_phase (objects (GC.machine st))
              (roots compiler_roots (GC.machine st)) Hvalid)
    as (g0 & g & Hr0 & Hr & Hgray & Hndm & Hmarked & Hlive).
  assert (Hmp : mark_phase_marks compiler_roots (GC.machine st) = Some g).
  { unfold mark_phase_marks. rewrite mark_roots_refs, Hr0. exact Hr. }
  assert (Hrb : forall a,
             reachableb compiler_roots (GC.machine st) a = GC.is_marked g a).
  { intros a. unfold reachableb. rewrite Hmp. reflexivity. }
  destruct (table_remove_white_exact (GC.is_marked g) (strings (GC.machine st)) Hwf)
    as (strings' & Hrw & Hwf' & Hkeys).
  exists strings'. split; [exact Hwf'|]. split.
  { intros k. rewrite Hkeys, Hmarked. reflexivity. }
  unfold GC.collect_garbage. cbn [GC.collect_garbage_nested].
  unfold GC.collect_garbage_body.
  rewrite Hmarks, mark_roots_refs, Hr0, Hr, Hrw.
  unfold GC.sweep.
  cbn [GC.machine GC.set_marks GC.set_machine objects set_strings].
  set (st1 := GC.set_marks _ g).
  pose proof (sweep_loop_quiet stress_gc sz
                (GC.collect_garbage_nested
                   (List.length (objects (GC.machine st))) stress_gc sz
                   compiler_roots)
                (objects (GC.machine st)) [] (List.length (objects (GC.machine st)))
                st1) as Hsweep.
  cbn [rev GC.first_object app] in Hsweep.
  rewrite Hsweep; clear Hsweep.
  2:{ reflexivity. }
  2:{ exact Hnd. }
  2:{ exact Hnz. }
  2:{ lia. }
  2:{ subst st1. cbn [GC.marks GC.bytes_allocated GC.next_gc GC.set_marks
                     GC.set_machine].
      unfold garbage in Hquiet.
      erewrite filter_ext; [exact Hquiet|].
      intros ao. simpl. rewrite Hrb. reflexivity. }
  subst st1.
  cbn [GC.machine GC.marks GC.bytes_allocated GC.next_gc GC.set_next_gc
       GC.set_marks GC.set_machine].
  assert (Hobj : filter (fun ao => GC.is_marked g (fst ao)) (objects (GC.machine st))
                 = filter
                     (fun ao => reachableb compiler_roots (GC.machine st) (fst ao))
                     (objects (GC.machine st))).
  { apply filter_ext. intros ao. rewrite Hrb. reflexivity. }
  assert (Hgar : filter (fun ao => negb (GC.is_marked g (fst ao)))
                   (objects (GC.machine st))
                 = garbage compiler_roots (GC.machine st)).
  { unfold garbage. apply filter_ext. intros ao. rewrite Hrb. reflexivity. }
  rewrite Hobj, Hgar.
  rewrite swept_marks_all.
  - reflexivity.
  - exact Hgray.
  - intros a Ha. apply is_marked_In in Ha. apply Hmarked in Ha.
    destruct (Hlive a Ha) as [_ Hl].
    destruct (heap_lookup (objects (GC.machine st)) a) eqn:E; [|congruence].
    eapply heap_lookup_in. exact E.
Qed.

(** C6.  The stored hash is [hash_string] of the bytes, and [hash_string]
    runs the FNV-1a loop (same XOR, same prime) but starts from 216613626,
    which is the FNV offset basis 2166136261 with its last digit missing.
    On the empty string the stored hash is 216613626, not 2166136261, and
    on the one-byte string "a" the two hashes differ as well. *)
Theorem C6_hash_string_is_not_fnv1a :
  Hash.hash_string [] = 216613626 /\
  Hash.fnv1a_32 [] = 2166136261 /\
  Hash.hash_string ["a"%char] = 3996375553 /\
  Hash.fnv1a_32 ["a"%char] = 3826002220 /\
  (forall key, Hash.hash_string key = Hash.fnv1a_fold 216613626 key).
Proof.
  repeat split; try reflexivity.
Qed.





(** ** Calling a class *)

(** What [call_value] does with a class whose method table has no entry
    for [vm.init_string]. *)
Lemma call_value_class_without_init natives vm a name methods init arg_count :
  deref vm a = Some (ObjClass name methods) ->
  init_string vm = Some init ->
  Tbl.table_get methods init = Some None ->
  let vm1 := poke arg_count (OBJ_VAL (next_addr vm))
               (snd (new_instance a vm)) in
  call_value natives (OBJ_VAL a) arg_count vm
  = Some (true,
          if negb (arg_count =? 0)
          then runtime_error
                 ("Exected 0 arguments but got " ++ format_int arg_count ++ ".")
                 vm1
          else vm1).
Proof.
  intros Hd Hi Hg vm1. unfold call_value. rewrite Hd.
  unfold new_instance, allocate_object in *. cbn [fst snd] in *.
  assert (E : init_string
                (poke arg_count (OBJ_VAL (next_addr vm))
                   (set_next_addr
                      (set_objects vm
                         ((next_addr vm, ObjInstance a Tbl.init_table)
                            :: objects vm)) (next_addr vm + 1)))
              = Some init) by exact Hi.
  rewrite E, Hg. fold vm1. destruct (negb (arg_count =? 0)); reflexivity.
Qed.

(** C1.  For a class whose method table has no [init]: with no argument
    the call succeeds and the callee slot holds a new instance of the
    class; with arguments [call_value] reports the error and then returns
    [true], so [OP_CALL] does not return [INTERPRET_RUNTIME_ERROR]: it goes
    on with [frame = &vm.frames[-1]] after [reset_stack] emptied the
    frames.  On [class A {} A(1);] the message is printed, the stack is
    reset, and the step has no defined result. *)
Theorem C1_class_call_with_arguments_returns_true :
  forall natives,
    call_value natives (peek 1 C1_vm) 1 C1_vm
    = Some (true,
            runtime_error "Exected 0 arguments but got 1."
              (poke 1 (OBJ_VAL 6) (snd (new_instance 5 C1_vm))))
    /\ op_call natives 1 C1_vm = Undefined
    /\ (forall vm a name methods init arg_count,
          deref vm a = Some (ObjClass name methods) ->
          init_string vm = Some init ->
          Tbl.table_get methods init = Some None ->
          peek arg_count vm = OBJ_VAL a ->
          arg_count <> 0 ->
          op_call natives arg_count vm = Undefined)
    /\ (forall vm a name methods init rest f fs,
          deref vm a = Some (ObjClass name methods) ->
          init_string vm = Some init ->
          Tbl.table_get methods init = Some None ->
          stack vm = OBJ_VAL a :: rest ->
          frames vm = f :: fs ->
          exists vm',
            op_call natives 0 vm = Continue vm'
            /\ stack vm' = OBJ_VAL (next_addr vm) :: rest
            /\ deref vm' (next_addr vm) = Some (ObjInstance a Tbl.init_table)
            /\ objects vm'
               = (next_addr vm, ObjInstance a Tbl.init_table) :: objects vm).
Proof.
  intros natives. split; [reflexivity|]. split; [reflexivity|]. split.
  - intros vm a name methods init arg_count Hd Hi Hg Hp Hn.
    unfold op_call. rewrite Hp.
    rewrite (call_value_class_without_init natives vm a name methods init
               arg_count Hd Hi Hg).
    assert (E : (arg_count =? 0) = false) by (apply Z.eqb_neq; exact Hn).
    rewrite E. reflexivity.
  - intros vm a name methods init rest f fs Hd Hi Hg Hs Hf.
    unfold op_call.
    assert (Hp : peek 0 vm = OBJ_VAL a) by (unfold peek; rewrite Hs; reflexivity).
    rewrite Hp.
    rewrite (call_value_class_without_init natives vm a name methods init
               0 Hd Hi Hg).
    cbn [negb Z.eqb]. unfold new_instance, allocate_object, poke.
    cbn [fst snd frames set_stack set_next_addr set_objects stack objects].
    rewrite Hf, Hs. eexists. split; [reflexivity|].
    cbn [stack objects list_set Z.to_nat]. split; [reflexivity|].
    split; [|reflexivity].
    unfold deref, set_stack, set_next_addr, set_objects.
    cbn [objects heap_lookup]. rewrite Z.eqb_refl. reflexivity.
Qed.

(** ** [OP_ADD] *)





(** ** The locals of a compiler *)




(** ** String literals *)




(** On that source the pool ends as two copies of the string and the code
    as [OP_CONSTANT 1]. *)
Example C9_string_literal_example :
  option_map
    (fun st => (values (constants (Compiler.current_chunk st)),
                code (Compiler.current_chunk st)))
    (Compiler.string false C9_state)
  = Some ([OBJ_VAL 1; OBJ_VAL 1], [4; 1]).
Proof. vm_compute. reflexivity. Qed.

(** ** The collector's trigger *)




(** Two allocations from the initial state, the sweep freeing nothing:
    1 MiB does not collect, one more byte does, and the threshold becomes
    1572865. *)
Example C3_collection_example :
  let m1 := Memory.ALLOCATE false (fun m => m) 1 1048576 Memory.init_mem in
  let m2 := Memory.ALLOCATE false (fun m => m) 1 1 m1 in
  Memory.gc_log m1 = [] /\ Memory.next_gc m1 = 1048576
  /\ Memory.bytes_allocated m2 = 1048577
  /\ Memory.gc_log m2 = [1572865] /\ Memory.next_gc m2 = 1572865.
Proof. vm_compute. repeat split. Qed.

(** ** The open upvalues *)

Lemma walk_upvalues_spec local l :
  upvalues_ok l ->
  let (passed, from) := walk_upvalues local l in
  l = passed ++ from
  /\ Forall (fun u => open_slot u > local) passed
  /\ Forall (fun u => open_slot u <= local) from.
Proof.
  induction l as [|u rest IH]; intros [Hloc Hsorted]; simpl.
  - auto.
  - inversion Hloc as [|? ? Hu Hrest]; subst.
    inversion Hsorted as [|? ? Hs Hall]; subst.
    rewrite Hu. simpl.
    destruct (open_slot u >? local) eqn:E.
    + specialize (IH (conj Hrest Hs)).
      destruct (walk_upvalues local rest) as [passed from].
      destruct IH as (-> & Hp & Hf). splits; auto.
      constructor; auto. apply Z.gtb_lt in E. lia.
    + assert (open_slot u <= local).
      { destruct (Z_le_dec (open_slot u) local); auto.
        assert ((open_slot u >? local) = true) by (apply Z.gtb_lt; lia).
        congruence. }
      splits; auto. constructor; auto.
      rewrite Forall_map in Hall.
      eapply Forall_impl; [|exact Hall]. simpl. intros; lia.
Qed.

Lemma sorted_app_insert (before after : list Z) x :
  StronglySorted Z.gt (before ++ after) ->
  Forall (fun y => y > x) before -> Forall (fun y => y < x) after ->
  StronglySorted Z.gt (before ++ x :: after).
Proof.
  induction before as [|b before IH]; simpl; intros Hs Hb Ha.
  - constructor; auto. eapply Forall_impl; [|exact Ha]. simpl. intros; lia.
  - inversion Hs as [|? ? Hs' Hall]; subst.
    inversion Hb as [|? ? Hbx Hb']; subst. constructor; auto.
    rewrite Forall_app in *. destruct Hall as [Hall1 Hall2]. split; auto.
Qed.







(** Captures of slots 1, 3, 2 and 3 again, in that order: three upvalues,
    at slots 3, 2, 1; after closing from slot 2 up, the one at slot 1 is
    left. *)
Example C4_open_upvalues_example :
  open_slots (run_upvalue_ops [UCapture 1; UCapture 3; UCapture 2; UCapture 3]
                fresh_vm) = [3; 2; 1]
  /\ open_slots (run_upvalue_ops
                   [UCapture 1; UCapture 3; UCapture 2; UCapture 3; UClose 2]
                   fresh_vm) = [1].
Proof. vm_compute. split; reflexivity. Qed.

(** ** lexer.c: number *)




Lemma lexeme_make_token t lx pre :
  Lexer.start lx = pre ++ Lexer.current lx ->
  lexeme (Lexer.make_token t lx) = pre.
Proof.
  intros H. unfold lexeme, Lexer.make_token, Lexer.offset. simpl.
  rewrite H, length_app.
  replace (Z.to_nat (Z.of_nat (List.length pre + List.length (Lexer.current lx))
                     - Z.of_nat (List.length (Lexer.current lx))))
    with (List.length pre + 0)%nat by lia.
  rewrite firstn_app_2. simpl. apply app_nil_r.
Qed.











(** ** compiler.c: the expression parser *)

Lemma bind_some {A B : Type} (m : option A) (k : A -> option B) r :
  Compiler.bind m k = Some r -> exists x, m = Some x /\ k x = Some r.
Proof. destruct m as [x|]; simpl; [eauto | discriminate]. Qed.

Ltac bind_inv H :=
  let x := fresh "x" in
  let E := fresh "E" in
  apply bind_some in H; destruct H as (x & E & H).

Section ParserFuel.

Variable strtod : list ascii -> float.

Variables r1 r2
  : Compiler.Precedence -> Compiler.CState -> option Compiler.CState.
Hypothesis Hrec : rec_le r1 r2.

Lemma expression_mono s r :
  Compiler.expression r1 s = Some r -> Compiler.expression r2 s = Some r.
Proof. apply Hrec. Qed.

Lemma argument_loop_mono n1 :
  forall n2 c s r,
    (n1 <= n2)%nat ->
    Compiler.argument_loop r1 n1 c s = Some r ->
    Compiler.argument_loop r2 n2 c s = Some r.
Proof.
  induction n1 as [|n1 IH]; intros n2 c s r Hn H; simpl in H; [discriminate|].
  destruct n2 as [|n2]; [lia|]. simpl.
  bind_inv H. apply expression_mono in E. rewrite E. cbn [Compiler.bind].
  bind_inv H. rewrite E0. cbn [Compiler.bind].
  destruct x0 as [m st]. destruct m; auto.
  apply IH; [lia | exact H].
Qed.

Lemma argument_list_mono n1 n2 s r :
  (n1 <= n2)%nat ->
  Compiler.argument_list r1 n1 s = Some r ->
  Compiler.argument_list r2 n2 s = Some r.
Proof.
  intros Hn H. unfold Compiler.argument_list in *.
  bind_inv H.
  assert (E' : (if negb (Compiler.check TOKEN_RIGHT_PAREN s)
                then Compiler.argument_loop r2 n2 0 s else Some (0, s))
               = Some x).
  { destruct (negb (Compiler.check TOKEN_RIGHT_PAREN s)); auto.
    eapply argument_loop_mono; eauto. }
  rewrite E'. exact H.
Qed.

Lemma named_variable_mono name ca s r :
  Compiler.named_variable r1 name ca s = Some r ->
  Compiler.named_variable r2 name ca s = Some r.
Proof.
  unfold Compiler.named_variable. intros H.
  destruct (Compiler.resolve_local (Compiler.compiler s) name s) as [local s0].
  bind_inv H. rewrite E. cbn [Compiler.bind].
  destruct x as [[[arg set_op] get_op] s1].
  bind_inv H. rewrite E0. cbn [Compiler.bind].
  destruct x as [assign s2]. destruct assign; auto.
  bind_inv H. apply expression_mono in E1. rewrite E1. exact H.
Qed.

Lemma run_rule_mono n1 n2 fn ca s r :
  (n1 <= n2)%nat ->
  Compiler.run_rule strtod r1 n1 fn ca s = Some r ->
  Compiler.run_rule strtod r2 n2 fn ca s = Some r.
Proof.
  intros Hn H. destruct fn; simpl in *.
  - (* grouping *)
    unfold Compiler.grouping in *. bind_inv H.
    apply expression_mono in E. rewrite E. exact H.
  - (* call *)
    unfold Compiler.call_ in *. bind_inv H.
    apply (argument_list_mono n1 n2) in E; [|exact Hn]. rewrite E. exact H.
  - (* dot *)
    unfold Compiler.dot in *. bind_inv H. rewrite E. cbn [Compiler.bind].
    bind_inv H. rewrite E0. cbn [Compiler.bind]. destruct x0 as [name s1].
    bind_inv H. rewrite E1. cbn [Compiler.bind]. destruct x0 as [assign s2].
    destruct assign.
    + bind_inv H. apply expression_mono in E2. rewrite E2. exact H.
    + bind_inv H. rewrite E2. cbn [Compiler.bind]. destruct x0 as [invoke s3].
      destruct invoke; auto.
      bind_inv H. apply (argument_list_mono n1 n2) in E3; [|exact Hn].
      rewrite E3. exact H.
  - (* unary *)
    unfold Compiler.unary in *. bind_inv H. apply Hrec in E. rewrite E. exact H.
  - (* binary *)
    unfold Compiler.binary in *. bind_inv H. apply Hrec in E. rewrite E. exact H.
  - (* variable *)
    unfold Compiler.variable in *. apply named_variable_mono. exact H.
  - (* string *) exact H.
  - (* number *) exact H.
  - (* and *)
    unfold Compiler.and_ in *.
    destruct (Compiler.emit_jump (opcode OP_JUMP_IF_FALSE) s) as [j s0].
    bind_inv H. apply Hrec in E. rewrite E. exact H.
  - (* or *)
    unfold Compiler.or_ in *.
    destruct (Compiler.emit_jump (opcode OP_JUMP_IF_FALSE) s) as [j s0].
    destruct (Compiler.emit_jump (opcode OP_JUMP) s0) as [j' s1].
    bind_inv H. apply Hrec in E. rewrite E. exact H.
  - (* literal *) exact H.
  - (* super *)
    unfold Compiler.super_ in *.
    bind_inv H. rewrite E. cbn [Compiler.bind].
    bind_inv H. rewrite E0. cbn [Compiler.bind].
    bind_inv H. rewrite E1. cbn [Compiler.bind]. destruct x1 as [name s1].
    bind_inv H. apply named_variable_mono in E2. rewrite E2.
    cbn [Compiler.bind].
    bind_inv H. rewrite E3. cbn [Compiler.bind]. destruct x2 as [invoke s3].
    destruct invoke.
    + bind_inv H. apply (argument_list_mono n1 n2) in E4; [|exact Hn].
      rewrite E4. cbn [Compiler.bind]. destruct x2 as [arg_count s4].
      bind_inv H. apply named_variable_mono in E5. rewrite E5. exact H.
    + bind_inv H. apply named_variable_mono in E4. rewrite E4. exact H.
  - (* this *)
    unfold Compiler.this_, Compiler.variable in *.
    destruct (Compiler.current_class s); [exact H|].
    apply named_variable_mono. exact H.
Qed.

Lemma infix_loop_mono f1 f2 n1 :
  forall n2 prec ca s r,
    (f1 <= f2)%nat -> (n1 <= n2)%nat ->
    Compiler.infix_loop strtod r1 f1 n1 prec ca s = Some r ->
    Compiler.infix_loop strtod r2 f2 n2 prec ca s = Some r.
Proof.
  induction n1 as [|n1 IH]; intros n2 prec ca s r Hf Hn H.
  - simpl in H.
    destruct n2; simpl;
      destruct (Compiler.prec_le prec
                  (Compiler.precedence
                     (Compiler.get_rule
                        (tok_type (Compiler.current (Compiler.parser s))))));
      auto; discriminate.
  - destruct n2 as [|n2]; [lia|]. simpl in *.
    destruct (Compiler.prec_le prec
                (Compiler.precedence
                   (Compiler.get_rule
                      (tok_type (Compiler.current (Compiler.parser s))))));
      auto.
    bind_inv H. rewrite E. cbn [Compiler.bind].
    destruct (Compiler.infix
                (Compiler.get_rule
                   (tok_type (Compiler.previous (Compiler.parser x)))));
      [|discriminate].
    bind_inv H. apply (run_rule_mono f1 f2) in E0; [|exact Hf].
    rewrite E0. cbn [Compiler.bind]. apply IH; [exact Hf | lia | exact H].
Qed.

Lemma parse_precedence_body_mono f1 f2 prec s r :
  (f1 <= f2)%nat ->
  Compiler.parse_precedence_body strtod r1 f1 prec s = Some r ->
  Compiler.parse_precedence_body strtod r2 f2 prec s = Some r.
Proof.
  intros Hf H. unfold Compiler.parse_precedence_body in *.
  bind_inv H. rewrite E. cbn [Compiler.bind].
  destruct (Compiler.prefix
              (Compiler.get_rule
                 (tok_type (Compiler.previous (Compiler.parser x))))); auto.
  bind_inv H. apply (run_rule_mono f1 f2) in E0; [|exact Hf].
  rewrite E0. cbn [Compiler.bind].
  bind_inv H. apply (infix_loop_mono f1 f2 f1 f2) in E1; auto.
  rewrite E1. exact H.
Qed.

End ParserFuel.

(** More fuel changes no result of [parse_precedence]. *)
Lemma parse_precedence_S strtod f :
  rec_le (Compiler.parse_precedence strtod f)
    (Compiler.parse_precedence strtod (S f)).
Proof.
  induction f as [|f IH]; intros p s r H.
  - discriminate H.
  - change (Compiler.parse_precedence_body strtod
              (Compiler.parse_precedence strtod (S f)) (S f) p s = Some r).
    change (Compiler.parse_precedence_body strtod
              (Compiler.parse_precedence strtod f) f p s = Some r) in H.
    apply (parse_precedence_body_mono strtod _ _ IH f (S f)); [lia | exact H].
Qed.

(** *** Assignment targets *)

Lemma token_type_eqb_eq a b : token_type_eqb a b = true -> a = b.
Proof. destruct a, b; simpl; intros H; first [reflexivity | discriminate H]. Qed.

Lemma match_token_miss t s :
  tok_type (Compiler.current (Compiler.parser s)) <> t ->
  Compiler.match_token t s = Some (false, s).
Proof.
  intros H. unfold Compiler.match_token, Compiler.check.
  destruct (token_type_eqb (tok_type (Compiler.current (Compiler.parser s))) t)
    eqn:E; [|reflexivity].
  apply token_type_eqb_eq in E. contradiction.
Qed.

Lemma match_token_result t s m s' :
  Compiler.match_token t s = Some (m, s') ->
  if m then tok_type (Compiler.current (Compiler.parser s)) = t else s' = s.
Proof.
  unfold Compiler.match_token, Compiler.check.
  destruct (token_type_eqb (tok_type (Compiler.current (Compiler.parser s))) t)
    eqn:E; simpl.
  - intros H. bind_inv H. injection H as <- <-.
    apply token_type_eqb_eq. exact E.
  - intros H. injection H as <- <-. reflexivity.
Qed.

(** The previous token after [advance] is the current one before it. *)
Lemma advance_loop_previous n :
  forall s s',
    Compiler.advance_loop n s = Some s' ->
    Compiler.previous (Compiler.parser s')
    = Compiler.previous (Compiler.parser s).
Proof.
  induction n as [|n IH]; intros s s' H; simpl in H; [discriminate|].
  bind_inv H. destruct x as [t lx].
  destruct (negb (token_type_eqb (tok_type t) TOKEN_ERROR)).
  - injection H as <-. reflexivity.
  - apply IH in H. rewrite H. unfold Compiler.error_at_current, Compiler.error_at.
    cbn [Compiler.parser Compiler.set_lexer Compiler.set_parser
         Compiler.panic_mode Compiler.previous].
    destruct (Compiler.panic_mode (Compiler.parser s)); reflexivity.
Qed.

Lemma advance_previous s s' :
  Compiler.advance s = Some s' ->
  Compiler.previous (Compiler.parser s') = Compiler.current (Compiler.parser s).
Proof.
  unfold Compiler.advance. intros H. apply advance_loop_previous in H.
  exact H.
Qed.

Section CanAssign.

Variable strtod : list ascii -> float.
Variable rec : Compiler.Precedence -> Compiler.CState -> option Compiler.CState.
Variable fuel : nat.

(** A variable that no [=] follows is read, whatever [can_assign] says. *)
Lemma named_variable_no_assign name s r :
  Compiler.named_variable rec name false s = Some r ->
  tok_type (Compiler.current (Compiler.parser r)) <> TOKEN_EQUAL ->
  Compiler.named_variable rec name true s = Some r.
Proof.
  unfold Compiler.named_variable. intros H Hne.
  destruct (Compiler.resolve_local (Compiler.compiler s) name s) as [local s0].
  bind_inv H. rewrite E. cbn [Compiler.bind] in *.
  destruct x as [[[arg set_op] get_op] s1].
  injection H as <-.
  rewrite match_token_miss by exact Hne. reflexivity.
Qed.

Lemma dot_no_assign s r :
  Compiler.dot rec fuel false s = Some r ->
  tok_type (Compiler.current (Compiler.parser r)) <> TOKEN_EQUAL ->
  Compiler.dot rec fuel true s = Some r.
Proof.
  unfold Compiler.dot. intros H Hne.
  bind_inv H. rewrite E. cbn [Compiler.bind].
  bind_inv H. rewrite E0. cbn [Compiler.bind] in *. destruct x0 as [name s1].
  assert (Hs1 : tok_type (Compiler.current (Compiler.parser s1)) <> TOKEN_EQUAL).
  { bind_inv H. destruct x0 as [invoke s2].
    pose proof (match_token_result _ _ _ _ E1) as Hm. destruct invoke.
    - rewrite Hm. discriminate.
    - subst s2. injection H as <-. exact Hne. }
  rewrite match_token_miss by exact Hs1. exact H.
Qed.

Lemma run_rule_no_assign fn s r :
  Compiler.run_rule strtod rec fuel fn false s = Some r ->
  tok_type (Compiler.current (Compiler.parser r)) <> TOKEN_EQUAL ->
  Compiler.run_rule strtod rec fuel fn true s = Some r.
Proof.
  intros H Hne. destruct fn; try exact H.
  - apply dot_no_assign; assumption.
  - apply named_variable_no_assign; assumption.
Qed.

(** The loop of [parse_precedence] stops at [=], at any precedence above
    [PREC_NONE]. *)
Lemma infix_loop_stops_at_equal n prec ca s :
  Compiler.prec_le prec Compiler.PREC_NONE = false ->
  tok_type (Compiler.current (Compiler.parser s)) = TOKEN_EQUAL ->
  Compiler.infix_loop strtod rec fuel n prec ca s = Some s.
Proof.
  intros Hp He. destruct n; simpl; rewrite He; simpl; rewrite Hp; reflexivity.
Qed.

Lemma infix_loop_no_assign n :
  forall prec s r,
    Compiler.prec_le prec Compiler.PREC_NONE = false ->
    Compiler.infix_loop strtod rec fuel n prec false s = Some r ->
    tok_type (Compiler.current (Compiler.parser r)) <> TOKEN_EQUAL ->
    Compiler.infix_loop strtod rec fuel n prec true s = Some r.
Proof.
  induction n as [|n IH]; intros prec s r Hp H Hne.
  - simpl in *. exact H.
  - simpl in *.
    destruct (Compiler.prec_le prec
                (Compiler.precedence
                   (Compiler.get_rule
                      (tok_type (Compiler.current (Compiler.parser s))))));
      [|exact H].
    bind_inv H. rewrite E. cbn [Compiler.bind].
    destruct (Compiler.infix
                (Compiler.get_rule
                   (tok_type (Compiler.previous (Compiler.parser x)))))
      as [fn|]; [|discriminate].
    bind_inv H.
    assert (Hx0 : tok_type (Compiler.current (Compiler.parser x0))
                  <> TOKEN_EQUAL).
    { intros He.
      rewrite (infix_loop_stops_at_equal n prec false x0 Hp He) in H.
      injection H as <-. contradiction. }
    rewrite (run_rule_no_assign fn x x0 E0 Hx0). cbn [Compiler.bind].
    apply IH; assumption.
Qed.

(** The loop at a low precedence, started where the loop at a higher one
    stopped, ends where the loop at the low precedence ends when it runs
    from the start. *)
Lemma infix_loop_split n :
  forall high low ca s mid r,
    (forall p, Compiler.prec_le high p = true -> Compiler.prec_le low p = true) ->
    Compiler.infix_loop strtod rec fuel n high ca s = Some mid ->
    Compiler.infix_loop strtod rec fuel n low ca s = Some r ->
    Compiler.infix_loop strtod rec fuel n low ca mid = Some r.
Proof.
  induction n as [|n IH]; intros high low ca s mid r Hle Hh Hl.
  - simpl in Hh.
    destruct (Compiler.prec_le high
                (Compiler.precedence
                   (Compiler.get_rule
                      (tok_type (Compiler.current (Compiler.parser s))))));
      [discriminate|].
    injection Hh as <-. exact Hl.
  - simpl in Hh.
    destruct (Compiler.prec_le high
                (Compiler.precedence
                   (Compiler.get_rule
                      (tok_type (Compiler.current (Compiler.parser s))))))
      eqn:Eh.
    + simpl in Hl. rewrite (Hle _ Eh) in Hl.
      bind_inv Hh. bind_inv Hl. rewrite E in E0. injection E0 as <-.
      destruct (Compiler.infix
                  (Compiler.get_rule
                     (tok_type (Compiler.previous (Compiler.parser x)))))
        as [fn|]; [|discriminate].
      bind_inv Hh. bind_inv Hl. rewrite E0 in E1. injection E1 as <-.
      apply (infix_loop_mono strtod rec rec (fun p s r H => H) fuel fuel n (S n));
        [lia | lia |].
      eapply IH; eauto.
    + injection Hh as <-. exact Hl.
Qed.

End CanAssign.

(** *** The prefix [+] *)

(** [a = b] is an expression: it compiles, to [OP_GET_GLOBAL b],
    [OP_SET_GLOBAL a], and nothing is reported.  [+a = b] is refused,
    "Invalid assignment target.", and its code reads [a] and never
    writes it. *)
Lemma C10_counterexample :
  C10_diagnostics (C10_compile 5 "a = b;") = []
  /\ C10_code (C10_compile 5 "a = b;")
     = [opcode OP_GET_GLOBAL; 1; opcode OP_SET_GLOBAL; 0]
  /\ C10_diagnostics (C10_compile 5 "+a = b;")
     = ["[line 1] Error at '=': Invalid assignment target."%string]
  /\ C10_code (C10_compile 5 "+a = b;") = [opcode OP_GET_GLOBAL; 0].
Proof. vm_compute. repeat split. Qed.

(** C10, amended.  [TOKEN_PLUS] has [unary] as its prefix rule and [unary]
    writes no instruction for it.  Let [+] be the token just consumed in
    [st1], let the token after it begin an expression, and let the operand
    of [+], parsed at [PREC_UNARY], end before a token other than [=].  Then
    an expression that compiles to [r_e] when it is parsed from the token
    after the [+] compiles to the same [r_e], chunk, constants and
    diagnostics, when it is parsed from the [+]: no instruction stands for
    the [+], so nothing checks the operand's type at run time.  (With [=]
    after the operand the two differ: [+a = b] is refused, [a = b] is an
    assignment.) *)
Theorem C10_prefix_plus :
  Compiler.prefix (Compiler.get_rule TOKEN_PLUS) = Some Compiler.unary_fn
  /\ (forall rec ca st r,
        tok_type (Compiler.previous (Compiler.parser st)) = TOKEN_PLUS ->
        rec Compiler.PREC_UNARY st = Some r ->
        Compiler.unary rec ca st = Some r)
  /\ (forall strtod fuel st st1 st_e r_u r_e,
        Compiler.advance st = Some st1 ->
        tok_type (Compiler.previous (Compiler.parser st1)) = TOKEN_PLUS ->
        Compiler.advance st_e = Compiler.advance st1 ->
        Compiler.prefix
          (Compiler.get_rule
             (tok_type (Compiler.current (Compiler.parser st1)))) <> None ->
        Compiler.parse_precedence strtod fuel Compiler.PREC_UNARY st1
        = Some r_u ->
        tok_type (Compiler.current (Compiler.parser r_u)) <> TOKEN_EQUAL ->
        Compiler.parse_precedence strtod fuel Compiler.PREC_ASSIGNMENT st_e
        = Some r_e ->
        Compiler.parse_precedence strtod (S fuel) Compiler.PREC_ASSIGNMENT st
        = Some r_e).
Proof.
  split; [reflexivity|]. split.
  { intros rec ca st r Hplus Hr. unfold Compiler.unary.
    rewrite Hr, Hplus. reflexivity. }
  intros strtod fuel st st1 st_e r_u r_e Hadv Hplus Hsame Hprefix Hu Hne He.
  destruct fuel as [|f]; [discriminate Hu|].
  pose proof Hu as Hoperand.
  set (rec := Compiler.parse_precedence strtod f) in *.
  (* the operand, parsed with [can_assign] false *)
  change (Compiler.parse_precedence_body strtod rec f Compiler.PREC_UNARY st1
          = Some r_u) in Hu.
  unfold Compiler.parse_precedence_body in Hu.
  bind_inv Hu. rename x into st2, E into Hadv1.
  rewrite (advance_previous _ _ Hadv1) in Hu.
  destruct (Compiler.prefix
              (Compiler.get_rule
                 (tok_type (Compiler.current (Compiler.parser st1)))))
    as [fn|] eqn:Hfn; [|contradiction].
  change (Compiler.prec_le Compiler.PREC_UNARY Compiler.PREC_ASSIGNMENT)
    with false in Hu.
  bind_inv Hu. rename x into s3, E into Hrule.
  bind_inv Hu. rename x into s4, E into Hloop.
  cbn [Compiler.bind] in Hu. injection Hu as <-.
  assert (Hs3 : tok_type (Compiler.current (Compiler.parser s3)) <> TOKEN_EQUAL).
  { intros Heq.
    rewrite (infix_loop_stops_at_equal strtod rec f f Compiler.PREC_UNARY false
               s3 eq_refl Heq) in Hloop.
    injection Hloop as <-. contradiction. }
  apply run_rule_no_assign in Hrule; [|exact Hs3].
  apply infix_loop_no_assign in Hloop; [|reflexivity|exact Hne].
  (* the expression, parsed from the token after the [+] *)
  change (Compiler.parse_precedence_body strtod rec f
            Compiler.PREC_ASSIGNMENT st_e = Some r_e) in He.
  unfold Compiler.parse_precedence_body in He.
  rewrite Hsame, Hadv1 in He. cbn [Compiler.bind] in He.
  rewrite (advance_previous _ _ Hadv1), Hfn in He.
  change (Compiler.prec_le Compiler.PREC_ASSIGNMENT Compiler.PREC_ASSIGNMENT)
    with true in He.
  rewrite Hrule in He. cbn [Compiler.bind] in He.
  bind_inv He. rename x into s5, E into Hloop_e.
  assert (Hrest :
    Compiler.infix_loop strtod rec f f Compiler.PREC_ASSIGNMENT true s4
    = Some s5).
  { apply (infix_loop_split strtod rec f f Compiler.PREC_UNARY
             Compiler.PREC_ASSIGNMENT true s3 s4 s5); auto.
    intros p. destruct p; simpl; auto. }
  apply (infix_loop_mono strtod rec (Compiler.parse_precedence strtod (S f))
           (parse_precedence_S strtod f) f (S f) f (S f)) in Hrest;
    [|lia|lia].
  (* the expression, parsed from the [+] *)
  change (Compiler.parse_precedence_body strtod
            (Compiler.parse_precedence strtod (S f)) (S f)
            Compiler.PREC_ASSIGNMENT st = Some r_e).
  unfold Compiler.parse_precedence_body.
  rewrite Hadv. cbn [Compiler.bind]. rewrite Hplus.
  change (Compiler.prefix (Compiler.get_rule TOKEN_PLUS))
    with (Some Compiler.unary_fn).
  change (Compiler.prec_le Compiler.PREC_ASSIGNMENT Compiler.PREC_ASSIGNMENT)
    with true.
  cbn [Compiler.run_rule]. unfold Compiler.unary.
  rewrite Hoperand, Hplus. cbn [Compiler.bind].
  rewrite Hrest. cbn [Compiler.bind]. exact He.
Qed.

Lemma C10_prefix_plus_witness :
  Compiler.parse_precedence C10_strtod 7 Compiler.PREC_ASSIGNMENT C10_st
  = Some C10_r_e
  /\ code (Compiler.current_chunk C10_r_e)
     = [opcode OP_GET_GLOBAL; 0; opcode OP_GET_GLOBAL; 1;
        opcode OP_GET_GLOBAL; 2; opcode OP_ADD; opcode OP_MUL]
  /\ Compiler.diagnostics C10_r_e = [].
Proof.
  split; [|vm_compute; split; reflexivity].
  apply (proj2 (proj2 C10_prefix_plus) C10_strtod 6%nat C10_st C10_st1 C10_st_e
           C10_r_u C10_r_e).
  - vm_compute. reflexivity.
  - vm_compute. reflexivity.
  - vm_compute. reflexivity.
  - vm_compute. discriminate.
  - vm_compute. reflexivity.
  - vm_compute. discriminate.
  - vm_compute. reflexivity.
Defined.
(* ------------------------------------------------------------------ *)
(** * X1: the table refines a finite map *)

(** X1.  A table built from [init_table] by any sequence of [table_set] and
    [table_delete] answers [table_get] as the map from key addresses to
    values that the same sequence builds: a key is found with the value of
    its last [table_set] unless a [table_delete] came after it.  The keys
    are string objects, one per address, and the run has fewer than 2^31 / 3
    operations (the probe index is a [uint32_t]).  The table reached is
    well formed: [count] counts keys and tombstones and stays within three
    quarters of [capacity]. *)
Theorem X1_table_refines_map :
  forall ops k,
    keys_okb (k :: map op_key ops) = true ->
    3 * (Z.of_nat (List.length ops) + 1) <= 2 ^ 31 ->
    exists t,
      run_table_ops ops Tbl.init_table = Some t
      /\ Tbl.table_get t k = Some (ref_run ops (s_addr k))
      /\ Tbl.count t = used_count (Tbl.entries t)
      /\ 4 * Tbl.count t <= 3 * Tbl.capacity t
      /\ Z.of_nat (List.length (Tbl.entries t)) = Tbl.capacity t.
Proof.
  intros ops k Hok Hbound.
  destruct (table_inv_of_run ops k Hok Hbound) as (t & Hr & Hinv).
  exists t. split; [exact Hr|]. split.
  - apply keys_okb_spec in Hok. destruct Hok as [Hh Ha].
    apply (table_inv_get (fun k' => In k' (k :: map op_key ops)) Hh Ha
             _ _ t k Hinv). left. reflexivity.
  - destruct Hinv as (Hwf & _).
    split; [apply Hwf|]. split; [apply Hwf|].
    apply (so_len _ _ (wf_slots _ Hwf)).
Qed.


Lemma X1_table_refines_map_witness :
  exists t,
    run_table_ops X_ops Tbl.init_table = Some t
    /\ Tbl.table_get t (string_object 3 "c")
       = Some (ref_run X_ops (s_addr (string_object 3 "c")))
    /\ Tbl.count t = used_count (Tbl.entries t)
    /\ 4 * Tbl.count t <= 3 * Tbl.capacity t
    /\ Z.of_nat (List.length (Tbl.entries t)) = Tbl.capacity t.
Proof.
  apply (X1_table_refines_map X_ops (string_object 3 "c")).
  - vm_compute. reflexivity.
  - vm_compute. discriminate.
Defined.
(* ------------------------------------------------------------------ *)
(** * X2: tombstones *)




(* ------------------------------------------------------------------ *)
(** * X3: table_add_all *)


(** X3.  [table_add_all (from, to)] on two tables reached from
    [init_table]: afterwards [to] answers [table_get] with the value [from]
    has for the key, and with its own former answer for a key [from] does
    not have.  (This is what [OP_INHERIT] does with the method tables: the
    subclass gets every method of the superclass.) *)
Theorem X3_table_add_all :
  forall ops_from ops_to k from to,
    keys_okb (k :: map op_key ops_from ++ map op_key ops_to) = true ->
    3 * (Z.of_nat (List.length ops_from) + 1) <= 2 ^ 31 ->
    3 * (Z.of_nat (List.length ops_to) + Tbl.capacity from + 1) <= 2 ^ 31 ->
    run_table_ops ops_from Tbl.init_table = Some from ->
    run_table_ops ops_to Tbl.init_table = Some to ->
    exists to',
      Tbl.table_add_all from to = Some to'
      /\ Tbl.table_get to' k
         = Some (match ref_run ops_from (s_addr k) with
                 | Some v => Some v
                 | None => ref_run ops_to (s_addr k)
                 end).
Proof.
  intros ops_from ops_to k from to Hok Hb1 Hb2 Hfrom Hto.
  set (ks := k :: map op_key ops_from ++ map op_key ops_to) in *.
  set (U := fun k' => In k' ks).
  pose proof (keys_okb_spec ks Hok) as [Hh Ha].
  assert (Hcap0 : 0 <= Tbl.capacity from).
  { destruct (table_inv_of_keys ks ops_from Hok) as (t & Hr & Hinv); auto.
    - intros op Hop. right. apply in_or_app. left. apply in_map. exact Hop.
    - rewrite Hfrom in Hr. injection Hr as <-.
      destruct Hinv as (Hwf & _).
      rewrite <- (so_len _ _ (wf_slots _ Hwf)). lia. }
  destruct (table_inv_of_keys ks ops_from Hok) as (t & Hr & Hinv_from); auto.
  { intros op Hop. right. apply in_or_app. left. apply in_map. exact Hop. }
  rewrite Hfrom in Hr. injection Hr as <-.
  destruct (table_inv_of_keys ks ops_to Hok) as (t & Hr & Hinv_to); auto.
  { intros op Hop. right. apply in_or_app. right. apply in_map. exact Hop. }
  { lia. }
  rewrite Hto in Hr. injection Hr as <-.
  destruct Hinv_from as (Hwf_from & HU_from & Hsem_from & _).
  pose proof (so_len _ _ (wf_slots _ Hwf_from)) as Hlen.
  destruct (add_all_loop_inv U Hh Ha from Hlen) with
    (n := Z.to_nat (Tbl.capacity from)) (i := 0)
    (c := Z.of_nat (List.length ops_to)) (m := ref_run ops_to) (to := to)
    as (to' & c' & Hloop & Hinv'); auto; try lia.
  { intros k' Hk'. apply HU_from. apply (keys_of_keyed _ _ k' Hlen). exact Hk'. }
  exists to'. split; [exact Hloop|].
  assert (Hk : U k) by (left; reflexivity).
  rewrite (table_inv_get U Hh Ha _ _ to' k Hinv' Hk). f_equal.
  change (skipn (Z.to_nat 0) (Tbl.entries from)) with (Tbl.entries from).
  destruct (ref_run ops_from (s_addr k)) as [v|] eqn:E.
  - apply add_all_ref_hit.
    + apply (slots_ok_addr_nodup _ _ (wf_slots _ Hwf_from)).
    + apply (Hsem_from k v Hk) in E. destruct E as (i & [Hi Hkey] & Hv).
      exists (Tbl.entry_at (Tbl.entries from) i). splits; auto.
      apply In_entry_at. exists i. split; auto. lia.
  - apply add_all_ref_miss. intros e k' Hin Hk' Haddr.
    apply In_entry_at in Hin. destruct Hin as (i & Hi & <-).
    assert (Hhas : has_key from k').
    { exists i. split; auto. lia. }
    assert (k' = k) by (apply Ha; auto; apply HU_from; exact Hhas).
    subst k'. destruct (has_key_binding from k Hhas) as (v & Hv).
    apply (Hsem_from k v Hk) in Hv. congruence.
Qed.


Lemma X3_table_add_all_witness :
  exists to',
    Tbl.table_add_all X3_from X3_to = Some to'
    /\ Tbl.table_get to' (string_object 3 "c")
       = Some (match ref_run X3_ops_from (s_addr (string_object 3 "c")) with
               | Some v => Some v
               | None => ref_run X3_ops_to (s_addr (string_object 3 "c"))
               end).
Proof.
  apply (X3_table_add_all X3_ops_from X3_ops_to (string_object 3 "c")
           X3_from X3_to).
  - vm_compute. reflexivity.
  - vm_compute. discriminate.
  - vm_compute. discriminate.
  - vm_compute. reflexivity.
  - vm_compute. reflexivity.
Defined.
(* ------------------------------------------------------------------ *)
(** * X4: assignment to a global *)

(** X4.  [OP_SET_GLOBAL] on a globals table reached from [init_table]:
    assigning to a name that is not defined is a runtime error that
    prints ["Undefined variable 'name'."] and resets the stack, and every global
    is looked up afterwards as before (the key that [table_set] wrote is
    deleted again); assigning to a defined name continues, leaves the
    value on the stack and binds the name to it, other names unchanged. *)
Theorem X4_set_global :
  forall gcs ops name k vm vm0,
    keys_okb (name :: k :: map op_key ops) = true ->
    3 * (Z.of_nat (List.length ops) + 3) <= 2 ^ 31 ->
    run_table_ops ops Tbl.init_table = Some (globals vm) ->
    collections gcs vm = Some vm0 ->
    (Tbl.table_get (globals vm) name = Some None ->
     exists vm',
       op_set_global gcs name vm = Return INTERPRET_RUNTIME_ERROR vm'
       /\ (exists trace,
             stderr vm' = stderr vm ++ undefined_variable name :: trace)
       /\ stack vm' = [] /\ frames vm' = []
       /\ Tbl.table_get (globals vm') k = Tbl.table_get (globals vm) k)
    /\ (forall v0,
          Tbl.table_get (globals vm) name = Some (Some v0) ->
          exists vm',
            op_set_global gcs name vm = Continue vm'
            /\ stack vm' = stack vm
            /\ Tbl.table_get (globals vm') name = Some (Some (peek 0 vm))
            /\ (s_addr k <> s_addr name ->
                Tbl.table_get (globals vm') k = Tbl.table_get (globals vm) k)).
Proof.
  intros gcs ops name k vm vm0 Hok Hbound Hrun Hgc.
  set (U := fun k' => In k' (name :: k :: map op_key ops)).
  destruct (keys_okb_spec _ Hok) as [Hh Ha].
  assert (HUn : U name) by (left; reflexivity).
  assert (HUk : U k) by (right; left; reflexivity).
  destruct (table_inv_of_keys (name :: k :: map op_key ops) ops Hok) as (t & Hr & Hinv).
  { intros op Hop. right. right. apply in_map. exact Hop. }
  { lia. }
  rewrite Hrun in Hr. injection Hr as <-. fold U in Hinv.
  destruct (collections_frame gcs vm vm0 Hgc) as (Hg & Hs & He & Hf & _).
  set (n := Z.of_nat (List.length ops)) in *.
  assert (Hn : 0 <= n) by (subst n; lia).
  pose proof (table_inv_get U Hh Ha _ _ _ name Hinv HUn) as Hgn.
  pose proof (table_inv_get U Hh Ha _ _ _ k Hinv HUk) as Hgk.
  destruct (table_inv_set U Hh Ha n _ _ name (peek 0 vm0) Hinv HUn Hn ltac:(lia))
    as (t1 & b & Hset & Hb & Hinv1).
  assert (Hpeek : peek 0 vm0 = peek 0 vm) by (unfold peek; rewrite Hs; reflexivity).
  split.
  - intros Hget. rewrite Hgn in Hget. injection Hget as Hm.
    apply Hb in Hm. subst b.
    destruct (table_inv_delete U Hh Ha (n + 1) _ _ name Hinv1 HUn ltac:(lia) ltac:(lia))
      as (t2 & b2 & Hdel & _ & Hinv2).
    unfold op_set_global. rewrite Hgc, Hg, Hset, Hdel.
    eexists. split; [reflexivity|]. simpl. rewrite He.
    split; [exists []; reflexivity|]. split; [reflexivity|].
    split; [reflexivity|].
    rewrite (table_inv_get U Hh Ha _ _ _ k Hinv2 HUk), Hgk. f_equal.
    simpl. destruct (s_addr k =? s_addr name) eqn:E; [|reflexivity].
    apply Z.eqb_eq in E. rewrite E. symmetry.
    apply Hb. reflexivity.
  - intros v0 Hget. rewrite Hgn in Hget. injection Hget as Hm.
    assert (b = false).
    { destruct b; auto. assert (Hx : ref_run ops (s_addr name) = None) by (apply Hb; reflexivity).
      congruence. }
    subst b. unfold op_set_global. rewrite Hgc, Hg, Hset.
    eexists. split; [reflexivity|]. simpl.
    split; [exact Hs|].
    rewrite (table_inv_get U Hh Ha _ _ _ name Hinv1 HUn).
    rewrite (table_inv_get U Hh Ha _ _ _ k Hinv1 HUk), Hgk. simpl.
    rewrite Z.eqb_refl, Hpeek. split; [reflexivity|].
    intros Hne. apply Z.eqb_neq in Hne. rewrite Hne. reflexivity.
Qed.

Lemma X4_set_global_witness :
  exists vm',
    op_set_global [] (string_object 7 "g") X4_vm
    = Return INTERPRET_RUNTIME_ERROR vm'
    /\ (exists trace,
          stderr vm'
          = stderr X4_vm ++ undefined_variable (string_object 7 "g") :: trace)
    /\ stack vm' = [] /\ frames vm' = []
    /\ Tbl.table_get (globals vm') (string_object 5 "e")
       = Tbl.table_get (globals X4_vm) (string_object 5 "e").
Proof.
  assert (H1 : keys_okb (string_object 7 "g" :: string_object 5 "e"
                         :: map op_key X_ops) = true)
    by (vm_compute; reflexivity).
  assert (H2 : 3 * (Z.of_nat (List.length X_ops) + 3) <= 2 ^ 31)
    by (vm_compute; discriminate).
  assert (H3 : run_table_ops X_ops Tbl.init_table = Some (globals X4_vm))
    by (vm_compute; reflexivity).
  apply (proj1 (X4_set_global [] X_ops (string_object 7 "g")
                  (string_object 5 "e") X4_vm X4_vm H1 H2 H3 eq_refl)).
  vm_compute. reflexivity.
Defined.

(* ------------------------------------------------------------------ *)
(** * X5: definition of a global *)

(** X5.  [OP_DEFINE_GLOBAL] on a globals table reached from [init_table]
    never fails, whether or not the name is already defined: it pops the
    value, [OP_GET_GLOBAL] of the name then pushes that value, and the
    other globals are looked up as before. *)
Theorem X5_define_get_global :
  forall gcs ops name k vm vm0,
    keys_okb (name :: k :: map op_key ops) = true ->
    3 * (Z.of_nat (List.length ops) + 3) <= 2 ^ 31 ->
    run_table_ops ops Tbl.init_table = Some (globals vm) ->
    collections gcs vm = Some vm0 ->
    exists vm',
      op_define_global gcs name vm = Continue vm'
      /\ stack vm' = tl (stack vm)
      /\ op_get_global name vm' = Continue (push (peek 0 vm) vm')
      /\ (s_addr k <> s_addr name ->
          Tbl.table_get (globals vm') k = Tbl.table_get (globals vm) k).
Proof.
  intros gcs ops name k vm vm0 Hok Hbound Hrun Hgc.
  set (U := fun k' => In k' (name :: k :: map op_key ops)).
  destruct (keys_okb_spec _ Hok) as [Hh Ha].
  assert (HUn : U name) by (left; reflexivity).
  assert (HUk : U k) by (right; left; reflexivity).
  destruct (table_inv_of_keys (name :: k :: map op_key ops) ops Hok) as (t & Hr & Hinv).
  { intros op Hop. right. right. apply in_map. exact Hop. }
  { lia. }
  rewrite Hrun in Hr. injection Hr as <-. fold U in Hinv.
  destruct (collections_frame gcs vm vm0 Hgc) as (Hg & Hs & He & Hf & _).
  set (n := Z.of_nat (List.length ops)) in *.
  assert (Hn : 0 <= n) by (subst n; lia).
  pose proof (table_inv_get U Hh Ha _ _ _ k Hinv HUk) as Hgk.
  destruct (table_inv_set U Hh Ha n _ _ name (peek 0 vm0) Hinv HUn Hn ltac:(lia))
    as (t1 & b & Hset & Hb & Hinv1).
  assert (Hpeek : peek 0 vm0 = peek 0 vm) by (unfold peek; rewrite Hs; reflexivity).
  unfold op_define_global. rewrite Hgc, Hg, Hset.
  eexists. split; [reflexivity|]. simpl.
  split; [rewrite Hs; reflexivity|].
  unfold op_get_global. simpl.
  rewrite (table_inv_get U Hh Ha _ _ _ name Hinv1 HUn).
  rewrite (table_inv_get U Hh Ha _ _ _ k Hinv1 HUk), Hgk. simpl.
  rewrite Z.eqb_refl, Hpeek. split; [reflexivity|].
  intros Hne. apply Z.eqb_neq in Hne. rewrite Hne. reflexivity.
Qed.

Lemma X5_define_get_global_witness :
  exists vm',
    op_define_global [] (string_object 7 "g") X4_vm = Continue vm'
    /\ stack vm' = tl (stack X4_vm)
    /\ op_get_global (string_object 7 "g") vm'
       = Continue (push (peek 0 X4_vm) vm')
    /\ (s_addr (string_object 5 "e") <> s_addr (string_object 7 "g") ->
        Tbl.table_get (globals vm') (string_object 5 "e")
        = Tbl.table_get (globals X4_vm) (string_object 5 "e")).
Proof.
  apply (X5_define_get_global [] X_ops (string_object 7 "g")
           (string_object 5 "e") X4_vm X4_vm).
  - vm_compute. reflexivity.
  - vm_compute. discriminate.
  - vm_compute. reflexivity.
  - reflexivity.
Defined.

(* ------------------------------------------------------------------ *)
(** * X6: scanning terminates *)

(** X6.  Scanning terminates on every source text: [lex_token], called
    again and again from [init_lexer], returns each time and after at most
    one token per character reaches [TOKEN_EOF], whose lexeme is empty.
    The line numbers of the tokens start at 1 and never decrease. *)
Theorem X6_lexer_terminates :
  forall source,
    exists ts eof,
      Lexer.tokens (S (List.length source)) (Lexer.init_lexer source)
      = Some (ts ++ [eof])
      /\ tok_type eof = TOKEN_EOF /\ tok_length eof = 0
      /\ Forall (fun t => tok_type t <> TOKEN_EOF) ts
      /\ (List.length ts <= List.length source)%nat
      /\ Forall (fun t => 1 <= tok_line t) (ts ++ [eof])
      /\ StronglySorted Z.le (map tok_line (ts ++ [eof])).
Proof.
  intros source.
  apply (tokens_total (S (List.length source)) (Lexer.init_lexer source)).
  simpl. lia.
Qed.

(* ------------------------------------------------------------------ *)
(** * X7: keywords *)

Lemma chars_eqb_length a b : chars_eqb a b = true -> List.length a = List.length b.
Proof. intros H. apply chars_eqb_eq in H. congruence. Qed.

(** [check_keyword] compares what follows the prefix with [rest]. *)
Lemma check_keyword_ref lx (a l : Z) (rest : String.string) ty :
  0 <= a -> 0 <= l -> a <= Lexer.offset lx ->
  l = Z.of_nat (String.length rest) ->
  Lexer.check_keyword a l rest ty lx
  = if chars_eqb (skipn (Z.to_nat a) (scanned lx)) (list_ascii_of_string rest)
    then ty else TOKEN_IDENTIFIER.
Proof.
  intros Ha Hl Hle Hlen. unfold Lexer.check_keyword, scanned, memcmp_eq.
  assert (Hoff : Lexer.offset lx <= Z.of_nat (List.length (Lexer.start lx))).
  { unfold Lexer.offset. lia. }
  assert (Hrl : List.length (list_ascii_of_string rest) = Z.to_nat l).
  { subst l. rewrite Nat2Z.id. clear. induction rest; simpl; auto. }
  destruct (Z.eqb_spec (Lexer.offset lx) (a + l)) as [E|E].
  - rewrite E. rewrite Z2Nat.inj_add by lia.
    rewrite <- firstn_skipn_comm. cbn [andb].
    rewrite <- Hrl at 2. rewrite firstn_all. reflexivity.
  - cbn [andb].
    destruct (chars_eqb _ _) eqn:C; [|reflexivity].
    apply chars_eqb_length in C. rewrite length_skipn, length_firstn in C.
    rewrite Hrl in C. lia.
Qed.

Ltac keyword_leaf :=
  unfold keyword_type; cbn;
  repeat match goal with
         | |- context [chars_eqb ?a ?b] => destruct (chars_eqb a b)
         end;
  first [ reflexivity
        | match goal with w : list ascii |- _ => destruct w; reflexivity end ].

(** X7.  [identifier_type] is exact: the text scanned is classified as a
    keyword if and only if it is, as a whole, one of the sixteen reserved
    words; a prefix of one or a longer word is an identifier. *)
Theorem X7_keywords :
  forall lx,
    0 < Lexer.offset lx ->
    Lexer.identifier_type lx = keyword_type (scanned lx).
Proof.
  intros lx Hoff.
  assert (Hlen : Lexer.offset lx <= Z.of_nat (List.length (Lexer.start lx))).
  { unfold Lexer.offset. lia. }
  destruct (Lexer.start lx) as [|c s'] eqn:Hs; [simpl in Hlen; lia|].
  assert (Hsc : scanned lx = c :: firstn (Z.to_nat (Lexer.offset lx - 1)) s').
  { unfold scanned. rewrite Hs.
    replace (Z.to_nat (Lexer.offset lx)) with (S (Z.to_nat (Lexer.offset lx - 1))) by lia.
    reflexivity. }
  unfold Lexer.identifier_type, Lexer.start_at. rewrite Hs. cbn [nth].
  destruct (Lexer.offset lx >? 1) eqn:E1.
  - assert (H2 : 2 <= Lexer.offset lx) by lia.
    rewrite !check_keyword_ref by (lia || reflexivity).
    destruct s' as [|d s'']; [simpl in Hlen; lia|].
    replace (Z.to_nat (Lexer.offset lx - 1))
      with (S (Z.to_nat (Lexer.offset lx - 2))) in Hsc by lia.
    cbn [firstn] in Hsc. rewrite Hsc.
    set (w := firstn (Z.to_nat (Lexer.offset lx - 2)) s''). clearbody w.
    change (Z.to_nat 1) with 1%nat. change (Z.to_nat 2) with 2%nat.
    cbn [skipn]. clear - w.
    destruct c as [[] [] [] [] [] [] [] []]; try keyword_leaf;
      destruct d as [[] [] [] [] [] [] [] []]; keyword_leaf.
  - assert (H1 : Lexer.offset lx = 1) by lia.
    rewrite !check_keyword_ref by (lia || reflexivity).
    rewrite Hsc, H1. change (Z.to_nat (1 - 1)) with 0%nat.
    change (Z.to_nat 1) with 1%nat. cbn [firstn skipn]. clear.
    destruct c as [[] [] [] [] [] [] [] []]; keyword_leaf.
Qed.

Lemma X7_keywords_witness :
  Lexer.identifier_type X7_lexer = keyword_type (scanned X7_lexer).
Proof. apply (X7_keywords X7_lexer). reflexivity. Defined.

(* ------------------------------------------------------------------ *)
(** * X8: string literals *)

Lemma string_loop_body body tail l :
  forallb string_char body = true ->
  string_char (hd Lexer.NUL tail) = false ->
  Lexer.string_loop (body ++ tail) l = (tail, l + newlines body).
Proof.
  revert l. induction body as [|c body IH]; intros l Hb Ht.
  - simpl. unfold newlines. simpl. rewrite Z.add_0_r.
    destruct tail as [|t tail']; [reflexivity|].
    simpl in Ht. unfold string_char in Ht. simpl. rewrite Ht. reflexivity.
  - simpl in Hb. apply andb_true_iff in Hb. destruct Hb as [Hc Hb].
    cbn [app Lexer.string_loop]. unfold string_char in Hc. rewrite Hc.
    rewrite IH by assumption. f_equal. unfold newlines. cbn [filter].
    destruct (Lexer.char_eqb c "010"); cbn [List.length]; lia.
Qed.

(** [lex_token] at an opening quote. *)
Lemma lex_token_quote lx tail :
  Lexer.current lx = "034"%char :: tail ->
  Lexer.lex_token lx
  = Some (Lexer.string {| Lexer.start := Lexer.current lx; Lexer.current := tail;
                          Lexer.line := Lexer.line lx |}).
Proof.
  intros Hc.
  unfold Lexer.lex_token, Lexer.skip_whitespace.
  rewrite Hc.
  cbn [List.length Lexer.skip_whitespace_loop].
  unfold Lexer.peek. rewrite Hc.
  replace (Lexer.read ("034"%char :: tail)) with ("034"%char) by reflexivity.
  replace (Lexer.char_eqb "034" " ") with false by reflexivity.
  replace (Lexer.char_eqb "034" "013") with false by reflexivity.
  replace (Lexer.char_eqb "034" "009") with false by reflexivity.
  replace (Lexer.char_eqb "034" "010") with false by reflexivity.
  replace (Lexer.char_eqb "034" "/") with false by reflexivity.
  cbn [orb]. rewrite Hc.
  unfold Lexer.is_at_end, Lexer.advance.
  cbn [Lexer.current Lexer.read hd tl Lexer.set_current Lexer.start Lexer.line fst snd].
  reflexivity.
Qed.

(** X8.  A string literal: from the opening quote, [lex_token] reads up to
    the next quote, whatever is between (newlines too, there are no
    escapes); the token is the text with both quotes and carries the line
    of the closing quote.  Without a closing quote the result is the error
    token ["Unterminated string."], and the rest of the source is
    consumed. *)
Theorem X8_string_token :
  forall lx body,
    forallb string_char body = true ->
    (forall rest,
        Lexer.current lx = "034"%char :: body ++ "034"%char :: rest ->
        exists t lx',
          Lexer.lex_token lx = Some (t, lx')
          /\ tok_type t = TOKEN_STRING
          /\ lexeme t = "034"%char :: body ++ ["034"%char]
          /\ tok_line t = Lexer.line lx + newlines body
          /\ Lexer.current lx' = rest
          /\ Lexer.line lx' = Lexer.line lx + newlines body)
    /\ (Lexer.current lx = "034"%char :: body ->
        exists t lx',
          Lexer.lex_token lx = Some (t, lx')
          /\ tok_type t = TOKEN_ERROR
          /\ lexeme t = list_ascii_of_string "Unterminated string."
          /\ tok_line t = Lexer.line lx + newlines body
          /\ Lexer.current lx' = []).
Proof.
  intros lx body Hbody. split.
  - intros rest Hc.
    rewrite (lex_token_quote lx _ Hc). unfold Lexer.string.
    cbn [Lexer.current Lexer.line Lexer.start].
    rewrite string_loop_body by (auto; reflexivity).
    unfold Lexer.is_at_end. cbn [Lexer.current Lexer.read hd].
    replace (Lexer.char_eqb "034" Lexer.NUL) with false by reflexivity.
    eexists _, _. split; [reflexivity|].
    split; [reflexivity|]. split.
    + apply lexeme_make_token. simpl. rewrite Hc.
      rewrite <- app_assoc. reflexivity.
    + repeat split; reflexivity.
  - intros Hc.
    rewrite (lex_token_quote lx _ Hc). unfold Lexer.string.
    cbn [Lexer.current Lexer.line Lexer.start].
    replace (Lexer.string_loop body (Lexer.line lx))
      with (Lexer.string_loop (body ++ []) (Lexer.line lx))
      by (rewrite app_nil_r; reflexivity).
    rewrite string_loop_body by (auto; reflexivity).
    unfold Lexer.is_at_end. cbn [Lexer.current Lexer.read hd].
    replace (Lexer.char_eqb Lexer.NUL Lexer.NUL) with true by reflexivity.
    eexists _, _. split; [reflexivity|].
    repeat split; reflexivity.
Qed.

Lemma X8_string_token_witness :
  exists t lx',
    Lexer.lex_token X8_lexer = Some (t, lx')
    /\ tok_type t = TOKEN_STRING
    /\ lexeme t = "034"%char :: X8_body ++ ["034"%char]
    /\ tok_line t = Lexer.line X8_lexer + newlines X8_body
    /\ Lexer.current lx' = X8_rest
    /\ Lexer.line lx' = Lexer.line X8_lexer + newlines X8_body.
Proof.
  apply (proj1 (X8_string_token X8_lexer X8_body eq_refl) X8_rest).
  reflexivity.
Defined.

(* ------------------------------------------------------------------ *)
(** * X9: advance *)

(** ** compiler.c: advance *)

Lemma token_type_eqb_refl t : token_type_eqb t t = true.
Proof. destruct t; reflexivity. Qed.



(* ------------------------------------------------------------------ *)
(** * X10: resolve_local *)

(** ** compiler.c: resolve_local, add_upvalue *)

Lemma resolve_local_loop_spec name st :
  forall rl,
    (Forall (fun l => Compiler.identifiers_equal name (Compiler.name l) = false) rl
     /\ Compiler.resolve_local_loop rl name st = (-1, st))
    \/ (exists pre l rest,
          rl = pre ++ l :: rest
          /\ Forall (fun l => Compiler.identifiers_equal name (Compiler.name l) = false) pre
          /\ Compiler.identifiers_equal name (Compiler.name l) = true
          /\ Compiler.resolve_local_loop rl name st
             = (Z.of_nat (List.length rest),
                if Compiler.depth l =? -1
                then Compiler.error "Can't read local variable in its own initializer." st
                else st)).
Proof.
  induction rl as [|l rest IH].
  - left. split; [constructor|reflexivity].
  - cbn [Compiler.resolve_local_loop].
    destruct (Compiler.identifiers_equal name (Compiler.name l)) eqn:E.
    + right. exists [], l, rest. repeat split; auto.
    + destruct IH as [[Hall Hr]|(pre & l' & rest' & Hrl & Hpre & Hl & Hr)].
      * left. split; [constructor; assumption|exact Hr].
      * right. exists (l :: pre), l', rest'. subst rest.
        repeat split; auto.
Qed.

(** X10.  [resolve_local] finds the innermost declaration: either no local
    has the name and the result is -1, or the result is the index of the
    last local with the name (later locals have other names); reading it
    is reported as an error exactly when that local is not yet initialised
    (depth -1), and the index is returned all the same. *)
Theorem X10_resolve_local_innermost :
  forall c name st,
    (Forall (fun l => Compiler.identifiers_equal name (Compiler.name l) = false)
       (Compiler.locals c)
     /\ Compiler.resolve_local c name st = (-1, st))
    \/ (exists before l after,
          Compiler.locals c = before ++ l :: after
          /\ Compiler.identifiers_equal name (Compiler.name l) = true
          /\ Forall (fun l => Compiler.identifiers_equal name (Compiler.name l) = false)
               after
          /\ Compiler.resolve_local c name st
             = (Z.of_nat (List.length before),
                if Compiler.depth l =? -1
                then Compiler.error "Can't read local variable in its own initializer." st
                else st)).
Proof.
  intros c name st. unfold Compiler.resolve_local.
  destruct (resolve_local_loop_spec name st (rev (Compiler.locals c)))
    as [[Hall Hr]|(pre & l & rest & Hrl & Hpre & Hl & Hr)].
  - left. split; [|exact Hr].
    apply Forall_rev in Hall. rewrite rev_involutive in Hall. exact Hall.
  - right. exists (rev rest), l, (rev pre).
    split.
    { rewrite <- (rev_involutive (Compiler.locals c)), Hrl.
      rewrite rev_app_distr. simpl. rewrite <- app_assoc. reflexivity. }
    split; [exact Hl|]. split; [apply Forall_rev; exact Hpre|].
    rewrite length_rev. exact Hr.
Qed.

(* ------------------------------------------------------------------ *)
(** * X11: add_upvalue *)

Lemma find_upvalue_spec index is_local :
  forall ups i,
    match Compiler.find_upvalue ups i index is_local with
    | Some r =>
        i <= r < i + Z.of_nat (List.length ups)
        /\ nth_error ups (Z.to_nat (r - i))
           = Some {| Compiler.index := index; Compiler.is_local := is_local |}
    | None =>
        ~ In {| Compiler.index := index; Compiler.is_local := is_local |} ups
    end.
Proof.
  induction ups as [|u rest IH]; intros i; cbn [Compiler.find_upvalue].
  - intros [].
  - destruct ((Compiler.index u =? index)
              && Bool.eqb (Compiler.is_local u) is_local) eqn:E.
    + apply andb_true_iff in E. destruct E as [E1 E2].
      apply Z.eqb_eq in E1. apply Bool.eqb_prop in E2.
      split; [simpl List.length; lia|].
      rewrite Z.sub_diag. simpl. destruct u; simpl in *. congruence.
    + specialize (IH (i + 1)).
      destruct (Compiler.find_upvalue rest (i + 1) index is_local) as [r|].
      * destruct IH as [Hr Hn]. split; [simpl List.length; lia|].
        replace (Z.to_nat (r - i)) with (S (Z.to_nat (r - (i + 1)))) by lia.
        exact Hn.
      * intros [H|H]; [|exact (IH H)].
        subst u. simpl in E. rewrite Z.eqb_refl, Bool.eqb_reflx in E.
        discriminate.
Qed.

Lemma find_upvalue_app index is_local :
  forall ups i more,
    ~ In {| Compiler.index := index; Compiler.is_local := is_local |} ups ->
    Compiler.find_upvalue (ups ++ more) i index is_local
    = Compiler.find_upvalue more (i + Z.of_nat (List.length ups)) index is_local.
Proof.
  induction ups as [|u rest IH]; intros i more Hn.
  - simpl. rewrite Z.add_0_r. reflexivity.
  - cbn [app Compiler.find_upvalue].
    destruct ((Compiler.index u =? index)
              && Bool.eqb (Compiler.is_local u) is_local) eqn:E.
    + apply andb_true_iff in E. destruct E as [E1 E2].
      apply Z.eqb_eq in E1. apply Bool.eqb_prop in E2.
      destruct Hn. left. destruct u; simpl in *. congruence.
    + rewrite IH by (intros H; apply Hn; right; exact H).
      f_equal. simpl List.length. lia.
Qed.

(** X11.  [add_upvalue] keeps one entry per captured variable: when
    [upvalue_count] is the number of entries, the call returns the index
    of the entry for [(index, is_local)], adding it at the end only if it
    is not there yet, and a second call with the same arguments returns
    the same index and changes nothing.  With 255 entries and a new
    variable, the call reports ["Too many closed variables in function."],
    returns 0 and adds nothing. *)
Theorem X11_add_upvalue :
  forall c index is_local st,
    Compiler.upvalue_count (Compiler.function c)
    = Z.of_nat (List.length (Compiler.upvalues c)) ->
    let '(i, c', st') := Compiler.add_upvalue c index is_local st in
    Compiler.upvalue_count (Compiler.function c')
    = Z.of_nat (List.length (Compiler.upvalues c'))
    /\ ((st' = st
         /\ 0 <= i < Compiler.upvalue_count (Compiler.function c')
         /\ nth_error (Compiler.upvalues c') (Z.to_nat i)
            = Some {| Compiler.index := index; Compiler.is_local := is_local |}
         /\ (Compiler.upvalues c' = Compiler.upvalues c
             \/ Compiler.upvalues c'
                = Compiler.upvalues c
                  ++ [{| Compiler.index := index; Compiler.is_local := is_local |}]
                /\ i = Compiler.upvalue_count (Compiler.function c)
                /\ i < 255)
         /\ Compiler.add_upvalue c' index is_local st = (i, c', st))
        \/ (255 <= Compiler.upvalue_count (Compiler.function c)
            /\ ~ In {| Compiler.index := index; Compiler.is_local := is_local |}
                 (Compiler.upvalues c)
            /\ i = 0 /\ c' = c
            /\ st' = Compiler.error "Too many closed variables in function." st)).
Proof.
  intros c index is_local st Hcount.
  unfold Compiler.add_upvalue.
  pose proof (find_upvalue_spec index is_local (Compiler.upvalues c) 0) as Hf.
  destruct (Compiler.find_upvalue (Compiler.upvalues c) 0 index is_local)
    as [r|] eqn:Ef.
  - destruct Hf as [Hr Hn]. rewrite Z.sub_0_r in Hn.
    split; [exact Hcount|]. left.
    split; [reflexivity|]. split; [lia|]. split; [exact Hn|].
    split; [left; reflexivity|]. rewrite Ef. reflexivity.
  - destruct (Compiler.upvalue_count (Compiler.function c) >=? UINT8_MAX) eqn:E.
    + split; [exact Hcount|]. right.
      assert (255 <= Compiler.upvalue_count (Compiler.function c)).
      { unfold UINT8_MAX in E. lia. }
      repeat split; auto.
    + assert (Hlt : Compiler.upvalue_count (Compiler.function c) < 255).
      { unfold UINT8_MAX in E. lia. }
      cbn [Compiler.upvalues Compiler.function Compiler.upvalue_count].
      split.
      { rewrite length_app. simpl List.length. lia. }
      left. split; [reflexivity|]. split; [lia|]. split.
      { rewrite Hcount, Nat2Z.id. rewrite nth_error_app2 by lia.
        rewrite Nat.sub_diag. reflexivity. }
      split; [right; repeat split; auto|].
      rewrite find_upvalue_app by exact Hf. cbn [Compiler.find_upvalue].
      rewrite Z.eqb_refl, Bool.eqb_reflx. cbn [andb].
      rewrite Hcount. reflexivity.
Qed.

Lemma X11_add_upvalue_witness :
  let '(i, c', st') :=
    Compiler.add_upvalue (Compiler.compiler X_state) 1 true X_state in
  Compiler.upvalue_count (Compiler.function c')
  = Z.of_nat (List.length (Compiler.upvalues c'))
  /\ ((st' = X_state
       /\ 0 <= i < Compiler.upvalue_count (Compiler.function c')
       /\ nth_error (Compiler.upvalues c') (Z.to_nat i)
          = Some {| Compiler.index := 1; Compiler.is_local := true |}
       /\ (Compiler.upvalues c' = Compiler.upvalues (Compiler.compiler X_state)
           \/ Compiler.upvalues c'
              = Compiler.upvalues (Compiler.compiler X_state)
                ++ [{| Compiler.index := 1; Compiler.is_local := true |}]
              /\ i = Compiler.upvalue_count
                       (Compiler.function (Compiler.compiler X_state))
              /\ i < 255)
       /\ Compiler.add_upvalue c' 1 true X_state = (i, c', X_state))
      \/ (255 <= Compiler.upvalue_count
                   (Compiler.function (Compiler.compiler X_state))
          /\ ~ In {| Compiler.index := 1; Compiler.is_local := true |}
               (Compiler.upvalues (Compiler.compiler X_state))
          /\ i = 0 /\ c' = Compiler.compiler X_state
          /\ st' = Compiler.error "Too many closed variables in function."
                     X_state)).
Proof.
  apply (X11_add_upvalue (Compiler.compiler X_state) 1 true X_state).
  reflexivity.
Defined.

(* ------------------------------------------------------------------ *)
(** * X12: forward jumps *)

(** ** compiler.c, vm.c: jump offsets *)

(** The two bytes written for a jump distance, read back by [READ_SHORT]. *)
Lemma short_round_trip j :
  0 <= j <= 65535 ->
  Z.lor (Z.shiftl (Z.land (Z.shiftr j 8) 255) 8) (Z.land j 255) mod 2 ^ 16 = j.
Proof.
  intros Hj.
  change 255 with (Z.ones 8). rewrite !Z.land_ones by lia.
  rewrite Z.shiftr_div_pow2, Z.shiftl_mul_pow2 by lia.
  assert (Hhi : 0 <= j / 2 ^ 8 < 2 ^ 8).
  { split; [apply Z.div_pos; lia|apply Z.div_lt_upper_bound; lia]. }
  rewrite (Z.mod_small (j / 2 ^ 8)) by lia.
  assert (Hlo : 0 <= j mod 2 ^ 8 < 2 ^ 8) by (apply Z.mod_pos_bound; lia).
  assert (Hand : Z.land (j / 2 ^ 8 * 2 ^ 8) (j mod 2 ^ 8) = 0).
  { apply Z.bits_inj'. intros n Hn. rewrite Z.land_spec, Z.bits_0.
    destruct (Z.ltb_spec n 8).
    + rewrite Z.mul_pow2_bits_low by lia. reflexivity.
    + rewrite (Z.mod_pow2_bits_high j 8 n) by lia. apply andb_false_r. }
  pose proof (Z.add_lor_land (j / 2 ^ 8 * 2 ^ 8) (j mod 2 ^ 8)) as Hor.
  rewrite Hand, Z.add_0_r in Hor. rewrite Hor.
  rewrite Z.mul_comm, <- Z.div_mod by lia. apply Z.mod_small. lia.
Qed.

Lemma emit_byte_code byte st :
  code (Compiler.current_chunk (Compiler.emit_byte byte st))
  = code (Compiler.current_chunk st) ++ [byte].
Proof. reflexivity. Qed.

Lemma emit_byte_diagnostics byte st :
  Compiler.diagnostics (Compiler.emit_byte byte st) = Compiler.diagnostics st.
Proof. reflexivity. Qed.

Lemma error_code message st :
  code (Compiler.current_chunk (Compiler.error message st))
  = code (Compiler.current_chunk st).
Proof.
  unfold Compiler.error, Compiler.error_at.
  destruct (Compiler.panic_mode (Compiler.parser st)); reflexivity.
Qed.

Lemma nth_middle_at {A : Type} (pre : list A) x post d n :
  n = List.length pre -> nth n (pre ++ x :: post) d = x.
Proof. intros ->. apply nth_middle. Qed.

(** X12.  The operand of a forward jump: [emit_jump] writes the opcode and
    two placeholder bytes; after any code [body] of at most 65535 bytes
    has followed, [patch_jump] overwrites the placeholder, reports
    nothing, and [OP_JUMP] at that place moves the instruction pointer
    exactly to the end of the code written so far. *)
Theorem X12_jump_round_trip :
  forall instruction st st2 body,
    code (Compiler.current_chunk st2)
    = code (Compiler.current_chunk (snd (Compiler.emit_jump instruction st)))
      ++ body ->
    Z.of_nat (List.length body) <= 65535 ->
    let offset := fst (Compiler.emit_jump instruction st) in
    let st3 := Compiler.patch_jump offset st2 in
    offset = ch_count (Compiler.current_chunk st) + 1
    /\ (exists hi lo,
          code (Compiler.current_chunk st3)
          = code (Compiler.current_chunk st) ++ instruction :: hi :: lo :: body)
    /\ op_jump (code (Compiler.current_chunk st3)) offset
       = ch_count (Compiler.current_chunk st3)
    /\ Compiler.diagnostics st3 = Compiler.diagnostics st2.
Proof.
  intros instruction st st2 body Hcode Hlen offset st3.
  set (c0 := code (Compiler.current_chunk st)) in *.
  assert (Hc1 : code (Compiler.current_chunk (snd (Compiler.emit_jump instruction st)))
                = c0 ++ [instruction; 255; 255]).
  { unfold Compiler.emit_jump. cbn [snd]. rewrite !emit_byte_code.
    rewrite <- !app_assoc. reflexivity. }
  rewrite Hc1 in Hcode.
  assert (Hoff : offset = Z.of_nat (List.length c0) + 1).
  { subst offset. unfold Compiler.emit_jump. cbn [fst]. unfold ch_count.
    rewrite !emit_byte_code. fold c0. rewrite !length_app. simpl List.length. lia. }
  assert (Hcount2 : ch_count (Compiler.current_chunk st2)
                    = Z.of_nat (List.length c0) + 3 + Z.of_nat (List.length body)).
  { unfold ch_count. rewrite Hcode, !length_app. simpl List.length. lia. }
  set (jump := ch_count (Compiler.current_chunk st2) - offset - 2).
  assert (Hjump : jump = Z.of_nat (List.length body)) by (subst jump; lia).
  assert (Hst3 : code (Compiler.current_chunk st3)
                 = c0 ++ instruction :: Z.land (Z.shiftr jump 8) 255
                      :: Z.land jump 255 :: body
                 /\ Compiler.diagnostics st3 = Compiler.diagnostics st2).
  { subst st3. unfold Compiler.patch_jump. fold jump.
    replace (jump >? UINT16_MAX) with false by (unfold UINT16_MAX; lia).
    cbn [Compiler.current_chunk Compiler.set_compiler Compiler.set_chunk
         Compiler.compiler Compiler.function Compiler.chunk code
         Compiler.diagnostics].
    split; [|reflexivity].
    fold (Compiler.current_chunk st2). rewrite Hcode.
    replace (Z.to_nat offset) with (List.length c0 + 1)%nat by lia.
    replace (Z.to_nat (offset + 1)) with (List.length c0 + 2)%nat by lia.
    clear. induction c0 as [|x c0 IH]; [reflexivity|].
    simpl. simpl in IH. rewrite IH. reflexivity. }
  destruct Hst3 as [Hc3 Hd3].
  split; [exact Hoff|]. split; [eexists _, _; exact Hc3|]. split; [|exact Hd3].
  unfold op_jump, READ_SHORT, ch_count. rewrite Hc3.
  replace (Z.to_nat (offset + 2 - 2)) with (List.length (c0 ++ [instruction]))
    by (rewrite length_app; simpl; lia).
  replace (Z.to_nat (offset + 2 - 1))
    with (List.length (c0 ++ [instruction; Z.land (Z.shiftr jump 8) 255]))
    by (rewrite length_app; simpl; lia).
  replace (c0 ++ instruction :: Z.land (Z.shiftr jump 8) 255 :: Z.land jump 255 :: body)
    with ((c0 ++ [instruction]) ++ Z.land (Z.shiftr jump 8) 255
            :: Z.land jump 255 :: body) at 1
    by (rewrite <- app_assoc; reflexivity).
  rewrite nth_middle.
  replace (c0 ++ instruction :: Z.land (Z.shiftr jump 8) 255 :: Z.land jump 255 :: body)
    with ((c0 ++ [instruction; Z.land (Z.shiftr jump 8) 255])
            ++ Z.land jump 255 :: body) at 1
    by (rewrite <- app_assoc; reflexivity).
  rewrite nth_middle.
  rewrite short_round_trip by lia.
  rewrite length_app. simpl List.length. lia.
Qed.

Lemma X12_jump_round_trip_witness :
  let st2 :=
    Compiler.emit_byte (opcode OP_POP)
      (snd (Compiler.emit_jump (opcode OP_JUMP) X_state)) in
  let offset := fst (Compiler.emit_jump (opcode OP_JUMP) X_state) in
  let st3 := Compiler.patch_jump offset st2 in
  offset = ch_count (Compiler.current_chunk X_state) + 1
  /\ (exists hi lo,
        code (Compiler.current_chunk st3)
        = code (Compiler.current_chunk X_state)
          ++ opcode OP_JUMP :: hi :: lo :: [opcode OP_POP])
  /\ op_jump (code (Compiler.current_chunk st3)) offset
     = ch_count (Compiler.current_chunk st3)
  /\ Compiler.diagnostics st3 = Compiler.diagnostics st2.
Proof.
  apply (X12_jump_round_trip (opcode OP_JUMP) X_state
           (Compiler.emit_byte (opcode OP_POP)
              (snd (Compiler.emit_jump (opcode OP_JUMP) X_state)))
           [opcode OP_POP]).
  - reflexivity.
  - simpl. lia.
Defined.

(* ------------------------------------------------------------------ *)
(** * X13: backward jumps *)

(** X13.  The operand of a backward jump: [emit_loop (loop_start)] writes
    [OP_LOOP] and two bytes, and [OP_LOOP] at that place moves the
    instruction pointer back to [loop_start], when the distance fits in
    16 bits; nothing is reported then. *)
Theorem X13_loop_round_trip :
  forall loop_start st,
    0 <= loop_start <= ch_count (Compiler.current_chunk st) ->
    ch_count (Compiler.current_chunk st) - loop_start + 3 <= 65535 ->
    let st' := Compiler.emit_loop loop_start st in
    (exists hi lo,
        code (Compiler.current_chunk st')
        = code (Compiler.current_chunk st) ++ [opcode OP_LOOP; hi; lo])
    /\ op_loop (code (Compiler.current_chunk st'))
         (ch_count (Compiler.current_chunk st) + 1)
       = loop_start
    /\ Compiler.diagnostics st' = Compiler.diagnostics st.
Proof.
  intros loop_start st Hstart Hfit st'.
  set (c0 := code (Compiler.current_chunk st)) in *.
  set (n := ch_count (Compiler.current_chunk st)) in *.
  assert (Hn : n = Z.of_nat (List.length c0)) by reflexivity.
  set (offset := n - loop_start + 3).
  assert (Hst' : code (Compiler.current_chunk st')
                 = c0 ++ [opcode OP_LOOP; Z.land (Z.shiftr offset 8) 255;
                          Z.land offset 255]
                 /\ Compiler.diagnostics st' = Compiler.diagnostics st).
  { subst st'. unfold Compiler.emit_loop.
    assert (Hoff : ch_count (Compiler.current_chunk
                               (Compiler.emit_byte (opcode OP_LOOP) st))
                   - loop_start + 2 = offset).
    { unfold ch_count. rewrite emit_byte_code. fold c0. rewrite length_app.
      simpl List.length. subst offset. lia. }
    rewrite Hoff.
    replace (offset >? UINT16_MAX) with false
      by (unfold UINT16_MAX; subst offset; lia).
    rewrite !emit_byte_code, !emit_byte_diagnostics. fold c0.
    rewrite <- !app_assoc. split; reflexivity. }
  destruct Hst' as [Hc Hd].
  split; [eexists _, _; exact Hc|]. split; [|exact Hd].
  unfold op_loop, READ_SHORT. rewrite Hc.
  replace (Z.to_nat (n + 1 + 2 - 2)) with (List.length (c0 ++ [opcode OP_LOOP]))
    by (rewrite length_app; simpl; lia).
  replace (Z.to_nat (n + 1 + 2 - 1))
    with (List.length (c0 ++ [opcode OP_LOOP; Z.land (Z.shiftr offset 8) 255]))
    by (rewrite length_app; simpl; lia).
  replace (c0 ++ [opcode OP_LOOP; Z.land (Z.shiftr offset 8) 255; Z.land offset 255])
    with ((c0 ++ [opcode OP_LOOP]) ++ Z.land (Z.shiftr offset 8) 255
            :: [Z.land offset 255]) at 1
    by (rewrite <- app_assoc; reflexivity).
  rewrite nth_middle.
  replace (c0 ++ [opcode OP_LOOP; Z.land (Z.shiftr offset 8) 255; Z.land offset 255])
    with ((c0 ++ [opcode OP_LOOP; Z.land (Z.shiftr offset 8) 255])
            ++ Z.land offset 255 :: []) at 1
    by (rewrite <- app_assoc; reflexivity).
  rewrite nth_middle.
  rewrite short_round_trip by (subst offset; lia).
  subst offset. lia.
Qed.

Lemma X13_loop_round_trip_witness :
  let st := Compiler.emit_byte (opcode OP_POP) (Compiler.emit_byte (opcode OP_NIL) X_state) in
  let st' := Compiler.emit_loop 1 st in
  (exists hi lo,
      code (Compiler.current_chunk st')
      = code (Compiler.current_chunk st) ++ [opcode OP_LOOP; hi; lo])
  /\ op_loop (code (Compiler.current_chunk st'))
       (ch_count (Compiler.current_chunk st) + 1)
     = 1
  /\ Compiler.diagnostics st' = Compiler.diagnostics st.
Proof.
  apply (X13_loop_round_trip 1
           (Compiler.emit_byte (opcode OP_POP)
              (Compiler.emit_byte (opcode OP_NIL) X_state))).
  - vm_compute. split; discriminate.
  - vm_compute. discriminate.
Defined.

(* ------------------------------------------------------------------ *)
(** * X14: close_upvalues *)

(** X14.  [close_upvalues (last)], on a list of open upvalues at
    decreasing slots that are heap objects of their own: the upvalues of
    the slots from [last] up leave the list and are closed, each holding
    the value its slot has; the upvalues of lower slots stay open and
    untouched, and the stack is unchanged.  The list is again as
    described. *)
Theorem X14_close_upvalues :
  forall vm last,
    upvalue_heap_okb vm = true ->
    let vm' := close_upvalues last vm in
    open_upvalues vm' = filter (fun u => open_slot u <? last) (open_upvalues vm)
    /\ stack vm' = stack vm
    /\ (forall u, In u (open_upvalues vm) ->
          deref vm' (uv_addr u)
          = if open_slot u <? last then deref vm (uv_addr u)
            else Some (closed_upvalue vm u))
    /\ upvalue_heap_okb vm' = true.
Proof.
  intros vm last Hok vm'.
  apply upvalue_heap_okb_spec in Hok.
  destruct Hok as (Hopen & Hsorted & Hnodup & Hat & Hfresh).
  apply forallb_forall in Hopen.
  destruct (close_upvalues_loop_heap last (open_upvalues vm) vm Hopen Hsorted Hnodup)
    as (H1 & H2 & H3 & H4 & H5 & H6).
  fold (close_upvalues last vm) in H1, H2, H3, H4, H5, H6. fold vm' in H1, H2, H3, H4, H5, H6.
  assert (Hderef : forall u, In u (open_upvalues vm) ->
            deref vm' (uv_addr u)
            = if open_slot u <? last then deref vm (uv_addr u)
              else Some (closed_upvalue vm u)).
  { intros u Hu. destruct (Z.ltb_spec (open_slot u) last) as [Hlt|Hge].
    - apply H5. intros Hin. apply in_map_iff in Hin.
      destruct Hin as (x & Hx & Hxin). apply filter_In in Hxin.
      destruct Hxin as [Hxin Hxge].
      assert (x = u).
      { clear - Hnodup Hx Hxin Hu.
        induction (open_upvalues vm) as [|y l IH]; [destruct Hu|].
        simpl in Hnodup. inversion Hnodup as [|? ? Hn Hd]; subst.
        destruct Hxin as [->|Hxin], Hu as [->|Hu]; auto.
        - destruct Hn. rewrite Hx. apply in_map. exact Hu.
        - destruct Hn. rewrite <- Hx. apply in_map. exact Hxin. }
      subst x. lia.
    - apply H6; auto. specialize (Hat u Hu). unfold upvalue_at in Hat.
      destruct (deref vm (uv_addr u)); [discriminate|discriminate]. }
  split; [exact H1|]. split; [exact H2|]. split; [exact Hderef|].
  apply upvalue_heap_okb_spec. rewrite H1.
  split.
  { intros u Hu. apply filter_In in Hu.
    rewrite forallb_forall in Hopen. apply Hopen. tauto. }
  split.
  { unfold open_slots. rewrite H1. apply sorted_filter. exact Hsorted. }
  split; [apply nodup_filter; exact Hnodup|].
  split.
  { intros u Hu. apply filter_In in Hu. destruct Hu as [Hu Hlt].
    unfold upvalue_at. rewrite (Hderef u Hu), Hlt. apply (Hat u Hu). }
  intros a Ha. rewrite H3. apply Hfresh. rewrite <- H4. exact Ha.
Qed.

Lemma X14_close_upvalues_witness :
  let vm' := close_upvalues 2 X14_vm in
  open_upvalues vm' = filter (fun u => open_slot u <? 2) (open_upvalues X14_vm)
  /\ stack vm' = stack X14_vm
  /\ (forall u, In u (open_upvalues X14_vm) ->
        deref vm' (uv_addr u)
        = if open_slot u <? 2 then deref X14_vm (uv_addr u)
          else Some (closed_upvalue X14_vm u))
  /\ upvalue_heap_okb vm' = true.
Proof. apply (X14_close_upvalues X14_vm 2). vm_compute. reflexivity. Defined.

(** ** vm.c: capture_upvalue *)

Lemma walk_upvalues_app local passed rest :
  Forall (fun u => location_gtb (location u) local = true) passed ->
  walk_upvalues local (passed ++ rest)
  = (passed ++ fst (walk_upvalues local rest), snd (walk_upvalues local rest)).
Proof.
  induction passed as [|p passed IH]; intros H; simpl.
  - destruct (walk_upvalues local rest); reflexivity.
  - inversion H as [|? ? Hp Hrest]; subst. rewrite Hp, (IH Hrest). reflexivity.
Qed.

Lemma nodup_insert (before after : list Z) x :
  NoDup (before ++ after) -> ~ In x (before ++ after) ->
  NoDup (before ++ x :: after).
Proof.
  induction before as [|b before IH]; simpl; intros Hnd Hx.
  - constructor; assumption.
  - inversion Hnd as [|? ? Hn Hd]; subst. constructor.
    + intros Hin. apply in_app_or in Hin. destruct Hin as [Hin|[Hin|Hin]].
      * apply Hn. apply in_or_app. left. exact Hin.
      * apply Hx. left. symmetry. exact Hin.
      * apply Hn. apply in_or_app. right. exact Hin.
    + apply IH; auto.
Qed.

(** [capture_upvalue (local)] when the allocation starts no collection:
    the list of open upvalues stays as described, no object allocated
    before is changed, and capturing the same slot again returns the same
    upvalue. *)
Lemma capture_upvalue_pure :
  forall vm local,
    upvalue_heap_okb vm = true ->
    let (u, vm') := capture_upvalue local vm in
    upvalue_heap_okb vm' = true
    /\ location u = InStack local
    /\ In u (open_upvalues vm')
    /\ upvalue_at vm' u = true
    /\ stack vm' = stack vm
    /\ (forall a, a < next_addr vm -> deref vm' a = deref vm a)
    /\ capture_upvalue local vm' = (u, vm').
Proof.
  intros vm local Hok.
  apply upvalue_heap_okb_spec in Hok.
  destruct Hok as (Hopen & Hsorted & Hnodup & Hat & Hfresh).
  assert (Hok : upvalues_ok (open_upvalues vm)).
  { split; [|exact Hsorted]. apply Forall_forall. intros u Hu.
    apply is_open_slot. apply Hopen. exact Hu. }
  pose proof (walk_upvalues_spec local (open_upvalues vm) Hok) as Hw.
  unfold capture_upvalue.
  destruct (walk_upvalues local (open_upvalues vm)) as [passed from] eqn:Ewalk.
  destruct Hw as (Hl & Hp & Hf).
  assert (Hpassed : Forall (fun u => location_gtb (location u) local = true) passed).
  { apply Forall_forall. intros u Hu.
    rewrite (is_open_slot u) by (apply Hopen; rewrite Hl; apply in_or_app; auto).
    simpl. rewrite Forall_forall in Hp. specialize (Hp u Hu). lia. }
  assert (Hsame :
    forall u, In u (open_upvalues vm) -> location u = InStack local ->
      upvalue_heap_okb vm = true
      /\ location u = InStack local
      /\ In u (open_upvalues vm)
      /\ upvalue_at vm u = true
      /\ stack vm = stack vm
      /\ (forall a, a < next_addr vm -> deref vm a = deref vm a)).
  { intros u Hu Hloc. split.
    { apply upvalue_heap_okb_spec. repeat split; auto. }
    repeat split; auto. }
  assert (Hcreate :
    Forall (fun x => open_slot x < local) from ->
    let (u, vm') :=
      let (created, vm0) := new_upvalue local vm in
      (created, set_open_upvalues vm0 (passed ++ created :: from)) in
    upvalue_heap_okb vm' = true
    /\ location u = InStack local
    /\ In u (open_upvalues vm')
    /\ upvalue_at vm' u = true
    /\ stack vm' = stack vm
    /\ (forall a, a < next_addr vm -> deref vm' a = deref vm a)
    /\ capture_upvalue local vm' = (u, vm')).
  { intros Hlt. unfold new_upvalue, allocate_object.
    set (u := {| uv_addr := next_addr vm; location := InStack local;
                 closed := NIL_VAL |}).
    cbn [fst snd].
    set (vm' := set_open_upvalues _ _).
    assert (Hd : forall a, deref vm' a
                           = if next_addr vm =? a then Some (ObjUpvalue u)
                             else deref vm a).
    { intros a. reflexivity. }
    assert (Hold : forall a, a < next_addr vm -> deref vm' a = deref vm a).
    { intros a Ha. rewrite Hd. destruct (Z.eqb_spec (next_addr vm) a); [lia|reflexivity]. }
    assert (Haddr : forall x, In x (open_upvalues vm) -> uv_addr x < next_addr vm).
    { intros x Hx. specialize (Hat x Hx). unfold upvalue_at, deref in Hat.
      destruct (heap_lookup (objects vm) (uv_addr x)) eqn:E; [|discriminate].
      apply Hfresh. eapply heap_lookup_in. exact E. }
    split.
    { apply upvalue_heap_okb_spec.
      replace (open_upvalues vm') with (passed ++ u :: from) by reflexivity.
      split.
      { intros x Hx. apply in_app_or in Hx. destruct Hx as [Hx|[Hx|Hx]].
        - apply Hopen. rewrite Hl. apply in_or_app. auto.
        - subst x. reflexivity.
        - apply Hopen. rewrite Hl. apply in_or_app. auto. }
      split.
      { unfold open_slots.
        replace (open_upvalues vm') with (passed ++ u :: from) by reflexivity.
        rewrite map_app. simpl. apply sorted_app_insert.
        - rewrite <- map_app, <- Hl. exact Hsorted.
        - rewrite Forall_map. exact Hp.
        - rewrite Forall_map. exact Hlt. }
      split.
      { rewrite map_app. simpl. apply nodup_insert.
        - rewrite <- map_app, <- Hl. exact Hnodup.
        - rewrite <- map_app, <- Hl. intros Hin. apply in_map_iff in Hin.
          destruct Hin as (x & Hx & Hin). specialize (Haddr x Hin). lia. }
      split.
      { intros x Hx. unfold upvalue_at.
        apply in_app_or in Hx. destruct Hx as [Hx|[Hx|Hx]].
        - assert (Hin : In x (open_upvalues vm)) by (rewrite Hl; apply in_or_app; auto).
          rewrite Hold by (apply Haddr; exact Hin). apply (Hat x Hin).
        - subst x. rewrite Hd. simpl. rewrite Z.eqb_refl. reflexivity.
        - assert (Hin : In x (open_upvalues vm)) by (rewrite Hl; apply in_or_app; auto).
          rewrite Hold by (apply Haddr; exact Hin). apply (Hat x Hin). }
      intros a Ha. simpl in Ha. destruct Ha as [Ha|Ha].
      - subst a. simpl. lia.
      - specialize (Hfresh a Ha). simpl. lia. }
    split; [reflexivity|].
    split; [simpl; apply in_or_app; right; left; reflexivity|].
    split; [unfold upvalue_at; rewrite Hd; simpl; rewrite Z.eqb_refl; reflexivity|].
    split; [reflexivity|]. split; [exact Hold|].
    unfold capture_upvalue.
    replace (open_upvalues vm') with (passed ++ u :: from) by reflexivity.
    rewrite walk_upvalues_app by exact Hpassed.
    cbn [walk_upvalues]. change (location u) with (InStack local).
    cbn [location_gtb].
    replace (local >? local) with false by lia.
    cbn [fst snd]. rewrite app_nil_r.
    change (location u) with (InStack local).
    cbn [location_eqb]. rewrite Z.eqb_refl. reflexivity. }
  destruct from as [|u from'].
  - apply Hcreate. constructor.
  - assert (Hin : In u (open_upvalues vm)).
    { rewrite Hl. apply in_or_app. right. left. reflexivity. }
    pose proof (is_open_slot u (Hopen u Hin)) as Hu. rewrite Hu.
    cbn [location_eqb].
    destruct (Z.eqb_spec (open_slot u) local) as [E|E].
    + rewrite E in Hu.
      destruct (Hsame u Hin Hu) as (A & B & C & D & F & G).
      repeat split; auto.
      unfold capture_upvalue. rewrite Ewalk, Hu. cbn [location_eqb].
      rewrite Z.eqb_refl. reflexivity.
    + apply Hcreate.
      inversion Hf as [|? ? Hu_le Hf']; subst.
      constructor; [lia|].
      unfold open_slots in Hsorted. rewrite Hl in Hsorted.
      rewrite map_app in Hsorted.
      assert (Hs2 : StronglySorted Z.gt (map open_slot (u :: from'))).
      { clear - Hsorted. induction (map open_slot passed) as [|a l IH]; auto.
        simpl in Hsorted. inversion Hsorted; auto. }
      simpl in Hs2. inversion Hs2 as [|? ? _ Hall]; subst.
      rewrite Forall_map in Hall.
      eapply Forall_impl; [|exact Hall]. simpl. intros; lia.
Qed.

(** ** vm.c: capture_upvalue and the collector *)

Lemma capture_upvalue_captured local vm :
  captured local vm = true -> snd (capture_upvalue local vm) = vm.
Proof.
  unfold captured, capture_upvalue.
  destruct (walk_upvalues local (open_upvalues vm)) as [passed from].
  cbn [snd]. destruct from as [|u from]; [discriminate|].
  intros ->. reflexivity.
Qed.

Lemma capture_upvalue_fresh local vm :
  captured local vm = false ->
  next_addr (snd (capture_upvalue local vm)) = next_addr vm + 1.
Proof.
  unfold captured, capture_upvalue.
  destruct (walk_upvalues local (open_upvalues vm)) as [passed from].
  cbn [snd]. destruct from as [|u from]; [|intros ->]; reflexivity.
Qed.

Lemma capture_upvalue_again local vm u :
  capture_upvalue local vm = (u, vm) -> captured local vm = true.
Proof.
  intros H. destruct (captured local vm) eqn:E; [reflexivity|].
  apply capture_upvalue_fresh in E. rewrite H in E. simpl in E. lia.
Qed.

Lemma gc_capture_upvalue_captured stress_gc sz compiler_roots local st :
  captured local (GC.machine st) = true ->
  GC.capture_upvalue stress_gc sz compiler_roots local st
  = Some (fst (capture_upvalue local (GC.machine st)), st).
Proof.
  unfold captured, GC.capture_upvalue, capture_upvalue.
  destruct (walk_upvalues local (open_upvalues (GC.machine st))) as [passed from].
  cbn [snd]. destruct from as [|u from]; [discriminate|].
  intros ->. reflexivity.
Qed.

Lemma gc_capture_upvalue_created stress_gc sz compiler_roots local st st1 :
  captured local (GC.machine st) = false ->
  GC.reallocate stress_gc (GC.collect_garbage stress_gc sz compiler_roots)
    0 (GC.sizeof_LoxUpvalue sz) st = Some st1 ->
  open_upvalues (GC.machine st1) = open_upvalues (GC.machine st) ->
  GC.capture_upvalue stress_gc sz compiler_roots local st
  = Some (fst (capture_upvalue local (GC.machine st1)),
          GC.set_machine st1 (snd (capture_upvalue local (GC.machine st1)))).
Proof.
  unfold captured, GC.capture_upvalue, capture_upvalue, GC.new_upvalue.
  intros Hc Hr Hopen. rewrite Hr, Hopen.
  destruct (walk_upvalues local (open_upvalues (GC.machine st))) as [passed from].
  cbn [snd] in Hc.
  destruct (new_upvalue local (GC.machine st1)) as [created vm0].
  destruct from as [|u from]; [reflexivity|].
  rewrite Hc. reflexivity.
Qed.

Lemma heap_closedb_intro compiler_roots vm :
  NoDup (map fst (objects vm)) ->
  (forall ao, In ao (objects vm) -> fst ao <> 0) ->
  pointers_valid (objects vm) (roots compiler_roots vm) = true ->
  heap_closedb compiler_roots vm = true.
Proof.
  intros H1 H2 H3. unfold heap_closedb.
  rewrite !andb_true_iff, distinct_spec, forallb_forall.
  split; [split; [exact H1|]|exact H3].
  intros ao Hin. specialize (H2 ao Hin). lia.
Qed.

Lemma valid_pointer_cons objects b o a :
  valid_pointer objects a = true -> valid_pointer ((b, o) :: objects) a = true.
Proof.
  unfold valid_pointer. simpl. destruct (a =? 0); [reflexivity|].
  destruct (b =? a); [reflexivity|]. intros H. exact H.
Qed.

(** Linking a new upvalue keeps the heap closed. *)
Lemma capture_upvalue_closed compiler_roots local vm :
  heap_closedb compiler_roots vm = true ->
  upvalue_heap_okb vm = true ->
  0 < next_addr vm ->
  heap_closedb compiler_roots (snd (capture_upvalue local vm)) = true
  /\ 0 < next_addr (snd (capture_upvalue local vm))
  /\ strings (snd (capture_upvalue local vm)) = strings vm.
Proof.
  intros Hclosed Hok Hpos.
  destruct (captured local vm) eqn:Ec.
  { rewrite (capture_upvalue_captured local vm Ec). auto. }
  destruct (heap_closedb_spec _ _ Hclosed) as (Hnd & Hnz & Hvalid).
  apply upvalue_heap_okb_spec in Hok.
  destruct Hok as (_ & _ & _ & _ & Hfresh).
  pose proof (walk_upvalues_spec local (open_upvalues vm)) as Hw.
  unfold captured in Ec. unfold capture_upvalue.
  destruct (walk_upvalues local (open_upvalues vm)) as [passed from] eqn:Ew.
  cbn [snd] in Ec.
  assert (Hl : open_upvalues vm = passed ++ from).
  { clear - Ew. revert passed from Ew.
    induction (open_upvalues vm) as [|x l IH]; intros passed from Ew.
    - simpl in Ew. injection Ew as <- <-. reflexivity.
    - simpl in Ew. destruct (location_gtb (location x) local).
      + destruct (walk_upvalues local l) as [p f]. injection Ew as <- <-.
        simpl. f_equal. apply IH. reflexivity.
      + injection Ew as <- <-. reflexivity. }
  clear Hw.
  set (u := {| uv_addr := next_addr vm; location := InStack local;
               closed := NIL_VAL |}).
  set (vm' := set_open_upvalues
                (set_next_addr
                   (set_objects vm ((next_addr vm, ObjUpvalue u) :: objects vm))
                   (next_addr vm + 1))
                (passed ++ u :: from)).
  assert (Hres : (match from with
                  | u0 :: _ =>
                      if location_eqb (location u0) local then (u0, vm)
                      else
                        let (created, vm0) := new_upvalue local vm in
                        (created, set_open_upvalues vm0 (passed ++ created :: from))
                  | [] =>
                      let (created, vm0) := new_upvalue local vm in
                      (created, set_open_upvalues vm0 (passed ++ created :: from))
                  end) = (u, vm')).
  { destruct from as [|u0 from']; [reflexivity|]. rewrite Ec. reflexivity. }
  rewrite Hres. cbn [snd].
  split; [|split; [simpl; lia|reflexivity]].
  apply heap_closedb_intro.
  - simpl. constructor; [|exact Hnd].
    intros Hin. apply Hfresh in Hin. lia.
  - simpl. intros ao [<-|Hin]; [simpl; lia|apply Hnz; exact Hin].
  - unfold pointers_valid in *. apply andb_true_iff in Hvalid.
    destruct Hvalid as [Hroots Hobjs].
    rewrite forallb_forall in Hroots, Hobjs.
    apply andb_true_iff. split.
    + apply forallb_forall. intros a Ha.
      assert (Hcase : a = next_addr vm \/ In a (roots compiler_roots vm)).
      { unfold roots in *. rewrite Hl.
        change (stack vm') with (stack vm) in Ha.
        change (frames vm') with (frames vm) in Ha.
        change (globals vm') with (globals vm) in Ha.
        change (init_string vm') with (init_string vm) in Ha.
        change (open_upvalues vm') with (passed ++ u :: from) in Ha.
        rewrite !in_app_iff in Ha. rewrite !in_app_iff.
        rewrite map_app, in_app_iff in Ha. rewrite map_app, in_app_iff.
        simpl in Ha. simpl.
        destruct Ha as [H|[H|[[H|[H|H]]|[H|[H|H]]]]]; auto 10. }
      destruct Hcase as [->|Hin].
      * change (objects vm') with ((next_addr vm, ObjUpvalue u) :: objects vm).
        unfold valid_pointer. simpl. rewrite Z.eqb_refl. apply orb_true_r.
      * apply valid_pointer_cons. apply Hroots. exact Hin.
    + change (objects vm') with ((next_addr vm, ObjUpvalue u) :: objects vm).
      apply forallb_forall. intros ao [<-|Hin].
      * reflexivity.
      * specialize (Hobjs ao Hin). rewrite forallb_forall in Hobjs.
        apply forallb_forall. intros a Ha. apply valid_pointer_cons.
        apply Hobjs. exact Ha.
Qed.

(** A collection that is not re-entered keeps the open upvalues. *)
Lemma collected_upvalue_heap compiler_roots vm strings' :
  heap_closedb compiler_roots vm = true ->
  upvalue_heap_okb vm = true ->
  upvalue_heap_okb
    (set_objects (set_strings vm strings')
       (filter (fun ao => reachableb compiler_roots vm (fst ao)) (objects vm)))
  = true.
Proof.
  intros Hclosed Hok.
  set (vm' := set_objects _ _).
  destruct (live_heap_closed compiler_roots vm vm' Hclosed eq_refl eq_refl)
    as (Hlive & _ & _).
  destruct (heap_closedb_spec _ _ Hclosed) as (_ & Hnz & _).
  apply upvalue_heap_okb_spec in Hok.
  destruct Hok as (H1 & H2 & H3 & H4 & H5).
  apply upvalue_heap_okb_spec.
  split; [exact H1|]. split; [exact H2|]. split; [exact H3|]. split.
  - intros u Hu. specialize (H4 u Hu). unfold upvalue_at in *.
    assert (Hr : reachable (objects vm) (roots compiler_roots vm) (uv_addr u)).
    { apply reach_root.
      - unfold roots. rewrite !in_app_iff. right. right. left.
        apply in_map. exact Hu.
      - unfold deref in H4.
        destruct (heap_lookup (objects vm) (uv_addr u)) as [o|] eqn:E;
          [|discriminate].
        apply heap_lookup_In in E. apply (Hnz _ E). }
    destruct (Hlive _ Hr) as [-> _]. exact H4.
  - intros a Ha. apply H5. subst vm'. simpl in Ha.
    apply in_map_iff in Ha. destruct Ha as (ao & <- & Hin).
    apply filter_In in Hin. apply in_map. apply Hin.
Qed.

(* ------------------------------------------------------------------ *)
(** * X15: capture_upvalue *)

(** X15.  [capture_upvalue (local)], with the collection that the
    allocation of a new upvalue may start ([CLOX_STRESS_GC] not defined).
    On a heap without dangling pointers whose open upvalues are at
    strictly decreasing slots, each a heap object of its own, and when
    such a collection is not re-entered: the upvalue returned is open at
    [local], in the list and in the heap; the stack and every reachable
    object are unchanged; the list and the heap are again as described,
    with no object marked; and capturing the same slot again returns the
    same upvalue without allocating: closures that capture one variable
    share one upvalue. *)
Theorem X15_capture_upvalue_shared :
  forall sz compiler_roots st local,
    GC.marks st = GC.no_marks ->
    heap_closedb compiler_roots (GC.machine st) = true ->
    wf_table (strings (GC.machine st)) ->
    upvalue_heap_okb (GC.machine st) = true ->
    0 < next_addr (GC.machine st) ->
    (size_t (GC.bytes_allocated st + GC.sizeof_LoxUpvalue sz) > GC.next_gc st ->
     quietb (size_t (GC.bytes_allocated st + GC.sizeof_LoxUpvalue sz))
       (GC.next_gc st)
       (blocks_of sz (garbage compiler_roots (GC.machine st))) = true) ->
    exists u st',
      GC.capture_upvalue false sz compiler_roots local st = Some (u, st')
      /\ location u = InStack local
      /\ In u (open_upvalues (GC.machine st'))
      /\ upvalue_at (GC.machine st') u = true
      /\ stack (GC.machine st') = stack (GC.machine st)
      /\ (forall a,
            reachable (objects (GC.machine st))
              (roots compiler_roots (GC.machine st)) a ->
            deref (GC.machine st') a = deref (GC.machine st) a)
      /\ GC.capture_upvalue false sz compiler_roots local st' = Some (u, st')
      /\ GC.marks st' = GC.no_marks
      /\ heap_closedb compiler_roots (GC.machine st') = true
      /\ wf_table (strings (GC.machine st'))
      /\ upvalue_heap_okb (GC.machine st') = true
      /\ 0 < next_addr (GC.machine st').
Proof.
  intros sz croots st local Hmarks Hclosed Hwf Hok Hpos Hquiet.
  (* the reachable objects are objects allocated before *)
  assert (Hold : forall a,
             reachable (objects (GC.machine st)) (roots croots (GC.machine st)) a ->
             a < next_addr (GC.machine st)).
  { intros a Ha.
    destruct (live_heap_closed croots (GC.machine st)
                (set_objects (GC.machine st)
                   (filter (fun ao => reachableb croots (GC.machine st) (fst ao))
                      (objects (GC.machine st))))
                Hclosed eq_refl eq_refl) as (Hlive & _ & _).
    destruct (Hlive a Ha) as [_ Hsome].
    apply upvalue_heap_okb_spec in Hok. destruct Hok as (_ & _ & _ & _ & Hfresh).
    apply Hfresh. unfold deref in Hsome.
    destruct (heap_lookup (objects (GC.machine st)) a) eqn:E; [|congruence].
    eapply heap_lookup_in. exact E. }
  (* what holds once the block is allocated, in a state [st1] *)
  assert (Hstep : forall st1,
    GC.marks st1 = GC.no_marks ->
    heap_closedb croots (GC.machine st1) = true ->
    wf_table (strings (GC.machine st1)) ->
    upvalue_heap_okb (GC.machine st1) = true ->
    next_addr (GC.machine st1) = next_addr (GC.machine st) ->
    stack (GC.machine st1) = stack (GC.machine st) ->
    (forall a,
       reachable (objects (GC.machine st)) (roots croots (GC.machine st)) a ->
       deref (GC.machine st1) a = deref (GC.machine st) a) ->
    let u := fst (capture_upvalue local (GC.machine st1)) in
    let st' := GC.set_machine st1 (snd (capture_upvalue local (GC.machine st1))) in
    location u = InStack local
    /\ In u (open_upvalues (GC.machine st'))
    /\ upvalue_at (GC.machine st') u = true
    /\ stack (GC.machine st') = stack (GC.machine st)
    /\ (forall a,
          reachable (objects (GC.machine st)) (roots croots (GC.machine st)) a ->
          deref (GC.machine st') a = deref (GC.machine st) a)
    /\ GC.capture_upvalue false sz croots local st' = Some (u, st')
    /\ GC.marks st' = GC.no_marks
    /\ heap_closedb croots (GC.machine st') = true
    /\ wf_table (strings (GC.machine st'))
    /\ upvalue_heap_okb (GC.machine st') = true
    /\ 0 < next_addr (GC.machine st')).
  { intros st1 Hm1 Hc1 Hw1 Hok1 Hn1 Hs1 Hd1 u st'.
    pose proof (capture_upvalue_pure (GC.machine st1) local Hok1) as Hp.
    destruct (capture_upvalue_closed croots local (GC.machine st1) Hc1 Hok1)
      as (Hc' & Hpos' & Hstr'); [lia|].
    subst u st'. destruct (capture_upvalue local (GC.machine st1)) as [u vm'].
    cbn [fst snd] in *. cbn [GC.machine GC.set_machine GC.marks].
    destruct Hp as (Hok' & Hloc & Hin & Hat & Hst & Hder & Hagain).
    split; [exact Hloc|]. split; [exact Hin|]. split; [exact Hat|].
    split; [congruence|]. split.
    { intros a Ha. rewrite Hder; [apply Hd1; exact Ha|].
      rewrite Hn1. apply Hold. exact Ha. }
    split.
    { pose proof (capture_upvalue_again local vm' u Hagain) as Hc.
      rewrite gc_capture_upvalue_captured by exact Hc.
      change (GC.machine (GC.set_machine st1 vm')) with vm'.
      rewrite Hagain. reflexivity. }
    split; [exact Hm1|]. split; [exact Hc'|].
    split; [rewrite Hstr'; exact Hw1|]. split; [exact Hok'|exact Hpos']. }
  destruct (captured local (GC.machine st)) eqn:Ec.
  - (* the slot has an upvalue *)
    exists (fst (capture_upvalue local (GC.machine st))), st.
    split; [apply gc_capture_upvalue_captured; exact Ec|].
    pose proof (Hstep st Hmarks Hclosed Hwf Hok eq_refl eq_refl
                  (fun a _ => eq_refl)) as H.
    cbn zeta in H. rewrite (capture_upvalue_captured local _ Ec) in H.
    replace (GC.set_machine st (GC.machine st)) with st in H
      by (destruct st; reflexivity).
    exact H.
  - (* a new upvalue *)
    set (b1 := size_t (GC.bytes_allocated st + GC.sizeof_LoxUpvalue sz)) in *.
    assert (Hre : forall st1,
              GC.reallocate false (GC.collect_garbage false sz croots) 0
                (GC.sizeof_LoxUpvalue sz) st = Some st1 ->
              open_upvalues (GC.machine st1) = open_upvalues (GC.machine st) ->
              GC.capture_upvalue false sz croots local st
              = Some (fst (capture_upvalue local (GC.machine st1)),
                      GC.set_machine st1
                        (snd (capture_upvalue local (GC.machine st1))))).
    { intros st1 H1 H2. apply gc_capture_upvalue_created; assumption. }
    unfold GC.reallocate in Hre. cbn [andb] in Hre.
    rewrite Z.sub_0_r in Hre. fold b1 in Hre.
    cbn [GC.bytes_allocated GC.next_gc GC.set_bytes_allocated] in Hre.
    destruct (b1 >? GC.next_gc st) eqn:Eb.
    + (* a collection *)
      assert (Hq : quietb b1 (GC.next_gc st)
                     (blocks_of sz (garbage croots (GC.machine st))) = true).
      { apply Hquiet. lia. }
      destruct (collect_garbage_quiet false sz croots
                  (GC.set_bytes_allocated st b1) Hmarks Hclosed Hwf Hq)
        as (strings' & Hwf' & _ & Hgc).
      cbn [GC.machine GC.set_bytes_allocated GC.bytes_allocated GC.next_gc]
        in Hgc.
      match type of Hgc with _ = Some ?s => set (st1 := s) in * end.
      destruct (live_heap_closed croots (GC.machine st) (GC.machine st1)
                  Hclosed eq_refl eq_refl) as (Hlive & _ & Hclosed1).
      eexists _, _. split; [apply (Hre st1 Hgc eq_refl)|].
      apply (Hstep st1); try reflexivity.
      * exact Hclosed1.
      * exact Hwf'.
      * apply collected_upvalue_heap; assumption.
      * intros a Ha. apply Hlive. exact Ha.
    + (* no collection *)
      eexists _, _. split; [apply (Hre _ eq_refl eq_refl)|].
      apply (Hstep (GC.set_bytes_allocated st b1)); try assumption;
        reflexivity.
Qed.

Lemma X15_capture_upvalue_shared_witness :
  exists u st',
    GC.capture_upvalue false X18_sizes [] 2 X15_state = Some (u, st')
    /\ location u = InStack 2
    /\ In u (open_upvalues (GC.machine st'))
    /\ upvalue_at (GC.machine st') u = true
    /\ stack (GC.machine st') = stack (GC.machine X15_state)
    /\ (forall a,
          reachable (objects (GC.machine X15_state))
            (roots [] (GC.machine X15_state)) a ->
          deref (GC.machine st') a = deref (GC.machine X15_state) a)
    /\ GC.capture_upvalue false X18_sizes [] 2 st' = Some (u, st')
    /\ GC.marks st' = GC.no_marks
    /\ heap_closedb [] (GC.machine st') = true
    /\ wf_table (strings (GC.machine st'))
    /\ upvalue_heap_okb (GC.machine st') = true
    /\ 0 < next_addr (GC.machine st').
Proof.
  apply (X15_capture_upvalue_shared X18_sizes [] X15_state 2).
  - reflexivity.
  - vm_compute. reflexivity.
  - exact wf_init_table.
  - vm_compute. reflexivity.
  - vm_compute. reflexivity.
  - intros _. vm_compute. reflexivity.
Defined.

(** The capture of the example: the allocation starts a collection, which
    frees the string; the new upvalue, at the address 4, is linked between
    the two others. *)
Example capture_upvalue_example :
  option_map
    (fun r => (uv_addr (fst r),
               map uv_addr (open_upvalues (GC.machine (snd r))),
               open_slots (GC.machine (snd r)),
               map fst (objects (GC.machine (snd r))),
               GC.bytes_allocated (snd r), GC.next_gc (snd r)))
    (GC.capture_upvalue false X18_sizes [] 2 X15_state)
  = Some (4, [3; 4; 2], [3; 2; 1], [4; 3; 2], 1952, 2928).
Proof. vm_compute. reflexivity. Qed.

(* ------------------------------------------------------------------ *)
(** * X16: the tags of NaN boxing *)

(** X16.  The type tests of NaN boxing never overlap: on every 64-bit
    value at most one of [IS_NUMBER], [IS_NIL], [IS_BOOL] and [IS_OBJ]
    holds, and [IS_BOOL] holds of [TRUE_VAL] and [FALSE_VAL] only. *)
Theorem X16_nan_boxing_tags_exclusive :
  forall v,
    0 <= v < 2 ^ 64 ->
    (NanBox.IS_BOOL v = true <-> v = NanBox.TRUE_VAL \/ v = NanBox.FALSE_VAL)
    /\ (NanBox.IS_NUMBER v = true ->
        NanBox.IS_NIL v = false /\ NanBox.IS_BOOL v = false
        /\ NanBox.IS_OBJ v = false)
    /\ (NanBox.IS_OBJ v = true ->
        NanBox.IS_NIL v = false /\ NanBox.IS_BOOL v = false)
    /\ (NanBox.IS_NIL v = true -> NanBox.IS_BOOL v = false).
Proof.
  intros v Hv.
  pose proof (IS_BOOL_iff v (proj1 Hv)) as Hbool.
  split; [exact Hbool|].
  assert (Hnotbool : v <> NanBox.TRUE_VAL -> v <> NanBox.FALSE_VAL ->
                     NanBox.IS_BOOL v = false).
  { intros H1 H2. apply not_true_is_false. intros E.
    apply Hbool in E. tauto. }
  split.
  { intros Hnum.
    assert (Hne : forall c, NanBox.IS_NUMBER c = false -> v <> c).
    { intros c Hc E. subst c. congruence. }
    split; [apply Z.eqb_neq; apply Hne; reflexivity|].
    split; [apply Hnotbool; apply Hne; reflexivity|].
    rewrite IS_OBJ_field. rewrite IS_NUMBER_field in Hnum.
    apply negb_true_iff in Hnum. apply Z.eqb_neq in Hnum. apply Z.eqb_neq.
    intros E. apply Hnum.
    replace (v / 2 ^ 50) with 16383.
    - reflexivity.
    - rewrite Z.mod_small in E; [lia|].
      split; [apply Z.div_pos; lia|apply Z.div_lt_upper_bound; lia]. }
  split.
  { intros Hobj.
    assert (Hne : forall c, NanBox.IS_OBJ c = false -> v <> c).
    { intros c Hc E. subst c. congruence. }
    split; [apply Z.eqb_neq; apply Hne; reflexivity|].
    apply Hnotbool; apply Hne; reflexivity. }
  intros Hnil. apply Z.eqb_eq in Hnil. subst v. reflexivity.
Qed.

Lemma X16_nan_boxing_tags_exclusive_witness :
  (NanBox.IS_BOOL NanBox.NIL_VAL = true <->
   NanBox.NIL_VAL = NanBox.TRUE_VAL \/ NanBox.NIL_VAL = NanBox.FALSE_VAL)
  /\ (NanBox.IS_NUMBER NanBox.NIL_VAL = true ->
      NanBox.IS_NIL NanBox.NIL_VAL = false
      /\ NanBox.IS_BOOL NanBox.NIL_VAL = false
      /\ NanBox.IS_OBJ NanBox.NIL_VAL = false)
  /\ (NanBox.IS_OBJ NanBox.NIL_VAL = true ->
      NanBox.IS_NIL NanBox.NIL_VAL = false
      /\ NanBox.IS_BOOL NanBox.NIL_VAL = false)
  /\ (NanBox.IS_NIL NanBox.NIL_VAL = true ->
      NanBox.IS_BOOL NanBox.NIL_VAL = false).
Proof.
  apply (X16_nan_boxing_tags_exclusive NanBox.NIL_VAL).
  vm_compute. split; [discriminate|reflexivity].
Defined.

(* ------------------------------------------------------------------ *)
(** * X17: boxing and unboxing *)

(** X17.  What is boxed is what is unboxed: a boolean comes back as it
    went in; an object pointer is recognised as an object and comes back
    with its low 50 bits, so exactly the pointers below [2^50] survive;
    and a double is taken for a number unless its exponent is all ones and
    the two highest bits of its fraction are set, so every finite double,
    both infinities and the NaNs with one of those bits clear are
    numbers. *)
Theorem X17_nan_boxing_round_trip :
  (forall b,
      NanBox.IS_BOOL (NanBox.BOOL_VAL b) = true
      /\ NanBox.AS_BOOL (NanBox.BOOL_VAL b) = b)
  /\ (forall obj,
        0 <= obj < 2 ^ 64 ->
        NanBox.IS_OBJ (NanBox.OBJ_VAL obj) = true
        /\ NanBox.AS_OBJ (NanBox.OBJ_VAL obj) = obj mod 2 ^ 50
        /\ (NanBox.AS_OBJ (NanBox.OBJ_VAL obj) = obj <-> obj < 2 ^ 50))
  /\ (forall num,
        0 <= num < 2 ^ 64 ->
        NanBox.AS_NUMBER (NanBox.NUMBER_VAL num) = num
        /\ (NanBox.IS_NUMBER (NanBox.NUMBER_VAL num) = false <->
            double_exponent num = 2047 /\ double_fraction_top num = 3)).
Proof.
  split; [intros []; split; reflexivity|].
  split.
  - intros obj Hobj.
    assert (Has : NanBox.AS_OBJ (NanBox.OBJ_VAL obj) = obj mod 2 ^ 50).
    { unfold NanBox.AS_OBJ, NanBox.OBJ_VAL.
      change (Z.lnot (Z.lor NanBox.SIGN_BIT NanBox.QNAN) mod 2 ^ 64)
        with (Z.ones 50).
      rewrite Z.land_lor_distr_l.
      change (Z.land (Z.lor NanBox.SIGN_BIT NanBox.QNAN) (Z.ones 50)) with 0.
      rewrite Z.lor_0_l. apply Z.land_ones. lia. }
    split.
    + unfold NanBox.IS_OBJ, NanBox.OBJ_VAL. apply Z.eqb_eq.
      rewrite Z.land_lor_distr_l.
      change (Z.land (Z.lor NanBox.SIGN_BIT NanBox.QNAN)
                (Z.lor NanBox.QNAN NanBox.SIGN_BIT))
        with (Z.lor NanBox.QNAN NanBox.SIGN_BIT).
      apply Z.bits_inj'. intros i Hi.
      rewrite Z.lor_spec, Z.land_spec.
      destruct (Z.testbit (Z.lor NanBox.QNAN NanBox.SIGN_BIT) i);
        [reflexivity|apply andb_false_r].
    + split; [exact Has|]. rewrite Has. split.
      * intros E. rewrite <- E. apply Z.mod_pos_bound. lia.
      * intros Hlt. apply Z.mod_small. lia.
  - intros num Hnum. split; [reflexivity|].
    unfold NanBox.NUMBER_VAL, NanBox.num_to_value.
    rewrite IS_NUMBER_field, negb_false_iff, Z.eqb_eq.
    unfold double_exponent, double_fraction_top.
    assert (Hq : 0 <= num / 2 ^ 50) by (apply Z.div_pos; lia).
    assert (Hdiv : num / 2 ^ 52 = num / 2 ^ 50 / 2 ^ 2).
    { rewrite Z.div_div by lia. reflexivity. }
    rewrite Hdiv. set (q := num / 2 ^ 50) in *.
    assert (Hm : q mod 2 ^ 13 = 2 ^ 2 * ((q / 2 ^ 2) mod 2 ^ 11) + q mod 2 ^ 2).
    { change (2 ^ 13) with (2 ^ 2 * 2 ^ 11).
      rewrite Z.rem_mul_r by lia. lia. }
    pose proof (Z.mod_pos_bound (q / 2 ^ 2) (2 ^ 11) ltac:(lia)).
    pose proof (Z.mod_pos_bound q (2 ^ 2) ltac:(lia)).
    lia.
Qed.

(** X18.  A collection that is not re-entered frees exactly the
    unreachable objects.  On a heap without dangling pointers, and when no
    release of the sweep leaves [bytes_allocated] above [next_gc],
    [collect_garbage] returns (the gray stack empties within one round per
    object); every object reachable from the roots (the stack, the call
    frames, the open upvalues, the globals, the functions being compiled,
    [init_string]) is still in the heap, unchanged and in its place; every
    other object is gone and its blocks are taken off [bytes_allocated];
    the table of interned strings keeps the keys that are reachable and no
    other; the roots are as before, no object is left marked, and again no
    pointer dangles.  The new threshold is [bytes_allocated * 3 / 2]. *)
Theorem X18_collect_garbage :
  forall stress_gc sz compiler_roots st,
    GC.marks st = GC.no_marks ->
    heap_closedb compiler_roots (GC.machine st) = true ->
    wf_table (strings (GC.machine st)) ->
    quietb (GC.bytes_allocated st) (GC.next_gc st)
      (blocks_of sz (garbage compiler_roots (GC.machine st))) = true ->
    exists st',
      GC.collect_garbage stress_gc sz compiler_roots st = Some st'
      /\ objects (GC.machine st')
         = filter (fun ao => reachableb compiler_roots (GC.machine st) (fst ao))
             (objects (GC.machine st))
      /\ (forall a,
            reachable (objects (GC.machine st))
              (roots compiler_roots (GC.machine st)) a ->
            deref (GC.machine st') a = deref (GC.machine st) a
            /\ deref (GC.machine st) a <> None)
      /\ (forall a,
            ~ reachable (objects (GC.machine st))
                (roots compiler_roots (GC.machine st)) a ->
            deref (GC.machine st') a = None)
      /\ (forall k,
            has_key (strings (GC.machine st')) k <->
            has_key (strings (GC.machine st)) k
            /\ reachable (objects (GC.machine st))
                 (roots compiler_roots (GC.machine st)) (s_addr k))
      /\ roots compiler_roots (GC.machine st')
         = roots compiler_roots (GC.machine st)
      /\ stack (GC.machine st') = stack (GC.machine st)
      /\ globals (GC.machine st') = globals (GC.machine st)
      /\ heap_closedb compiler_roots (GC.machine st') = true
      /\ wf_table (strings (GC.machine st'))
      /\ GC.marks st' = GC.no_marks
      /\ GC.bytes_allocated st'
         = released (GC.bytes_allocated st)
             (blocks_of sz (garbage compiler_roots (GC.machine st)))
      /\ GC.next_gc st' = size_t (GC.bytes_allocated st' * 3) / 2.
Proof.
  intros stress_gc sz croots st Hmarks Hclosed Hwf Hquiet.
  destruct (collect_garbage_quiet stress_gc sz croots st Hmarks Hclosed Hwf Hquiet)
    as (strings' & Hwf' & Hkeys & Hgc).
  rewrite Hgc. eexists. split; [reflexivity|].
  cbn [GC.machine GC.marks GC.bytes_allocated GC.next_gc].
  set (vm' := set_objects _ _).
  destruct (live_heap_closed croots (GC.machine st) vm' Hclosed eq_refl eq_refl)
    as (Hlive & Hdead & Hclosed').
  split; [reflexivity|]. split; [exact Hlive|]. split; [exact Hdead|].
  split; [exact Hkeys|].
  split; [reflexivity|]. split; [reflexivity|]. split; [reflexivity|].
  split; [exact Hclosed'|]. split; [exact Hwf'|].
  split; [reflexivity|]. split; reflexivity.
Qed.

Lemma X18_collect_garbage_witness :
  exists st',
    GC.collect_garbage false X18_sizes [] X18_state = Some st'
    /\ objects (GC.machine st')
       = filter (fun ao => reachableb [] (GC.machine X18_state) (fst ao))
           (objects (GC.machine X18_state))
    /\ (forall a,
          reachable (objects (GC.machine X18_state))
            (roots [] (GC.machine X18_state)) a ->
          deref (GC.machine st') a = deref (GC.machine X18_state) a
          /\ deref (GC.machine X18_state) a <> None)
    /\ (forall a,
          ~ reachable (objects (GC.machine X18_state))
              (roots [] (GC.machine X18_state)) a ->
          deref (GC.machine st') a = None)
    /\ (forall k,
          has_key (strings (GC.machine st')) k <->
          has_key (strings (GC.machine X18_state)) k
          /\ reachable (objects (GC.machine X18_state))
               (roots [] (GC.machine X18_state)) (s_addr k))
    /\ roots [] (GC.machine st') = roots [] (GC.machine X18_state)
    /\ stack (GC.machine st') = stack (GC.machine X18_state)
    /\ globals (GC.machine st') = globals (GC.machine X18_state)
    /\ heap_closedb [] (GC.machine st') = true
    /\ wf_table (strings (GC.machine st'))
    /\ GC.marks st' = GC.no_marks
    /\ GC.bytes_allocated st'
       = released (GC.bytes_allocated X18_state)
           (blocks_of X18_sizes (garbage [] (GC.machine X18_state)))
    /\ GC.next_gc st' = size_t (GC.bytes_allocated st' * 3) / 2.
Proof.
  apply (X18_collect_garbage false X18_sizes [] X18_state).
  - reflexivity.
  - vm_compute. reflexivity.
  - exact wf_init_table.
  - vm_compute. reflexivity.
Defined.

(** The collection of the example: the five reachable objects are left, in
    their order, and what [free_object] states as the sizes of the other three,
    108 bytes, is taken off the counter. *)
Example collect_garbage_example :
  option_map (fun st => (map fst (objects (GC.machine st)),
                         GC.bytes_allocated st, GC.next_gc st))
    (GC.collect_garbage false X18_sizes [] X18_state)
  = Some ([5; 4; 3; 2; 1], 892, 1338).
Proof. vm_compute. reflexivity. Qed.

(** X19.  A release inside [sweep] can start a collection, and then the
    collector frees live objects.  When the first object of the list is
    garbage and releasing its first block leaves [bytes_allocated] above
    [next_gc], [reallocate] calls [collect_garbage] from inside [sweep];
    that collection finds every root marked already, traces nothing and
    clears all marks; [sweep] then goes on and frees every object that
    follows, although each of them is reachable: the heap is empty and the
    roots dangle. *)
Theorem X19_sweep_reentered :
  forall stress_gc sz compiler_roots st u o rest block blocks,
    GC.marks st = GC.no_marks ->
    heap_closedb compiler_roots (GC.machine st) = true ->
    wf_table (strings (GC.machine st)) ->
    objects (GC.machine st) = (u, o) :: rest ->
    reachableb compiler_roots (GC.machine st) u = false ->
    forallb (fun ao => reachableb compiler_roots (GC.machine st) (fst ao)) rest
    = true ->
    GC.free_blocks sz o = block :: blocks ->
    forallb (fun s => 0 <=? s) (blocks_of sz (objects (GC.machine st))) = true ->
    fold_right Z.add 0 (blocks_of sz (objects (GC.machine st)))
    <= GC.bytes_allocated st ->
    GC.bytes_allocated st * 3 < 2 ^ 64 ->
    GC.bytes_allocated st - block > GC.next_gc st ->
    exists st',
      GC.collect_garbage stress_gc sz compiler_roots st = Some st'
      /\ objects (GC.machine st') = []
      /\ roots compiler_roots (GC.machine st')
         = roots compiler_roots (GC.machine st)
      /\ (forall a, deref (GC.machine st') a = None).
Proof.
  intros stress_gc sz croots st u o rest block blocks
         Hmarks Hclosed Hwf Hobj Hu Hrest Hblocks Hpos Hsum Hno Hre.
  destruct (heap_closedb_spec _ _ Hclosed) as (Hnd & Hnz & Hvalid).
  destruct (mark_phase (objects (GC.machine st)) (roots croots (GC.machine st)) Hvalid)
    as (g0 & g & Hr0 & Hr & Hgray & Hndm & Hmarked & Hlive).
  assert (Hmp : mark_phase_marks croots (GC.machine st) = Some g).
  { unfold mark_phase_marks. rewrite mark_roots_refs, Hr0. exact Hr. }
  assert (Hrb : forall a, reachableb croots (GC.machine st) a = GC.is_marked g a).
  { intros a. unfold reachableb. rewrite Hmp. reflexivity. }
  rewrite Hrb in Hu.
  assert (Hrest' : forall ao, In ao rest -> GC.is_marked g (fst ao) = true).
  { intros ao Hin. rewrite forallb_forall in Hrest. rewrite <- Hrb. auto. }
  destruct (table_remove_white_exact (GC.is_marked g) (strings (GC.machine st)) Hwf)
    as (strings1 & Hrw1 & Hwf1 & _).
  destruct (table_remove_white_exact (GC.is_marked g) strings1 Hwf1)
    as (strings2 & Hrw2 & Hwf2 & _).
  (* the sizes *)
  unfold blocks_of in Hpos, Hsum. rewrite Hobj in Hpos, Hsum, Hnd, Hnz.
  cbn [flat_map snd] in Hpos, Hsum. rewrite Hblocks in Hpos, Hsum.
  fold (blocks_of sz rest) in Hpos, Hsum.
  cbn [app forallb] in Hpos. apply andb_true_iff in Hpos.
  destruct Hpos as [Hblock Hpos]. apply Z.leb_le in Hblock.
  rewrite forallb_app in Hpos. apply andb_true_iff in Hpos.
  destruct Hpos as [Hpos1 Hpos2].
  cbn [app fold_right] in Hsum.
  assert (Hsum_app : fold_right Z.add 0 (blocks ++ blocks_of sz rest)
                     = fold_right Z.add 0 blocks
                       + fold_right Z.add 0 (blocks_of sz rest)).
  { clear. induction blocks as [|x l IH]; simpl; [reflexivity|]. rewrite IH. lia. }
  rewrite Hsum_app in Hsum.
  pose proof (blocks_sum_nonneg _ Hpos1) as Hs1.
  pose proof (blocks_sum_nonneg _ Hpos2) as Hs2.
  set (b0 := GC.bytes_allocated st) in *.
  set (b1 := b0 - block).
  assert (Eb1 : size_t (b0 + (0 - block)) = b1).
  { unfold size_t. rewrite Z.mod_small by lia. subst b1. lia. }
  set (n2 := size_t (b1 * 3) / 2).
  assert (Hn2 : b1 <= n2).
  { subst n2. unfold size_t. rewrite Z.mod_small by lia.
    apply Z.div_le_lower_bound; lia. }
  (* the list without its first object *)
  simpl in Hnd. inversion Hnd as [|? ? Hnu Hndrest]; subst.
  assert (Hnzrest : forall ao, In ao ([] ++ rest) -> fst ao <> 0).
  { intros ao Hin. apply Hnz. right. exact Hin. }
  assert (Hu0 : u <> 0) by (apply (Hnz (u, o)); left; reflexivity).
  assert (Hmarked_rest : forall a, GC.is_marked g a = true ->
                                   heap_lookup rest a <> None /\ In a (map fst rest)).
  { intros a Ha. pose proof Ha as Ha'. apply Hmarked in Ha'.
    destruct (Hlive a Ha') as [_ Hl]. rewrite Hobj in Hl. simpl in Hl.
    destruct (Z.eqb_spec u a) as [E|E]; [subst a; congruence|].
    split; [exact Hl|].
    destruct (heap_lookup rest a) eqn:El; [|congruence].
    eapply heap_lookup_in. exact El. }
  (* the outer collection up to the first release *)
  unfold GC.collect_garbage. rewrite Hobj. cbn [List.length].
  set (nested := GC.collect_garbage_nested (S (List.length rest)) stress_gc sz croots).
  change (GC.collect_garbage_nested (S (S (List.length rest))) stress_gc sz croots st)
    with (GC.collect_garbage_body stress_gc sz croots nested st).
  unfold GC.collect_garbage_body at 1.
  rewrite Hmarks, mark_roots_refs, Hr0, Hr, Hrw1.
  unfold GC.sweep.
  cbn [GC.machine GC.set_marks GC.set_machine objects set_strings].
  rewrite Hobj. cbn [List.length GC.first_object GC.sweep_loop].
  replace (u =? 0) with false by lia.
  cbn [GC.machine GC.set_marks GC.set_machine objects set_strings GC.marks].
  rewrite Hobj. cbn [GC.chain_split]. rewrite Z.eqb_refl.
  rewrite Hu. unfold GC.unlink. cbn [Z.eqb].
  unfold GC.free_object. rewrite Hblocks. cbn [GC.free_object_blocks].
  unfold GC.reallocate at 1.
  cbn [GC.bytes_allocated GC.set_bytes_allocated GC.set_machine GC.set_marks
       GC.next_gc].
  fold b0. rewrite Eb1.
  replace (0 >? block) with false by lia. rewrite andb_false_r.
  cbn [GC.bytes_allocated GC.next_gc].
  replace (b1 >? GC.next_gc st) with true by (subst b1; lia).
  (* the collection inside the release *)
  set (vm1 := set_objects (set_strings (GC.machine st) strings1) rest).
  set (st2 := {| GC.machine := vm1; GC.marks := g; GC.bytes_allocated := b1;
                 GC.next_gc := GC.next_gc st |}).
  assert (Hnested : nested st2
                    = Some {| GC.machine := set_strings vm1 strings2;
                              GC.marks := GC.no_marks;
                              GC.bytes_allocated := b1;
                              GC.next_gc := n2 |}).
  { subst nested. cbn [GC.collect_garbage_nested].
    unfold GC.collect_garbage_body.
    rewrite mark_roots_refs.
    cbn [GC.machine GC.marks st2].
    rewrite mark_objects_marked.
    2:{ intros a Ha. destruct (Z.eq_dec a 0) as [E|E]; [left; exact E|right].
        assert (Hm : GC.is_marked g a = true).
        { apply Hmarked. apply reach_root; assumption. }
        split; [apply (Hmarked_rest a Hm)|exact Hm]. }
    unfold GC.trace_references. rewrite trace_loop_no_gray by exact Hgray.
    change (strings vm1) with strings1. rewrite Hrw2.
    unfold GC.sweep.
    cbn [GC.machine GC.set_marks GC.set_machine].
    change (objects (set_strings vm1 strings2)) with rest.
    pose proof (sweep_loop_quiet stress_gc sz
                  (GC.collect_garbage_nested (List.length rest) stress_gc sz croots)
                  rest [] (List.length rest)
                  {| GC.machine := set_strings vm1 strings2; GC.marks := g;
                     GC.bytes_allocated := b1; GC.next_gc := GC.next_gc st |})
      as Hsweep.
    cbn [rev GC.first_object app] in Hsweep.
    change (GC.set_marks (GC.set_machine st2 (set_strings vm1 strings2)) g)
      with {| GC.machine := set_strings vm1 strings2; GC.marks := g;
              GC.bytes_allocated := b1; GC.next_gc := GC.next_gc st |}.
    rewrite Hsweep; clear Hsweep.
    - cbn [GC.machine GC.marks GC.bytes_allocated GC.next_gc GC.set_next_gc].
      rewrite (filter_all _ rest) by exact Hrest'.
      rewrite (filter_none (fun ao => negb (GC.is_marked g (fst ao))) rest)
        by (intros ao Hin; rewrite (Hrest' ao Hin); reflexivity).
      unfold blocks_of, released. cbn [flat_map fold_left].
      rewrite swept_marks_all.
      + reflexivity.
      + exact Hgray.
      + intros a Ha. apply is_marked_In in Ha. apply (Hmarked_rest a Ha).
    - reflexivity.
    - exact Hndrest.
    - exact Hnzrest.
    - lia.
    - cbn [GC.marks GC.bytes_allocated GC.next_gc].
      rewrite (filter_none (fun ao => negb (GC.is_marked g (fst ao))) rest)
        by (intros ao Hin; rewrite (Hrest' ao Hin); reflexivity).
      reflexivity. }
  fold vm1.
  change (GC.set_bytes_allocated
            (GC.set_machine
               (GC.set_marks
                  (GC.set_machine st (set_strings (GC.machine st) strings1)) g)
               vm1) b1) with st2.
  change (GC.bytes_allocated st2) with b1.
  change (GC.next_gc st2) with (GC.next_gc st).
  replace (b1 >? GC.next_gc st) with true by (subst b1; lia).
  rewrite Hnested.
  (* the other blocks of the first object *)
  assert (Hb1a : fold_right Z.add 0 blocks <= b1) by (unfold b1; lia).
  assert (Hb1b : b1 < 2 ^ 64) by (unfold b1; lia).
  destruct (quietb_bounds blocks b1 n2 Hpos1 Hb1a Hn2 Hb1b) as [Hq1 Hrel1].
  rewrite free_object_blocks_quiet by exact Hq1.
  cbn [GC.bytes_allocated GC.set_bytes_allocated GC.machine GC.marks GC.next_gc].
  rewrite Hrel1.
  (* the rest of the sweep *)
  set (b2 := b1 - fold_right Z.add 0 blocks).
  assert (Hb2a : fold_right Z.add 0 (blocks_of sz rest) <= b2)
    by (unfold b2, b1; lia).
  assert (Hb2b : b2 <= n2) by (unfold b2; lia).
  assert (Hb2c : b2 < 2 ^ 64) by (unfold b2; lia).
  destruct (quietb_bounds (blocks_of sz rest) b2 n2 Hpos2 Hb2a Hb2b Hb2c)
    as [Hq2 Hrel2].
  pose proof (sweep_loop_quiet stress_gc sz nested rest [] (List.length rest)
                {| GC.machine := set_strings vm1 strings2; GC.marks := GC.no_marks;
                   GC.bytes_allocated := b2; GC.next_gc := n2 |})
    as Hsweep.
  cbn [rev GC.first_object app] in Hsweep.
  fold b2.
  change (GC.set_bytes_allocated
            {| GC.machine := set_strings vm1 strings2; GC.marks := GC.no_marks;
               GC.bytes_allocated := b1; GC.next_gc := n2 |} b2)
    with {| GC.machine := set_strings vm1 strings2; GC.marks := GC.no_marks;
            GC.bytes_allocated := b2; GC.next_gc := n2 |}.
  rewrite Hsweep; clear Hsweep.
  - eexists. split; [reflexivity|].
    cbn [GC.machine GC.set_next_gc GC.marks].
    rewrite (filter_none (fun ao => GC.is_marked GC.no_marks (fst ao)) rest)
      by (intros; reflexivity).
    split; [reflexivity|]. split; [reflexivity|].
    intros a. reflexivity.
  - reflexivity.
  - exact Hndrest.
  - exact Hnzrest.
  - lia.
  - cbn [GC.marks GC.bytes_allocated GC.next_gc].
    rewrite (filter_all (fun ao => negb (GC.is_marked GC.no_marks (fst ao))) rest)
      by (intros; reflexivity).
    exact Hq2.
Qed.

Lemma X19_sweep_reentered_witness :
  exists st',
    GC.collect_garbage false X18_sizes [] X19_state = Some st'
    /\ objects (GC.machine st') = []
    /\ roots [] (GC.machine st') = roots [] (GC.machine X19_state)
    /\ (forall a, deref (GC.machine st') a = None).
Proof.
  apply (X19_sweep_reentered false X18_sizes [] X19_state
           6 (ObjString (string_object 6 "garbage"))
           (skipn 3 (objects X18_vm)) 8 [48]).
  - reflexivity.
  - vm_compute. reflexivity.
  - exact wf_init_table.
  - reflexivity.
  - vm_compute. reflexivity.
  - vm_compute. reflexivity.
  - vm_compute. reflexivity.
  - vm_compute. reflexivity.
  - vm_compute. discriminate.
  - vm_compute. reflexivity.
  - vm_compute. reflexivity.
Defined.

(** The collection of the example: the closure on the stack and all it
    points to are freed. *)
Example sweep_reentered_example :
  option_map (fun st => (map fst (objects (GC.machine st)),
                         stack (GC.machine st), GC.bytes_allocated st))
    (GC.collect_garbage false X18_sizes [] X19_state)
  = Some ([], [OBJ_VAL 4; NIL_VAL], 1640).
Proof. vm_compute. reflexivity. Qed.

(* ------------------------------------------------------------------ *)
(** * X20: emit_constant and OP_CONSTANT *)

Lemma error_panic message st :
  Compiler.panic_mode (Compiler.parser (Compiler.error message st)) = true.
Proof.
  unfold Compiler.error, Compiler.error_at.
  destruct (Compiler.panic_mode (Compiler.parser st)) eqn:E; [exact E|reflexivity].
Qed.

Lemma error_constants message st :
  constants (Compiler.current_chunk (Compiler.error message st))
  = constants (Compiler.current_chunk st).
Proof.
  unfold Compiler.error, Compiler.error_at.
  destruct (Compiler.panic_mode (Compiler.parser st)); reflexivity.
Qed.

(** X20.  The operand of [OP_CONSTANT]: [emit_constant (value)] appends the
    value to the constants of the chunk, never looking for an equal one,
    and writes the opcode and one operand byte.  While the chunk had at
    most 255 constants the byte is the index of the value, no error is
    reported, and [OP_CONSTANT], run on these bytes, pushes the value.
    With 256 constants or more the compiler is left in panic mode and the
    byte is 0: the instruction pushes the first constant of the chunk. *)
Theorem X20_constant_round_trip :
  forall v st vm,
    let chunk := Compiler.current_chunk st in
    let st' := Compiler.emit_constant v st in
    let chunk' := Compiler.current_chunk st' in
    let ip := ch_count chunk + 1 in
    values (constants chunk') = values (constants chunk) ++ [v]
    /\ if va_count (constants chunk) <=? UINT8_MAX then
         code chunk'
         = code chunk ++ [opcode OP_CONSTANT; va_count (constants chunk)]
         /\ Compiler.parser st' = Compiler.parser st
         /\ Compiler.diagnostics st' = Compiler.diagnostics st
         /\ op_constant (code chunk') (values (constants chunk')) ip vm
            = Some (ip + 1, push v vm)
       else
         code chunk' = code chunk ++ [opcode OP_CONSTANT; 0]
         /\ Compiler.panic_mode (Compiler.parser st') = true
         /\ op_constant (code chunk') (values (constants chunk')) ip vm
            = Some (ip + 1, push (nth 0 (values (constants chunk)) NIL_VAL) vm).
Proof.
  intros v st vm chunk st' chunk' ip.
  assert (Hread : forall b,
            READ_BYTE (code chunk ++ [opcode OP_CONSTANT; b]) ip = (ip + 1, b)).
  { intros b. unfold READ_BYTE. f_equal.
    replace (ip + 1 - 1) with ip by lia.
    replace (code chunk ++ [opcode OP_CONSTANT; b])
      with ((code chunk ++ [opcode OP_CONSTANT]) ++ b :: [])
      by (rewrite <- app_assoc; reflexivity).
    apply nth_middle_at. subst ip. unfold ch_count.
    rewrite length_app. simpl. lia. }
  subst st' chunk'. unfold Compiler.emit_constant, Compiler.make_constant,
    add_constant.
  cbn [pop push]. fold chunk.
  set (chunk1 := {| ch_capacity := ch_capacity chunk; code := code chunk;
                    lines := lines chunk;
                    constants := write_value_array (constants chunk) v |}).
  assert (Hcount : va_count (constants chunk1) - 1 = va_count (constants chunk)).
  { subst chunk1. unfold va_count, write_value_array. cbn [constants values].
    rewrite length_app. simpl. lia. }
  destruct (pop (push v (Compiler.vm st))) as [top vm1] eqn:Epop.
  rewrite Hcount.
  destruct (va_count (constants chunk) <=? UINT8_MAX) eqn:Ele.
  - apply Z.leb_le in Ele.
    replace (va_count (constants chunk) >? UINT8_MAX) with false by lia.
    assert (Hmod : va_count (constants chunk) mod 256 = va_count (constants chunk)).
    { apply Z.mod_small. unfold va_count, UINT8_MAX in *. lia. }
    rewrite Hmod. unfold Compiler.emit_bytes.
    split; [reflexivity|]. split; [rewrite !emit_byte_code; cbn;
      rewrite <- app_assoc; reflexivity|].
    split; [reflexivity|]. split; [reflexivity|].
    unfold op_constant, READ_CONSTANT. rewrite !emit_byte_code.
    cbn [Compiler.current_chunk Compiler.compiler Compiler.set_vm
         Compiler.set_compiler Compiler.set_chunk Compiler.chunk
         Compiler.function].
    change (code chunk1) with (code chunk). rewrite <- app_assoc. cbn [app].
    rewrite Hread.
    replace (nth_error _ _) with (Some v); [reflexivity|].
    symmetry. unfold write_value_array. cbn [values constants].
    unfold Compiler.emit_byte. cbn.
    unfold va_count. rewrite Nat2Z.id.
    rewrite nth_error_app2 by lia. rewrite Nat.sub_diag. reflexivity.
  - apply Z.leb_gt in Ele.
    replace (va_count (constants chunk) >? UINT8_MAX) with true by lia.
    unfold Compiler.emit_bytes.
    split.
    { unfold Compiler.emit_byte. cbn. rewrite error_constants. reflexivity. }
    split.
    { rewrite !emit_byte_code, error_code. cbn. rewrite <- app_assoc. reflexivity. }
    split.
    { unfold Compiler.emit_byte. cbn. apply error_panic. }
    unfold op_constant, READ_CONSTANT. rewrite !emit_byte_code, error_code.
    cbn [Compiler.current_chunk Compiler.compiler Compiler.set_vm
         Compiler.set_compiler Compiler.set_chunk Compiler.chunk
         Compiler.function].
    change (code chunk1) with (code chunk). rewrite <- app_assoc. cbn [app].
    rewrite Hread.
    replace (nth_error _ _)
      with (Some (nth 0 (values (constants chunk)) NIL_VAL)); [reflexivity|].
    symmetry. unfold Compiler.emit_byte. cbn. rewrite error_constants. cbn.
    unfold va_count, UINT8_MAX in Ele.
    destruct (values (constants chunk)) as [|c cs]; [simpl in Ele; lia|].
    reflexivity.
Qed.

(* ------------------------------------------------------------------ *)
(** * X21: declare_variable *)

Lemma error_error m1 m2 st :
  Compiler.error m1 (Compiler.error m2 st) = Compiler.error m2 st.
Proof.
  unfold Compiler.error, Compiler.error_at.
  destruct (Compiler.panic_mode (Compiler.parser st)) eqn:E.
  - rewrite E. reflexivity.
  - reflexivity.
Qed.

Lemma error_compiler message st :
  Compiler.compiler (Compiler.error message st) = Compiler.compiler st.
Proof.
  unfold Compiler.error, Compiler.error_at.
  destruct (Compiler.panic_mode (Compiler.parser st)); reflexivity.
Qed.

Lemma redeclaration_loop_spec name message :
  message = "Already a variable with this name in this scope."%string ->
  forall rev_locals st,
    Compiler.redeclaration_loop rev_locals name st
    = if existsb
           (fun local => Compiler.identifiers_equal name (Compiler.name local))
           (current_scope rev_locals (Compiler.scope_depth (Compiler.compiler st)))
      then Compiler.error message st
      else st.
Proof.
  intros ->. induction rev_locals as [|local rest IH]; intros st;
    [reflexivity|].
  cbn [Compiler.redeclaration_loop current_scope].
  destruct (negb (Compiler.depth local =? -1)
            && (Compiler.depth local <? Compiler.scope_depth (Compiler.compiler st)));
    [reflexivity|].
  cbn [existsb]. rewrite IH.
  destruct (Compiler.identifiers_equal name (Compiler.name local)).
  - rewrite error_compiler, error_error. cbn [orb].
    destruct (existsb _ _); reflexivity.
  - reflexivity.
Qed.

(** X21.  [declare_variable] at the top level (scope depth 0) does
    nothing.  In a block it reports "Already a variable with this name in
    this scope." when a local of the innermost scope has the name of the
    token just consumed, and only then: the locals it looks at are the
    last ones, down to the last initialised local of an enclosing scope,
    so a variable may shadow one of an enclosing scope.  Reported or not,
    the variable is then added by [add_local]. *)
Theorem X21_declare_variable :
  forall st,
    let name := Compiler.previous (Compiler.parser st) in
    Compiler.declare_variable st
    = if Compiler.scope_depth (Compiler.compiler st) =? 0 then st
      else
        Compiler.add_local name
          (if declared_in_scope name (Compiler.compiler st)
           then Compiler.error
                  "Already a variable with this name in this scope." st
           else st).
Proof.
  intros st name. unfold Compiler.declare_variable, declared_in_scope.
  destruct (Compiler.scope_depth (Compiler.compiler st) =? 0); [reflexivity|].
  fold name. rewrite (redeclaration_loop_spec name _ eq_refl). reflexivity.
Qed.

(** In the block of the example [var b] is reported and [var a], which
    shadows the variable of the enclosing block, is not; both are added. *)
Example declare_variable_example :
  map (fun name =>
         let st := Compiler.declare_variable (X21_state name) in
         (Compiler.diagnostics st,
          map (fun l => (string_of_list_ascii (tok_start (Compiler.name l)),
                         Compiler.depth l))
            (Compiler.locals (Compiler.compiler st))))
    ["b"; "a"]%string
  = [(["[line 0] Error at 'b': Already a variable with this name in this scope."],
      [("this", 0); ("a", 1); ("b", 2); ("b", -1)]);
     ([], [("this", 0); ("a", 1); ("b", 2); ("a", -1)])]%string.
Proof. vm_compute. reflexivity. Qed.

(* ------------------------------------------------------------------ *)
(** * X22: the line of a token *)

Lemma same_line_refl p : same_line p p.
Proof. exists []. split; reflexivity. Qed.

Lemma newlines_app a b : newlines (a ++ b) = newlines a + newlines b.
Proof.
  unfold newlines. rewrite filter_app, length_app. lia.
Qed.

Lemma newlines_cons c a :
  newlines (c :: a) = (if Lexer.char_eqb c "010" then 1 else 0) + newlines a.
Proof.
  unfold newlines. cbn [filter].
  destruct (Lexer.char_eqb c "010"); cbn [List.length]; lia.
Qed.

Lemma same_line_trans p q r : same_line p q -> same_line q r -> same_line p r.
Proof.
  intros (a & -> & Ha) (b & -> & Hb). exists (a ++ b).
  split; [apply app_assoc|]. rewrite newlines_app. lia.
Qed.

Lemma same_line_tl p :
  Lexer.char_eqb (Lexer.read p) "010" = false -> same_line p (tl p).
Proof.
  destruct p as [|c rest]; intros H; [apply same_line_refl|].
  exists [c]. split; [reflexivity|]. rewrite newlines_cons.
  unfold Lexer.read in H. cbn [hd] in H. rewrite H. reflexivity.
Qed.

(** What a newline is not. *)
Lemma newline_is c :
  Lexer.char_eqb c "010" = true ->
  Lexer.is_digit c = false /\ Lexer.is_alpha c = false
  /\ Lexer.char_eqb c "_" = false /\ Lexer.char_eqb c "." = false
  /\ Lexer.char_eqb c "e" = false /\ Lexer.char_eqb c "E" = false
  /\ Lexer.char_eqb c "+" = false /\ Lexer.char_eqb c "-" = false
  /\ Lexer.char_eqb c "=" = false /\ Lexer.char_eqb c "034" = false
  /\ Lexer.char_eqb c Lexer.NUL = false /\ Lexer.char_eqb c " " = false
  /\ Lexer.char_eqb c "013" = false /\ Lexer.char_eqb c "009" = false
  /\ Lexer.char_eqb c "/" = false.
Proof.
  intros H. apply Ascii.eqb_eq in H. subst c. vm_compute. repeat split.
Qed.

Lemma same_line_skip_digits p : same_line p (Lexer.skip_digits p).
Proof.
  induction p as [|c rest IH]; [apply same_line_refl|].
  cbn [Lexer.skip_digits].
  destruct (Lexer.is_digit c || Lexer.char_eqb c "_") eqn:E;
    [|apply same_line_refl].
  eapply same_line_trans; [|exact IH].
  apply (same_line_tl (c :: rest)). unfold Lexer.read. cbn [hd].
  destruct (Lexer.char_eqb c "010") eqn:En; [|reflexivity].
  destruct (newline_is c En) as (H1 & _ & H2 & _). rewrite H1, H2 in E.
  discriminate.
Qed.

Lemma same_line_skip_identifier p : same_line p (Lexer.skip_identifier p).
Proof.
  induction p as [|c rest IH]; [apply same_line_refl|].
  cbn [Lexer.skip_identifier].
  destruct (Lexer.is_alpha c || Lexer.is_digit c) eqn:E;
    [|apply same_line_refl].
  eapply same_line_trans; [|exact IH].
  apply (same_line_tl (c :: rest)). unfold Lexer.read. cbn [hd].
  destruct (Lexer.char_eqb c "010") eqn:En; [|reflexivity].
  destruct (newline_is c En) as (H1 & H2 & _). rewrite H1, H2 in E.
  discriminate.
Qed.

Lemma same_line_skip_comment p : same_line p (Lexer.skip_comment p).
Proof.
  induction p as [|c rest IH]; [apply same_line_refl|].
  cbn [Lexer.skip_comment].
  destruct (negb (Lexer.char_eqb c "010") && negb (Lexer.char_eqb c Lexer.NUL))
    eqn:E; [|apply same_line_refl].
  eapply same_line_trans; [|exact IH].
  apply (same_line_tl (c :: rest)). unfold Lexer.read. cbn [hd].
  destruct (Lexer.char_eqb c "010"); [discriminate|reflexivity].
Qed.

Lemma string_loop_counted p :
  forall l,
    exists consumed,
      p = consumed ++ fst (Lexer.string_loop p l)
      /\ snd (Lexer.string_loop p l) = l + newlines consumed.
Proof.
  induction p as [|c rest IH]; intros l.
  - exists []. simpl. split; [reflexivity|unfold newlines; simpl; lia].
  - cbn [Lexer.string_loop].
    destruct (negb (Lexer.char_eqb c "034") && negb (Lexer.char_eqb c Lexer.NUL)).
    + destruct (IH (if Lexer.char_eqb c "010" then l + 1 else l))
        as (consumed & Hc & Hl).
      exists (c :: consumed). split; [simpl; f_equal; exact Hc|].
      rewrite Hl, newlines_cons. destruct (Lexer.char_eqb c "010"); lia.
    + exists []. simpl. split; [reflexivity|unfold newlines; simpl; lia].
Qed.

Lemma counted_same_line p l lx' :
  same_line p (Lexer.current lx') -> Lexer.line lx' = l -> counted p l lx'.
Proof.
  intros (consumed & Hc & Hn) Hl. exists consumed. split; [exact Hc|]. lia.
Qed.

Lemma counted_trans p l lx1 lx2 :
  counted p l lx1 -> counted (Lexer.current lx1) (Lexer.line lx1) lx2 ->
  counted p l lx2.
Proof.
  intros (a & Ha & Hla) (b & Hb & Hlb). exists (a ++ b).
  split; [rewrite Ha, Hb; apply app_assoc|]. rewrite newlines_app. lia.
Qed.

(** [skip_whitespace] counts the newlines it consumes, and stops at a
    character that is no newline. *)
Lemma skip_whitespace_loop_counted :
  forall fuel lx lx',
    Lexer.skip_whitespace_loop fuel lx = Some lx' ->
    counted (Lexer.current lx) (Lexer.line lx) lx'
    /\ Lexer.char_eqb (Lexer.peek lx') "010" = false.
Proof.
  induction fuel as [|fuel IH]; intros lx lx' H; [discriminate|].
  cbn [Lexer.skip_whitespace_loop] in H.
  destruct (Lexer.char_eqb (Lexer.peek lx) " " || Lexer.char_eqb (Lexer.peek lx) "013"
            || Lexer.char_eqb (Lexer.peek lx) "009") eqn:Ews.
  { destruct (IH _ _ H) as [Hc Hp]. split; [|exact Hp].
    eapply counted_trans; [|exact Hc].
    apply counted_same_line; [|reflexivity].
    cbn. apply same_line_tl.
    destruct (Lexer.char_eqb (Lexer.read (Lexer.current lx)) "010") eqn:En;
      [|reflexivity].
    destruct (newline_is _ En) as (_ & _ & _ & _ & _ & _ & _ & _ & _ & _ & _
                                    & H1 & H2 & H3 & _).
    unfold Lexer.peek in Ews. rewrite H1, H2, H3 in Ews. discriminate. }
  destruct (Lexer.char_eqb (Lexer.peek lx) "010") eqn:Enl.
  { destruct (IH _ _ H) as [Hc Hp]. split; [|exact Hp].
    eapply counted_trans; [|exact Hc].
    destruct (read_cons_of_neq _ _ Enl eq_refl) as (rest & Hcur).
    exists ["010"%char]. cbn. rewrite Hcur. split; [reflexivity|].
    unfold newlines. simpl. lia. }
  destruct (Lexer.char_eqb (Lexer.peek lx) "/") eqn:Esl.
  2:{ injection H as <-. split; [|exact Enl].
      apply counted_same_line; [apply same_line_refl|reflexivity]. }
  destruct (Lexer.char_eqb (Lexer.peek_next lx) "/") eqn:Esl2.
  2:{ injection H as <-. split; [|exact Enl].
      apply counted_same_line; [apply same_line_refl|reflexivity]. }
  destruct (IH _ _ H) as [Hc Hp]. split; [|exact Hp].
  eapply counted_trans; [|exact Hc].
  apply counted_same_line; [|reflexivity]. cbn. apply same_line_skip_comment.
Qed.

(** The side condition of [same_line_tl], from the tests the scanner has
    made on the character. *)
Ltac no_newline :=
  match goal with
  | |- Lexer.char_eqb ?c _ = false =>
      let En := fresh "En" in
      destruct (Lexer.char_eqb c "010") eqn:En; [|reflexivity];
      let H := fresh "H" in
      pose proof (newline_is _ En) as H;
      decompose [and] H;
      repeat match goal with
      | E : Lexer.char_eqb c ?d = false, T : context [Lexer.char_eqb c ?d] |- _ =>
          rewrite E in T
      | E : Lexer.is_digit c = false, T : context [Lexer.is_digit c] |- _ =>
          rewrite E in T
      | E : Lexer.is_alpha c = false, T : context [Lexer.is_alpha c] |- _ =>
          rewrite E in T
      end;
      simpl in *; congruence
  end.

Ltac same_line_chain :=
  repeat first
    [ apply same_line_refl
    | eapply same_line_trans; [|apply same_line_skip_digits]
    | eapply same_line_trans; [|apply same_line_tl; no_newline] ].

Lemma number_counted lx :
  counted (Lexer.current lx) (Lexer.line lx) (snd (Lexer.number lx))
  /\ tok_line (fst (Lexer.number lx)) = Lexer.line (snd (Lexer.number lx)).
Proof.
  unfold Lexer.number, Lexer.number_fraction, Lexer.number_exponent.
  unfold Lexer.peek, Lexer.advance, Lexer.set_current.
  cbn [Lexer.current Lexer.start Lexer.line snd fst].
  repeat match goal with
  | |- context [if ?b then _ else _] =>
      destruct b eqn:?; cbn [Lexer.current Lexer.start Lexer.line snd fst]
  end;
  (split; [|reflexivity]);
  (apply counted_same_line; [|reflexivity]);
  cbn [Lexer.current]; same_line_chain.
Qed.

(** The loop of [string] stops at a quote or at the end. *)
Lemma string_loop_stops p :
  forall l,
    Lexer.char_eqb (Lexer.read (fst (Lexer.string_loop p l))) "010" = false.
Proof.
  induction p as [|c rest IH]; intros l; [reflexivity|].
  cbn [Lexer.string_loop].
  destruct (negb (Lexer.char_eqb c "034") && negb (Lexer.char_eqb c Lexer.NUL))
    eqn:E; [apply IH|].
  cbn [fst]. unfold Lexer.read. cbn [hd]. no_newline.
Qed.

Lemma string_counted lx :
  counted (Lexer.current lx) (Lexer.line lx) (snd (Lexer.string lx))
  /\ tok_line (fst (Lexer.string lx)) = Lexer.line (snd (Lexer.string lx)).
Proof.
  unfold Lexer.string.
  destruct (string_loop_counted (Lexer.current lx) (Lexer.line lx))
    as (consumed & Hc & Hl).
  pose proof (string_loop_stops (Lexer.current lx) (Lexer.line lx)) as Hstop.
  destruct (Lexer.string_loop (Lexer.current lx) (Lexer.line lx)) as [p l].
  cbn [fst snd] in Hc, Hl, Hstop.
  assert (H1 : counted (Lexer.current lx) (Lexer.line lx)
                 {| Lexer.start := Lexer.start lx; Lexer.current := p;
                    Lexer.line := l |}).
  { exists consumed. split; assumption. }
  destruct (Lexer.is_at_end _) eqn:Eend; cbn [fst snd];
    (split; [|reflexivity]); [exact H1|].
  eapply counted_trans; [exact H1|].
  apply counted_same_line; [|reflexivity].
  cbn. apply same_line_tl. exact Hstop.
Qed.

Lemma identifier_counted lx :
  counted (Lexer.current lx) (Lexer.line lx) (snd (Lexer.identifier lx))
  /\ tok_line (fst (Lexer.identifier lx)) = Lexer.line (snd (Lexer.identifier lx)).
Proof.
  unfold Lexer.identifier. cbn [fst snd]. split; [|reflexivity].
  apply counted_same_line; [|reflexivity]. cbn.
  apply same_line_skip_identifier.
Qed.

Lemma one_or_two_counted a b lx :
  counted (Lexer.current lx) (Lexer.line lx) (snd (Lexer.one_or_two a b lx))
  /\ tok_line (fst (Lexer.one_or_two a b lx))
     = Lexer.line (snd (Lexer.one_or_two a b lx)).
Proof.
  unfold Lexer.one_or_two, Lexer.match_char.
  destruct (Lexer.is_at_end lx); cbn [fst snd].
  { split; [|reflexivity].
    apply counted_same_line; [apply same_line_refl|reflexivity]. }
  destruct (negb (Lexer.char_eqb (Lexer.read (Lexer.current lx)) "=")) eqn:E;
    cbn [fst snd]; (split; [|reflexivity]);
    (apply counted_same_line; [|reflexivity]).
  - apply same_line_refl.
  - cbn. apply same_line_tl. no_newline.
Qed.

(** [lex_token] counts the newlines it consumes, and the token carries the
    count at its end. *)
Lemma lex_token_counted lx t lx' :
  Lexer.lex_token lx = Some (t, lx') ->
  counted (Lexer.current lx) (Lexer.line lx) lx'
  /\ tok_line t = Lexer.line lx'.
Proof.
  unfold Lexer.lex_token.
  destruct (Lexer.skip_whitespace lx) as [lx1|] eqn:Ews; [|discriminate].
  destruct (skip_whitespace_loop_counted _ _ _ Ews) as [Hc1 Hp1].
  set (lx2 := {| Lexer.start := Lexer.current lx1; Lexer.current := Lexer.current lx1;
                 Lexer.line := Lexer.line lx1 |}).
  assert (Hc2 : counted (Lexer.current lx) (Lexer.line lx) lx2) by exact Hc1.
  destruct (Lexer.is_at_end lx2) eqn:Eend.
  { intros H. injection H as <- <-. split; [exact Hc2|reflexivity]. }
  unfold Lexer.advance. cbn [fst snd].
  set (lx3 := Lexer.set_current lx2 (tl (Lexer.current lx2))).
  assert (Hc3 : counted (Lexer.current lx) (Lexer.line lx) lx3).
  { eapply counted_trans; [exact Hc2|].
    apply counted_same_line; [|reflexivity]. cbn. apply same_line_tl.
    exact Hp1. }
  assert (Hfin : forall r : Token * Lexer.Lexer,
             counted (Lexer.current lx3) (Lexer.line lx3) (snd r)
             /\ tok_line (fst r) = Lexer.line (snd r) ->
             Some r = Some (t, lx') ->
             counted (Lexer.current lx) (Lexer.line lx) lx'
             /\ tok_line t = Lexer.line lx').
  { intros r [Ha Hb] H. injection H as ->. cbn [fst snd] in *.
    split; [|exact Hb]. eapply counted_trans; [exact Hc3|exact Ha]. }
  assert (Hsimple : forall r : Token * Lexer.Lexer,
             snd r = lx3 -> tok_line (fst r) = Lexer.line lx3 ->
             counted (Lexer.current lx3) (Lexer.line lx3) (snd r)
             /\ tok_line (fst r) = Lexer.line (snd r)).
  { intros r -> Hb. split; [|exact Hb].
    apply counted_same_line; [apply same_line_refl|reflexivity]. }
  repeat match goal with
  | |- context [if ?b then _ else _] => destruct b
  end;
  apply Hfin;
  first [ apply identifier_counted | apply number_counted | apply string_counted
        | apply one_or_two_counted
        | apply Hsimple; reflexivity ].
Qed.

(** X22.  The line of a token.  [lex_token] returns; the lexer has then
    consumed a piece of the source, and its line counter has advanced by
    the number of newlines in that piece, be they between tokens, at the
    end of a comment or inside a string literal; the token (an error token
    too) carries the line of its last character.  So a lexer started on
    line 1 gives every token the number of its line, and a string literal
    that runs over several lines the number of the line it ends on. *)
Theorem X22_token_line :
  forall lx,
    exists t lx' consumed,
      Lexer.lex_token lx = Some (t, lx')
      /\ Lexer.current lx = consumed ++ Lexer.current lx'
      /\ Lexer.line lx' = Lexer.line lx + newlines consumed
      /\ tok_line t = Lexer.line lx'.
Proof.
  intros lx.
  destruct (lex_token_progress lx) as (t & lx' & Hlex & _).
  destruct (lex_token_counted lx t lx' Hlex) as [(consumed & Hc & Hl) Ht].
  exists t, lx', consumed. split; [exact Hlex|]. split; [exact Hc|].
  split; [exact Hl|exact Ht].
Qed.

(** The lines of the tokens of a source of four lines: a comment, a
    string over two lines, and a character that is no token. *)
Example token_line_example :
  option_map (map (fun t => (tok_type t, tok_line t)))
    (Lexer.tokens 40
       (Lexer.init_lexer
          ["v"; "a"; "r"; " "; "/"; "/"; "x"; "010"; "034"; "a"; "010"; "b";
           "034"; ";"; "010"; "@"]%char))
  = Some [(TOKEN_VAR, 1); (TOKEN_STRING, 3); (TOKEN_SEMICOLON, 3);
          (TOKEN_ERROR, 4); (TOKEN_EOF, 4)].
Proof. vm_compute. reflexivity. Qed.

(* ------------------------------------------------------------------ *)
(** * X23: OP_INVOKE and OP_GET_PROPERTY, OP_CALL *)

Lemma list_set_middle {A : Type} (pre : list A) x y post :
  list_set (pre ++ x :: post) (List.length pre) y = pre ++ y :: post.
Proof.
  induction pre as [|h pre IH]; simpl; [reflexivity|]. rewrite IH. reflexivity.
Qed.

Lemma heap_fresh_lookup vm a o :
  heap_fresh vm = true -> deref vm a = Some o -> a < next_addr vm.
Proof.
  unfold heap_fresh, deref. intros Hf Ha. rewrite forallb_forall in Hf.
  apply heap_lookup_In in Ha. specialize (Hf _ Ha). simpl in Hf. lia.
Qed.

Lemma deref_linked vm o a :
  a < next_addr vm -> deref (linked o vm) a = deref vm a.
Proof.
  intros Ha. unfold linked, allocate_object, deref. simpl.
  destruct (Z.eqb_spec (next_addr vm) a); [lia|reflexivity].
Qed.

(** [call] does not see an object linked at the next address. *)
Lemma call_linked o closure arg_count vm flag vm_f :
  heap_fresh vm = true ->
  call closure arg_count vm = Some (flag, vm_f) ->
  exists vm_u,
    call closure arg_count (linked o vm) = Some (flag, vm_u)
    /\ agree (next_addr vm) vm_u vm_f.
Proof.
  intros Hf. unfold call.
  destruct (deref vm closure) as [oc|] eqn:Ec; [|discriminate].
  rewrite (deref_linked vm o closure) by (eapply heap_fresh_lookup; eauto).
  rewrite Ec. destruct oc; try discriminate.
  destruct (deref vm function) as [ofn|] eqn:Efn; [|discriminate].
  rewrite (deref_linked vm o function) by (eapply heap_fresh_lookup; eauto).
  rewrite Efn. destruct ofn; try discriminate.
  change (frames (linked o vm)) with (frames vm).
  change (stack_top (linked o vm)) with (stack_top vm).
  destruct (negb (arg_count =? arity)).
  { intros H. injection H as <- <-. eexists. split; [reflexivity|].
    unfold agree, runtime_error, reset_stack. simpl.
    repeat split; auto.
    intros a Ha. apply (deref_linked vm o a Ha). }
  destruct (Z.of_nat (List.length (frames vm)) =? FRAMES_MAX).
  { intros H. injection H as <- <-. eexists. split; [reflexivity|].
    unfold agree, runtime_error, reset_stack. simpl.
    repeat split; auto.
    intros a Ha. apply (deref_linked vm o a Ha). }
  intros H. injection H as <- <-. eexists. split; [reflexivity|].
  unfold agree. simpl. repeat split; auto.
  intros a Ha. apply (deref_linked vm o a Ha).
Qed.

(** X23.  [OP_INVOKE] does what [OP_GET_PROPERTY] and [OP_CALL] do.  Take
    a stack that holds a receiver under [arg_count] arguments, the
    receiver an instance that has the property, as a field or as a method
    of its class.  If [invoke (name, arg_count)] returns, then
    [OP_GET_PROPERTY] on the receiver (when the allocation of the bound
    method starts no collection) followed, once the same arguments are
    pushed, by [call_value] as [OP_CALL] calls it returns the same flag
    and leaves the same frames, stack and error output, the same tables
    and open upvalues, and the same objects at the addresses in use
    before: the two ways differ in the bound method only, which
    [invoke] does not allocate. *)
Theorem X23_invoke_fused :
  forall natives sz compiler_roots st name args receiver rest flag vm_f,
    stack (GC.machine st) = args ++ receiver :: rest ->
    has_property (GC.machine st) receiver name = true ->
    heap_fresh (GC.machine st) = true ->
    size_t (GC.bytes_allocated st + GC.sizeof_LoxBoundMethod sz)
    <= GC.next_gc st ->
    invoke natives name (Z.of_nat (List.length args)) (GC.machine st)
    = Some (flag, vm_f) ->
    exists st1 v vm_u,
      GC.op_get_property false sz compiler_roots name
        (GC.set_machine st (set_stack (GC.machine st) (receiver :: rest)))
      = GC.Continue st1
      /\ stack (GC.machine st1) = v :: rest
      /\ (let vm1 := set_stack (GC.machine st1) (args ++ v :: rest) in
          call_value natives (peek (Z.of_nat (List.length args)) vm1)
            (Z.of_nat (List.length args)) vm1 = Some (flag, vm_u))
      /\ agree (next_addr (GC.machine st)) vm_u vm_f.
Proof.
  intros natives sz croots st name args receiver rest flag vm_f
         Hstack Hprop Hfresh Hquiet Hinvoke.
  set (n := Z.of_nat (List.length args)) in *.
  assert (Hpeek : forall v vm, stack vm = args ++ v :: rest -> peek n vm = v).
  { intros v vm Hs. unfold peek, n. rewrite Nat2Z.id, Hs. apply nth_middle. }
  unfold invoke in Hinvoke. rewrite (Hpeek _ _ Hstack) in Hinvoke.
  unfold has_property in Hprop.
  destruct receiver as [| | |instance]; try discriminate.
  destruct (deref (GC.machine st) instance) as [oi|] eqn:Ei; [|discriminate].
  destruct oi as [| | | |klass fields| | |]; try discriminate.
  assert (Hinst : is_obj_type (GC.machine st) (OBJ_VAL instance) LOX_INSTANCE_T
                  = true).
  { unfold is_obj_type. rewrite Ei. reflexivity. }
  rewrite Hinst in Hinvoke. cbn [negb] in Hinvoke.
  set (vm0 := set_stack (GC.machine st) (OBJ_VAL instance :: rest)).
  assert (Hinst0 : is_obj_type vm0 (peek 0 vm0) LOX_INSTANCE_T = true)
    by exact Hinst.
  unfold GC.op_get_property.
  cbn [GC.machine GC.set_machine]. fold vm0. rewrite Hinst0. cbn [negb].
  change (peek 0 vm0) with (OBJ_VAL instance). cbv beta iota.
  change (deref vm0 instance) with (deref (GC.machine st) instance).
  rewrite Ei.
  destruct (Tbl.table_get fields name) as [[value|]|] eqn:Eget;
    [| |discriminate].
  - (* a field *)
    eexists _, value, vm_f. split; [reflexivity|].
    cbn [GC.machine GC.set_machine]. split; [reflexivity|].
    split.
    + cbn zeta.
      assert (Hvm : set_stack (push value (snd (pop vm0))) (args ++ value :: rest)
                    = poke n value (GC.machine st)).
      { unfold poke, n. rewrite Nat2Z.id, Hstack, list_set_middle.
        destruct (GC.machine st); reflexivity. }
      rewrite Hvm. rewrite (Hpeek value); [exact Hinvoke|].
      unfold poke, n. simpl. rewrite Nat2Z.id, Hstack, list_set_middle.
      reflexivity.
    + unfold agree. repeat split; reflexivity.
  - (* a method *)
    unfold invoke_from_class in Hinvoke.
    destruct (deref (GC.machine st) klass) as [oc|] eqn:Ek; [|discriminate].
    destruct oc as [|class_name methods| | | | | |]; try discriminate.
    destruct (Tbl.table_get methods name) as [[method|]|] eqn:Em;
      try discriminate.
    destruct (AS_OBJ method) as [closure|] eqn:Ecl; [|discriminate].
    unfold GC.bind_method. cbn [GC.machine GC.set_machine].
    change (deref vm0 klass) with (deref (GC.machine st) klass).
    rewrite Ek, Em, Ecl.
    unfold GC.new_bound_method, GC.reallocate. cbn [andb].
    cbn [GC.bytes_allocated GC.next_gc GC.set_bytes_allocated GC.set_machine
         GC.machine].
    rewrite Z.sub_0_r.
    replace (_ >? GC.next_gc st) with false by lia.
    cbn [GC.machine GC.set_machine].
    change (peek 0 vm0) with (OBJ_VAL instance).
    set (bound := ObjBoundMethod (OBJ_VAL instance) closure).
    destruct (call_linked bound closure n (GC.machine st) flag vm_f Hfresh Hinvoke)
      as (vm_u & Hcall & Hagree).
    destruct (allocate_object bound vm0) as [b vmb] eqn:Ealloc.
    unfold allocate_object in Ealloc. injection Ealloc as <- <-.
    eexists _, (OBJ_VAL (next_addr vm0)), vm_u. split; [reflexivity|].
    cbn [GC.machine GC.set_machine]. split; [reflexivity|].
    split; [|exact Hagree].
    cbn zeta.
    match goal with |- call_value _ _ _ ?vm = _ => set (vm1 := vm) end.
    rewrite (Hpeek (OBJ_VAL (next_addr vm0)) vm1) by reflexivity.
    unfold call_value.
    assert (Hd : deref vm1 (next_addr vm0) = Some bound).
    { unfold deref. subst vm1. simpl. rewrite Z.eqb_refl. reflexivity. }
    rewrite Hd. subst bound. cbn iota beta.
    assert (Hvm : poke n (OBJ_VAL instance) vm1
                  = linked (ObjBoundMethod (OBJ_VAL instance) closure)
                      (GC.machine st)).
    { unfold poke, linked, allocate_object, n. subst vm1.
      rewrite Nat2Z.id. simpl. rewrite list_set_middle, <- Hstack.
      destruct (GC.machine st); reflexivity. }
    rewrite Hvm. exact Hcall.
Qed.

Lemma X23_invoke_fused_witness :
  exists st1 v vm_u,
    GC.op_get_property false X18_sizes [] X23_name
      (GC.set_machine X23_state
         (set_stack (GC.machine X23_state) (OBJ_VAL 6 :: [])))
    = GC.Continue st1
    /\ stack (GC.machine st1) = v :: []
    /\ (let vm1 := set_stack (GC.machine st1) ([NIL_VAL] ++ v :: []) in
        call_value (fun _ _ => NIL_VAL)
          (peek (Z.of_nat (List.length [NIL_VAL])) vm1)
          (Z.of_nat (List.length [NIL_VAL])) vm1 = Some (true, vm_u))
    /\ agree (next_addr (GC.machine X23_state)) vm_u X23_fused.
Proof.
  apply (X23_invoke_fused (fun _ _ => NIL_VAL) X18_sizes [] X23_state X23_name
           [NIL_VAL] (OBJ_VAL 6) [] true X23_fused).
  - reflexivity.
  - vm_compute. reflexivity.
  - vm_compute. reflexivity.
  - vm_compute. discriminate.
  - vm_compute. reflexivity.
Defined.

(** The two ways on the example: one frame for the closure at 3 with the
    slots from the receiver on, and the bound method at 7 the only
    difference. *)
Example invoke_example :
  let fused := invoke (fun _ _ => NIL_VAL) X23_name 1 (GC.machine X23_state) in
  let unfused :=
    match GC.op_get_property false X18_sizes [] X23_name
            (GC.set_machine X23_state
               (set_stack (GC.machine X23_state) [OBJ_VAL 6])) with
    | GC.Continue st1 =>
        let vm1 := push NIL_VAL (GC.machine st1) in
        call_value (fun _ _ => NIL_VAL) (peek 1 vm1) 1 vm1
    | _ => None
    end in
  let shown (r : option (bool * VM)) :=
    option_map
      (fun r => (fst r, frames (snd r), stack (snd r),
                 map fst (objects (snd r)))) r in
  shown fused
  = Some (true, [{| closure := 3; ip := 0; slots := 0 |}],
          [NIL_VAL; OBJ_VAL 6], [6; 5; 4; 3; 2; 1])
  /\ shown unfused
     = Some (true, [{| closure := 3; ip := 0; slots := 0 |}],
             [NIL_VAL; OBJ_VAL 6], [7; 6; 5; 4; 3; 2; 1]).
Proof. vm_compute. split; reflexivity. Qed.

(* ------------------------------------------------------------------ *)
(** * X24: resolve_upvalue *)

Lemma add_upvalue_entry c index is_local st :
  compiler_okb c = true ->
  let '(i, c', st') := Compiler.add_upvalue c index is_local st in
  st' = st
  /\ 0 <= i < 255
  /\ nth_error (Compiler.upvalues c') (Z.to_nat i)
     = Some {| Compiler.index := index; Compiler.is_local := is_local |}
  /\ Compiler.locals c' = Compiler.locals c.
Proof.
  unfold compiler_okb. rewrite !andb_true_iff.
  intros [[Hcount Hlt] _]. apply Z.eqb_eq in Hcount. apply Z.ltb_lt in Hlt.
  unfold Compiler.add_upvalue.
  pose proof (find_upvalue_spec index is_local (Compiler.upvalues c) 0) as Hf.
  destruct (Compiler.find_upvalue (Compiler.upvalues c) 0 index is_local)
    as [r|].
  - destruct Hf as [Hr Hn]. rewrite Z.sub_0_r in Hn.
    split; [reflexivity|]. split; [lia|]. split; [exact Hn|reflexivity].
  - replace (Compiler.upvalue_count (Compiler.function c) >=? UINT8_MAX)
      with false by (unfold UINT8_MAX; lia).
    split; [reflexivity|]. split; [lia|]. split; [|reflexivity].
    cbn [Compiler.upvalues]. rewrite Hcount, Nat2Z.id.
    rewrite nth_error_app2 by lia. rewrite Nat.sub_diag. reflexivity.
Qed.

Lemma resolve_local_spec c name st :
  (Forall (fun l => named name l = false) (Compiler.locals c)
   /\ Compiler.resolve_local c name st = (-1, st))
  \/ (exists before l after st',
        Compiler.locals c = before ++ l :: after
        /\ named name l = true
        /\ Forall (fun l => named name l = false) after
        /\ Compiler.resolve_local c name st
           = (Z.of_nat (List.length before), st')).
Proof.
  unfold Compiler.resolve_local.
  destruct (resolve_local_loop_spec name st (rev (Compiler.locals c)))
    as [[Hall Hr]|(pre & l & rest & Hrl & Hpre & Hl & Hr)].
  - left. split; [|exact Hr].
    apply Forall_rev in Hall. rewrite rev_involutive in Hall. exact Hall.
  - right. exists (rev rest), l, (rev pre). eexists.
    split.
    { rewrite <- (rev_involutive (Compiler.locals c)), Hrl.
      rewrite rev_app_distr. simpl. rewrite <- app_assoc. reflexivity. }
    split; [exact Hl|]. split; [apply Forall_rev; exact Hpre|].
    rewrite Hr, length_rev. reflexivity.
Qed.

Lemma capture_local_middle e before l after :
  Compiler.locals e = before ++ l :: after ->
  Compiler.locals (Compiler.capture_local e (Z.of_nat (List.length before)))
  = before
    ++ {| Compiler.name := Compiler.name l; Compiler.depth := Compiler.depth l;
          Compiler.is_captured := true |} :: after.
Proof.
  intros H. unfold Compiler.capture_local. rewrite Nat2Z.id, H.
  rewrite nth_error_app2 by lia. rewrite Nat.sub_diag. cbn [nth_error].
  cbn [Compiler.locals Compiler.set_locals]. rewrite <- H.
  rewrite H. apply list_set_middle.
Qed.

(** X24.  The variable an upvalue stands for.  [resolve_upvalue], on
    compilers whose arrays are not full, returns -1 and changes nothing
    when no enclosing function has a local of the name.  Else it returns
    the index of an upvalue of the function being compiled that stands
    for the innermost such variable: the last local of that name in the
    nearest enclosing function that has one, which is marked as captured,
    reached through one upvalue in every function in between.  The locals
    of the function being compiled are not touched. *)
Theorem X24_resolve_upvalue :
  forall name outer c st,
    forallb compiler_okb (c :: outer) = true ->
    let '(r, c', outer', st') := Compiler.resolve_upvalue c outer name st in
    Compiler.locals c' = Compiler.locals c
    /\ if r =? -1 then
         Forall
           (fun e => Forall (fun l => named name l = false) (Compiler.locals e))
           outer
         /\ c' = c /\ outer' = outer /\ st' = st
       else 0 <= r < 255 /\ refers name c' outer' r.
Proof.
  intros name. induction outer as [|e outer IH]; intros c st Hok.
  { simpl. split; [reflexivity|]. split; [constructor|]. repeat split. }
  cbn [forallb] in Hok. apply andb_true_iff in Hok. destruct Hok as [Hc Hout].
  pose proof Hout as Hout'. cbn [forallb] in Hout'.
  apply andb_true_iff in Hout'. destruct Hout' as [He _].
  cbn [Compiler.resolve_upvalue].
  destruct (resolve_local_spec e name st)
    as [[Hnone Hr]|(before & l & after & st1 & Hloc & Hl & Hafter & Hr)];
    rewrite Hr.
  - (* not a local of the function around *)
    cbn [negb Z.eqb].
    specialize (IH e st Hout).
    destruct (Compiler.resolve_upvalue e outer name st)
      as [[[upvalue e'] outer'] st'].
    destruct IH as [Hlocals IH].
    destruct (upvalue =? -1) eqn:Eu.
    + cbn [negb]. cbn [Z.eqb]. destruct IH as (Hall & -> & -> & ->).
      repeat split; auto.
    + cbn [negb]. destruct IH as [Hpos Href].
      pose proof (add_upvalue_entry c (upvalue mod 256) false st' Hc) as Ha.
      destruct (Compiler.add_upvalue c (upvalue mod 256) false st')
        as [[r c'] st''].
      destruct Ha as (_ & Hr0 & Hnth & Hlc).
      split; [exact Hlc|].
      replace (r =? -1) with false by lia.
      split; [exact Hr0|].
      cbn [refers]. rewrite Hnth. cbn [Compiler.is_local Compiler.index].
      rewrite Z.mod_small by lia. rewrite Hlocals. split; assumption.
  - (* a local of the function around *)
    assert (Hlen : Z.of_nat (List.length before) < 256).
    { unfold compiler_okb in He. rewrite !andb_true_iff in He.
      destruct He as [_ He]. apply Z.leb_le in He.
      rewrite Hloc, length_app in He. simpl in He. lia. }
    replace (negb (Z.of_nat (List.length before) =? -1)) with true by lia.
    pose proof (add_upvalue_entry c (Z.of_nat (List.length before) mod 256)
                  true st1 Hc) as Ha.
    destruct (Compiler.add_upvalue c (Z.of_nat (List.length before) mod 256)
                true st1) as [[r c'] st''].
    destruct Ha as (_ & Hr0 & Hnth & Hlc).
    split; [exact Hlc|].
    replace (r =? -1) with false by lia.
    split; [exact Hr0|].
    cbn [refers]. rewrite Hnth. cbn [Compiler.is_local Compiler.index].
    rewrite Z.mod_small by lia.
    eexists before, _, after. split; [apply capture_local_middle; exact Hloc|].
    split; [reflexivity|]. split; [exact Hl|]. split; [reflexivity|exact Hafter].
Qed.

Lemma X24_resolve_upvalue_witness :
  let '(r, c', outer', st') :=
    Compiler.resolve_upvalue
      (Compiler.initial_compiler Compiler.TYPE_FUNCTION None) X24_outer
      (Compiler.synthetic_token "a") X_state in
  Compiler.locals c'
  = Compiler.locals (Compiler.initial_compiler Compiler.TYPE_FUNCTION None)
  /\ if r =? -1 then
       Forall
         (fun e =>
            Forall (fun l => named (Compiler.synthetic_token "a") l = false)
              (Compiler.locals e))
         X24_outer
       /\ c' = Compiler.initial_compiler Compiler.TYPE_FUNCTION None
       /\ outer' = X24_outer /\ st' = X_state
     else 0 <= r < 255 /\ refers (Compiler.synthetic_token "a") c' outer' r.
Proof.
  apply (X24_resolve_upvalue (Compiler.synthetic_token "a") X24_outer
           (Compiler.initial_compiler Compiler.TYPE_FUNCTION None) X_state).
  vm_compute. reflexivity.
Defined.

(** The upvalues of the example: the innermost function reaches [a]
    through the upvalue 0 of the function around it, which is the local 1
    of the outermost function. *)
Example resolve_upvalue_example :
  let '(r, c', outer', _) :=
    Compiler.resolve_upvalue
      (Compiler.initial_compiler Compiler.TYPE_FUNCTION None) X24_outer
      (Compiler.synthetic_token "a") X_state in
  (r, Compiler.upvalues c', map Compiler.upvalues outer',
   map (fun e => map Compiler.is_captured (Compiler.locals e)) outer')
  = (0, [{| Compiler.index := 0; Compiler.is_local := false |}],
     [[{| Compiler.index := 1; Compiler.is_local := true |}]; []],
     [[false]; [false; true]]).
Proof. vm_compute. reflexivity. Qed.

(* ------------------------------------------------------------------ *)
(** * X25: end_scope *)

Lemma end_scope_loop_spec :
  forall inner fuel kept st,
    Compiler.locals (Compiler.compiler st) = kept ++ inner ->
    forallb
      (fun l => Compiler.depth l >? Compiler.scope_depth (Compiler.compiler st))
      inner = true ->
    ends_below (Compiler.scope_depth (Compiler.compiler st)) kept = true ->
    (List.length inner <= fuel)%nat ->
    let st' := Compiler.end_scope_loop fuel st in
    Compiler.locals (Compiler.compiler st') = kept
    /\ code (Compiler.current_chunk st')
       = code (Compiler.current_chunk st) ++ map scope_exit (rev inner)
    /\ Compiler.scope_depth (Compiler.compiler st')
       = Compiler.scope_depth (Compiler.compiler st)
    /\ Compiler.upvalues (Compiler.compiler st')
       = Compiler.upvalues (Compiler.compiler st)
    /\ constants (Compiler.current_chunk st')
       = constants (Compiler.current_chunk st)
    /\ Compiler.parser st' = Compiler.parser st
    /\ Compiler.diagnostics st' = Compiler.diagnostics st.
Proof.
  intros inner. induction inner as [|l inner IH] using rev_ind;
    intros fuel kept st Hloc Hin Hkept Hfuel.
  - rewrite app_nil_r in Hloc. cbn zeta. simpl. rewrite app_nil_r.
    assert (Hstop : Compiler.end_scope_loop fuel st = st).
    { destruct fuel as [|fuel]; [reflexivity|].
      cbn [Compiler.end_scope_loop]. rewrite Hloc.
      unfold ends_below in Hkept.
      destruct (rev kept) as [|k rest]; [reflexivity|].
      replace (Compiler.depth k >? Compiler.scope_depth (Compiler.compiler st))
        with false by lia.
      reflexivity. }
    rewrite Hstop. repeat split; assumption.
  - rewrite length_app in Hfuel. simpl in Hfuel.
    destruct fuel as [|fuel]; [lia|].
    rewrite forallb_app in Hin. apply andb_true_iff in Hin.
    destruct Hin as [Hin Hl]. cbn [forallb] in Hl.
    rewrite andb_true_r in Hl.
    cbn zeta. cbn [Compiler.end_scope_loop].
    rewrite Hloc, app_assoc, rev_app_distr. cbn [rev app].
    rewrite Hl.
    match goal with
    | |- context [Compiler.end_scope_loop fuel ?s] => set (st1 := s)
    end.
    assert (Hc1 : code (Compiler.current_chunk st1)
                  = code (Compiler.current_chunk st) ++ [scope_exit l]).
    { subst st1. unfold scope_exit.
      destruct (Compiler.is_captured l); reflexivity. }
    assert (Hd1 : Compiler.scope_depth (Compiler.compiler st1)
                  = Compiler.scope_depth (Compiler.compiler st)).
    { subst st1. destruct (Compiler.is_captured l); reflexivity. }
    assert (Hu1 : Compiler.upvalues (Compiler.compiler st1)
                  = Compiler.upvalues (Compiler.compiler st)).
    { subst st1. destruct (Compiler.is_captured l); reflexivity. }
    assert (Hk1 : constants (Compiler.current_chunk st1)
                  = constants (Compiler.current_chunk st)).
    { subst st1. destruct (Compiler.is_captured l); reflexivity. }
    assert (Hp1 : Compiler.parser st1 = Compiler.parser st).
    { subst st1. destruct (Compiler.is_captured l); reflexivity. }
    assert (Hg1 : Compiler.diagnostics st1 = Compiler.diagnostics st).
    { subst st1. destruct (Compiler.is_captured l); reflexivity. }
    assert (Hl1 : Compiler.locals (Compiler.compiler st1) = kept ++ inner).
    { subst st1. cbn [Compiler.locals Compiler.compiler Compiler.set_compiler
                      Compiler.set_locals].
      rewrite rev_involutive. reflexivity. }
    destruct (IH fuel kept st1 Hl1) as (H1 & H2 & H3 & H4 & H5 & H6 & H7).
    + rewrite Hd1. exact Hin.
    + rewrite Hd1. exact Hkept.
    + lia.
    + split; [exact H1|]. split.
      { rewrite H2, Hc1, rev_app_distr. cbn [rev app map].
        rewrite <- app_assoc. reflexivity. }
      split; [congruence|]. split; [congruence|]. split; [congruence|].
      split; congruence.
Qed.

(** X25.  [end_scope] takes away the locals of the scope that ends.  When
    the locals are those of the enclosing scopes, [kept], followed by the
    locals of the scope that ends, [inner] (each deeper than the scope
    around; the last of [kept] is not), [end_scope] decrements the
    depth, takes exactly the locals [inner] away and writes one
    instruction for each, the last declared first: [OP_CLOSE_UPVALUE] for
    a captured local and [OP_POP] for another.  Nothing is reported and
    the upvalues and constants stay. *)
Theorem X25_end_scope :
  forall st kept inner,
    Compiler.locals (Compiler.compiler st) = kept ++ inner ->
    forallb
      (fun l =>
         Compiler.depth l >? Compiler.scope_depth (Compiler.compiler st) - 1)
      inner = true ->
    ends_below (Compiler.scope_depth (Compiler.compiler st) - 1) kept = true ->
    let st' := Compiler.end_scope st in
    Compiler.locals (Compiler.compiler st') = kept
    /\ Compiler.scope_depth (Compiler.compiler st')
       = Compiler.scope_depth (Compiler.compiler st) - 1
    /\ code (Compiler.current_chunk st')
       = code (Compiler.current_chunk st) ++ map scope_exit (rev inner)
    /\ Compiler.upvalues (Compiler.compiler st')
       = Compiler.upvalues (Compiler.compiler st)
    /\ constants (Compiler.current_chunk st')
       = constants (Compiler.current_chunk st)
    /\ Compiler.parser st' = Compiler.parser st
    /\ Compiler.diagnostics st' = Compiler.diagnostics st.
Proof.
  intros st kept inner Hloc Hin Hkept st'. subst st'.
  unfold Compiler.end_scope.
  match goal with
  | |- context [Compiler.end_scope_loop ?n ?s] =>
      destruct (end_scope_loop_spec inner n kept s)
        as (H1 & H2 & H3 & H4 & H5 & H6 & H7)
  end.
  - exact Hloc.
  - exact Hin.
  - exact Hkept.
  - cbn [Compiler.locals Compiler.compiler Compiler.set_compiler].
    rewrite Hloc, length_app. lia.
  - split; [exact H1|]. split; [exact H3|]. split; [exact H2|].
    split; [exact H4|]. split; [exact H5|]. split; [exact H6|exact H7].
Qed.

Lemma X25_end_scope_witness :
  let st' := Compiler.end_scope X25_state in
  Compiler.locals (Compiler.compiler st')
  = firstn 2 (Compiler.locals (Compiler.compiler X25_state))
  /\ Compiler.scope_depth (Compiler.compiler st')
     = Compiler.scope_depth (Compiler.compiler X25_state) - 1
  /\ code (Compiler.current_chunk st')
     = code (Compiler.current_chunk X25_state)
       ++ map scope_exit
            (rev (skipn 2 (Compiler.locals (Compiler.compiler X25_state))))
  /\ Compiler.upvalues (Compiler.compiler st')
     = Compiler.upvalues (Compiler.compiler X25_state)
  /\ constants (Compiler.current_chunk st')
     = constants (Compiler.current_chunk X25_state)
  /\ Compiler.parser st' = Compiler.parser X25_state
  /\ Compiler.diagnostics st' = Compiler.diagnostics X25_state.
Proof.
  apply (X25_end_scope X25_state
           (firstn 2 (Compiler.locals (Compiler.compiler X25_state)))
           (skipn 2 (Compiler.locals (Compiler.compiler X25_state)))).
  - reflexivity.
  - vm_compute. reflexivity.
  - vm_compute. reflexivity.
Defined.

(** The block of the example ends with [OP_POP] for [c], then
    [OP_CLOSE_UPVALUE] for [b]. *)
Example end_scope_example :
  let st' := Compiler.end_scope X25_state in
  (code (Compiler.current_chunk st'),
   List.length (Compiler.locals (Compiler.compiler st')),
   Compiler.scope_depth (Compiler.compiler st'))
  = ([opcode OP_POP; opcode OP_CLOSE_UPVALUE], 2%nat, 1).
Proof. vm_compute. reflexivity. Qed.

